(** * A shallow embedding of the go-spreadsheet calculation engine

    The development follows the Go sources of [packages/spreadsheet]:
    the value model ([cell.go]), the builtin library ([builtin.go]), the
    comparison and operator semantics of the evaluator, the sparse cell
    store ([worksheet.go]), the intern tables, the dependency graph
    ([graph.go]) and the recalculation engine ([sheet.go]).

    Conventions.
    - [float64] is Rocq's primitive binary64 float; [uint32], [int32] and
      [int] are [N]/[Z] with the conversions written out where the code
      converts.
    - Go maps are [gmap]s, Go sets ([map[K]struct{}]) are [gset]s, and a
      zero-initialised slice of fixed length is a finite map read with the
      zero value as default; a [nil] slice is [None].
    - A Go result pair [(Primitive, error)] is the sum [Result].
    - Functions of Go's standard library that the sources call
      ([strconv.ParseFloat], [fmt.Sprint], [math.Pow], the clock and the
      random generator) are fields of the class [GoLib]; every theorem holds
      for all instances. *)

From Stdlib Require Import ZArith NArith Floats Lia Ascii String.
From stdpp Require Import gmap strings list pretty sorting.

#[local] Set Warnings "-register-all,-clear-no-such-hyp".

Local Open Scope Z_scope.

(** ** The value model (cell.go) *)

(** [ErrorCode] is a [uint8]; the named constants are those of cell.go. *)
Definition ErrorCode := N.
Definition ErrorCodeNull : ErrorCode := 1%N.
Definition ErrorCodeDiv0 : ErrorCode := 2%N.
Definition ErrorCodeValue : ErrorCode := 3%N.
Definition ErrorCodeRef : ErrorCode := 4%N.
Definition ErrorCodeName : ErrorCode := 5%N.
Definition ErrorCodeNum : ErrorCode := 6%N.
Definition ErrorCodeNA : ErrorCode := 7%N.
Definition ErrorCodeOther : ErrorCode := 8%N.

Definition ErrorMapper (code : ErrorCode) : string :=
  if decide (code = ErrorCodeNull) then "#NULL!"
  else if decide (code = ErrorCodeDiv0) then "#DIV/0!"
  else if decide (code = ErrorCodeValue) then "#VALUE!"
  else if decide (code = ErrorCodeRef) then "#REF!"
  else if decide (code = ErrorCodeName) then "#NAME?"
  else if decide (code = ErrorCodeNum) then "#NUM!"
  else if decide (code = ErrorCodeNA) then "#N/A"
  else if decide (code = ErrorCodeOther) then "#ERROR!"
  else "".

Record SpreadsheetError := mkSpreadsheetError {
  errCode : ErrorCode;
  errMessage : string
}.

Definition SpreadsheetError_Error (e : SpreadsheetError) : string :=
  if decide (errMessage e = "") then ErrorMapper (errCode e) else errMessage e.

Definition NewSpreadsheetError (code : ErrorCode) (message : string) : SpreadsheetError :=
  mkSpreadsheetError code (if decide (message = "") then ErrorMapper code else message).

(** [Primitive]: [float64], [string], [bool], [nil] or [*SpreadsheetError].
    (The API also accepts Go [int]s, which the store converts to [float64]
    on entry; values inside the engine are never [int].) *)
Inductive Primitive :=
| PNil
| PNumber (f : float)
| PString (s : string)
| PBool (b : bool)
| PError (e : SpreadsheetError).

Record CellAddress := mkCellAddress {
  caWorksheetID : N;
  caRow : N;
  caColumn : N
}.

Record RangeAddress := mkRangeAddress {
  raWorksheetID : N;
  raStartRow : N;
  raStartColumn : N;
  raEndRow : N;
  raEndColumn : N
}.

(** The [Range] interface as builtins use it: the bounds and the sequence
    that [IterateValues] yields (row-major, [nil] for empty cells).  The
    store does not change while one formula is evaluated, so the lazy
    iterator and the sequence it produces coincide. *)
Record Range := mkRange {
  GetBounds : RangeAddress;
  IterateValues : list Primitive
}.

(** A Go [any] as the evaluator passes it around: a primitive or a range. *)
Inductive Any :=
| APrim (p : Primitive)
| ARange (r : Range).

(** A returned pair [(value, error)]. *)
Inductive Result :=
| Ok (v : Any)
| Err (e : SpreadsheetError).

Definition OkNumber (f : float) : Result := Ok (APrim (PNumber f)).
Definition OkBool (b : bool) : Result := Ok (APrim (PBool b)).

(** ** Go's standard library, as far as the sources call it *)

Class GoLib := {
  (** [strconv.ParseFloat(s, 64)], [None] when it returns an error. *)
  strconv_ParseFloat : string -> option float;
  (** [fmt.Sprint] of a [float64]. *)
  fmt_Sprint_float64 : float -> string;
  (** [fmt.Sprint] of a [*CellRange]. *)
  fmt_Sprint_range : Range -> string;
  (** [strconv.ParseFloat(fmt.Sprintf("%.15f", x), 64)], as in [SUM]. *)
  round_15f : float -> float;
  (** [math.Pow]. *)
  math_Pow : float -> float -> float;
  (** [NumberNode.ToString]: [%d] of the [int64] conversion or [%g]. *)
  NumberNode_ToString : float -> string;
  (** The builtins that are not embedded below (logic other than [IF],
      text, math, [NOW], [TODAY], [RAND]) and the [default] branch of
      [Call].  The first argument counts the library calls made so far: it
      stands for the state of the injected clock and random generator. *)
  otherBuiltin : nat -> string -> list Any -> Result
}.

(** ** Coercions (builtin.go) *)

Definition float64_of_int (n : Z) : float := PrimFloat.of_uint63 (Uint63.of_Z n).

Definition checkForError (value : Any) : option SpreadsheetError :=
  match value with
  | APrim (PError err) => Some err
  | _ => None
  end.

Section Coercions.
Context `{GoLib}.

(** [toNumber]: [(v, true)] is [Some v], [(0, false)] is [None]. *)
Definition toNumber (value : Any) : option float :=
  match value with
  | APrim (PNumber v) => Some v
  | APrim (PBool v) => if v then Some 1%float else Some 0%float
  | APrim (PString v) => strconv_ParseFloat v
  | APrim PNil => Some 0%float
  | _ => None
  end.

Definition toString (value : Any) : string :=
  match value with
  | APrim PNil => ""
  | APrim (PNumber f) => fmt_Sprint_float64 f
  | APrim (PString s) => s
  | APrim (PBool b) => if b then "true" else "false"
  | APrim (PError e) => SpreadsheetError_Error e
  | ARange r => fmt_Sprint_range r
  end.

Definition isTruthy (value : Any) : bool :=
  match value with
  | APrim (PBool v) => v
  | APrim (PNumber v) => negb (PrimFloat.eqb v 0%float)
  | APrim (PString v) => negb (bool_decide (v = ""))
  | APrim PNil => false
  | _ => true
  end.

(** The test [num, ok := toNumber(v); ok && !math.IsNaN(num)]. *)
Definition numericOf (value : Any) : option float :=
  match toNumber value with
  | Some num => if PrimFloat.is_nan num then None else Some num
  | None => None
  end.
End Coercions.

(** ** Aggregation builtins (builtin.go)

    Every aggregation loop has the same shape: for each argument, return
    the argument if it is an error; iterate the values of a range, or
    treat the argument as one value.  An early [return nil, err] is the
    right injection of the loop's result. *)

Definition bindE {A B} (x : A + SpreadsheetError) (k : A -> B + SpreadsheetError)
  : B + SpreadsheetError :=
  match x with
  | inl a => k a
  | inr e => inr e
  end.

Notation "x <- e1 ;; e2" := (bindE e1 (fun x => e2))
  (at level 100, e1 at next level, right associativity).

Section Builtins.
Context `{GoLib}.
Local Open Scope float_scope.

(** *** SUM *)

Fixpoint SUM_values (values : list Primitive) (sum : float) : float + SpreadsheetError :=
  match values with
  | [] => inl sum
  | value :: rest =>
      match checkForError (APrim value) with
      | Some err => inr err
      | None =>
          match numericOf (APrim value) with
          | Some num => SUM_values rest (sum + num)
          | None => SUM_values rest sum
          end
      end
  end.

Fixpoint SUM_args (args : list Any) (sum : float) : float + SpreadsheetError :=
  match args with
  | [] => inl sum
  | arg :: rest =>
      match checkForError arg with
      | Some err => inr err
      | None =>
          match arg with
          | ARange r => sum' <- SUM_values (IterateValues r) sum ;; SUM_args rest sum'
          | _ =>
              match numericOf arg with
              | Some num => SUM_args rest (sum + num)
              | None => SUM_args rest sum
              end
          end
      end
  end.

Definition SUM (args : list Any) : Result :=
  match SUM_args args 0 with
  | inl sum => OkNumber (round_15f sum)
  | inr err => Err err
  end.

(** *** AVERAGE *)

Fixpoint AVERAGE_values (values : list Primitive) (acc : float * Z)
  : (float * Z) + SpreadsheetError :=
  match values with
  | [] => inl acc
  | value :: rest =>
      match checkForError (APrim value) with
      | Some err => inr err
      | None =>
          match value with
          | PNil => AVERAGE_values rest acc
          | _ =>
              match numericOf (APrim value) with
              | Some num => AVERAGE_values rest (acc.1 + num, (acc.2 + 1)%Z)
              | None => AVERAGE_values rest acc
              end
          end
      end
  end.

Fixpoint AVERAGE_args (args : list Any) (acc : float * Z)
  : (float * Z) + SpreadsheetError :=
  match args with
  | [] => inl acc
  | arg :: rest =>
      match checkForError arg with
      | Some err => inr err
      | None =>
          match arg with
          | ARange r => acc' <- AVERAGE_values (IterateValues r) acc ;; AVERAGE_args rest acc'
          | _ =>
              match numericOf arg with
              | Some num => AVERAGE_args rest (acc.1 + num, (acc.2 + 1)%Z)
              | None => AVERAGE_args rest acc
              end
          end
      end
  end.

Definition AVERAGE (args : list Any) : Result :=
  match AVERAGE_args args (0, 0%Z) with
  | inl (sum, count) =>
      if decide (count = 0%Z)
      then Err (NewSpreadsheetError ErrorCodeDiv0 "Division by zero")
      else OkNumber (sum / float64_of_int count)
  | inr err => Err err
  end.

(** *** AVERAGEA *)

(** The closure [processValue]; [sum] and [count] are its captured
    variables. *)
Definition AVERAGEA_processValue (value : Any) (acc : float * Z)
  : (float * Z) + SpreadsheetError :=
  match value with
  | APrim PNil => inl acc
  | _ =>
      match checkForError value with
      | Some err => inr err
      | None =>
          match value with
          | APrim (PNumber v) => inl (acc.1 + v, (acc.2 + 1)%Z)
          | APrim (PBool v) => inl (if v then acc.1 + 1 else acc.1, (acc.2 + 1)%Z)
          | APrim (PString _) => inl (acc.1, (acc.2 + 1)%Z)
          | _ => inl acc
          end
      end
  end.

Fixpoint AVERAGEA_values (values : list Primitive) (acc : float * Z)
  : (float * Z) + SpreadsheetError :=
  match values with
  | [] => inl acc
  | value :: rest =>
      acc' <- AVERAGEA_processValue (APrim value) acc ;; AVERAGEA_values rest acc'
  end.

Fixpoint AVERAGEA_args (args : list Any) (acc : float * Z)
  : (float * Z) + SpreadsheetError :=
  match args with
  | [] => inl acc
  | arg :: rest =>
      match checkForError arg with
      | Some err => inr err
      | None =>
          match arg with
          | ARange r => acc' <- AVERAGEA_values (IterateValues r) acc ;; AVERAGEA_args rest acc'
          | _ => acc' <- AVERAGEA_processValue arg acc ;; AVERAGEA_args rest acc'
          end
      end
  end.

Definition AVERAGEA (args : list Any) : Result :=
  match AVERAGEA_args args (0, 0%Z) with
  | inl (sum, count) =>
      if decide (count = 0%Z)
      then Err (NewSpreadsheetError ErrorCodeRef "AVERAGEA has no values")
      else OkNumber (sum / float64_of_int count)
  | inr err => Err err
  end.

(** *** COUNT and COUNTA *)

Definition COUNT_shouldCount (value : Any) : bool :=
  match value with
  | APrim (PNumber _) => true
  | _ => false
  end.

Fixpoint COUNT_values (values : list Primitive) (count : Z) : Z :=
  match values with
  | [] => count
  | value :: rest =>
      match value with
      | PError _ => COUNT_values rest count
      | _ =>
          if COUNT_shouldCount (APrim value)
          then COUNT_values rest (count + 1)%Z
          else COUNT_values rest count
      end
  end.

Fixpoint COUNT_args (args : list Any) (count : Z) : Z + SpreadsheetError :=
  match args with
  | [] => inl count
  | arg :: rest =>
      match checkForError arg with
      | Some err => inr err
      | None =>
          match arg with
          | ARange r => COUNT_args rest (COUNT_values (IterateValues r) count)
          | _ =>
              if COUNT_shouldCount arg
              then COUNT_args rest (count + 1)%Z
              else COUNT_args rest count
          end
      end
  end.

Definition COUNT (args : list Any) : Result :=
  match COUNT_args args 0%Z with
  | inl count => OkNumber (float64_of_int count)
  | inr err => Err err
  end.

Fixpoint COUNTA_values (values : list Primitive) (count : Z) : Z :=
  match values with
  | [] => count
  | value :: rest =>
      match value with
      | PNil => COUNTA_values rest count
      | _ => COUNTA_values rest (count + 1)%Z
      end
  end.

Fixpoint COUNTA_args (args : list Any) (count : Z) : Z + SpreadsheetError :=
  match args with
  | [] => inl count
  | arg :: rest =>
      match checkForError arg with
      | Some err => inr err
      | None =>
          match arg with
          | ARange r => COUNTA_args rest (COUNTA_values (IterateValues r) count)
          | _ => COUNTA_args rest (count + 1)%Z
          end
      end
  end.

Definition COUNTA (args : list Any) : Result :=
  match COUNTA_args args 0%Z with
  | inl count => OkNumber (float64_of_int count)
  | inr err => Err err
  end.

(** *** MAX and MIN; the accumulator is [(max, hasValues)] *)

Definition MAX_step (acc : float * bool) (num : float) : float * bool :=
  (if PrimFloat.ltb acc.1 num then num else acc.1, true).

Fixpoint MAX_values (values : list Primitive) (acc : float * bool)
  : (float * bool) + SpreadsheetError :=
  match values with
  | [] => inl acc
  | value :: rest =>
      match checkForError (APrim value) with
      | Some err => inr err
      | None =>
          match numericOf (APrim value) with
          | Some num => MAX_values rest (MAX_step acc num)
          | None => MAX_values rest acc
          end
      end
  end.

Fixpoint MAX_args (args : list Any) (acc : float * bool)
  : (float * bool) + SpreadsheetError :=
  match args with
  | [] => inl acc
  | arg :: rest =>
      match checkForError arg with
      | Some err => inr err
      | None =>
          match arg with
          | ARange r => acc' <- MAX_values (IterateValues r) acc ;; MAX_args rest acc'
          | _ =>
              match numericOf arg with
              | Some num => MAX_args rest (MAX_step acc num)
              | None => MAX_args rest acc
              end
          end
      end
  end.

Definition MAX (args : list Any) : Result :=
  match MAX_args args (neg_infinity, false) with
  | inl (max, hasValues) => if hasValues then OkNumber max else OkNumber 0
  | inr err => Err err
  end.

Definition MIN_step (acc : float * bool) (num : float) : float * bool :=
  (if PrimFloat.ltb num acc.1 then num else acc.1, true).

Fixpoint MIN_values (values : list Primitive) (acc : float * bool)
  : (float * bool) + SpreadsheetError :=
  match values with
  | [] => inl acc
  | value :: rest =>
      match checkForError (APrim value) with
      | Some err => inr err
      | None =>
          match numericOf (APrim value) with
          | Some num => MIN_values rest (MIN_step acc num)
          | None => MIN_values rest acc
          end
      end
  end.

Fixpoint MIN_args (args : list Any) (acc : float * bool)
  : (float * bool) + SpreadsheetError :=
  match args with
  | [] => inl acc
  | arg :: rest =>
      match checkForError arg with
      | Some err => inr err
      | None =>
          match arg with
          | ARange r => acc' <- MIN_values (IterateValues r) acc ;; MIN_args rest acc'
          | _ =>
              match numericOf arg with
              | Some num => MIN_args rest (MIN_step acc num)
              | None => MIN_args rest acc
              end
          end
      end
  end.

Definition MIN (args : list Any) : Result :=
  match MIN_args args (infinity, false) with
  | inl (min, hasValues) => if hasValues then OkNumber min else OkNumber 0
  | inr err => Err err
  end.
End Builtins.

Section MoreBuiltins.
Context `{GoLib}.
Local Open Scope float_scope.

(** The in-place exchange sort used by [MEDIAN] and [MODE]:
    [for i { for j := i+1; j < len; j++ { if v[j] < v[i] { swap } } }]. *)
Definition sortSwapStep (i : nat) (values : list float) (j : nat) : list float :=
  let vi := nth i values 0 in
  let vj := nth j values 0 in
  if PrimFloat.ltb vj vi then <[i:=vj]> (<[j:=vi]> values) else values.

Definition sortInner (values : list float) (i : nat) : list float :=
  fold_left (sortSwapStep i) (seq (S i) (length values - S i)) values.

Definition sortFloats (values : list float) : list float :=
  fold_left sortInner (seq 0 (length values)) values.

(** *** MEDIAN *)

Fixpoint MEDIAN_values (vals : list Primitive) (values : list float)
  : list float + SpreadsheetError :=
  match vals with
  | [] => inl values
  | value :: rest =>
      match checkForError (APrim value) with
      | Some err => inr err
      | None =>
          match numericOf (APrim value) with
          | Some num => MEDIAN_values rest (values ++ [num])
          | None => MEDIAN_values rest values
          end
      end
  end.

Fixpoint MEDIAN_args (args : list Any) (values : list float)
  : list float + SpreadsheetError :=
  match args with
  | [] => inl values
  | arg :: rest =>
      match checkForError arg with
      | Some err => inr err
      | None =>
          match arg with
          | ARange r => values' <- MEDIAN_values (IterateValues r) values ;; MEDIAN_args rest values'
          | _ =>
              match numericOf arg with
              | Some num => MEDIAN_args rest (values ++ [num])
              | None => MEDIAN_args rest values
              end
          end
      end
  end.

Definition MEDIAN (args : list Any) : Result :=
  match MEDIAN_args args [] with
  | inl values =>
      if decide (length values = 0%nat)
      then Err (NewSpreadsheetError ErrorCodeNum "MEDIAN has no numeric values")
      else
        let values := sortFloats values in
        let mid := (length values / 2)%nat in
        if decide ((length values mod 2)%nat = 0%nat)
        then OkNumber ((nth (mid - 1) values 0 + nth mid values 0) / 2)
        else OkNumber (nth mid values 0)
  | inr err => Err err
  end.

(** *** MODE

    [frequencyMap] is a [map[float64]int]: keys are compared with [==]
    (so [+0] and [-0] are one key, and an assignment to a present key
    stores the new key).  [NaN] never becomes a key.  The order in which
    Go ranges over the map is unspecified; the list below keeps insertion
    order, and [modes] is sorted before its head is returned. *)
Fixpoint frequencyMap_incr (m : list (float * Z)) (num : float) : list (float * Z) :=
  match m with
  | [] => [(num, 1%Z)]
  | (k, c) :: rest =>
      if PrimFloat.eqb k num then (num, (c + 1)%Z) :: rest
      else (k, c) :: frequencyMap_incr rest num
  end.

Fixpoint MODE_values (vals : list Primitive) (m : list (float * Z))
  : list (float * Z) + SpreadsheetError :=
  match vals with
  | [] => inl m
  | value :: rest =>
      match checkForError (APrim value) with
      | Some err => inr err
      | None =>
          match numericOf (APrim value) with
          | Some num => MODE_values rest (frequencyMap_incr m num)
          | None => MODE_values rest m
          end
      end
  end.

Fixpoint MODE_args (args : list Any) (m : list (float * Z))
  : list (float * Z) + SpreadsheetError :=
  match args with
  | [] => inl m
  | arg :: rest =>
      match checkForError arg with
      | Some err => inr err
      | None =>
          match arg with
          | ARange r => m' <- MODE_values (IterateValues r) m ;; MODE_args rest m'
          | _ =>
              match numericOf arg with
              | Some num => MODE_args rest (frequencyMap_incr m num)
              | None => MODE_args rest m
              end
          end
      end
  end.

Definition MODE (args : list Any) : Result :=
  match MODE_args args [] with
  | inl frequencyMap =>
      if decide (length frequencyMap = 0%nat)
      then Err (NewSpreadsheetError ErrorCodeNum "MODE has no numeric values")
      else
        let maxFreq :=
          fold_left (fun maxFreq kv => if (maxFreq <? kv.2)%Z then kv.2 else maxFreq)
                    frequencyMap 0%Z in
        let modes :=
          (List.filter (fun kv => bool_decide (kv.2 = maxFreq)) frequencyMap).*1 in
        if decide (maxFreq = 1%Z /\ length modes = length frequencyMap)
        then Err (NewSpreadsheetError ErrorCodeNA "MODE: no value appears more than once")
        else OkNumber (nth 0 (sortFloats modes) 0)
  | inr err => Err err
  end.

(** *** IF *)

Definition IF (args : list Any) : Result :=
  if decide ((length args < 2)%nat \/ (3 < length args)%nat)
  then Err (NewSpreadsheetError ErrorCodeNA "IF requires 2 or 3 arguments")
  else
    match args with
    | arg0 :: arg1 :: rest =>
        match checkForError arg0 with
        | Some err => Err err
        | None =>
            if isTruthy arg0 then Ok arg1
            else match rest with
                 | arg2 :: _ => Ok arg2
                 | [] => OkBool false
                 end
        end
    | _ => Err (NewSpreadsheetError ErrorCodeNA "IF requires 2 or 3 arguments")
    end.

(** *** Call

    [strings.ToUpper] on the ASCII letters; function names come from the
    lexer, whose identifiers are ASCII. *)
Definition ascii_ToUpper (c : ascii) : ascii :=
  let n := N_of_ascii c in
  if ((97 <=? n) && (n <=? 122))%N then ascii_of_N (n - 32) else c.

Fixpoint strings_ToUpper (s : string) : string :=
  match s with
  | EmptyString => EmptyString
  | String c rest => String (ascii_ToUpper c) (strings_ToUpper rest)
  end.

Definition Call (calls : nat) (name : string) (args : list Any) : Result :=
  let upper := strings_ToUpper name in
  if decide (upper = "SUM") then SUM args
  else if decide (upper = "AVERAGE") then AVERAGE args
  else if decide (upper = "AVERAGEA") then AVERAGEA args
  else if decide (upper = "COUNT") then COUNT args
  else if decide (upper = "COUNTA") then COUNTA args
  else if decide (upper = "MAX") then MAX args
  else if decide (upper = "MIN") then MIN args
  else if decide (upper = "MEDIAN") then MEDIAN args
  else if decide (upper = "MODE") then MODE args
  else if decide (upper = "IF") then IF args
  else otherBuiltin calls name args.

(** ** Operators of the evaluator *)

(** [comparePrimitives]: -1, 0, 1, (and -2, which no path returns). *)
Definition comparePrimitives (left right : Any) : Z :=
  match left, right with
  | APrim PNil, APrim PNil => 0%Z
  | APrim PNil, _ => (-1)%Z
  | _, APrim PNil => 1%Z
  | _, _ =>
      match toNumber left, toNumber right with
      | Some leftNum, Some rightNum =>
          if PrimFloat.ltb leftNum rightNum then (-1)%Z
          else if PrimFloat.ltb rightNum leftNum then 1%Z
          else 0%Z
      | _, _ =>
          match left, right with
          | APrim (PBool leftBool), APrim (PBool rightBool) =>
              if Bool.eqb leftBool rightBool then 0%Z
              else if negb leftBool && rightBool then (-1)%Z
              else 1%Z
          | _, _ =>
              let leftStr := toString left in
              let rightStr := toString right in
              if String.ltb leftStr rightStr then (-1)%Z
              else if String.ltb rightStr leftStr then 1%Z
              else 0%Z
          end
      end
  end.

Inductive BinaryOp :=
| BinOpAdd | BinOpSubtract | BinOpMultiply | BinOpDivide | BinOpModulo
| BinOpPower | BinOpConcat | BinOpEqual | BinOpNotEqual | BinOpLess
| BinOpLessEqual | BinOpGreater | BinOpGreaterEqual.

Inductive UnaryOp := UnaryOpPlus | UnaryOpMinus | UnaryOpPercent.

Definition numericOperands (leftVal rightVal : Any) (message : string)
  (k : float -> float -> Result) : Result :=
  match toNumber leftVal, toNumber rightVal with
  | Some leftNum, Some rightNum => k leftNum rightNum
  | _, _ => Err (NewSpreadsheetError ErrorCodeValue message)
  end.

Definition orderedCompare (leftVal rightVal : Any) (test : Z -> bool) : Result :=
  let cmp := comparePrimitives leftVal rightVal in
  if decide (cmp = (-2)%Z)
  then Err (NewSpreadsheetError ErrorCodeValue "Cannot compare these values")
  else OkBool (test cmp).

(** [BinaryOpNode.Eval] once both operands are evaluated (an evaluation
    error of an operand has already been turned into an error value). *)
Definition BinaryOp_apply (op : BinaryOp) (leftVal rightVal : Any) : Result :=
  match checkForError leftVal with
  | Some err => Ok (APrim (PError err))
  | None =>
  match checkForError rightVal with
  | Some err => Ok (APrim (PError err))
  | None =>
  match op with
  | BinOpAdd =>
      numericOperands leftVal rightVal "Addition requires numeric values"
        (fun l r => OkNumber (l + r))
  | BinOpSubtract =>
      numericOperands leftVal rightVal "Subtraction requires numeric values"
        (fun l r => OkNumber (l - r))
  | BinOpMultiply =>
      numericOperands leftVal rightVal "Multiplication requires numeric values"
        (fun l r => OkNumber (l * r))
  | BinOpDivide =>
      numericOperands leftVal rightVal "Division requires numeric values"
        (fun l r =>
           if PrimFloat.eqb r 0
           then Err (NewSpreadsheetError ErrorCodeDiv0 "Division by zero")
           else OkNumber (l / r))
  | BinOpPower =>
      numericOperands leftVal rightVal "Power requires numeric values"
        (fun l r => OkNumber (math_Pow l r))
  | BinOpConcat => Ok (APrim (PString (toString leftVal ++ toString rightVal)))
  | BinOpEqual => OkBool (bool_decide (comparePrimitives leftVal rightVal = 0%Z))
  | BinOpNotEqual => OkBool (negb (bool_decide (comparePrimitives leftVal rightVal = 0%Z)))
  | BinOpLess => orderedCompare leftVal rightVal (fun cmp => (cmp <? 0)%Z)
  | BinOpLessEqual => orderedCompare leftVal rightVal (fun cmp => (cmp <=? 0)%Z)
  | BinOpGreater => orderedCompare leftVal rightVal (fun cmp => (cmp >? 0)%Z)
  | BinOpGreaterEqual => orderedCompare leftVal rightVal (fun cmp => (cmp >=? 0)%Z)
  | BinOpModulo => Err (NewSpreadsheetError ErrorCodeValue "Unknown operator")
  end end end.

Definition UnaryOp_apply (op : UnaryOp) (val : Any) : Result :=
  match checkForError val with
  | Some err => Ok (APrim (PError err))
  | None =>
      match op with
      | UnaryOpPlus =>
          match toNumber val with
          | Some num => OkNumber num
          | None => Err (NewSpreadsheetError ErrorCodeValue "Unary plus requires a numeric value")
          end
      | UnaryOpMinus =>
          match toNumber val with
          | Some num => OkNumber (- num)
          | None => Err (NewSpreadsheetError ErrorCodeValue "Negation requires a numeric value")
          end
      | UnaryOpPercent =>
          match toNumber val with
          | Some num => OkNumber (num / 100)
          | None => Err (NewSpreadsheetError ErrorCodeValue "Percent requires a numeric value")
          end
      end
  end.
End MoreBuiltins.

(** ** Integer conversions *)

Definition uint32 (n : Z) : N := Z.to_N (n mod 2 ^ 32).
Definition int32 (n : Z) : Z := (n + 2 ^ 31) mod 2 ^ 32 - 2 ^ 31.
Definition int64 (n : Z) : Z := (n + 2 ^ 63) mod 2 ^ 64 - 2 ^ 63.
Definition uint32_succ (n : N) : N := ((n + 1) mod 2 ^ 32)%N.

(** Truncation of a finite [float64] toward zero (the integer part that a
    Go conversion to an integer type keeps). *)
Definition float64_trunc (f : float) : Z :=
  match Prim2SF f with
  | S754_finite s m e =>
      let v := if (0 <=? e)%Z then (Z.pos m * 2 ^ e)%Z else Z.shiftr (Z.pos m) (- e) in
      if s then (- v)%Z else v
  | _ => 0%Z
  end.

Definition uint8_of_float64 (f : float) : N := Z.to_N (float64_trunc f mod 2 ^ 8).

(** ** Addresses as map keys *)

Global Instance CellAddress_eq_dec : EqDecision CellAddress.
Proof. solve_decision. Defined.
Global Instance CellAddress_countable : Countable CellAddress.
Proof.
  apply (inj_countable' (fun a => (caWorksheetID a, caRow a, caColumn a))
                        (fun t => mkCellAddress t.1.1 t.1.2 t.2)).
  by intros [].
Defined.

Global Instance RangeAddress_eq_dec : EqDecision RangeAddress.
Proof. solve_decision. Defined.
Global Instance RangeAddress_countable : Countable RangeAddress.
Proof.
  apply (inj_countable'
           (fun r => (raWorksheetID r, raStartRow r, raStartColumn r, raEndRow r, raEndColumn r))
           (fun t => mkRangeAddress t.1.1.1.1 t.1.1.1.2 t.1.1.2 t.1.2 t.2)).
  by intros [].
Defined.

(** ** The expression tree *)

Inductive ASTNode :=
| StringNode (Value : string)
| NumberNode (Value : float)
| BooleanNode (Value : bool)
| CellRefNode (WorksheetID : N) (RowOffset ColOffset : Z)
| RangeNode (WorksheetID : N)
    (StartRowOffset StartColOffset EndRowOffset EndColOffset : Z)
| NamedRangeNode (Name : string)
| BinaryOpNode (Op : BinaryOp) (Left Right : ASTNode)
| UnaryOpNode (Op : UnaryOp) (Operand : ASTNode)
| FunctionCallNode (Name : string) (Args : list ASTNode).

Definition quoteChar : ascii := ascii_of_N 34.

(** [strings.ReplaceAll(s, quote, quote quote)]. *)
Fixpoint escapeQuotes (s : string) : string :=
  match s with
  | EmptyString => EmptyString
  | String c rest =>
      if decide (c = quoteChar)
      then String quoteChar (String quoteChar (escapeQuotes rest))
      else String c (escapeQuotes rest)
  end.

Definition BinaryOp_symbol (op : BinaryOp) : string :=
  match op with
  | BinOpAdd => "+" | BinOpSubtract => "-" | BinOpMultiply => "*"
  | BinOpDivide => "/" | BinOpModulo => "%" | BinOpPower => "^"
  | BinOpConcat => "&" | BinOpEqual => "=" | BinOpNotEqual => "<>"
  | BinOpLess => "<" | BinOpLessEqual => "<=" | BinOpGreater => ">"
  | BinOpGreaterEqual => ">="
  end.

Fixpoint strings_Join (parts : list string) (sep : string) : string :=
  match parts with
  | [] => ""
  | [p] => p
  | p :: rest => p ++ sep ++ strings_Join rest sep
  end.

Section ToString.
Context `{GoLib}.

Fixpoint ASTNode_ToString (n : ASTNode) : string :=
  match n with
  | StringNode v => String quoteChar (escapeQuotes v ++ String quoteChar "")
  | NumberNode v => NumberNode_ToString v
  | BooleanNode v => if v then "TRUE" else "FALSE"
  | CellRefNode ws r c =>
      if decide (ws = 0%N)
      then "REF(" ++ pretty r ++ "," ++ pretty c ++ ")"
      else "WS_REF(" ++ pretty ws ++ "," ++ pretty r ++ "," ++ pretty c ++ ")"
  | RangeNode ws sr sc er ec =>
      if decide (ws = 0%N)
      then "N_WS_RANGE(" ++ pretty sr ++ "," ++ pretty sc ++ "," ++ pretty er ++ ","
                         ++ pretty ec ++ ")"
      else "WS_RANGE(" ++ pretty ws ++ "," ++ pretty sr ++ "," ++ pretty sc ++ ","
                       ++ pretty er ++ "," ++ pretty ec ++ ")"
  | NamedRangeNode name => name
  | BinaryOpNode op l r =>
      "(" ++ ASTNode_ToString l ++ BinaryOp_symbol op ++ ASTNode_ToString r ++ ")"
  | UnaryOpNode op operand =>
      match op with
      | UnaryOpPlus => "+" ++ ASTNode_ToString operand
      | UnaryOpMinus => "-" ++ ASTNode_ToString operand
      | UnaryOpPercent => "(" ++ ASTNode_ToString operand ++ "%)"
      end
  | FunctionCallNode name args =>
      name ++ "(" ++ strings_Join (map ASTNode_ToString args) "," ++ ")"
  end.
End ToString.

(** ** Intern tables *)

Record StringTable := mkStringTable {
  stStrings : gmap string N;
  stReverseMap : gmap N string;
  stRefCounts : gmap N Z;
  stNextID : N
}.

Definition NewStringTable : StringTable := mkStringTable ∅ ∅ ∅ 1%N.

Definition StringTable_Intern (st : StringTable) (s : string) : StringTable * N :=
  match stStrings st !! s with
  | Some id =>
      (mkStringTable (stStrings st) (stReverseMap st)
         (<[id := (default 0%Z (stRefCounts st !! id) + 1)%Z]> (stRefCounts st))
         (stNextID st), id)
  | None =>
      let id := stNextID st in
      (mkStringTable (<[s := id]> (stStrings st)) (<[id := s]> (stReverseMap st))
         (<[id := 1%Z]> (stRefCounts st)) (uint32_succ id), id)
  end.

Definition StringTable_GetString (st : StringTable) (id : N) : option string :=
  stReverseMap st !! id.

Definition StringTable_RemoveReference (st : StringTable) (id : N) : StringTable :=
  match stReverseMap st !! id with
  | None => st
  | Some s =>
      let count := (default 0%Z (stRefCounts st !! id) - 1)%Z in
      if (count <=? 0)%Z
      then mkStringTable (delete s (stStrings st)) (delete id (stReverseMap st))
             (delete id (stRefCounts st)) (stNextID st)
      else mkStringTable (stStrings st) (stReverseMap st)
             (<[id := count]> (stRefCounts st)) (stNextID st)
  end.

(** The formula table.  Its worksheet and named-range indexes, which
    none of the functions embedded here reads, are left out. *)
Record FormulaTable := mkFormulaTable {
  astIndex : gmap string N;
  astCache : gmap N ASTNode;
  ftRefCounts : gmap N Z;
  cellsUsingFormula : gmap N (gset CellAddress);
  formulaAtCell : gmap CellAddress N;
  ftNextID : N
}.

Definition NewFormulaTable : FormulaTable := mkFormulaTable ∅ ∅ ∅ ∅ ∅ 1%N.

Definition dropCellFromFormula (cells : gmap N (gset CellAddress)) (formulaID : N)
  (cell : CellAddress) : gmap N (gset CellAddress) :=
  match cells !! formulaID with
  | Some cs =>
      let cs' := cs ∖ {[cell]} in
      if decide (size cs' = 0%nat) then delete formulaID cells
      else <[formulaID := cs']> cells
  | None => cells
  end.

Definition trackCellUsage (ft : FormulaTable) (formulaID : N) (cell : CellAddress)
  : FormulaTable :=
  let cells :=
    match formulaAtCell ft !! cell with
    | Some oldFormulaID =>
        if decide (oldFormulaID = formulaID) then cellsUsingFormula ft
        else dropCellFromFormula (cellsUsingFormula ft) oldFormulaID cell
    | None => cellsUsingFormula ft
    end in
  let cells := <[formulaID := default ∅ (cells !! formulaID) ∪ {[cell]}]> cells in
  mkFormulaTable (astIndex ft) (astCache ft) (ftRefCounts ft) cells
    (<[cell := formulaID]> (formulaAtCell ft)) (ftNextID ft).

Section FormulaTable.
Context `{GoLib}.

Definition normalizeAST (ast : ASTNode) : string := ASTNode_ToString ast.

Definition InternFormula (ft : FormulaTable) (ast : ASTNode) (cell : CellAddress)
  : FormulaTable * N :=
  let key := normalizeAST ast in
  match astIndex ft !! key with
  | Some id =>
      let ft := mkFormulaTable (astIndex ft) (astCache ft)
                  (<[id := (default 0%Z (ftRefCounts ft !! id) + 1)%Z]> (ftRefCounts ft))
                  (cellsUsingFormula ft) (formulaAtCell ft) (ftNextID ft) in
      (trackCellUsage ft id cell, id)
  | None =>
      let id := ftNextID ft in
      let ft := mkFormulaTable (<[key := id]> (astIndex ft)) (<[id := ast]> (astCache ft))
                  (<[id := 1%Z]> (ftRefCounts ft))
                  (cellsUsingFormula ft) (formulaAtCell ft) (ftNextID ft) in
      let ft := trackCellUsage ft id cell in
      (mkFormulaTable (astIndex ft) (astCache ft) (ftRefCounts ft) (cellsUsingFormula ft)
         (formulaAtCell ft) (uint32_succ id), id)
  end.

Definition GetAST (ft : FormulaTable) (id : N) : option ASTNode := astCache ft !! id.

Definition removeFormula (ft : FormulaTable) (formulaID : N) : FormulaTable :=
  let index :=
    match astCache ft !! formulaID with
    | Some ast => delete (normalizeAST ast) (astIndex ft)
    | None => astIndex ft
    end in
  mkFormulaTable index (delete formulaID (astCache ft)) (delete formulaID (ftRefCounts ft))
    (delete formulaID (cellsUsingFormula ft)) (formulaAtCell ft) (ftNextID ft).

Definition RemoveCellReference (ft : FormulaTable) (formulaID : N) (cell : CellAddress)
  : FormulaTable :=
  let ft := mkFormulaTable (astIndex ft) (astCache ft) (ftRefCounts ft)
              (dropCellFromFormula (cellsUsingFormula ft) formulaID cell)
              (delete cell (formulaAtCell ft)) (ftNextID ft) in
  let count := (default 0%Z (ftRefCounts ft !! formulaID) - 1)%Z in
  let ft := mkFormulaTable (astIndex ft) (astCache ft) (<[formulaID := count]> (ftRefCounts ft))
              (cellsUsingFormula ft) (formulaAtCell ft) (ftNextID ft) in
  if (count <=? 0)%Z then removeFormula ft formulaID else ft.
End FormulaTable.

(** ** The sparse cell store (worksheet.go) *)

Definition CellType := N.
Definition CellValueTypeEmpty : CellType := 0%N.
Definition CellValueTypeNumber : CellType := 1%N.
Definition CellValueTypeString : CellType := 2%N.
Definition CellValueTypeDate : CellType := 3%N.
Definition CellValueTypeBoolean : CellType := 4%N.
Definition CellValueTypeError : CellType := 5%N.

Record Cell := mkCell {
  cellType : CellType;
  cellRow : N;
  cellCol : N;
  cellValue : Primitive;
  cellStringID : N;
  cellFormula : string;
  cellFormulaID : N;
  cellFormulaResultType : CellType
}.

Record ChunkKey := mkChunkKey { ChunkRow : N; ChunkCol : N }.

Global Instance ChunkKey_eq_dec : EqDecision ChunkKey.
Proof. solve_decision. Defined.
Global Instance ChunkKey_countable : Countable ChunkKey.
Proof.
  apply (inj_countable' (fun k => (ChunkRow k, ChunkCol k))
                        (fun t => mkChunkKey t.1 t.2)).
  by intros [].
Defined.

Definition ChunkRows : N := 256%N.
Definition ChunkCols : N := 256%N.
Definition ChunkSize : N := (ChunkRows * ChunkCols)%N.

(** A slice of length [ChunkSize] made by [make]: every index below
    [ChunkSize] reads the zero value until it is written. *)
Abbreviation slice V := (gmap N V).

Definition sliceGet {V} (zero : V) (a : slice V) (idx : N) : V := default zero (a !! idx).

(** A lazily allocated slice: [None] is [nil]. *)
Definition lazyGet {V} (zero : V) (a : option (slice V)) (idx : N) : V :=
  match a with
  | Some a => sliceGet zero a idx
  | None => zero
  end.

(** [if a == nil { a = make(...) }; a[idx] = v]. *)
Definition lazySet {V} (a : option (slice V)) (idx : N) (v : V) : option (slice V) :=
  Some (<[idx := v]> (default ∅ a)).

Record Chunk := mkChunk {
  Types : slice N;
  NonEmptyCount : Z;
  OccupiedBitmap : slice Z;
  Numbers : option (slice float);
  StringIDs : option (slice N);
  FormulaIDs : option (slice N);
  FormulaResultTypes : option (slice N);
  FormulaResultNumbers : option (slice float);
  FormulaResultStringIDs : option (slice N);
  FormulaResultBooleans : option (slice N)
}.

Definition newChunk : Chunk := mkChunk ∅ 0 ∅ None None None None None None None.

Definition chunk_setTypes (c : Chunk) (v : slice N) : Chunk :=
  mkChunk v (NonEmptyCount c) (OccupiedBitmap c) (Numbers c) (StringIDs c) (FormulaIDs c)
    (FormulaResultTypes c) (FormulaResultNumbers c) (FormulaResultStringIDs c)
    (FormulaResultBooleans c).
Definition chunk_setNonEmptyCount (c : Chunk) (v : Z) : Chunk :=
  mkChunk (Types c) v (OccupiedBitmap c) (Numbers c) (StringIDs c) (FormulaIDs c)
    (FormulaResultTypes c) (FormulaResultNumbers c) (FormulaResultStringIDs c)
    (FormulaResultBooleans c).
Definition chunk_setOccupiedBitmap (c : Chunk) (v : slice Z) : Chunk :=
  mkChunk (Types c) (NonEmptyCount c) v (Numbers c) (StringIDs c) (FormulaIDs c)
    (FormulaResultTypes c) (FormulaResultNumbers c) (FormulaResultStringIDs c)
    (FormulaResultBooleans c).
Definition chunk_setNumbers (c : Chunk) (v : option (slice float)) : Chunk :=
  mkChunk (Types c) (NonEmptyCount c) (OccupiedBitmap c) v (StringIDs c) (FormulaIDs c)
    (FormulaResultTypes c) (FormulaResultNumbers c) (FormulaResultStringIDs c)
    (FormulaResultBooleans c).
Definition chunk_setStringIDs (c : Chunk) (v : option (slice N)) : Chunk :=
  mkChunk (Types c) (NonEmptyCount c) (OccupiedBitmap c) (Numbers c) v (FormulaIDs c)
    (FormulaResultTypes c) (FormulaResultNumbers c) (FormulaResultStringIDs c)
    (FormulaResultBooleans c).
Definition chunk_setFormulaIDs (c : Chunk) (v : option (slice N)) : Chunk :=
  mkChunk (Types c) (NonEmptyCount c) (OccupiedBitmap c) (Numbers c) (StringIDs c) v
    (FormulaResultTypes c) (FormulaResultNumbers c) (FormulaResultStringIDs c)
    (FormulaResultBooleans c).
Definition chunk_setFormulaResultTypes (c : Chunk) (v : option (slice N)) : Chunk :=
  mkChunk (Types c) (NonEmptyCount c) (OccupiedBitmap c) (Numbers c) (StringIDs c)
    (FormulaIDs c) v (FormulaResultNumbers c) (FormulaResultStringIDs c)
    (FormulaResultBooleans c).
Definition chunk_setFormulaResultNumbers (c : Chunk) (v : option (slice float)) : Chunk :=
  mkChunk (Types c) (NonEmptyCount c) (OccupiedBitmap c) (Numbers c) (StringIDs c)
    (FormulaIDs c) (FormulaResultTypes c) v (FormulaResultStringIDs c)
    (FormulaResultBooleans c).
Definition chunk_setFormulaResultStringIDs (c : Chunk) (v : option (slice N)) : Chunk :=
  mkChunk (Types c) (NonEmptyCount c) (OccupiedBitmap c) (Numbers c) (StringIDs c)
    (FormulaIDs c) (FormulaResultTypes c) (FormulaResultNumbers c) v
    (FormulaResultBooleans c).
Definition chunk_setFormulaResultBooleans (c : Chunk) (v : option (slice N)) : Chunk :=
  mkChunk (Types c) (NonEmptyCount c) (OccupiedBitmap c) (Numbers c) (StringIDs c)
    (FormulaIDs c) (FormulaResultTypes c) (FormulaResultNumbers c)
    (FormulaResultStringIDs c) v.

Record Worksheet := mkWorksheet {
  chunks : gmap ChunkKey Chunk;
  totalCells : Z;
  cellsByType : slice N;
  worksheetID : N
}.

Definition NewWorksheet (worksheetID : N) : Worksheet := mkWorksheet ∅ 0 ∅ worksheetID.

Definition chunkKeyOf (row col : N) : ChunkKey :=
  mkChunkKey (row / ChunkRows)%N (col / ChunkCols)%N.

(** [idx := localCol*ChunkRows + localRow] (column-major). *)
Definition chunkIndexOf (row col : N) : N :=
  ((col mod ChunkCols) * ChunkRows + row mod ChunkRows)%N.

(** [getChunk]: the chunk at the key, created and registered when absent. *)
Definition getChunk (w : Worksheet) (key : ChunkKey) : Worksheet * Chunk :=
  match chunks w !! key with
  | Some chunk => (w, chunk)
  | None =>
      (mkWorksheet (<[key := newChunk]> (chunks w)) (totalCells w) (cellsByType w)
         (worksheetID w), newChunk)
  end.

(** Writing back through the chunk pointer. *)
Definition putChunk (w : Worksheet) (key : ChunkKey) (chunk : Chunk) : Worksheet :=
  mkWorksheet (<[key := chunk]> (chunks w)) (totalCells w) (cellsByType w) (worksheetID w).

Definition hasFormulaAt (chunk : Chunk) (idx : N) : bool :=
  match FormulaIDs chunk with
  | Some ids => (idx <? ChunkSize)%N && negb (sliceGet 0%N ids idx =? 0)%N
  | None => false
  end.

Definition errorOf (numbers : option (slice float)) (stringIDs : option (slice N))
  (st : StringTable) (idx : N) : SpreadsheetError * N :=
  let errorCode :=
    match numbers with
    | Some ns => uint8_of_float64 (sliceGet 0%float ns idx)
    | None => 0%N
    end in
  match stringIDs with
  | Some ids =>
      let stringID := sliceGet 0%N ids idx in
      (mkSpreadsheetError errorCode (default "" (StringTable_GetString st stringID)), stringID)
  | None => (mkSpreadsheetError errorCode "", 0%N)
  end.

Section Worksheet.
Context `{GoLib}.

(** [GetCell]; [None] is the [nil] cell. *)
Definition GetCell (w : Worksheet) (st : StringTable) (ft : FormulaTable) (row col : N)
  : option Cell :=
  let key := chunkKeyOf row col in
  match chunks w !! key with
  | None => None
  | Some chunk =>
      let idx := chunkIndexOf row col in
      let hasFormula := hasFormulaAt chunk idx in
      let type := sliceGet 0%N (Types chunk) idx in
      if bool_decide (type = CellValueTypeEmpty) && negb hasFormula then None
      else
        (* retrieve value based on type *)
        let '(value, stringID) :=
          if decide (type = CellValueTypeNumber \/ type = CellValueTypeDate) then
            (match Numbers chunk with
             | Some ns => PNumber (sliceGet 0%float ns idx)
             | None => PNil
             end, 0%N)
          else if decide (type = CellValueTypeString) then
            match StringIDs chunk with
            | Some ids =>
                let id := sliceGet 0%N ids idx in
                (match StringTable_GetString st id with
                 | Some str => PString str
                 | None => PNil
                 end, id)
            | None => (PNil, 0%N)
            end
          else if decide (type = CellValueTypeBoolean) then
            (match Numbers chunk with
             | Some ns => PBool (negb (PrimFloat.eqb (sliceGet 0%float ns idx) 0%float))
             | None => PNil
             end, 0%N)
          else if decide (type = CellValueTypeError) then
            let '(e, id) := errorOf (Numbers chunk) (StringIDs chunk) st idx in
            (PError e, id)
          else (PNil, 0%N) in
        if hasFormula then
          let formulaID := lazyGet 0%N (FormulaIDs chunk) idx in
          let formula :=
            match GetAST ft formulaID with
            | Some ast => ASTNode_ToString ast
            | None => ""
            end in
          match FormulaResultTypes chunk with
          | Some rts =>
              let rtype := sliceGet 0%N rts idx in
              let value :=
                if decide (rtype = CellValueTypeNumber \/ rtype = CellValueTypeDate) then
                  match FormulaResultNumbers chunk with
                  | Some ns => PNumber (sliceGet 0%float ns idx)
                  | None => value
                  end
                else if decide (rtype = CellValueTypeString) then
                  match FormulaResultStringIDs chunk with
                  | Some ids =>
                      match StringTable_GetString st (sliceGet 0%N ids idx) with
                      | Some str => PString str
                      | None => value
                      end
                  | None => value
                  end
                else if decide (rtype = CellValueTypeBoolean) then
                  match FormulaResultBooleans chunk with
                  | Some bs => PBool (negb (sliceGet 0%N bs idx =? 0)%N)
                  | None => value
                  end
                else if decide (rtype = CellValueTypeError) then
                  PError (errorOf (FormulaResultNumbers chunk)
                                  (FormulaResultStringIDs chunk) st idx).1
                else value in
              Some (mkCell type row col value stringID formula formulaID rtype)
          | None =>
              Some (mkCell type row col value stringID formula formulaID 0%N)
          end
        else Some (mkCell type row col value stringID "" 0%N 0%N)
  end.

(** The [clear any existing formula] block shared by [SetCell] and
    [RemoveCell]. *)
Definition clearFormulaAt (w : Worksheet) (chunk : Chunk) (ft : FormulaTable)
  (row col idx : N) : Chunk * FormulaTable :=
  match FormulaIDs chunk with
  | Some ids =>
      let oldFormulaID := sliceGet 0%N ids idx in
      if decide (oldFormulaID = 0%N) then (chunk, ft)
      else
        let cellAddr := mkCellAddress (worksheetID w) row col in
        (chunk_setFormulaIDs chunk (Some (<[idx := 0%N]> ids)),
         RemoveCellReference ft oldFormulaID cellAddr)
  | None => (chunk, ft)
  end.

(** The cell-type statistics update of [SetCell]. *)
Definition updateCellsByType (stats : slice N) (oldType newType : CellType) : slice N :=
  if decide (oldType = newType) then stats
  else
    let stats :=
      if (oldType <? 8)%N && (0 <? sliceGet 0%N stats oldType)%N
      then <[oldType := (sliceGet 0%N stats oldType - 1)%N]> stats
      else stats in
    if (newType <? 8)%N
    then <[newType := uint32_succ (sliceGet 0%N stats newType)]> stats
    else stats.

Definition setOccupied (bitmap : slice Z) (idx : N) (occupied : bool) : slice Z :=
  let bitIdx := (idx / 64)%N in
  let bitPos := (idx mod 64)%N in
  let bit := int64 (Z.shiftl 1 (Z.of_N bitPos)) in
  let word := sliceGet 0%Z bitmap bitIdx in
  <[bitIdx := if occupied then Z.lor word bit else Z.ldiff word bit]> bitmap.

(** [SetCell].  The worksheet is returned with the chunk written back;
    the string and formula tables are the worksheet's [storage]. *)
Definition SetCell (w : Worksheet) (st : StringTable) (ft : FormulaTable)
  (row col : N) (value : Primitive) (formula : string)
  : Worksheet * StringTable * FormulaTable :=
  let key := chunkKeyOf row col in
  let '(w, chunk) := getChunk w key in
  let idx := chunkIndexOf row col in
  let oldType := sliceGet 0%N (Types chunk) idx in
  let wasEmpty := bool_decide (oldType = CellValueTypeEmpty) in
  let '(chunk, ft) := clearFormulaAt w chunk ft row col idx in
  let incr (cw : Chunk * Z) : Chunk * Z :=
    if wasEmpty
    then (chunk_setNonEmptyCount cw.1 (NonEmptyCount cw.1 + 1), cw.2 + 1)
    else cw in
  let decr (cw : Chunk * Z) : Chunk * Z :=
    if wasEmpty then cw
    else (chunk_setNonEmptyCount cw.1 (NonEmptyCount cw.1 - 1), cw.2 - 1) in
  let setType (c : Chunk) (t : CellType) := chunk_setTypes c (<[idx := t]> (Types c)) in
  let '(chunk, total, st) :=
    match value, bool_decide (formula = "") with
    | PNil, true =>
        let '(c, t) := decr (setType chunk CellValueTypeEmpty, totalCells w) in (c, t, st)
    | _, false =>
        let '(c, t) := incr (chunk, totalCells w) in (c, t, st)
    | PNumber num, true =>
        let '(c, t) := incr (chunk, totalCells w) in
        let c := setType c CellValueTypeNumber in
        (chunk_setNumbers c (lazySet (Numbers c) idx num), t, st)
    | PString v, true =>
        let '(c, t) := incr (chunk, totalCells w) in
        let c := setType c CellValueTypeString in
        let '(st, stringID) := StringTable_Intern st v in
        (chunk_setStringIDs c (lazySet (StringIDs c) idx stringID), t, st)
    | PBool v, true =>
        let '(c, t) := incr (chunk, totalCells w) in
        let c := setType c CellValueTypeBoolean in
        (chunk_setNumbers c (lazySet (Numbers c) idx (if v then 1%float else 0%float)), t, st)
    | PError v, true =>
        let '(c, t) := incr (chunk, totalCells w) in
        let c := setType c CellValueTypeError in
        let c := chunk_setStringIDs c (Some (default ∅ (StringIDs c))) in
        let c := chunk_setNumbers c
                   (lazySet (Numbers c) idx (float64_of_int (Z.of_N (errCode v)))) in
        let '(st, stringID) := StringTable_Intern st (errMessage v) in
        (chunk_setStringIDs c (lazySet (StringIDs c) idx stringID), t, st)
    end in
  let newType := sliceGet 0%N (Types chunk) idx in
  let stats := updateCellsByType (cellsByType w) oldType newType in
  let chunk :=
    chunk_setOccupiedBitmap chunk
      (setOccupied (OccupiedBitmap chunk) idx
         (negb (bool_decide (newType = CellValueTypeEmpty)))) in
  (mkWorksheet (<[key := chunk]> (chunks w)) total stats (worksheetID w), st, ft).

(** [RemoveCell]. *)
Definition RemoveCell (w : Worksheet) (st : StringTable) (ft : FormulaTable) (row col : N)
  : Worksheet * StringTable * FormulaTable :=
  let key := chunkKeyOf row col in
  match chunks w !! key with
  | None => (w, st, ft)
  | Some chunk =>
      let idx := chunkIndexOf row col in
      let cellType := sliceGet 0%N (Types chunk) idx in
      if decide (cellType = CellValueTypeEmpty) then (w, st, ft)
      else
        let '(chunk, ft) := clearFormulaAt w chunk ft row col idx in
        let '(chunk, st) :=
          if decide (cellType = CellValueTypeString \/ cellType = CellValueTypeError) then
            match StringIDs chunk with
            | Some ids =>
                let stringID := sliceGet 0%N ids idx in
                if decide (stringID = 0%N) then (chunk, st)
                else (chunk_setStringIDs chunk (Some (<[idx := 0%N]> ids)),
                      StringTable_RemoveReference st stringID)
            | None => (chunk, st)
            end
          else (chunk, st) in
        let chunk := chunk_setTypes chunk (<[idx := CellValueTypeEmpty]> (Types chunk)) in
        let chunk := chunk_setNonEmptyCount chunk (NonEmptyCount chunk - 1) in
        let stats :=
          if (cellType <? 8)%N && (0 <? sliceGet 0%N (cellsByType w) cellType)%N
          then <[cellType := (sliceGet 0%N (cellsByType w) cellType - 1)%N]> (cellsByType w)
          else cellsByType w in
        let chunk :=
          chunk_setOccupiedBitmap chunk (setOccupied (OccupiedBitmap chunk) idx false) in
        let chunkMap :=
          if decide (NonEmptyCount chunk = 0)
          then delete key (chunks w)
          else <[key := chunk]> (chunks w) in
        (mkWorksheet chunkMap (totalCells w - 1) stats (worksheetID w), st, ft)
  end.

(** [SetFormulaResult]. *)
Definition SetFormulaResult (w : Worksheet) (st : StringTable) (row col : N) (result : Any)
  : Worksheet * StringTable :=
  let key := chunkKeyOf row col in
  match chunks w !! key with
  | None => (w, st)
  | Some chunk =>
      let idx := chunkIndexOf row col in
      let chunk :=
        chunk_setFormulaResultTypes chunk (Some (default ∅ (FormulaResultTypes chunk))) in
      let setType (c : Chunk) (t : CellType) :=
        chunk_setFormulaResultTypes c (lazySet (FormulaResultTypes c) idx t) in
      let '(chunk, st) :=
        match result with
        | APrim (PNumber num) =>
            let c := setType chunk CellValueTypeNumber in
            (chunk_setFormulaResultNumbers c (lazySet (FormulaResultNumbers c) idx num), st)
        | APrim (PString v) =>
            let c := setType chunk CellValueTypeString in
            let '(st, stringID) := StringTable_Intern st v in
            (chunk_setFormulaResultStringIDs c
               (lazySet (FormulaResultStringIDs c) idx stringID), st)
        | APrim (PBool v) =>
            let c := setType chunk CellValueTypeBoolean in
            (chunk_setFormulaResultBooleans c
               (lazySet (FormulaResultBooleans c) idx (if v then 1%N else 0%N)), st)
        | APrim (PError v) =>
            let c := setType chunk CellValueTypeError in
            let c := chunk_setFormulaResultStringIDs c
                       (Some (default ∅ (FormulaResultStringIDs c))) in
            let c := chunk_setFormulaResultNumbers c
                       (lazySet (FormulaResultNumbers c) idx
                          (float64_of_int (Z.of_N (errCode v)))) in
            let '(st, stringID) := StringTable_Intern st (errMessage v) in
            (chunk_setFormulaResultStringIDs c
               (lazySet (FormulaResultStringIDs c) idx stringID), st)
        | APrim PNil => (setType chunk CellValueTypeEmpty, st)
        | ARange _ => (chunk, st)
        end in
      (putChunk w key chunk, st)
  end.
End Worksheet.

(** ** Worksheet and named-range tables *)

Record WorksheetTable := mkWorksheetTable {
  wtNameToID : gmap string N;
  wtIdToName : gmap N string;
  definedWorksheets : gmap N Worksheet;
  wtUndefinedIDs : gset N;
  wtRefCounts : gmap N Z;
  wtNextID : N
}.

Definition NewWorksheetTable : WorksheetTable := mkWorksheetTable ∅ ∅ ∅ ∅ ∅ 1%N.

Definition WorksheetTable_Contains (wt : WorksheetTable) (name : string) : bool :=
  bool_decide (is_Some (wtNameToID wt !! name)).

Definition GetWorksheet (wt : WorksheetTable) (id : N) : option Worksheet :=
  definedWorksheets wt !! id.

Definition setWorksheetID (w : Worksheet) (id : N) : Worksheet :=
  mkWorksheet (chunks w) (totalCells w) (cellsByType w) id.

Definition DefineWorksheet (wt : WorksheetTable) (name : string) (worksheet : Worksheet)
  : WorksheetTable * N :=
  match wtNameToID wt !! name with
  | Some id =>
      (mkWorksheetTable (wtNameToID wt) (wtIdToName wt)
         (<[id := setWorksheetID worksheet id]> (definedWorksheets wt))
         (wtUndefinedIDs wt ∖ {[id]})
         (<[id := (default 0%Z (wtRefCounts wt !! id) + 1)%Z]> (wtRefCounts wt))
         (wtNextID wt), id)
  | None =>
      let id := wtNextID wt in
      (mkWorksheetTable (<[name := id]> (wtNameToID wt)) (<[id := name]> (wtIdToName wt))
         (<[id := setWorksheetID worksheet id]> (definedWorksheets wt))
         (wtUndefinedIDs wt)
         (<[id := 1%Z]> (wtRefCounts wt))
         (uint32_succ id), id)
  end.

(** Writing through a [*Worksheet] held by the table. *)
Definition putWorksheet (wt : WorksheetTable) (id : N) (w : Worksheet) : WorksheetTable :=
  mkWorksheetTable (wtNameToID wt) (wtIdToName wt) (<[id := w]> (definedWorksheets wt))
    (wtUndefinedIDs wt) (wtRefCounts wt) (wtNextID wt).

Record NamedRangeTable := mkNamedRangeTable {
  nrNameToID : gmap string N;
  nrIdToName : gmap N string;
  definedRanges : gmap N RangeAddress;
  nrUndefinedIDs : gset N;
  nrRefCounts : gmap N Z;
  nrNextID : N
}.

Definition NewNamedRangeTable : NamedRangeTable := mkNamedRangeTable ∅ ∅ ∅ ∅ ∅ 1%N.

Definition InternNamedRange (nrt : NamedRangeTable) (name : string) : NamedRangeTable * N :=
  match nrNameToID nrt !! name with
  | Some id =>
      (mkNamedRangeTable (nrNameToID nrt) (nrIdToName nrt) (definedRanges nrt)
         (nrUndefinedIDs nrt)
         (<[id := (default 0%Z (nrRefCounts nrt !! id) + 1)%Z]> (nrRefCounts nrt))
         (nrNextID nrt), id)
  | None =>
      let id := nrNextID nrt in
      (mkNamedRangeTable (<[name := id]> (nrNameToID nrt)) (<[id := name]> (nrIdToName nrt))
         (definedRanges nrt) ({[id]} ∪ nrUndefinedIDs nrt)
         (<[id := 1%Z]> (nrRefCounts nrt)) (uint32_succ id), id)
  end.

(** ** The dependency graph (graph.go)

    A node's [CellPrecedents] and [CellDependents] map addresses to node
    pointers; the pointer stored under an address is the node the graph
    holds at that address, so the maps are kept as sets of addresses.  The
    node fields [Value] and the copy of the address are not read by any
    function below and are left out. *)

Record DependencyNode := mkDependencyNode {
  CellPrecedents : gset CellAddress;
  CellDependents : gset CellAddress;
  RangePrecedents : gset RangeAddress;
  nodeFormula : string;
  IsDirty : bool
}.

Record DependencyGraph := mkDependencyGraph {
  nodes : gmap CellAddress DependencyNode;
  rangeObservers : gmap RangeAddress (gset CellAddress);
  dirtySet : gset CellAddress;
  volatileCells : gset CellAddress
}.

Definition NewDependencyGraph : DependencyGraph := mkDependencyGraph ∅ ∅ ∅ ∅.

Definition emptyNode : DependencyNode := mkDependencyNode ∅ ∅ ∅ "" false.

Definition dg_setNodes (dg : DependencyGraph) (ns : gmap CellAddress DependencyNode)
  : DependencyGraph :=
  mkDependencyGraph ns (rangeObservers dg) (dirtySet dg) (volatileCells dg).
Definition dg_setRangeObservers (dg : DependencyGraph)
  (ro : gmap RangeAddress (gset CellAddress)) : DependencyGraph :=
  mkDependencyGraph (nodes dg) ro (dirtySet dg) (volatileCells dg).
Definition dg_setDirtySet (dg : DependencyGraph) (d : gset CellAddress) : DependencyGraph :=
  mkDependencyGraph (nodes dg) (rangeObservers dg) d (volatileCells dg).
Definition dg_setVolatileCells (dg : DependencyGraph) (v : gset CellAddress)
  : DependencyGraph :=
  mkDependencyGraph (nodes dg) (rangeObservers dg) (dirtySet dg) v.

(** In-place update of the node at [addr], when there is one. *)
Definition updateNode (dg : DependencyGraph) (addr : CellAddress)
  (f : DependencyNode -> DependencyNode) : DependencyGraph :=
  match nodes dg !! addr with
  | Some node => dg_setNodes dg (<[addr := f node]> (nodes dg))
  | None => dg
  end.

Definition GetOrCreateNode (dg : DependencyGraph) (addr : CellAddress) : DependencyGraph :=
  match nodes dg !! addr with
  | Some _ => dg
  | None => dg_setNodes dg (<[addr := emptyNode]> (nodes dg))
  end.

Definition cleanupNodeIfEmpty (dg : DependencyGraph) (addr : CellAddress) : DependencyGraph :=
  match nodes dg !! addr with
  | None => dg
  | Some node =>
      if bool_decide (nodeFormula node ≠ "")
         || bool_decide (0 < size (CellPrecedents node))%nat
         || bool_decide (0 < size (CellDependents node))%nat
         || bool_decide (0 < size (RangePrecedents node))%nat
      then dg
      else mkDependencyGraph (delete addr (nodes dg)) (rangeObservers dg)
             (dirtySet dg ∖ {[addr]}) (volatileCells dg)
  end.

Definition node_setCellPrecedents (n : DependencyNode) (v : gset CellAddress) :=
  mkDependencyNode v (CellDependents n) (RangePrecedents n) (nodeFormula n) (IsDirty n).
Definition node_setCellDependents (n : DependencyNode) (v : gset CellAddress) :=
  mkDependencyNode (CellPrecedents n) v (RangePrecedents n) (nodeFormula n) (IsDirty n).
Definition node_setRangePrecedents (n : DependencyNode) (v : gset RangeAddress) :=
  mkDependencyNode (CellPrecedents n) (CellDependents n) v (nodeFormula n) (IsDirty n).
Definition node_setFormula (n : DependencyNode) (v : string) :=
  mkDependencyNode (CellPrecedents n) (CellDependents n) (RangePrecedents n) v (IsDirty n).
Definition node_setIsDirty (n : DependencyNode) (v : bool) :=
  mkDependencyNode (CellPrecedents n) (CellDependents n) (RangePrecedents n)
    (nodeFormula n) v.

Definition AddCellDependency (dg : DependencyGraph) (from to : CellAddress)
  : DependencyGraph :=
  let dg := GetOrCreateNode dg from in
  let dg := GetOrCreateNode dg to in
  let dg := updateNode dg from (fun n => node_setCellPrecedents n ({[to]} ∪ CellPrecedents n)) in
  updateNode dg to (fun n => node_setCellDependents n ({[from]} ∪ CellDependents n)).

Definition RemoveCellDependency (dg : DependencyGraph) (from to : CellAddress)
  : DependencyGraph :=
  match nodes dg !! from, nodes dg !! to with
  | Some _, Some _ =>
      let dg := updateNode dg from (fun n => node_setCellPrecedents n (CellPrecedents n ∖ {[to]})) in
      let dg := updateNode dg to (fun n => node_setCellDependents n (CellDependents n ∖ {[from]})) in
      let dg := cleanupNodeIfEmpty dg from in
      cleanupNodeIfEmpty dg to
  | _, _ => dg
  end.

Definition removeObserver (ro : gmap RangeAddress (gset CellAddress))
  (rangeAddr : RangeAddress) (addr : CellAddress) : gmap RangeAddress (gset CellAddress) :=
  match ro !! rangeAddr with
  | Some observers =>
      let observers := observers ∖ {[addr]} in
      if decide (size observers = 0%nat) then delete rangeAddr ro
      else <[rangeAddr := observers]> ro
  | None => ro
  end.

Definition AddRangeDependency (dg : DependencyGraph) (from : CellAddress)
  (rangeAddr : RangeAddress) : DependencyGraph :=
  let dg := GetOrCreateNode dg from in
  let dg := updateNode dg from
              (fun n => node_setRangePrecedents n ({[rangeAddr]} ∪ RangePrecedents n)) in
  dg_setRangeObservers dg
    (<[rangeAddr := {[from]} ∪ default ∅ (rangeObservers dg !! rangeAddr)]>
       (rangeObservers dg)).

Definition RemoveRangeDependency (dg : DependencyGraph) (from : CellAddress)
  (rangeAddr : RangeAddress) : DependencyGraph :=
  match nodes dg !! from with
  | None => dg
  | Some _ =>
      let dg := updateNode dg from
                  (fun n => node_setRangePrecedents n (RangePrecedents n ∖ {[rangeAddr]})) in
      let dg := dg_setRangeObservers dg (removeObserver (rangeObservers dg) rangeAddr from) in
      cleanupNodeIfEmpty dg from
  end.

(** [ClearDependencies] ranges over the node's two maps while the calls
    remove their entries; the outcome does not depend on the order. *)
Definition ClearDependencies (dg : DependencyGraph) (addr : CellAddress) : DependencyGraph :=
  match nodes dg !! addr with
  | None => dg
  | Some node =>
      let dg := fold_left (fun dg p => RemoveCellDependency dg addr p)
                          (elements (CellPrecedents node)) dg in
      fold_left (fun dg r => RemoveRangeDependency dg addr r)
                (elements (RangePrecedents node)) dg
  end.

Definition MarkDirty (dg : DependencyGraph) (addr : CellAddress) : DependencyGraph :=
  let dg := dg_setDirtySet dg ({[addr]} ∪ dirtySet dg) in
  updateNode dg addr (fun n => node_setIsDirty n true).

Definition IsInRange (cell : CellAddress) (r : RangeAddress) : bool :=
  bool_decide (caWorksheetID cell = raWorksheetID r)
  && (raStartRow r <=? caRow cell)%N && (caRow cell <=? raEndRow r)%N
  && (raStartColumn r <=? caColumn cell)%N && (caColumn cell <=? raEndColumn r)%N.

Definition MarkCellIfInRangeDirty (dg : DependencyGraph) (addr : CellAddress)
  : DependencyGraph :=
  fold_left
    (fun dg (entry : RangeAddress * gset CellAddress) =>
       if IsInRange addr entry.1
       then fold_left MarkDirty (elements entry.2) dg
       else dg)
    (map_to_list (rangeObservers dg)) dg.

Definition ClearDirty (dg : DependencyGraph) (addr : CellAddress) : DependencyGraph :=
  let dg := dg_setDirtySet dg (dirtySet dg ∖ {[addr]}) in
  updateNode dg addr (fun n => node_setIsDirty n false).

Definition ClearAllDirty (dg : DependencyGraph) : DependencyGraph :=
  mkDependencyGraph ((fun n => node_setIsDirty n false) <$> nodes dg) (rangeObservers dg)
    ∅ (volatileCells dg).

Definition RemoveNode (dg : DependencyGraph) (addr : CellAddress) : DependencyGraph :=
  match nodes dg !! addr with
  | None => dg
  | Some node =>
      let dg :=
        fold_left
          (fun dg precedentAddr =>
             let dg := updateNode dg precedentAddr
                         (fun n => node_setCellDependents n (CellDependents n ∖ {[addr]})) in
             cleanupNodeIfEmpty dg precedentAddr)
          (elements (CellPrecedents node)) dg in
      let dg :=
        fold_left
          (fun dg dependentAddr =>
             updateNode dg dependentAddr
               (fun n => node_setCellPrecedents n (CellPrecedents n ∖ {[addr]})))
          (elements (CellDependents node)) dg in
      let ro :=
        fold_left (fun ro rangeAddr => removeObserver ro rangeAddr addr)
                  (elements (RangePrecedents node)) (rangeObservers dg) in
      mkDependencyGraph (delete addr (nodes dg)) ro (dirtySet dg ∖ {[addr]})
        (volatileCells dg ∖ {[addr]})
  end.

Definition SetFormula (dg : DependencyGraph) (addr : CellAddress) (formula : string)
  : DependencyGraph :=
  let dg := GetOrCreateNode dg addr in
  updateNode dg addr (fun n => node_setFormula n formula).

Definition MarkVolatile (dg : DependencyGraph) (addr : CellAddress) : DependencyGraph :=
  dg_setVolatileCells dg ({[addr]} ∪ volatileCells dg).

Definition UnmarkVolatile (dg : DependencyGraph) (addr : CellAddress) : DependencyGraph :=
  dg_setVolatileCells dg (volatileCells dg ∖ {[addr]}).

Definition MarkAllVolatileDirty (dg : DependencyGraph) : DependencyGraph :=
  fold_left MarkDirty (elements (volatileCells dg)) dg.

(** The order in which Go ranges over a map is unspecified.  Where the
    order can be observed it is drawn from [goMapOrder], an arbitrary
    permutation that may differ from one [range] statement to the next
    (the [seed] is the count of such events so far). *)
Class GoMapOrder := {
  goMapOrder : forall {A : Type}, nat -> list A -> list A;
  goMapOrder_perm : forall (A : Type) (seed : nat) (l : list A), goMapOrder seed l ≡ₚ l
}.

Section GraphQueries.
Context `{GoMapOrder}.

Definition GetDirectDependents (dg : DependencyGraph) (addr : CellAddress) : list CellAddress :=
  match nodes dg !! addr with
  | Some node => elements (CellDependents node)
  | None => []
  end.

Definition GetDirectPrecedents (dg : DependencyGraph) (seed : nat) (addr : CellAddress)
  : list CellAddress :=
  match nodes dg !! addr with
  | Some node => goMapOrder seed (elements (CellPrecedents node))
  | None => []
  end.

Definition GetRangePrecedents (dg : DependencyGraph) (seed : nat) (addr : CellAddress)
  : list RangeAddress :=
  match nodes dg !! addr with
  | Some node => goMapOrder seed (elements (RangePrecedents node))
  | None => []
  end.
End GraphQueries.

(** ** The engine state (sheet.go)

    The fields of [storage] are inlined.  [events] counts the library
    calls and observable map iterations made so far; it is the seed of
    [otherBuiltin] and [goMapOrder] and has no counterpart in the code. *)

Record CalculationStack := mkCalculationStack {
  items : list CellAddress;            (* top of the stack first *)
  processing : gset CellAddress;
  completed : gset CellAddress
}.

Definition NewCalculationStack : CalculationStack := mkCalculationStack [] ∅ ∅.

Definition cs_push (cs : CalculationStack) (addr : CellAddress) : CalculationStack :=
  mkCalculationStack (addr :: items cs) ({[addr]} ∪ processing cs) (completed cs).

Definition cs_pop (cs : CalculationStack) : CalculationStack :=
  match items cs with
  | [] => cs
  | addr :: rest => mkCalculationStack rest (processing cs ∖ {[addr]}) (completed cs)
  end.

Definition cs_isProcessing (cs : CalculationStack) (addr : CellAddress) : bool :=
  bool_decide (addr ∈ processing cs).

Definition cs_markCompleted (cs : CalculationStack) (addr : CellAddress) : CalculationStack :=
  mkCalculationStack (items cs) (processing cs) ({[addr]} ∪ completed cs).

Definition cs_isCompleted (cs : CalculationStack) (addr : CellAddress) : bool :=
  bool_decide (addr ∈ completed cs).

Definition cs_reset (cs : CalculationStack) : CalculationStack := NewCalculationStack.

Record Spreadsheet := mkSpreadsheet {
  worksheets : WorksheetTable;
  namedRanges : NamedRangeTable;
  strings : StringTable;
  formulas : FormulaTable;
  dependencyGraph : DependencyGraph;
  calculationStack : CalculationStack;
  currentAddress : CellAddress;
  events : nat
}.

Definition NewSpreadsheet : Spreadsheet :=
  mkSpreadsheet NewWorksheetTable NewNamedRangeTable NewStringTable NewFormulaTable
    NewDependencyGraph NewCalculationStack (mkCellAddress 0 0 0) 0.

Definition s_setWorksheets (s : Spreadsheet) (v : WorksheetTable) : Spreadsheet :=
  mkSpreadsheet v (namedRanges s) (strings s) (formulas s) (dependencyGraph s)
    (calculationStack s) (currentAddress s) (events s).
Definition s_setNamedRanges (s : Spreadsheet) (v : NamedRangeTable) : Spreadsheet :=
  mkSpreadsheet (worksheets s) v (strings s) (formulas s) (dependencyGraph s)
    (calculationStack s) (currentAddress s) (events s).
Definition s_setStrings (s : Spreadsheet) (v : StringTable) : Spreadsheet :=
  mkSpreadsheet (worksheets s) (namedRanges s) v (formulas s) (dependencyGraph s)
    (calculationStack s) (currentAddress s) (events s).
Definition s_setFormulas (s : Spreadsheet) (v : FormulaTable) : Spreadsheet :=
  mkSpreadsheet (worksheets s) (namedRanges s) (strings s) v (dependencyGraph s)
    (calculationStack s) (currentAddress s) (events s).
Definition s_setGraph (s : Spreadsheet) (v : DependencyGraph) : Spreadsheet :=
  mkSpreadsheet (worksheets s) (namedRanges s) (strings s) (formulas s) v
    (calculationStack s) (currentAddress s) (events s).
Definition s_setStack (s : Spreadsheet) (v : CalculationStack) : Spreadsheet :=
  mkSpreadsheet (worksheets s) (namedRanges s) (strings s) (formulas s) (dependencyGraph s)
    v (currentAddress s) (events s).
Definition s_setCurrentAddress (s : Spreadsheet) (v : CellAddress) : Spreadsheet :=
  mkSpreadsheet (worksheets s) (namedRanges s) (strings s) (formulas s) (dependencyGraph s)
    (calculationStack s) v (events s).
Definition s_setEvents (s : Spreadsheet) (v : nat) : Spreadsheet :=
  mkSpreadsheet (worksheets s) (namedRanges s) (strings s) (formulas s) (dependencyGraph s)
    (calculationStack s) (currentAddress s) v.

Definition s_tick (s : Spreadsheet) : Spreadsheet := s_setEvents s (S (events s)).

(** [for x := lo; x <= hi; x++] over [uint32] coordinates (which the
    parser keeps below [2^31], so the increment never wraps). *)
Definition rangeN (lo hi : N) : list N :=
  N.of_nat <$> seq (N.to_nat lo) (N.to_nat (hi + 1 - lo)).

(** ** The evaluator *)

Section Evaluator.
Context `{GoLib}.

(** [CellRange.Iterate] and [IterateValues]: row-major, [nil] for a
    missing cell. *)
Definition CellRange_values (s : Spreadsheet) (worksheet : Worksheet)
  (startRow startCol endRow endCol : N) : list Primitive :=
  row ← rangeN startRow endRow;
  col ← rangeN startCol endCol;
  [match GetCell worksheet (strings s) (formulas s) row col with
   | Some cell => cellValue cell
   | None => PNil
   end].

Definition CellRefNode_Eval (s : Spreadsheet) (nodeWorksheetID : N) (RowOffset ColOffset : Z)
  : Result :=
  let currentAddr := currentAddress s in
  let targetRow := int32 (int32 (Z.of_N (caRow currentAddr)) + RowOffset) in
  let targetCol := int32 (int32 (Z.of_N (caColumn currentAddr)) + ColOffset) in
  if bool_decide (targetRow < 0) || bool_decide (targetCol < 0)
  then Err (NewSpreadsheetError ErrorCodeRef "Invalid cell reference")
  else
    let worksheetID :=
      if decide (nodeWorksheetID = 0%N) then caWorksheetID currentAddr
      else nodeWorksheetID in
    match GetWorksheet (worksheets s) worksheetID with
    | None => Err (NewSpreadsheetError ErrorCodeRef "Worksheet not found")
    | Some worksheet =>
        match GetCell worksheet (strings s) (formulas s) (uint32 targetRow) (uint32 targetCol) with
        | None => Ok (APrim PNil)
        | Some cell => Ok (APrim (cellValue cell))
        end
    end.

Definition RangeNode_Eval (s : Spreadsheet) (nodeWorksheetID : N)
  (StartRowOffset StartColOffset EndRowOffset EndColOffset : Z) : Result :=
  let currentAddr := currentAddress s in
  let startRow := int32 (int32 (Z.of_N (caRow currentAddr)) + StartRowOffset) in
  let startCol := int32 (int32 (Z.of_N (caColumn currentAddr)) + StartColOffset) in
  let endRow := int32 (int32 (Z.of_N (caRow currentAddr)) + EndRowOffset) in
  let endCol := int32 (int32 (Z.of_N (caColumn currentAddr)) + EndColOffset) in
  if bool_decide (startRow < 0) || bool_decide (startCol < 0)
     || bool_decide (endRow < 0) || bool_decide (endCol < 0)
  then Err (NewSpreadsheetError ErrorCodeRef "Invalid range reference")
  else
    let worksheetID :=
      if decide (nodeWorksheetID = 0%N) then caWorksheetID currentAddr
      else nodeWorksheetID in
    match GetWorksheet (worksheets s) worksheetID with
    | None => Err (NewSpreadsheetError ErrorCodeRef "Worksheet not found")
    | Some worksheet =>
        let sr := uint32 (Z.min startRow endRow) in
        let er := uint32 (Z.max startRow endRow) in
        let sc := uint32 (Z.min startCol endCol) in
        let ec := uint32 (Z.max startCol endCol) in
        Ok (ARange (mkRange (mkRangeAddress worksheetID sr sc er ec)
                            (CellRange_values s worksheet sr sc er ec)))
    end.

Definition NamedRangeNode_Eval (s : Spreadsheet) (name : string) : Result :=
  match nrNameToID (namedRanges s) !! name with
  | None =>
      Err (NewSpreadsheetError ErrorCodeName ("Named range '" ++ name ++ "' not found"))
  | Some nameID =>
      match definedRanges (namedRanges s) !! nameID with
      | None =>
          Err (NewSpreadsheetError ErrorCodeName
                 ("Named range '" ++ name ++ "' is not defined"))
      | Some rangeAddr =>
          match GetWorksheet (worksheets s) (raWorksheetID rangeAddr) with
          | None =>
              Err (NewSpreadsheetError ErrorCodeRef "Worksheet not found for named range")
          | Some worksheet =>
              Ok (ARange (mkRange rangeAddr
                            (CellRange_values s worksheet (raStartRow rangeAddr)
                               (raStartColumn rangeAddr) (raEndRow rangeAddr)
                               (raEndColumn rangeAddr))))
          end
      end
  end.

(** An evaluation error of an operand or argument becomes an error value. *)
Definition errorAsValue (r : Result) : Any :=
  match r with
  | Ok v => v
  | Err e => APrim (PError e)
  end.

(** [Eval]; the second component is the count of library calls. *)
Fixpoint Eval (n : ASTNode) (s : Spreadsheet) (calls : nat) : Result * nat :=
  match n with
  | StringNode v => (Ok (APrim (PString v)), calls)
  | NumberNode v => (Ok (APrim (PNumber v)), calls)
  | BooleanNode v => (Ok (APrim (PBool v)), calls)
  | CellRefNode ws r c => (CellRefNode_Eval s ws r c, calls)
  | RangeNode ws sr sc er ec => (RangeNode_Eval s ws sr sc er ec, calls)
  | NamedRangeNode name => (NamedRangeNode_Eval s name, calls)
  | BinaryOpNode op l r =>
      let '(leftVal, calls) := Eval l s calls in
      let '(rightVal, calls) := Eval r s calls in
      (BinaryOp_apply op (errorAsValue leftVal) (errorAsValue rightVal), calls)
  | UnaryOpNode op operand =>
      let '(val, calls) := Eval operand s calls in
      (UnaryOp_apply op (errorAsValue val), calls)
  | FunctionCallNode name argNodes =>
      let fix evalArgs (argNodes : list ASTNode) (calls : nat) : list Any * nat :=
        match argNodes with
        | [] => ([], calls)
        | argNode :: rest =>
            let '(argVal, calls) := Eval argNode s calls in
            let '(args, calls) := evalArgs rest calls in
            (errorAsValue argVal :: args, calls)
        end in
      let '(args, calls) := evalArgs argNodes calls in
      (Call calls name args, S calls)
  end.
End Evaluator.

(** ** The recalculation engine (sheet.go) *)

Record AppError := mkAppError { appCode : Z; appMessage : string }.
Definition InvalidArgument : Z := 3.
Definition AlreadyExists : Z := 6.

(** What the lexer and parser (which are not embedded) make of a formula
    text in the context of its cell: the joined lexer errors, the parser's
    error message, or the tree. *)
Inductive ParseOutcome :=
| LexErrors (errorMsg : string)
| ParseError (message : string)
| Parsed (ast : ASTNode).

Definition strings_Contains (s substr : string) : bool :=
  bool_decide (is_Some (String.index 0 substr s)).

Definition strings_TrimPrefix (s prefix : string) : string :=
  if String.prefix prefix s
  then String.substring (String.length prefix) (String.length s - String.length prefix) s
  else s.

(** [len(str) > 0 && str[0] == '=']. *)
Definition isFormulaText (value : Primitive) : option string :=
  match value with
  | PString (String c rest) =>
      if decide (c = ascii_of_N 61) then Some (String c rest) else None
  | _ => None
  end.

Definition sortKeyLe (a b : CellAddress) : bool :=
  if decide (caWorksheetID a = caWorksheetID b) then
    if decide (caRow a = caRow b) then (caColumn a <=? caColumn b)%N
    else (caRow a <? caRow b)%N
  else (caWorksheetID a <? caWorksheetID b)%N.

Fixpoint insertSorted (a : CellAddress) (l : list CellAddress) : list CellAddress :=
  match l with
  | [] => [a]
  | b :: rest => if sortKeyLe a b then a :: b :: rest else b :: insertSorted a rest
  end.

(** [sort.Slice] by (worksheet, row, column); the keys of distinct
    addresses differ, so the sorted slice is unique. *)
Definition sortCells (l : list CellAddress) : list CellAddress :=
  foldr insertSorted [] l.

Section Engine.
Context `{GoLib} `{GoMapOrder}.

Definition Get (s : Spreadsheet) (worksheetID row col : N) : Primitive :=
  if decide (worksheetID = 0%N)
  then PError (NewSpreadsheetError ErrorCodeValue "Worksheet not found")
  else
    match GetWorksheet (worksheets s) worksheetID with
    | None => PNil
    | Some worksheet =>
        match GetCell worksheet (strings s) (formulas s) row col with
        | None => PNil
        | Some cell => cellValue cell
        end
    end.

(** [worksheet.SetCell] on the worksheet the table holds under [id]. *)
Definition s_SetCell (s : Spreadsheet) (id row col : N) (value : Primitive) (formula : string)
  : Spreadsheet :=
  match GetWorksheet (worksheets s) id with
  | None => s
  | Some worksheet =>
      let '(w, st, ft) := SetCell worksheet (strings s) (formulas s) row col value formula in
      s_setFormulas (s_setStrings (s_setWorksheets s (putWorksheet (worksheets s) id w)) st) ft
  end.

Definition s_SetFormulaResult (s : Spreadsheet) (cellAddr : CellAddress) (result : Any)
  : Spreadsheet :=
  match GetWorksheet (worksheets s) (caWorksheetID cellAddr) with
  | None => s
  | Some worksheet =>
      let '(w, st) :=
        SetFormulaResult worksheet (strings s) (caRow cellAddr) (caColumn cellAddr) result in
      s_setStrings (s_setWorksheets s (putWorksheet (worksheets s) (caWorksheetID cellAddr) w)) st
  end.

Definition s_graph (s : Spreadsheet) (f : DependencyGraph -> DependencyGraph) : Spreadsheet :=
  s_setGraph s (f (dependencyGraph s)).

Fixpoint extractDependenciesRecursive (s : Spreadsheet) (node : ASTNode)
  (cellAddr : CellAddress) : Spreadsheet :=
  match node with
  | CellRefNode ws RowOffset ColOffset =>
      let targetRow := int32 (int32 (Z.of_N (caRow cellAddr)) + RowOffset) in
      let targetCol := int32 (int32 (Z.of_N (caColumn cellAddr)) + ColOffset) in
      if bool_decide (0 <= targetRow) && bool_decide (0 <= targetCol) then
        let targetAddr :=
          mkCellAddress (if decide (ws = 0%N) then caWorksheetID cellAddr else ws)
            (uint32 targetRow) (uint32 targetCol) in
        s_graph s (fun dg => AddCellDependency dg cellAddr targetAddr)
      else s
  | RangeNode ws sro sco ero eco =>
      let startRow := int32 (int32 (Z.of_N (caRow cellAddr)) + sro) in
      let startCol := int32 (int32 (Z.of_N (caColumn cellAddr)) + sco) in
      let endRow := int32 (int32 (Z.of_N (caRow cellAddr)) + ero) in
      let endCol := int32 (int32 (Z.of_N (caColumn cellAddr)) + eco) in
      if bool_decide (0 <= startRow) && bool_decide (0 <= startCol)
         && bool_decide (0 <= endRow) && bool_decide (0 <= endCol) then
        let rangeAddr :=
          mkRangeAddress (if decide (ws = 0%N) then caWorksheetID cellAddr else ws)
            (uint32 startRow) (uint32 startCol) (uint32 endRow) (uint32 endCol) in
        s_graph s (fun dg => AddRangeDependency dg cellAddr rangeAddr)
      else s
  | BinaryOpNode _ l r =>
      extractDependenciesRecursive (extractDependenciesRecursive s l cellAddr) r cellAddr
  | UnaryOpNode _ operand => extractDependenciesRecursive s operand cellAddr
  | FunctionCallNode name args =>
      let s :=
        if bool_decide (strings_ToUpper name ∈ ["NOW"; "TODAY"; "RAND"])
        then s_graph s (fun dg => MarkVolatile dg cellAddr)
        else s in
      (fix go (args : list ASTNode) (s : Spreadsheet) : Spreadsheet :=
         match args with
         | [] => s
         | arg :: rest => go rest (extractDependenciesRecursive s arg cellAddr)
         end) args s
  | NamedRangeNode name =>
      match formulaAtCell (formulas s) !! cellAddr with
      | Some _ => s_setNamedRanges s (InternNamedRange (namedRanges s) name).1
      | None => s
      end
  | StringNode _ | NumberNode _ | BooleanNode _ => s
  end.

Definition extractDependencies (s : Spreadsheet) (node : ASTNode) (cellAddr : CellAddress)
  : Spreadsheet :=
  let s := s_graph s (fun dg => UnmarkVolatile (ClearDependencies dg cellAddr) cellAddr) in
  extractDependenciesRecursive s node cellAddr.

(** [Set] ([Set] is a keyword here), from the point where [resolveAddress] has returned
    [(worksheetID, row, col)].  [parse] is the outcome of lexing and
    parsing [value] when it is a formula text, and is not looked at
    otherwise. *)
Definition Spreadsheet_Set (s : Spreadsheet) (worksheetID row col : N) (value : Primitive)
  (parse : ParseOutcome) : Spreadsheet + AppError :=
  if decide (worksheetID = 0%N)
  then inr (mkAppError InvalidArgument "Cannot set cell on unknown worksheet")
  else
    match GetWorksheet (worksheets s) worksheetID with
    | None => inr (mkAppError InvalidArgument "Worksheet not found")
    | Some worksheet =>
        let cellAddr := mkCellAddress worksheetID row col in
        match isFormulaText value with
        | Some formula =>
            match parse with
            | LexErrors errorMsg =>
                let code :=
                  if strings_Contains errorMsg "invalid range reference"
                     || strings_Contains errorMsg "invalid cell reference after worksheet"
                  then ErrorCodeRef else ErrorCodeValue in
                inl (s_SetCell s worksheetID row col
                       (PError (NewSpreadsheetError code errorMsg)) "")
            | ParseError message =>
                if String.prefix "REF:" message
                then inl (s_SetCell s worksheetID row col
                            (PError (NewSpreadsheetError ErrorCodeRef
                                       (strings_TrimPrefix message "REF: "))) "")
                else inl (s_SetCell s worksheetID row col
                            (PError (NewSpreadsheetError ErrorCodeValue message)) "")
            | Parsed ast =>
                let '(ft, formulaID) := InternFormula (formulas s) ast cellAddr in
                let s := s_setFormulas s ft in
                let s := extractDependencies s ast cellAddr in
                let s := s_graph s (fun dg => SetFormula dg cellAddr formula) in
                let s := s_SetCell s worksheetID row col PNil formula in
                (* store formula ID directly in chunk *)
                let s :=
                  match GetWorksheet (worksheets s) worksheetID with
                  | None => s
                  | Some worksheet =>
                      let key := chunkKeyOf row col in
                      let '(w, chunk) := getChunk worksheet key in
                      let chunk :=
                        chunk_setFormulaIDs chunk
                          (lazySet (FormulaIDs chunk) (chunkIndexOf row col) formulaID) in
                      s_setWorksheets s
                        (putWorksheet (worksheets s) worksheetID (putChunk w key chunk))
                  end in
                inl (s_graph s (fun dg => MarkDirty dg cellAddr))
            end
        | None =>
            let s := s_graph s (fun dg => ClearDependencies dg cellAddr) in
            let s := s_SetCell s worksheetID row col value "" in
            let s := s_graph s (fun dg => MarkCellIfInRangeDirty dg cellAddr) in
            inl (s_graph s (fun dg =>
                   fold_left MarkDirty (GetDirectDependents dg cellAddr) dg))
        end
    end.

(** [Remove], from the point where the address is resolved. *)
Definition Remove (s : Spreadsheet) (worksheetID row col : N) : Spreadsheet :=
  if decide (worksheetID = 0%N) then s
  else
    match GetWorksheet (worksheets s) worksheetID with
    | None => s
    | Some worksheet =>
        let cellAddr := mkCellAddress worksheetID row col in
        let dependents := GetDirectDependents (dependencyGraph s) cellAddr in
        let s := s_graph s (fun dg => ClearDependencies dg cellAddr) in
        let '(w, st, ft) := RemoveCell worksheet (strings s) (formulas s) row col in
        let s := s_setFormulas
                   (s_setStrings
                      (s_setWorksheets s (putWorksheet (worksheets s) worksheetID w)) st) ft in
        let s := s_graph s (fun dg => MarkCellIfInRangeDirty dg cellAddr) in
        let s := s_graph s (fun dg => fold_left MarkDirty dependents dg) in
        s_graph s (fun dg => RemoveNode dg cellAddr)
    end.

Definition AddWorksheet (s : Spreadsheet) (name : string) : Spreadsheet + AppError :=
  if WorksheetTable_Contains (worksheets s) name
  then inr (mkAppError AlreadyExists "Worksheet already exists")
  else inl (s_setWorksheets s (DefineWorksheet (worksheets s) name (NewWorksheet 0)).1).

(** *** calculateCell *)

Definition circularErr : SpreadsheetError :=
  NewSpreadsheetError ErrorCodeRef "Circular reference detected".

Definition CalcResult : Type := option (Spreadsheet * option SpreadsheetError).

(** The loop over the cell precedents.  [Some err] is the [REF] error of
    a precedent, on which the caller stores it and returns. *)
Fixpoint calculatePrecedents (rec : Spreadsheet -> CellAddress -> CalcResult)
  (s : Spreadsheet) (precedents : list CellAddress) : CalcResult :=
  match precedents with
  | [] => Some (s, None)
  | precedent :: rest =>
      match rec s precedent with
      | None => None
      | Some (s, Some err) =>
          if decide (errCode err = ErrorCodeRef) then Some (s, Some err)
          else calculatePrecedents rec s rest
      | Some (s, None) => calculatePrecedents rec s rest
      end
  end.

(** The loops over the cells of one range precedent: a cell that is dirty
    when the loop reaches it is calculated, and its error is dropped. *)
Fixpoint calculateRangeCells (rec : Spreadsheet -> CellAddress -> CalcResult)
  (s : Spreadsheet) (cells : list CellAddress) : option Spreadsheet :=
  match cells with
  | [] => Some s
  | rangeCell :: rest =>
      if bool_decide (rangeCell ∈ dirtySet (dependencyGraph s)) then
        match rec s rangeCell with
        | None => None
        | Some (s, _) => calculateRangeCells rec s rest
        end
      else calculateRangeCells rec s rest
  end.

Definition rangeCellsOf (rangeAddr : RangeAddress) : list CellAddress :=
  row ← rangeN (raStartRow rangeAddr) (raEndRow rangeAddr);
  col ← rangeN (raStartColumn rangeAddr) (raEndColumn rangeAddr);
  [mkCellAddress (raWorksheetID rangeAddr) row col].

Fixpoint calculateRanges (rec : Spreadsheet -> CellAddress -> CalcResult)
  (s : Spreadsheet) (rangePrecedents : list RangeAddress) : option Spreadsheet :=
  match rangePrecedents with
  | [] => Some s
  | rangeAddr :: rest =>
      match calculateRangeCells rec s (rangeCellsOf rangeAddr) with
      | None => None
      | Some s => calculateRanges rec s rest
      end
  end.

(** The formula evaluation at the end of [calculateCell]. *)
Definition evaluateAndStore (s : Spreadsheet) (ast : ASTNode) (cellAddr : CellAddress)
  : Spreadsheet :=
  let s := s_setCurrentAddress s cellAddr in
  let '(result, calls) := Eval ast s (events s) in
  let s := s_setEvents s calls in
  match result with
  | Err spreadsheetErr => s_SetFormulaResult s cellAddr (APrim (PError spreadsheetErr))
  | Ok (APrim (PError spreadsheetErr)) =>
      s_SetFormulaResult s cellAddr (APrim (PError spreadsheetErr))
  | Ok result =>
      let result := match result with APrim PNil => APrim (PNumber 0%float) | _ => result end in
      let s := s_SetFormulaResult s cellAddr result in
      let s := s_graph s (fun dg => ClearDirty dg cellAddr) in
      s_graph s (fun dg => fold_left MarkDirty (GetDirectDependents dg cellAddr) dg)
  end.

(** The body of [calculateCell] between [push] and the deferred [pop];
    [rec] is the recursive call. *)
Definition calculateCell_body (rec : Spreadsheet -> CellAddress -> CalcResult)
  (s : Spreadsheet) (cellAddr : CellAddress) : CalcResult :=
  match GetWorksheet (worksheets s) (caWorksheetID cellAddr) with
  | None => Some (s, None)
  | Some worksheet =>
      let noFormula := Some (s_graph s (fun dg => ClearDirty dg cellAddr), None) in
      match GetCell worksheet (strings s) (formulas s) (caRow cellAddr) (caColumn cellAddr) with
      | None => noFormula
      | Some cell =>
          if decide (cellFormulaID cell = 0%N) then noFormula
          else
            match GetAST (formulas s) (cellFormulaID cell) with
            | None => Some (s, None)
            | Some ast =>
                let rangePrecedents :=
                  GetRangePrecedents (dependencyGraph s) (events s) cellAddr in
                let s := s_tick s in
                if existsb (IsInRange cellAddr) rangePrecedents then
                  let s := s_SetFormulaResult s cellAddr (APrim (PError circularErr)) in
                  Some (s_graph s (fun dg => ClearDirty dg cellAddr), Some circularErr)
                else
                  let precedents :=
                    GetDirectPrecedents (dependencyGraph s) (events s) cellAddr in
                  let s := s_tick s in
                  match calculatePrecedents rec s precedents with
                  | None => None
                  | Some (s, Some spreadsheetErr) =>
                      let s := s_SetFormulaResult s cellAddr
                                 (APrim (PError spreadsheetErr)) in
                      Some (s_graph s (fun dg => ClearDirty dg cellAddr), Some spreadsheetErr)
                  | Some (s, None) =>
                      let rangePrecedents :=
                        GetRangePrecedents (dependencyGraph s) (events s) cellAddr in
                      let s := s_tick s in
                      match calculateRanges rec s rangePrecedents with
                      | None => None
                      | Some s => Some (evaluateAndStore s ast cellAddr, None)
                      end
                  end
            end
      end
  end.

(** [calculateCell].  [fuel] bounds the depth of the recursion; [None]
    means that the fuel ran out. *)
Fixpoint calculateCell (fuel : nat) (s : Spreadsheet) (cellAddr : CellAddress) : CalcResult :=
  match fuel with
  | O => None
  | S fuel =>
      if cs_isCompleted (calculationStack s) cellAddr then Some (s, None)
      else if cs_isProcessing (calculationStack s) cellAddr then Some (s, Some circularErr)
      else
        let s := s_setStack s (cs_push (calculationStack s) cellAddr) in
        match calculateCell_body (calculateCell fuel) s cellAddr with
        | None => None
        | Some (s, err) =>
            Some (s_setStack s (cs_markCompleted (cs_pop (calculationStack s)) cellAddr), err)
        end
  end.

(** *** Calculate *)

(** The [for _, cellAddr := range dirtyCells] loop of one pass. *)
Fixpoint calculateDirtyCells (fuel : nat) (s : Spreadsheet) (dirtyCells : list CellAddress)
  : option Spreadsheet :=
  match dirtyCells with
  | [] => Some s
  | cellAddr :: rest =>
      if negb (bool_decide (cellAddr ∈ dirtySet (dependencyGraph s)))
      then calculateDirtyCells fuel s rest
      else if cs_isCompleted (calculationStack s) cellAddr
      then calculateDirtyCells fuel (s_graph s (fun dg => ClearDirty dg cellAddr)) rest
      else
        match calculateCell fuel s cellAddr with
        | None => None
        | Some (s, _) => calculateDirtyCells fuel s rest
        end
  end.

(** One iteration of the [for len(dirtySet) > 0] loop. *)
Definition calculatePass (fuel : nat) (s : Spreadsheet) : option Spreadsheet :=
  calculateDirtyCells fuel s (sortCells (elements (dirtySet (dependencyGraph s)))).

(** The loop itself; [passes] bounds the number of iterations. *)
Fixpoint calculateLoop (passes fuel : nat) (s : Spreadsheet) : option Spreadsheet :=
  if decide (dirtySet (dependencyGraph s) = ∅) then Some s
  else
    match passes with
    | O => None
    | S passes =>
        match calculatePass fuel s with
        | None => None
        | Some s => calculateLoop passes fuel s
        end
    end.

Definition Calculate_begin (s : Spreadsheet) : Spreadsheet :=
  let s := s_graph s MarkAllVolatileDirty in
  s_setStack s (cs_reset (calculationStack s)).

Definition Calculate (fuel : nat) (s : Spreadsheet) : option Spreadsheet :=
  match calculateLoop fuel fuel (Calculate_begin s) with
  | None => None
  | Some s => Some (s_graph s ClearAllDirty)
  end.
End Engine.

(** ** Vocabulary of the properties *)

(** A range argument replaced by its values as direct arguments. *)
Definition expandRanges (args : list Any) : list Any :=
  arg ← args;
  match arg with
  | ARange r => APrim <$> IterateValues r
  | _ => [arg]
  end.

Definition isNil (value : Primitive) : bool :=
  match value with PNil => true | _ => false end.

(** The same, leaving out the empty cells of a range. *)
Definition expandRangesNonEmpty (args : list Any) : list Any :=
  arg ← args;
  match arg with
  | ARange r => APrim <$> List.filter (fun v => negb (isNil v)) (IterateValues r)
  | _ => [arg]
  end.

(** The first direct argument that is an error value. *)
Fixpoint firstDirectError (args : list Any) : option SpreadsheetError :=
  match args with
  | [] => None
  | arg :: rest =>
      match checkForError arg with
      | Some err => Some err
      | None => firstDirectError rest
      end
  end.

Definition isNumber (value : Any) : bool :=
  match value with APrim (PNumber _) => true | _ => false end.

(** How many values, direct or inside a range, are numbers. *)
Definition countNumbers (args : list Any) : Z :=
  Z.of_nat (length (List.filter isNumber (expandRanges args))).

(** One for every direct argument and one for every non-empty value of a
    range. *)
Definition countNonEmpty (args : list Any) : Z :=
  Z.of_nat (length (expandRangesNonEmpty args)).

Definition isError (value : Any) : Prop := is_Some (checkForError value).

Section PropertyVocabulary.
Context `{GoLib}.

(** A value that an aggregation considers: one that coerces to a number
    other than [NaN], or an error (which becomes the result). *)
Definition considered (value : Any) : bool :=
  match value with
  | ARange _ => true
  | _ => bool_decide (is_Some (numericOf value)) || bool_decide (is_Some (checkForError value))
  end.

(** The three-way outcome of a numeric and of a lexical comparison. *)
Definition numericOrder (a b : float) : Z :=
  if PrimFloat.ltb a b then (-1)%Z else if PrimFloat.ltb b a then 1%Z else 0%Z.

Definition lexicalOrder (a b : string) : Z :=
  if String.ltb a b then (-1)%Z else if String.ltb b a then 1%Z else 0%Z.

(** The comparison as the specification words it: numeric if both sides
    coerce, otherwise boolean against boolean, otherwise lexical over the
    text. *)
Definition spec_compare (left right : Any) : Z :=
  match toNumber left, toNumber right with
  | Some a, Some b => numericOrder a b
  | _, _ =>
      match left, right with
      | APrim (PBool a), APrim (PBool b) =>
          if Bool.eqb a b then 0%Z else if a then 1%Z else (-1)%Z
      | _, _ => lexicalOrder (toString left) (toString right)
      end
  end.

(** What each comparison operator makes of a three-way outcome. *)
Definition comparisonTest (op : BinaryOp) (cmp : Z) : option bool :=
  match op with
  | BinOpEqual => Some (bool_decide (cmp = 0%Z))
  | BinOpNotEqual => Some (negb (bool_decide (cmp = 0%Z)))
  | BinOpLess => Some (cmp <? 0)%Z
  | BinOpLessEqual => Some (cmp <=? 0)%Z
  | BinOpGreater => Some (cmp >? 0)%Z
  | BinOpGreaterEqual => Some (cmp >=? 0)%Z
  | _ => None
  end.
End PropertyVocabulary.


(** The string table maps a text to an id and the id back to the text. *)
Definition StringTable_consistent (st : StringTable) : Prop :=
  forall (str : string) (id : N), stStrings st !! str = Some id -> stReverseMap st !! id = Some str.

(** The value at an address is an error of kind [REF]. *)
Definition holdsErrorRef (value : Primitive) : Prop :=
  match value with
  | PError e => errCode e = ErrorCodeRef
  | _ => False
  end.

(** ** A sample library and sample sheets

    [sampleLib] agrees with Go's library on the inputs of the examples
    below: [strconv.ParseFloat] on strings of decimal digits and on
    strings that are no number at all, the formatting functions on small
    non-negative integers.  [sampleOrder] ranges over a map in the order
    of its sorted keys. *)

Fixpoint parseDigits (s : string) (acc : Z) : option Z :=
  match s with
  | EmptyString => Some acc
  | String c rest =>
      let n := N_of_ascii c in
      if ((48 <=? n) && (n <=? 57))%N
      then parseDigits rest (acc * 10 + Z.of_N (n - 48))
      else None
  end.

Definition sampleLib : GoLib := {|
  strconv_ParseFloat s :=
    match s with
    | EmptyString => None
    | _ => float64_of_int <$> parseDigits s 0
    end;
  fmt_Sprint_float64 f := pretty (float64_trunc f);
  fmt_Sprint_range r := "";
  round_15f f := f;
  math_Pow a b := a;
  NumberNode_ToString f := pretty (float64_trunc f);
  otherBuiltin calls name args :=
    Err (NewSpreadsheetError ErrorCodeName "Unknown function")
|}.

Definition sampleOrder : GoMapOrder :=
  {| goMapOrder A seed l := l; goMapOrder_perm A seed l := reflexivity l |}.

Definition sampleRange (values : list Primitive) : Any :=
  ARange (mkRange (mkRangeAddress 1 0 0 (N.of_nat (length values) - 1) 0) values).

Definition errDiv0 : SpreadsheetError := NewSpreadsheetError ErrorCodeDiv0 "Division by zero".

(** [NewSpreadsheet()] followed by [AddWorksheet("Sheet1")]: the sheet
    gets id 1. *)
Definition sheet1 : Spreadsheet :=
  match @AddWorksheet NewSpreadsheet "Sheet1" with
  | inl s => s
  | inr _ => NewSpreadsheet
  end.

(** [Set] on [sheet1]'s worksheet, with the state unchanged on an error. *)
Definition setOn (s : Spreadsheet) (row col : N) (value : Primitive) (parse : ParseOutcome)
  : Spreadsheet :=
  match @Spreadsheet_Set sampleLib s 1 row col value parse with
  | inl s' => s'
  | inr _ => s
  end.

Definition A1 : CellAddress := mkCellAddress 1 0 0.
Definition B1 : CellAddress := mkCellAddress 1 0 1.


(** A1 = [=B1], B1 = [=A1]. *)
Definition sheetCycle : Spreadsheet :=
  setOn (setOn sheet1 0 0 (PString "=B1") (Parsed (CellRefNode 1 0 1)))
    0 1 (PString "=A1") (Parsed (CellRefNode 1 0 (-1))).

(** A1 = [=B1+SUM(A1:A2)], B1 = [=IF(TRUE,1,A1)]: A1 and B1 refer to each
    other, and A1 also to a range that holds it. *)
Definition sheetCycleThroughIF : Spreadsheet :=
  setOn (setOn sheet1 0 0 (PString "=B1+SUM(A1:A2)")
           (Parsed (BinaryOpNode BinOpAdd (CellRefNode 1 0 1)
                      (FunctionCallNode "SUM" [RangeNode 1 0 0 1 0]))))
    0 1 (PString "=IF(TRUE,1,A1)")
    (Parsed (FunctionCallNode "IF" [BooleanNode true; NumberNode 1; CellRefNode 1 0 (-1)])).

(** A1 = [=1/0]. *)
Definition sheetDivByZero : Spreadsheet :=
  setOn sheet1 0 0 (PString "=1/0")
    (Parsed (BinaryOpNode BinOpDivide (NumberNode 1) (NumberNode 0))).

(** [Set(A1, 5)] and then [Set(A1, nil)]. *)
Definition sheetSetThenClear : Spreadsheet :=
  setOn (setOn sheet1 0 0 (PNumber 5) (LexErrors "")) 0 0 PNil (LexErrors "").

(** [Set(A1, 5)] and then [Remove(A1)]. *)
Definition sheetSetThenRemove : Spreadsheet :=
  @Remove sampleLib (setOn sheet1 0 0 (PNumber 5) (LexErrors "")) 1 0 0.

(** ** Observations of one cell, for the properties of the engine *)

Definition chunkAt (s : Spreadsheet) (c : CellAddress) : option Chunk :=
  w ← GetWorksheet (worksheets s) (caWorksheetID c);
  chunks w !! chunkKeyOf (caRow c) (caColumn c).

Definition cellIndex (c : CellAddress) : N := chunkIndexOf (caRow c) (caColumn c).

(** The formula id the store holds for the cell (0: none). *)
Definition formulaIDAt (s : Spreadsheet) (c : CellAddress) : N :=
  from_option (fun ch => lazyGet 0%N (FormulaIDs ch) (cellIndex c)) 0%N (chunkAt s c).

(** The type tag and the error code of the cell's stored formula result. *)
Definition resultTypeAt (s : Spreadsheet) (c : CellAddress) : N :=
  from_option (fun ch => lazyGet 0%N (FormulaResultTypes ch) (cellIndex c)) 0%N (chunkAt s c).

Definition resultCodeAt (s : Spreadsheet) (c : CellAddress) : N :=
  from_option
    (fun ch => uint8_of_float64 (lazyGet 0%float (FormulaResultNumbers ch) (cellIndex c)))
    0%N (chunkAt s c).

(** The cell is a formula cell whose stored result is an error of kind
    [REF]. *)
Definition storedRef (s : Spreadsheet) (c : CellAddress) : Prop :=
  formulaIDAt s c <> 0%N
  /\ resultTypeAt s c = CellValueTypeError
  /\ resultCodeAt s c = ErrorCodeRef.

(** The cell is a formula cell whose tree the formula table holds. *)
Definition formulaCell (s : Spreadsheet) (c : CellAddress) : Prop :=
  formulaIDAt s c <> 0%N /\ is_Some (astCache (formulas s) !! formulaIDAt s c).

(** The edges of the cell's node in the dependency graph. *)
Definition edgesAt (s : Spreadsheet) (c : CellAddress)
  : option (gset CellAddress * gset CellAddress * gset RangeAddress) :=
  (fun n => (CellPrecedents n, CellDependents n, RangePrecedents n))
    <$> nodes (dependencyGraph s) !! c.

Definition precedentsAt (s : Spreadsheet) (c : CellAddress)
  : option (gset CellAddress * gset RangeAddress) :=
  (fun e => (e.1.1, e.2)) <$> edgesAt s c.

Definition processingOf (s : Spreadsheet) : gset CellAddress := processing (calculationStack s).
Definition completedOf (s : Spreadsheet) : gset CellAddress := completed (calculationStack s).
Definition dirtyOf (s : Spreadsheet) : gset CellAddress := dirtySet (dependencyGraph s).

(** Every cell that [Calculate] can come to calculate lies in [U]: the
    dirty cells and the two ends of every edge of the graph. *)
Definition graphClosed (U : gset CellAddress) (s : Spreadsheet) : Prop :=
  dirtyOf s ⊆ U
  /\ forall a e, edgesAt s a = Some e -> e.1.1 ⊆ U /\ e.1.2 ⊆ U.

Definition graphCells (dg : DependencyGraph) : gset CellAddress :=
  ⋃ ((fun n => CellPrecedents n ∪ CellDependents n) <$> (map_to_list (nodes dg)).*2).

Definition universe (s : Spreadsheet) : gset CellAddress :=
  dirtySet (dependencyGraph s) ∪ volatileCells (dependencyGraph s)
  ∪ graphCells (dependencyGraph s).

(** Cells of [U] that are neither being processed nor completed. *)
Definition pending (U : gset CellAddress) (s : Spreadsheet) : nat :=
  size (U ∖ (processingOf s ∪ completedOf s)).

(** What a part of a calculation pass leaves as it is.  For every cell:
    the formula table, the edges of the graph, the formula ids of the
    store, and what is completed stays completed.  For the cells of [T]
    moreover: the stored formula result, whether the cell is completed or
    being processed, and a dirty cell stays dirty. *)
Record frame (T : CellAddress -> Prop) (s s' : Spreadsheet) : Prop := mkFrame {
  frame_formulas : formulas s' = formulas s;
  frame_edges : forall a, edgesAt s' a = edgesAt s a;
  frame_formulaID : forall a, formulaIDAt s' a = formulaIDAt s a;
  frame_completed : completedOf s ⊆ completedOf s';
  frame_resultType : forall t, T t -> resultTypeAt s' t = resultTypeAt s t;
  frame_resultCode : forall t, T t -> resultCodeAt s' t = resultCodeAt s t;
  frame_notCompleted : forall t, T t -> t ∈ completedOf s' -> t ∈ completedOf s;
  frame_processing : forall t, T t -> (t ∈ processingOf s' <-> t ∈ processingOf s);
  frame_dirty : forall t, T t -> t ∈ dirtyOf s -> t ∈ dirtyOf s'
}.

(** The stack of cells being processed is the same. *)
Definition stackSame (s s' : Spreadsheet) : Prop :=
  items (calculationStack s') = items (calculationStack s)
  /\ processingOf s' = processingOf s.

(** The cells other than [x]. *)
Definition allBut (x : CellAddress) : CellAddress -> Prop := fun t => t <> x.

(** ** The contract of a call of [calculateCell] *)

(** What a call keeps: an invariant [Inv] of the sheet, and that every
    cell the graph can lead to lies in [U]. *)
Definition calcGood (U : gset CellAddress) (Inv : Spreadsheet -> Prop) (s : Spreadsheet) : Prop :=
  Inv s /\ graphClosed U s.

(** How a call moves the stack: it is left as it was found, and what was
    completed stays completed. *)
Definition calcStep (s s' : Spreadsheet) : Prop :=
  stackSame s s' /\ completedOf s ⊆ completedOf s'.

(** The recursive call [rec] returns whenever fewer than [n] cells are
    pending, and the cell is completed afterwards (unless it was being
    processed). *)
Definition calcSpec (U : gset CellAddress) (Inv : Spreadsheet -> Prop)
  (rec : Spreadsheet -> CellAddress -> CalcResult) (n : nat) : Prop :=
  forall s y,
    calcGood U Inv s -> y ∈ U -> (pending U s < n)%nat ->
    exists s' r,
      rec s y = Some (s', r) /\ calcGood U Inv s' /\ calcStep s s'
      /\ (y ∈ processingOf s \/ y ∈ completedOf s').

(** ** Reference cycles *)

(** The cells of [T] are formula cells, and the formula of each refers
    to one cell, [next] of it, which is in [T] again, and to no range. *)
Definition pureCycle (T : gset CellAddress) (next : CellAddress -> CellAddress)
  (s : Spreadsheet) : Prop :=
  forall t, t ∈ T ->
    formulaCell s t /\ precedentsAt s t = Some ({[next t]}, ∅) /\ next t ∈ T.

(** Following [next] leads from every cell of [T] to every other. *)
Definition oneCycle (T : gset CellAddress) (next : CellAddress -> CellAddress) : Prop :=
  forall t u, t ∈ T -> u ∈ T -> exists k, Nat.iter k next t = u.

(** No cell of [T] has been calculated, or all hold [REF]. *)
Definition cycleUntouched (T : gset CellAddress) (s : Spreadsheet) : Prop :=
  forall t, t ∈ T -> (t ∉ completedOf s) /\ (t ∉ processingOf s).

Definition cycleDone (T : gset CellAddress) (s : Spreadsheet) : Prop :=
  forall t, t ∈ T -> t ∈ completedOf s /\ storedRef s t.

(** The invariant of a cycle through a calculation: either no cell of it
    has been touched and [t0] still is dirty, or all of them are done. *)
Definition cycleInv (T : gset CellAddress) (next : CellAddress -> CellAddress)
  (t0 : CellAddress) (s : Spreadsheet) : Prop :=
  pureCycle T next s /\ ((cycleUntouched T s /\ t0 ∈ dirtyOf s) \/ cycleDone T s).

(** The formula of [a] refers to the cell [b]. *)
Definition refersTo (s : Spreadsheet) (a b : CellAddress) : bool :=
  match precedentsAt s a with
  | Some e => bool_decide (b ∈ e.1)
  | None => false
  end.

(** The successor on the two-cell cycle of [sheetCycle]. *)
Definition swapA1B1 (c : CellAddress) : CellAddress := if decide (c = A1) then B1 else A1.

(** ** A range precedent that holds the cell itself *)



(** ** What the aggregations make of the numbers they consider *)

Section AggregationVocabulary.
Context `{GoLib}.
Local Open Scope float_scope.

(** The numbers that a list of values coerces to, in order; a value that
    does not coerce to a number other than [NaN] gives none. *)
Definition numbersOf (values : list Any) : list float := omap numericOf values.

Definition SUM_of (nums : list float) : Result :=
  OkNumber (round_15f (fold_left PrimFloat.add nums 0)).

Definition AVERAGE_of (nums : list float) : Result :=
  if decide (length nums = 0%nat)
  then Err (NewSpreadsheetError ErrorCodeDiv0 "Division by zero")
  else OkNumber (fold_left PrimFloat.add nums 0 / float64_of_int (Z.of_nat (length nums))).

(** The greatest and the least of the numbers; 0 when there is none. *)
Definition MAX_of (nums : list float) : Result :=
  match nums with
  | [] => OkNumber 0
  | _ => OkNumber (fold_left (fun max num => if PrimFloat.ltb max num then num else max)
                     nums neg_infinity)
  end.

Definition MIN_of (nums : list float) : Result :=
  match nums with
  | [] => OkNumber 0
  | _ => OkNumber (fold_left (fun min num => if PrimFloat.ltb num min then num else min)
                     nums infinity)
  end.

Definition MEDIAN_of (nums : list float) : Result :=
  if decide (length nums = 0%nat)
  then Err (NewSpreadsheetError ErrorCodeNum "MEDIAN has no numeric values")
  else
    let values := sortFloats nums in
    let mid := (length values / 2)%nat in
    if decide ((length values mod 2)%nat = 0%nat)
    then OkNumber ((nth (mid - 1) values 0 + nth mid values 0) / 2)
    else OkNumber (nth mid values 0).

Definition MODE_of (nums : list float) : Result :=
  let frequencyMap := fold_left frequencyMap_incr nums [] in
  if decide (length frequencyMap = 0%nat)
  then Err (NewSpreadsheetError ErrorCodeNum "MODE has no numeric values")
  else
    let maxFreq :=
      fold_left (fun maxFreq kv => if (maxFreq <? kv.2)%Z then kv.2 else maxFreq)
                frequencyMap 0%Z in
    let modes :=
      (List.filter (fun kv => bool_decide (kv.2 = maxFreq)) frequencyMap).*1 in
    if decide (maxFreq = 1%Z /\ length modes = length frequencyMap)
    then Err (NewSpreadsheetError ErrorCodeNA "MODE: no value appears more than once")
    else OkNumber (nth 0 (sortFloats modes) 0).

End AggregationVocabulary.

(** B1 = [=COUNTA(A1)], with nothing in A1. *)
Definition sheetCountaOfEmpty : Spreadsheet :=
  setOn sheet1 0 1 (PString "=COUNTA(A1)")
    (Parsed (FunctionCallNode "COUNTA" [CellRefNode 1 0 (-1)])).

(** ** More of the string table (intern table of cell texts) *)

Definition StringTable_Contains (st : StringTable) (s : string) : option N := stStrings st !! s.


Definition StringTable_GetReferenceCount (st : StringTable) (id : N) : Z :=
  default 0%Z (stRefCounts st !! id).

(** The table is well formed: texts and live ids correspond one to one,
    every live id is positive and below the next id, and exactly the
    live ids have a reference count, which is positive. *)
Record StringTable_wf (st : StringTable) : Prop := mkStringTable_wf {
  st_bijection : forall s id, stStrings st !! s = Some id <-> stReverseMap st !! id = Some s;
  st_bound : forall id, is_Some (stReverseMap st !! id) -> (0 < id < stNextID st)%N;
  st_next : (0 < stNextID st)%N;
  st_counted : forall id, is_Some (stReverseMap st !! id) <-> is_Some (stRefCounts st !! id);
  st_positive : forall id c, stRefCounts st !! id = Some c -> 0 < c
}.

(** ** Observations of the dependency graph *)

(** The cell precedents, cell dependents and range precedents of the
    node at an address (none when the graph has no node there), and the
    observers of a range. *)
Definition preOf (dg : DependencyGraph) (a : CellAddress) : gset CellAddress :=
  from_option CellPrecedents ∅ (nodes dg !! a).
Definition depOf (dg : DependencyGraph) (a : CellAddress) : gset CellAddress :=
  from_option CellDependents ∅ (nodes dg !! a).
Definition rngOf (dg : DependencyGraph) (a : CellAddress) : gset RangeAddress :=
  from_option RangePrecedents ∅ (nodes dg !! a).
Definition obsOf (dg : DependencyGraph) (r : RangeAddress) : gset CellAddress :=
  default ∅ (rangeObservers dg !! r).

(** The graph is well formed: every edge is recorded at both of its ends
    (so the node pointers that the maps of a node hold are the nodes of
    the graph), a range is a precedent of exactly its observers, and no
    range is kept without an observer. *)
Record graph_wf (dg : DependencyGraph) : Prop := mkGraph_wf {
  gw_edges : forall a p, p ∈ preOf dg a <-> a ∈ depOf dg p;
  gw_ranges : forall a r, r ∈ rngOf dg a <-> a ∈ obsOf dg r;
  gw_observed : forall r obs, rangeObservers dg !! r = Some obs -> obs <> ∅
}.

(** Two graphs have the same edges and observers. *)
Definition sameEdges (dg dg' : DependencyGraph) : Prop :=
  (forall a, preOf dg' a = preOf dg a) /\ (forall a, depOf dg' a = depOf dg a)
  /\ (forall a, rngOf dg' a = rngOf dg a) /\ rangeObservers dg' = rangeObservers dg.

Definition MarkRangeDirty (dg : DependencyGraph) (rangeAddr : RangeAddress) : DependencyGraph :=
  match rangeObservers dg !! rangeAddr with
  | Some observers => fold_left MarkDirty (elements observers) dg
  | None => dg
  end.

(** The graphs that the operations of graph.go can build from the empty
    one.  ([SetValue] writes only the cached value, which is left out
    here, and [Clear] gives the empty graph again.) *)
Inductive graphBuilt : DependencyGraph -> Prop :=
  | built_New : graphBuilt NewDependencyGraph
  | built_GetOrCreateNode dg a : graphBuilt dg -> graphBuilt (GetOrCreateNode dg a)
  | built_RemoveNode dg a : graphBuilt dg -> graphBuilt (RemoveNode dg a)
  | built_AddCellDependency dg a b : graphBuilt dg -> graphBuilt (AddCellDependency dg a b)
  | built_RemoveCellDependency dg a b :
      graphBuilt dg -> graphBuilt (RemoveCellDependency dg a b)
  | built_AddRangeDependency dg a r : graphBuilt dg -> graphBuilt (AddRangeDependency dg a r)
  | built_RemoveRangeDependency dg a r :
      graphBuilt dg -> graphBuilt (RemoveRangeDependency dg a r)
  | built_ClearDependencies dg a : graphBuilt dg -> graphBuilt (ClearDependencies dg a)
  | built_MarkDirty dg a : graphBuilt dg -> graphBuilt (MarkDirty dg a)
  | built_MarkRangeDirty dg r : graphBuilt dg -> graphBuilt (MarkRangeDirty dg r)
  | built_MarkCellIfInRangeDirty dg a :
      graphBuilt dg -> graphBuilt (MarkCellIfInRangeDirty dg a)
  | built_ClearDirty dg a : graphBuilt dg -> graphBuilt (ClearDirty dg a)
  | built_ClearAllDirty dg : graphBuilt dg -> graphBuilt (ClearAllDirty dg)
  | built_SetFormula dg a f : graphBuilt dg -> graphBuilt (SetFormula dg a f)
  | built_MarkVolatile dg a : graphBuilt dg -> graphBuilt (MarkVolatile dg a)
  | built_UnmarkVolatile dg a : graphBuilt dg -> graphBuilt (UnmarkVolatile dg a)
  | built_MarkAllVolatileDirty dg : graphBuilt dg -> graphBuilt (MarkAllVolatileDirty dg).

(** B1 reads A1 and the range A1:A2; C1 reads B1. *)
Definition C1cell : CellAddress := mkCellAddress 1 0 2.
Definition rangeA1A2 : RangeAddress := mkRangeAddress 1 0 0 1 0.
Definition sampleGraph : DependencyGraph :=
  AddCellDependency
    (AddRangeDependency (AddCellDependency NewDependencyGraph B1 A1) B1 rangeA1A2)
    C1cell B1.

(** ** Transitive dependents (graph.go)

    [visited] and [result] are shared by all the recursive calls;
    [vsEvents] counts the map iterations made so far. *)
Record VisitState := mkVisitState {
  vsVisited : gset CellAddress;
  vsResult : list CellAddress;
  vsEvents : nat
}.

Section GraphTraversal.
Context `{GoMapOrder}.

Fixpoint collectDependents (fuel : nat) (dg : DependencyGraph) (addr : CellAddress)
  (st : VisitState) : option VisitState :=
  match fuel with
  | O => None
  | S fuel =>
      if decide (addr ∈ vsVisited st) then Some st
      else
        let st := mkVisitState ({[addr]} ∪ vsVisited st) (vsResult st) (vsEvents st) in
        match nodes dg !! addr with
        | None => Some st
        | Some node =>
            fold_left
              (fun acc dependentAddr =>
                 match acc with
                 | None => None
                 | Some st =>
                     if decide (dependentAddr ∈ vsVisited st) then Some st
                     else collectDependents fuel dg dependentAddr
                            (mkVisitState (vsVisited st) (vsResult st ++ [dependentAddr])
                               (vsEvents st))
                 end)
              (goMapOrder (vsEvents st) (elements (CellDependents node)))
              (Some (mkVisitState (vsVisited st) (vsResult st) (S (vsEvents st))))
        end
  end.

(** The depth of the recursion is at most the number of nodes plus one:
    every call that goes deeper has marked a node of the graph. *)
Definition allDependents (dg : DependencyGraph) (events : nat) (addr : CellAddress)
  : option VisitState :=
  collectDependents (S (size (nodes dg))) dg addr (mkVisitState ∅ [] events).

Definition GetAllDependents (dg : DependencyGraph) (seed : nat) (addr : CellAddress)
  : option (list CellAddress) :=
  vsResult <$> allDependents dg seed addr.


End GraphTraversal.

(** One dependent edge, and the nodes of the graph not yet visited. *)
Definition dependentStep (dg : DependencyGraph) (a b : CellAddress) : Prop := b ∈ depOf dg a.
Definition unvisited (dg : DependencyGraph) (V : gset CellAddress) : nat :=
  size (dom (nodes dg) ∖ V).

(** What a call of [collectDependents] on an unvisited [addr] has done. *)
Definition collected (dg : DependencyGraph) (addr : CellAddress) (st st' : VisitState)
  : Prop :=
  {[addr]} ∪ vsVisited st ⊆ vsVisited st'
  /\ (forall x, x ∈ vsVisited st' -> x ∉ vsVisited st -> rtc (dependentStep dg) addr x)
  /\ (forall x, x ∈ vsVisited st' -> x ∉ vsVisited st -> depOf dg x ⊆ vsVisited st')
  /\ exists l, vsResult st' = vsResult st ++ l /\ NoDup l
               /\ forall x, x ∈ l <-> x ∈ vsVisited st' /\ (x ∉ vsVisited st) /\ x <> addr.

(** ** Calculation order (graph.go)

    [state] has no entry for an unvisited cell, [false] for a cell being
    visited and [true] for a visited one; [state], [order] and [hasCycle]
    are shared by all the calls of the closure [visit]. *)
Record OrderState := mkOrderState {
  osState : gmap CellAddress bool;
  osOrder : list CellAddress;
  osHasCycle : bool;
  osEvents : nat
}.

Section CalculationOrder.
Context `{GoMapOrder}.

Fixpoint visit (fuel : nat) (dg : DependencyGraph) (addr : CellAddress) (st : OrderState)
  : option (OrderState * bool) :=
  match fuel with
  | O => None
  | S fuel =>
      match osState st !! addr with
      | Some completed => Some (st, negb completed)
      | None =>
          let st := mkOrderState (<[addr := false]> (osState st)) (osOrder st)
                      (osHasCycle st) (osEvents st) in
          let visited :=
            match nodes dg !! addr with
            | Some node =>
                fold_left
                  (fun acc precedentAddr =>
                     match acc with
                     | None => None
                     | Some st =>
                         match visit fuel dg precedentAddr st with
                         | None => None
                         | Some (st, true) =>
                             Some (mkOrderState (osState st) (osOrder st) true (osEvents st))
                         | Some (st, false) => Some st
                         end
                     end)
                  (goMapOrder (osEvents st) (elements (CellPrecedents node)))
                  (Some (mkOrderState (osState st) (osOrder st) (osHasCycle st)
                           (S (osEvents st))))
            | None => Some st
            end in
          match visited with
          | None => None
          | Some st =>
              Some (mkOrderState (<[addr := true]> (osState st)) (osOrder st ++ [addr])
                      (osHasCycle st) (osEvents st), false)
          end
      end
  end.

(** A call of [visit] that goes deeper has marked a node of the graph, so
    the depth never exceeds the number of nodes plus one. *)
Definition GetCalculationOrder (dg : DependencyGraph) (seed : nat)
  : option (list CellAddress * bool) :=
  match
    fold_left
      (fun acc addr =>
         match acc with
         | None => None
         | Some st =>
             match osState st !! addr with
             | Some _ => Some st
             | None =>
                 match visit (S (size (nodes dg))) dg addr st with
                 | None => None
                 | Some (st, true) =>
                     Some (mkOrderState (osState st) (osOrder st) true (osEvents st))
                 | Some (st, false) => Some st
                 end
             end
         end)
      (goMapOrder seed (elements (dom (nodes dg))))
      (Some (mkOrderState ∅ [] false (S seed)))
  with
  | None => None
  | Some st => Some (osOrder st, osHasCycle st)
  end.

Definition HasCycle (dg : DependencyGraph) (seed : nat) : option bool :=
  snd <$> GetCalculationOrder dg seed.

End CalculationOrder.

(** One precedent edge, and a cell that reaches itself along such edges. *)
Definition precedentStep (dg : DependencyGraph) (a p : CellAddress) : Prop := p ∈ preOf dg a.
Definition cyclic (dg : DependencyGraph) : Prop := exists x, tc (precedentStep dg) x x.

(** Every cell of [l] has all its precedents in [seen] or earlier in [l]. *)
Fixpoint topoFrom (dg : DependencyGraph) (seen l : list CellAddress) : Prop :=
  match l with
  | [] => True
  | x :: l => (forall p, p ∈ preOf dg x -> p ∈ seen) /\ topoFrom dg (seen ++ [x]) l
  end.

(** The visited cells are the cells of [order], each once. *)
Definition orderInv (st : OrderState) : Prop :=
  (forall x, osState st !! x = Some true <-> x ∈ osOrder st) /\ NoDup (osOrder st).

(** What a call of [visit] on [a] has done. *)
Definition visitPost (dg : DependencyGraph) (a : CellAddress) (st st' : OrderState)
  (r : bool) : Prop :=
  orderInv st'
  /\ (forall x, osState st' !! x = Some false <-> osState st !! x = Some false)
  /\ dom (osState st) ⊆ dom (osState st')
  /\ (exists new, osOrder st' = osOrder st ++ new
                  /\ (osHasCycle st' = false -> topoFrom dg (osOrder st) new))
  /\ (osHasCycle st' = true -> osHasCycle st = true \/ cyclic dg)
  /\ (osHasCycle st = true -> osHasCycle st' = true)
  /\ (r = true -> cyclic dg)
  /\ (r = false -> osState st' !! a = Some true).

(** ** What a calculation keeps *)

(** [rec] keeps the property [P] of the sheet whenever it returns. *)
Definition keeps (P : Spreadsheet -> Prop) (rec : Spreadsheet -> CellAddress -> CalcResult)
  : Prop :=
  forall s x s' r, rec s x = Some (s', r) -> P s -> P s'.

(** What has been typed into the cells of a chunk, as opposed to the
    formula results: every array but the four [FormulaResult] ones. *)
Definition typedIn (ch : Chunk)
  : slice N * Z * slice Z * option (slice float) * option (slice N) * option (slice N) :=
  (Types ch, NonEmptyCount ch, OccupiedBitmap ch, Numbers ch, StringIDs ch, FormulaIDs ch).

Definition typedInAt (s : Spreadsheet) (c : CellAddress) :=
  typedIn <$> chunkAt s c.

(** The cell holds a number, a date or a boolean and no formula. *)
Definition plainNumberAt (s : Spreadsheet) (c : CellAddress) : Prop :=
  exists ch,
    chunkAt s c = Some ch
    /\ hasFormulaAt ch (cellIndex c) = false
    /\ (sliceGet 0%N (Types ch) (cellIndex c) = CellValueTypeNumber
        \/ sliceGet 0%N (Types ch) (cellIndex c) = CellValueTypeDate
        \/ sliceGet 0%N (Types ch) (cellIndex c) = CellValueTypeBoolean).

(** A1 = 2 and B1 = [=A1+1]. *)
Definition sheetNumberAndFormula : Spreadsheet :=
  setOn (setOn sheet1 0 0 (PNumber 2%float) (LexErrors ""))
    0 1 (PString "=A1+1")
    (Parsed (BinaryOpNode BinOpAdd (CellRefNode 1 0 (-1)) (NumberNode 1))).

(** ** The references of a formula *)

(** The cell that a relative reference written in [cellAddr] points to,
    if its row and column are not negative. *)
Definition cellTarget (cellAddr : CellAddress) (ws : N) (RowOffset ColOffset : Z)
  : option CellAddress :=
  let targetRow := int32 (int32 (Z.of_N (caRow cellAddr)) + RowOffset) in
  let targetCol := int32 (int32 (Z.of_N (caColumn cellAddr)) + ColOffset) in
  if bool_decide (0 <= targetRow) && bool_decide (0 <= targetCol)
  then Some (mkCellAddress (if decide (ws = 0%N) then caWorksheetID cellAddr else ws)
               (uint32 targetRow) (uint32 targetCol))
  else None.

Definition rangeTarget (cellAddr : CellAddress) (ws : N) (sro sco ero eco : Z)
  : option RangeAddress :=
  let startRow := int32 (int32 (Z.of_N (caRow cellAddr)) + sro) in
  let startCol := int32 (int32 (Z.of_N (caColumn cellAddr)) + sco) in
  let endRow := int32 (int32 (Z.of_N (caRow cellAddr)) + ero) in
  let endCol := int32 (int32 (Z.of_N (caColumn cellAddr)) + eco) in
  if bool_decide (0 <= startRow) && bool_decide (0 <= startCol)
     && bool_decide (0 <= endRow) && bool_decide (0 <= endCol)
  then Some (mkRangeAddress (if decide (ws = 0%N) then caWorksheetID cellAddr else ws)
               (uint32 startRow) (uint32 startCol) (uint32 endRow) (uint32 endCol))
  else None.

(** The cells, the ranges and the volatile functions that a tree mentions. *)
Fixpoint cellRefsOf (node : ASTNode) (cellAddr : CellAddress) : gset CellAddress :=
  match node with
  | CellRefNode ws ro co =>
      match cellTarget cellAddr ws ro co with Some t => {[t]} | None => ∅ end
  | BinaryOpNode _ l r => cellRefsOf l cellAddr ∪ cellRefsOf r cellAddr
  | UnaryOpNode _ operand => cellRefsOf operand cellAddr
  | FunctionCallNode _ args => ⋃ (map (fun arg => cellRefsOf arg cellAddr) args)
  | _ => ∅
  end.

Fixpoint rangeRefsOf (node : ASTNode) (cellAddr : CellAddress) : gset RangeAddress :=
  match node with
  | RangeNode ws sro sco ero eco =>
      match rangeTarget cellAddr ws sro sco ero eco with Some r => {[r]} | None => ∅ end
  | BinaryOpNode _ l r => rangeRefsOf l cellAddr ∪ rangeRefsOf r cellAddr
  | UnaryOpNode _ operand => rangeRefsOf operand cellAddr
  | FunctionCallNode _ args => ⋃ (map (fun arg => rangeRefsOf arg cellAddr) args)
  | _ => ∅
  end.

Fixpoint callsVolatile (node : ASTNode) : bool :=
  match node with
  | BinaryOpNode _ l r => callsVolatile l || callsVolatile r
  | UnaryOpNode _ operand => callsVolatile operand
  | FunctionCallNode name args =>
      bool_decide (strings_ToUpper name ∈ ["NOW"; "TODAY"; "RAND"])
      || existsb callsVolatile args
  | _ => false
  end.

(** From [s] to [s'] the cell [A] has gained the cell precedents [C] and
    the range precedents [R], and has become volatile if [v]; nothing else
    of the graph, the store or the formula table has changed. *)
Definition dependenciesAdded (A : CellAddress) (C : gset CellAddress) (R : gset RangeAddress)
  (v : bool) (s s' : Spreadsheet) : Prop :=
  (forall a, preOf (dependencyGraph s') a
             = preOf (dependencyGraph s) a ∪ (if decide (a = A) then C else ∅))
  /\ (forall a, depOf (dependencyGraph s') a
                = depOf (dependencyGraph s) a ∪ (if decide (a ∈ C) then {[A]} else ∅))
  /\ (forall a, rngOf (dependencyGraph s') a
                = rngOf (dependencyGraph s) a ∪ (if decide (a = A) then R else ∅))
  /\ (forall r, obsOf (dependencyGraph s') r
                = obsOf (dependencyGraph s) r ∪ (if decide (r ∈ R) then {[A]} else ∅))
  /\ ((forall r obs, rangeObservers (dependencyGraph s) !! r = Some obs -> obs <> ∅) ->
      forall r obs, rangeObservers (dependencyGraph s') !! r = Some obs -> obs <> ∅)
  /\ dirtySet (dependencyGraph s') = dirtySet (dependencyGraph s)
  /\ volatileCells (dependencyGraph s')
     = volatileCells (dependencyGraph s) ∪ (if v then {[A]} else ∅)
  /\ worksheets s' = worksheets s
  /\ strings s' = strings s
  /\ formulas s' = formulas s
  /\ calculationStack s' = calculationStack s.

(** ** The sheets that the engine can reach *)

Section SheetBuilt.
Context `{GoLib} `{GoMapOrder}.

(** The sheets built from the new one by [AddWorksheet], [Set] (whatever
    the parser makes of a formula text), [Remove] and [Calculate]. *)
Inductive sheetBuilt : Spreadsheet -> Prop :=
  | sheet_New : sheetBuilt NewSpreadsheet
  | sheet_AddWorksheet s name s' :
      sheetBuilt s -> AddWorksheet s name = inl s' -> sheetBuilt s'
  | sheet_Set s worksheetID row col value parse s' :
      sheetBuilt s -> Spreadsheet_Set s worksheetID row col value parse = inl s' ->
      sheetBuilt s'
  | sheet_Remove s worksheetID row col :
      sheetBuilt s -> sheetBuilt (Remove s worksheetID row col)
  | sheet_Calculate s fuel s' :
      sheetBuilt s -> Calculate fuel s = Some s' -> sheetBuilt s'.

End SheetBuilt.

(** * Properties *)
Section AggregationFacts.
Context `{GoLib}.

Lemma checkForError_numericOf (value : Any) (err : SpreadsheetError) :
  checkForError value = Some err -> numericOf value = None.
Proof. destruct value as [[]|]; simpl; intros; try discriminate; reflexivity. Qed.

Lemma expandRanges_cons (arg : Any) (args : list Any) :
  expandRanges (arg :: args) =
  match arg with ARange r => APrim <$> IterateValues r | _ => [arg] end ++ expandRanges args.
Proof. reflexivity. Qed.

Lemma expandRangesNonEmpty_cons (arg : Any) (args : list Any) :
  expandRangesNonEmpty (arg :: args) =
  match arg with
  | ARange r => APrim <$> List.filter (fun v => negb (isNil v)) (IterateValues r)
  | _ => [arg]
  end ++ expandRangesNonEmpty args.
Proof. reflexivity. Qed.

(** Proof pattern shared by the aggregation loops: split on every test
    the loop makes, then close with the induction hypothesis. *)
Ltac agg_cases IH :=
  repeat (simpl; match goal with
                 | |- context [match ?x with _ => _ end] => destruct x
                 end);
  simpl;
  try match goal with |- bindE ?x _ = bindE ?x _ => destruct x; simpl end;
  rewrite ?IH; try reflexivity; try apply IH.

Ltac values_as_direct :=
  let vals := fresh "vals" in
  let IH := fresh "IH" in
  intros vals; induction vals as [|[] vals IH]; intros; simpl; try reflexivity;
  agg_cases IH.

Ltac args_expand direct :=
  let args := fresh "args" in
  let IH := fresh "IH" in
  intros args; induction args as [|[[]|] args IH]; intros; rewrite ?expandRanges_cons;
  simpl; try reflexivity;
  [ agg_cases IH ..
  | rewrite direct;
    match goal with |- bindE ?x _ = bindE ?x _ => destruct x; simpl; [apply IH | reflexivity] end ].

Ltac args_filter :=
  let args := fresh "args" in
  let IH := fresh "IH" in
  intros args; induction args as [|arg args IH]; intros; [reflexivity|];
  simpl List.filter; destruct (considered arg) eqn:Hc;
  [ destruct arg as [[]|]; agg_cases IH
  | rewrite IH; destruct arg as [p|]; [|discriminate];
    unfold considered in Hc; apply orb_false_iff in Hc as [Hn He];
    apply bool_decide_eq_false in Hn, He;
    destruct (checkForError (APrim p)) eqn:E1; [exfalso; apply He; eauto|];
    destruct (numericOf (APrim p)) eqn:E2; [exfalso; apply Hn; eauto|];
    destruct p; simpl in *; rewrite ?E2; try reflexivity; try discriminate ].

Lemma SUM_values_direct : forall vals rest sum,
  SUM_args ((APrim <$> vals) ++ rest) sum = (sum' <- SUM_values vals sum ;; SUM_args rest sum').
Proof. values_as_direct. Qed.

Lemma SUM_args_expand : forall args sum, SUM_args (expandRanges args) sum = SUM_args args sum.
Proof. args_expand SUM_values_direct. Qed.

Lemma SUM_args_filter : forall args sum,
  SUM_args (List.filter considered args) sum = SUM_args args sum.
Proof. args_filter. Qed.

Lemma MAX_values_direct : forall vals rest acc,
  MAX_args ((APrim <$> vals) ++ rest) acc = (acc' <- MAX_values vals acc ;; MAX_args rest acc').
Proof. values_as_direct. Qed.
Lemma MAX_args_expand : forall args acc, MAX_args (expandRanges args) acc = MAX_args args acc.
Proof. args_expand MAX_values_direct. Qed.
Lemma MAX_args_filter : forall args acc,
  MAX_args (List.filter considered args) acc = MAX_args args acc.
Proof. args_filter. Qed.

Lemma MIN_values_direct : forall vals rest acc,
  MIN_args ((APrim <$> vals) ++ rest) acc = (acc' <- MIN_values vals acc ;; MIN_args rest acc').
Proof. values_as_direct. Qed.
Lemma MIN_args_expand : forall args acc, MIN_args (expandRanges args) acc = MIN_args args acc.
Proof. args_expand MIN_values_direct. Qed.
Lemma MIN_args_filter : forall args acc,
  MIN_args (List.filter considered args) acc = MIN_args args acc.
Proof. args_filter. Qed.

Lemma MEDIAN_values_direct : forall vals rest acc,
  MEDIAN_args ((APrim <$> vals) ++ rest) acc
  = (acc' <- MEDIAN_values vals acc ;; MEDIAN_args rest acc').
Proof. values_as_direct. Qed.
Lemma MEDIAN_args_expand : forall args acc,
  MEDIAN_args (expandRanges args) acc = MEDIAN_args args acc.
Proof. args_expand MEDIAN_values_direct. Qed.
Lemma MEDIAN_args_filter : forall args acc,
  MEDIAN_args (List.filter considered args) acc = MEDIAN_args args acc.
Proof. args_filter. Qed.

Lemma MODE_values_direct : forall vals rest acc,
  MODE_args ((APrim <$> vals) ++ rest) acc = (acc' <- MODE_values vals acc ;; MODE_args rest acc').
Proof. values_as_direct. Qed.
Lemma MODE_args_expand : forall args acc, MODE_args (expandRanges args) acc = MODE_args args acc.
Proof. args_expand MODE_values_direct. Qed.
Lemma MODE_args_filter : forall args acc,
  MODE_args (List.filter considered args) acc = MODE_args args acc.
Proof. args_filter. Qed.

Lemma AVERAGE_values_direct : forall vals rest acc,
  AVERAGE_args ((APrim <$> List.filter (fun v => negb (isNil v)) vals) ++ rest) acc
  = (acc' <- AVERAGE_values vals acc ;; AVERAGE_args rest acc').
Proof. values_as_direct. Qed.
Lemma AVERAGE_args_expand : forall args acc,
  AVERAGE_args (expandRangesNonEmpty args) acc = AVERAGE_args args acc.
Proof.
  intros args; induction args as [|[[]|] args IH]; intros; rewrite ?expandRangesNonEmpty_cons;
  simpl; try reflexivity; [agg_cases IH ..|].
  rewrite AVERAGE_values_direct.
  match goal with |- bindE ?x _ = bindE ?x _ => destruct x; simpl; [apply IH | reflexivity] end.
Qed.
Lemma AVERAGE_args_filter : forall args acc,
  AVERAGE_args (List.filter considered args) acc = AVERAGE_args args acc.
Proof. args_filter. Qed.

(** Every aggregation returns what it returns on the argument list in
    which every range is replaced by its values and the values that are
    not considered are left out (for AVERAGE, also the empty cells of a
    range). *)
Lemma aggregations_skip_unconsidered (args : list Any) :
  SUM args = SUM (List.filter considered (expandRanges args))
  /\ MAX args = MAX (List.filter considered (expandRanges args))
  /\ MIN args = MIN (List.filter considered (expandRanges args))
  /\ MEDIAN args = MEDIAN (List.filter considered (expandRanges args))
  /\ MODE args = MODE (List.filter considered (expandRanges args))
  /\ AVERAGE args = AVERAGE (List.filter considered (expandRangesNonEmpty args)).
Proof.
  unfold SUM, MAX, MIN, MEDIAN, MODE, AVERAGE.
  rewrite SUM_args_filter, SUM_args_expand, MAX_args_filter, MAX_args_expand,
    MIN_args_filter, MIN_args_expand, MEDIAN_args_filter, MEDIAN_args_expand,
    MODE_args_filter, MODE_args_expand, AVERAGE_args_filter, AVERAGE_args_expand.
  repeat split; reflexivity.
Qed.

(** *** COUNT and COUNTA *)

Lemma COUNT_values_count : forall vals count,
  COUNT_values vals count
  = (count + Z.of_nat (length (List.filter isNumber (APrim <$> vals))))%Z.
Proof.
  intros vals; induction vals as [|[] vals IH]; intros; cbn -[Z.of_nat Z.add];
    rewrite ?IH; cbn -[Z.of_nat Z.add]; lia.
Qed.

Lemma COUNT_args_count : forall args count,
  COUNT_args args count
  = match firstDirectError args with
    | Some err => inr err
    | None => inl (count + countNumbers args)%Z
    end.
Proof.
  unfold countNumbers.
  intros args; induction args as [|[[]|] args IH]; intros; rewrite ?expandRanges_cons;
    cbn -[Z.of_nat Z.add]; rewrite ?IH; try reflexivity;
    try (destruct (firstDirectError args); [reflexivity | f_equal; cbn -[Z.of_nat Z.add]; lia]).
  - f_equal; lia.
  - rewrite COUNT_values_count. destruct (firstDirectError args); [reflexivity|].
    f_equal. rewrite List.filter_app, length_app. lia.
Qed.

Lemma COUNTA_values_count : forall vals count,
  COUNTA_values vals count
  = (count + Z.of_nat (length (List.filter (fun v => negb (isNil v)) vals)))%Z.
Proof.
  intros vals; induction vals as [|[] vals IH]; intros; cbn -[Z.of_nat Z.add];
    rewrite ?IH; cbn -[Z.of_nat Z.add]; lia.
Qed.

Lemma COUNTA_args_count : forall args count,
  COUNTA_args args count
  = match firstDirectError args with
    | Some err => inr err
    | None => inl (count + countNonEmpty args)%Z
    end.
Proof.
  unfold countNonEmpty.
  intros args; induction args as [|[[]|] args IH]; intros; rewrite ?expandRangesNonEmpty_cons;
    cbn -[Z.of_nat Z.add]; rewrite ?IH; try reflexivity;
    try (destruct (firstDirectError args); [reflexivity | f_equal; cbn -[Z.of_nat Z.add]; lia]).
  - f_equal; lia.
  - rewrite COUNTA_values_count. destruct (firstDirectError args); [reflexivity|].
    f_equal. rewrite length_app, length_fmap. lia.
Qed.

(** X2.  COUNT returns the first direct argument that is an error value
    when there is one, and otherwise the number of values, direct or
    inside a range, that are numbers: booleans, strings, empty values and
    errors inside ranges add nothing and do not become the result.
    COUNTA returns the first direct error likewise, and otherwise one for
    every non-empty value of a range, errors included, plus one for every
    direct argument, empty or not. *)
Theorem COUNT_and_COUNTA_count (args : list Any) :
  COUNT args = match firstDirectError args with
               | Some err => Err err
               | None => OkNumber (float64_of_int (countNumbers args))
               end
  /\ COUNTA args = match firstDirectError args with
                   | Some err => Err err
                   | None => OkNumber (float64_of_int (countNonEmpty args))
                   end.
Proof.
  unfold COUNT, COUNTA. rewrite COUNT_args_count, COUNTA_args_count.
  destruct (firstDirectError args); split; reflexivity.
Qed.
End AggregationFacts.

Section EmptyAggregations.
Context `{GoLib}.

Lemma expandRanges_prims (args : list Any) :
  Forall (fun v => exists p, v = APrim p) (expandRanges args).
Proof.
  induction args as [|[p|r] args IH]; rewrite ?expandRanges_cons; simpl.
  - constructor.
  - constructor; eauto.
  - apply Forall_app. split; [|exact IH].
    apply Forall_fmap, Forall_true. intros p. simpl. eauto.
Qed.

Lemma expandRangesNonEmpty_prims (args : list Any) :
  Forall (fun v => exists p, v = APrim p) (expandRangesNonEmpty args).
Proof.
  induction args as [|[p|r] args IH]; rewrite ?expandRangesNonEmpty_cons; simpl.
  - constructor.
  - constructor; eauto.
  - apply Forall_app. split; [|exact IH].
    apply Forall_fmap, Forall_true. intros p. simpl. eauto.
Qed.

Lemma toNumber_numericOf (value : Any) : toNumber value = None -> numericOf value = None.
Proof. unfold numericOf. intros ->. reflexivity. Qed.

(** A list of direct values none of which is an error or coerces leaves
    the accumulator of a loop as it was. *)
Ltac skips_all :=
  let l := fresh "l" in
  let Hp := fresh "Hp" in
  let Hs := fresh "Hs" in
  let IH := fresh "IH" in
  intros l; induction l as [|v l IH]; intros ? Hp Hs; [reflexivity|];
  inversion Hp as [|? ? [p ->] Hp']; inversion Hs as [|? ? [Hn He] Hs']; subst;
  destruct p as [| |str|[]|]; simpl in Hn, He; try discriminate;
  simpl; unfold numericOf; simpl; rewrite Hn; auto.

Lemma MAX_args_skips : forall l acc,
  Forall (fun v => exists p, v = APrim p) l ->
  Forall (fun v => toNumber v = None /\ checkForError v = None) l ->
  MAX_args l acc = inl acc.
Proof. skips_all. Qed.

Lemma MIN_args_skips : forall l acc,
  Forall (fun v => exists p, v = APrim p) l ->
  Forall (fun v => toNumber v = None /\ checkForError v = None) l ->
  MIN_args l acc = inl acc.
Proof. skips_all. Qed.

Lemma AVERAGE_args_skips : forall l acc,
  Forall (fun v => exists p, v = APrim p) l ->
  Forall (fun v => toNumber v = None /\ checkForError v = None) l ->
  AVERAGE_args l acc = inl acc.
Proof. skips_all. Qed.

(** C9 (as amended).  When no argument of MAX or MIN, direct or inside a
    range, is an error value or coerces to a number, the function returns
    the number 0. *)
Theorem C9_MAX_MIN_of_no_numbers (args : list Any) :
  Forall (fun v => toNumber v = None /\ checkForError v = None) (expandRanges args) ->
  MAX args = OkNumber 0 /\ MIN args = OkNumber 0.
Proof.
  intros Hs. unfold MAX, MIN.
  rewrite <- MAX_args_expand, <- MIN_args_expand.
  rewrite MAX_args_skips, MIN_args_skips by (exact Hs || apply expandRanges_prims).
  split; reflexivity.
Qed.

Lemma AVERAGEA_values_direct : forall vals rest acc,
  AVERAGEA_args ((APrim <$> vals) ++ rest) acc
  = (acc' <- AVERAGEA_values vals acc ;; AVERAGEA_args rest acc').
Proof.
  intros vals; induction vals as [|[] vals IH]; intros; simpl; try reflexivity;
    rewrite ?IH; reflexivity.
Qed.

Lemma AVERAGEA_args_expand : forall args acc,
  AVERAGEA_args (expandRanges args) acc = AVERAGEA_args args acc.
Proof.
  intros args; induction args as [|[[]|] args IH]; intros; rewrite ?expandRanges_cons;
    simpl; rewrite ?IH; try reflexivity.
  rewrite AVERAGEA_values_direct.
  destruct (AVERAGEA_values (IterateValues r) acc); simpl; [apply IH | reflexivity].
Qed.

Lemma AVERAGEA_args_empty : forall l acc,
  Forall (fun v => v = APrim PNil) l -> AVERAGEA_args l acc = inl acc.
Proof.
  intros l; induction l as [|v l IH]; intros acc Hs; [reflexivity|].
  inversion Hs; subst. simpl. auto.
Qed.

(** C10 (as amended).  When the arguments of AVERAGEA hold no error value
    and nothing countable (every value, direct or inside a range, is
    empty), the result is the error of kind REF.  When the arguments of
    AVERAGE hold no error value and nothing that coerces to a number (the
    empty cells of ranges apart, which AVERAGE skips), the result is the
    error of kind DIV0. *)
Theorem C10_AVERAGEA_REF_AVERAGE_DIV0 (argsA args : list Any) :
  Forall (fun v => v = APrim PNil) (expandRanges argsA) ->
  Forall (fun v => toNumber v = None /\ checkForError v = None) (expandRangesNonEmpty args) ->
  AVERAGEA argsA = Err (NewSpreadsheetError ErrorCodeRef "AVERAGEA has no values")
  /\ AVERAGE args = Err (NewSpreadsheetError ErrorCodeDiv0 "Division by zero").
Proof.
  intros HA Hs. unfold AVERAGEA, AVERAGE.
  rewrite <- AVERAGEA_args_expand, <- AVERAGE_args_expand.
  rewrite AVERAGEA_args_empty by exact HA.
  rewrite AVERAGE_args_skips by (exact Hs || apply expandRangesNonEmpty_prims).
  split; reflexivity.
Qed.
End EmptyAggregations.

(** ** The numbers an aggregation considers *)

Section AggregationNumbers.
Context `{GoLib}.
#[local] Arguments numericOf : simpl never.
Local Open Scope float_scope.

Lemma numbersOf_cons (value : Any) (values : list Any) :
  numbersOf (value :: values)
  = match numericOf value with
    | Some num => num :: numbersOf values
    | None => numbersOf values
    end.
Proof. unfold numbersOf. simpl. destruct (numericOf value); reflexivity. Qed.

Lemma numericOf_error (e : SpreadsheetError) : numericOf (APrim (PError e)) = None.
Proof. reflexivity. Qed.

(** The loops on a list of direct values: the first error value, or the
    accumulator fed with the numbers of the list. *)
Ltac prims_loop :=
  let l := fresh "l" in
  let Hl := fresh "Hl" in
  let IH := fresh "IH" in
  intros l Hl; induction Hl as [|v l [p ->] _ IH]; intros; [reflexivity|];
  rewrite numbersOf_cons; destruct p as [|num|str|b|e]; simpl;
  try destruct (numericOf _); simpl; rewrite ?IH; reflexivity.

Lemma SUM_args_numbers : forall l,
  Forall (fun v => exists p, v = APrim p) l ->
  forall sum,
    SUM_args l sum
    = match firstDirectError l with
      | Some err => inr err
      | None => inl (fold_left PrimFloat.add (numbersOf l) sum)
      end.
Proof. prims_loop. Qed.

Lemma AVERAGE_args_numbers : forall l,
  Forall (fun v => exists p, v = APrim p) l ->
  forall acc,
    AVERAGE_args l acc
    = match firstDirectError l with
      | Some err => inr err
      | None => inl (fold_left PrimFloat.add (numbersOf l) acc.1,
                     (acc.2 + Z.of_nat (length (numbersOf l)))%Z)
      end.
Proof.
  intros l Hl; induction Hl as [|v l [p ->] _ IH]; intros [sum count].
  - simpl. rewrite Z.add_0_r. reflexivity.
  - rewrite numbersOf_cons. destruct p as [|num|str|b|e]; simpl;
      try destruct (numericOf _); simpl; rewrite ?IH; simpl;
      destruct (firstDirectError l); try reflexivity; do 2 f_equal; lia.
Qed.

Lemma MAX_args_numbers : forall l,
  Forall (fun v => exists p, v = APrim p) l ->
  forall acc,
    MAX_args l acc
    = match firstDirectError l with
      | Some err => inr err
      | None => inl (fold_left MAX_step (numbersOf l) acc)
      end.
Proof. prims_loop. Qed.

Lemma MIN_args_numbers : forall l,
  Forall (fun v => exists p, v = APrim p) l ->
  forall acc,
    MIN_args l acc
    = match firstDirectError l with
      | Some err => inr err
      | None => inl (fold_left MIN_step (numbersOf l) acc)
      end.
Proof. prims_loop. Qed.

Lemma MEDIAN_args_numbers : forall l,
  Forall (fun v => exists p, v = APrim p) l ->
  forall values,
    MEDIAN_args l values
    = match firstDirectError l with
      | Some err => inr err
      | None => inl (values ++ numbersOf l)
      end.
Proof.
  intros l Hl; induction Hl as [|v l [p ->] _ IH]; intros.
  - simpl. rewrite app_nil_r. reflexivity.
  - rewrite numbersOf_cons. destruct p as [|num|str|b|e]; simpl;
      try destruct (numericOf _); simpl; rewrite ?IH, <- ?app_assoc; reflexivity.
Qed.

Lemma MODE_args_numbers : forall l,
  Forall (fun v => exists p, v = APrim p) l ->
  forall m,
    MODE_args l m
    = match firstDirectError l with
      | Some err => inr err
      | None => inl (fold_left frequencyMap_incr (numbersOf l) m)
      end.
Proof. prims_loop. Qed.

Lemma fold_MAX_step (nums : list float) : forall max hasValues,
  fold_left MAX_step nums (max, hasValues)
  = (fold_left (fun max num => if PrimFloat.ltb max num then num else max) nums max,
     match nums with [] => hasValues | _ => true end).
Proof.
  induction nums as [|num nums IH]; intros; [reflexivity|].
  simpl. unfold MAX_step at 2. simpl. rewrite IH. destruct nums; reflexivity.
Qed.

Lemma fold_MIN_step (nums : list float) : forall min hasValues,
  fold_left MIN_step nums (min, hasValues)
  = (fold_left (fun min num => if PrimFloat.ltb num min then num else min) nums min,
     match nums with [] => hasValues | _ => true end).
Proof.
  induction nums as [|num nums IH]; intros; [reflexivity|].
  simpl. unfold MIN_step at 2. simpl. rewrite IH. destruct nums; reflexivity.
Qed.

Lemma SUM_numbers (args : list Any) :
  SUM args = match firstDirectError (expandRanges args) with
             | Some err => Err err
             | None => SUM_of (numbersOf (expandRanges args))
             end.
Proof.
  unfold SUM. rewrite <- SUM_args_expand, (SUM_args_numbers _ (expandRanges_prims args)).
  destruct (firstDirectError _); reflexivity.
Qed.

Lemma AVERAGE_numbers (args : list Any) :
  AVERAGE args = match firstDirectError (expandRangesNonEmpty args) with
                 | Some err => Err err
                 | None => AVERAGE_of (numbersOf (expandRangesNonEmpty args))
                 end.
Proof.
  unfold AVERAGE.
  rewrite <- AVERAGE_args_expand, (AVERAGE_args_numbers _ (expandRangesNonEmpty_prims args)).
  destruct (firstDirectError _); [reflexivity|]. unfold AVERAGE_of. cbn [fst snd].
  rewrite Z.add_0_l.
  destruct (decide (Z.of_nat (length (numbersOf (expandRangesNonEmpty args))) = 0%Z)),
    (decide (length (numbersOf (expandRangesNonEmpty args)) = 0%nat)); try lia; reflexivity.
Qed.

Lemma MAX_numbers (args : list Any) :
  MAX args = match firstDirectError (expandRanges args) with
             | Some err => Err err
             | None => MAX_of (numbersOf (expandRanges args))
             end.
Proof.
  unfold MAX. rewrite <- MAX_args_expand, (MAX_args_numbers _ (expandRanges_prims args)).
  destruct (firstDirectError _); [reflexivity|]. rewrite fold_MAX_step. unfold MAX_of.
  destruct (numbersOf (expandRanges args)); reflexivity.
Qed.

Lemma MIN_numbers (args : list Any) :
  MIN args = match firstDirectError (expandRanges args) with
             | Some err => Err err
             | None => MIN_of (numbersOf (expandRanges args))
             end.
Proof.
  unfold MIN. rewrite <- MIN_args_expand, (MIN_args_numbers _ (expandRanges_prims args)).
  destruct (firstDirectError _); [reflexivity|]. rewrite fold_MIN_step. unfold MIN_of.
  destruct (numbersOf (expandRanges args)); reflexivity.
Qed.

Lemma MEDIAN_numbers (args : list Any) :
  MEDIAN args = match firstDirectError (expandRanges args) with
                | Some err => Err err
                | None => MEDIAN_of (numbersOf (expandRanges args))
                end.
Proof.
  unfold MEDIAN. rewrite <- MEDIAN_args_expand, (MEDIAN_args_numbers _ (expandRanges_prims args)).
  destruct (firstDirectError _); reflexivity.
Qed.

Lemma MODE_numbers (args : list Any) :
  MODE args = match firstDirectError (expandRanges args) with
              | Some err => Err err
              | None => MODE_of (numbersOf (expandRanges args))
              end.
Proof.
  unfold MODE. rewrite <- MODE_args_expand, (MODE_args_numbers _ (expandRanges_prims args)).
  destruct (firstDirectError _); reflexivity.
Qed.

End AggregationNumbers.

Section AggregationTheorem.
Context `{GoLib}.
Local Open Scope float_scope.

(** C1 (as amended).  How a value is coerced does not depend on where it
    is found: a boolean counts as 1 or 0, a string is parsed, a number is
    itself, an empty value counts as 0, and what gives no number or gives
    NaN is not considered.  SUM, MAX, MIN, MEDIAN and MODE return the
    first error value among the values of their arguments (those of a
    range taken one by one, in order) when there is one, and otherwise
    what the function makes of the numbers that these values coerce to.
    AVERAGE does the same, except that it leaves out the empty cells of a
    range; an empty direct argument counts as 0 for it too. *)
Theorem C1_values_coerce_in_both_positions (args : list Any) :
  (forall b : bool, numericOf (APrim (PBool b)) = Some (if b then 1 else 0))
  /\ (forall s : string,
        numericOf (APrim (PString s))
        = match strconv_ParseFloat s with
          | Some num => if PrimFloat.is_nan num then None else Some num
          | None => None
          end)
  /\ (forall num : float,
        numericOf (APrim (PNumber num)) = if PrimFloat.is_nan num then None else Some num)
  /\ numericOf (APrim PNil) = Some 0
  /\ (forall e : SpreadsheetError, numericOf (APrim (PError e)) = None)
  /\ SUM args = match firstDirectError (expandRanges args) with
                | Some err => Err err
                | None => SUM_of (numbersOf (expandRanges args))
                end
  /\ MAX args = match firstDirectError (expandRanges args) with
                | Some err => Err err
                | None => MAX_of (numbersOf (expandRanges args))
                end
  /\ MIN args = match firstDirectError (expandRanges args) with
                | Some err => Err err
                | None => MIN_of (numbersOf (expandRanges args))
                end
  /\ MEDIAN args = match firstDirectError (expandRanges args) with
                   | Some err => Err err
                   | None => MEDIAN_of (numbersOf (expandRanges args))
                   end
  /\ MODE args = match firstDirectError (expandRanges args) with
                 | Some err => Err err
                 | None => MODE_of (numbersOf (expandRanges args))
                 end
  /\ AVERAGE args = match firstDirectError (expandRangesNonEmpty args) with
                    | Some err => Err err
                    | None => AVERAGE_of (numbersOf (expandRangesNonEmpty args))
                    end.
Proof.
  split; [intros []; reflexivity|].
  split; [intros s; unfold numericOf; simpl; reflexivity|].
  split; [intros num; reflexivity|].
  split; [reflexivity|].
  split; [intros e; reflexivity|].
  split; [apply SUM_numbers|].
  split; [apply MAX_numbers|].
  split; [apply MIN_numbers|].
  split; [apply MEDIAN_numbers|].
  split; [apply MODE_numbers|apply AVERAGE_numbers].
Qed.

End AggregationTheorem.

(** C4, the failing input.  COUNTA counts a direct argument that is empty:
    with nothing in A1, [=COUNTA(A1)] is 1, although the range that holds
    the same empty cell counts 0. *)
Lemma C4_COUNTA_counts_an_empty_direct_argument :
  @Get sampleLib sheetCountaOfEmpty 1 0 0 = PNil
  /\ (s ← @Calculate sampleLib sampleOrder 2 sheetCountaOfEmpty;
      Some (@Get sampleLib s 1 0 1)) = Some (PNumber 1)
  /\ COUNTA [APrim PNil] = OkNumber 1
  /\ COUNTA [sampleRange [PNil]] = OkNumber 0.
Proof. repeat split; vm_compute; reflexivity. Qed.


(** C1, counterexample.  A boolean and a numeric-looking string inside a
    range do count: MAX of a range holding only TRUE is 1 (it would be 0
    if the boolean were ignored), and AVERAGE of a range holding 3 and the
    string 5 is 4 (it would be 3). *)
Lemma C1_counterexample :
  @MAX sampleLib [sampleRange [PBool true]] = OkNumber 1
  /\ @AVERAGE sampleLib [sampleRange [PNumber 3; PString "5"]] = OkNumber 4.
Proof. split; reflexivity. Qed.

(** C9, counterexample.  MAX and MIN of a single error value: nothing
    coerces to a number, and the result is the error, not 0. *)
Lemma C9_counterexample :
  @toNumber sampleLib (APrim (PError errDiv0)) = None
  /\ @MAX sampleLib [APrim (PError errDiv0)] = Err errDiv0
  /\ @MIN sampleLib [APrim (PError errDiv0)] = Err errDiv0.
Proof. repeat split; reflexivity. Qed.

Lemma C9_witness :
  @MAX sampleLib [APrim (PString "abc"); sampleRange [PString "x"]] = OkNumber 0
  /\ @MIN sampleLib [APrim (PString "abc"); sampleRange [PString "x"]] = OkNumber 0.
Proof.
  apply (@C9_MAX_MIN_of_no_numbers sampleLib).
  repeat constructor.
Defined.

(** C10, counterexample.  AVERAGEA of a single error value: nothing is
    countable, and the result is that error (DIV0), not REF. *)
Lemma C10_counterexample :
  AVERAGEA [APrim (PError errDiv0)] = Err errDiv0
  /\ errCode errDiv0 = ErrorCodeDiv0.
Proof. split; reflexivity. Qed.

Lemma C10_witness :
  AVERAGEA [sampleRange [PNil; PNil]; APrim PNil]
  = Err (NewSpreadsheetError ErrorCodeRef "AVERAGEA has no values")
  /\ @AVERAGE sampleLib [sampleRange [PNil; PString "x"]; APrim (PString "abc")]
     = Err (NewSpreadsheetError ErrorCodeDiv0 "Division by zero").
Proof.
  apply (@C10_AVERAGEA_REF_AVERAGE_DIV0 sampleLib); repeat constructor.
Defined.

(** ** Comparison *)

Section Comparison.
Context `{GoLib}.

Lemma comparePrimitives_spec (left right : Any) :
  left <> APrim PNil -> right <> APrim PNil ->
  comparePrimitives left right = spec_compare left right.
Proof.
  intros Hl Hr. unfold comparePrimitives, spec_compare, numericOrder, lexicalOrder.
  destruct left as [[| | |[]|]|], right as [[| | |[]|]|]; try congruence;
    repeat match goal with
           | |- context [match ?x with _ => _ end] => destruct x eqn:?
           end; try reflexivity; simpl in *; congruence.
Qed.

Lemma comparePrimitives_not_incomparable (left right : Any) :
  comparePrimitives left right <> (-2)%Z.
Proof.
  unfold comparePrimitives.
  repeat match goal with
         | |- context [match ?x with _ => _ end] => destruct x
         end; discriminate.
Qed.

Lemma BinaryOp_apply_comparison (op : BinaryOp) (left right : Any) (b : bool) :
  checkForError left = None -> checkForError right = None ->
  comparisonTest op (comparePrimitives left right) = Some b ->
  BinaryOp_apply op left right = OkBool b.
Proof.
  intros Hl Hr Ht. unfold BinaryOp_apply. rewrite Hl, Hr.
  pose proof (comparePrimitives_not_incomparable left right) as Hc.
  destruct op; simpl in Ht; try discriminate; unfold orderedCompare;
    try (destruct (decide (comparePrimitives left right = (-2)%Z)); [contradiction|]);
    congruence.
Qed.

(** C5 (as amended).  For a comparison operator applied to two operands
    that are neither error values nor empty, the result is the operator's
    test on the three-way comparison that is numeric when both operands
    coerce to numbers, otherwise boolean against boolean (FALSE below
    TRUE), otherwise lexical over the operands' texts.  An empty operand
    is not coerced: it equals an empty operand and is below every other
    value. *)
Theorem C5_comparison_of_values (op : BinaryOp) (left right : Any) (b : bool) :
  checkForError left = None -> checkForError right = None ->
  comparisonTest op
    (match left, right with
     | APrim PNil, APrim PNil => 0
     | APrim PNil, _ => -1
     | _, APrim PNil => 1
     | _, _ => spec_compare left right
     end) = Some b ->
  BinaryOp_apply op left right = OkBool b.
Proof.
  intros Hl Hr Ht. apply BinaryOp_apply_comparison; [assumption..|].
  rewrite <- Ht. f_equal.
  destruct left as [[]|], right as [[]|]; try reflexivity;
    rewrite comparePrimitives_spec by discriminate; reflexivity.
Qed.
End Comparison.

(** C5, counterexample.  An empty operand and the number -5 both coerce
    to numbers (0 and -5), and 0 is not below -5; yet the operator [<]
    answers TRUE, and [=] between an empty operand and 0 answers FALSE. *)
Lemma C5_counterexample :
  @toNumber sampleLib (APrim PNil) = Some 0%float
  /\ @toNumber sampleLib (APrim (PNumber (-5)%float)) = Some (-5)%float
  /\ PrimFloat.ltb 0 (-5) = false
  /\ @BinaryOp_apply sampleLib BinOpLess (APrim PNil) (APrim (PNumber (-5)%float)) = OkBool true
  /\ @BinaryOp_apply sampleLib BinOpEqual (APrim PNil) (APrim (PNumber 0%float)) = OkBool false.
Proof. repeat split; reflexivity. Qed.

Lemma C5_witness :
  @BinaryOp_apply sampleLib BinOpLess (APrim (PBool false)) (APrim (PBool true)) = OkBool true
  /\ @BinaryOp_apply sampleLib BinOpGreater (APrim (PString "b")) (APrim (PString "a"))
     = OkBool true
  /\ @BinaryOp_apply sampleLib BinOpLessEqual (APrim (PString "10")) (APrim (PNumber 9))
     = OkBool false.
Proof.
  split; [|split].
  - apply (@C5_comparison_of_values sampleLib); reflexivity.
  - apply (@C5_comparison_of_values sampleLib); reflexivity.
  - apply (@C5_comparison_of_values sampleLib); reflexivity.
Defined.

(** ** The cell store *)

Section StoreFacts.
Context `{GoLib}.




Lemma NewStringTable_consistent : StringTable_consistent NewStringTable.
Proof. intros str id. unfold NewStringTable. simpl. rewrite lookup_empty. discriminate. Qed.

(** Interning keeps the table consistent as long as the next id is free
    (ids are handed out in increasing order, so it is until the counter
    wraps around). *)
Lemma StringTable_Intern_consistent (st : StringTable) (s : string) :
  StringTable_consistent st ->
  stReverseMap st !! stNextID st = None ->
  StringTable_consistent (StringTable_Intern st s).1.
Proof.
  intros Hc Hfresh str id. unfold StringTable_Intern.
  destruct (stStrings st !! s) as [id0|] eqn:E; simpl; [apply Hc|].
  destruct (decide (str = s)) as [->|Hne].
  - rewrite lookup_insert_eq. intros [= <-]. apply lookup_insert_eq.
  - rewrite lookup_insert_ne by congruence. intros Hs.
    pose proof (Hc _ _ Hs) as Hr.
    rewrite lookup_insert_ne; [exact Hr|]. intros Heq. rewrite Heq in Hfresh. congruence.
Qed.

Lemma StringTable_RemoveReference_consistent (st : StringTable) (id : N) :
  StringTable_consistent st ->
  StringTable_consistent (StringTable_RemoveReference st id).
Proof.
  intros Hc str id'. unfold StringTable_RemoveReference.
  destruct (stReverseMap st !! id) as [s|] eqn:E; [|apply Hc].
  destruct (_ <=? 0)%Z; simpl; [|apply Hc].
  destruct (decide (str = s)) as [->|Hne].
  - rewrite lookup_delete_eq. discriminate.
  - rewrite lookup_delete_ne by congruence. intros Hs.
    pose proof (Hc _ _ Hs) as Hr.
    rewrite lookup_delete_ne; [exact Hr|]. intros Heq. rewrite Heq in E. congruence.
Qed.

End StoreFacts.




(** C8, the failing input.  [Set(A1, 5)] followed by [Set(A1, nil)]
    brings the occupied-cell count of chunk (0,0) to zero, and the
    worksheet still holds the chunk, with no occupied cell in it;
    [Set(A1, 5)] followed by [Remove(A1)] drops the chunk. *)
Lemma C8_set_nil_keeps_the_empty_chunk :
  (NonEmptyCount <$>
     (definedWorksheets (worksheets sheetSetThenClear) !! 1%N
        ≫= fun w => chunks w !! mkChunkKey 0 0)) = Some 0
  /\ (Types <$>
       (definedWorksheets (worksheets sheetSetThenClear) !! 1%N
          ≫= fun w => chunks w !! mkChunkKey 0 0)) = Some {[0%N := CellValueTypeEmpty]}
  /\ @Get sampleLib sheetSetThenClear 1 0 0 = PNil
  /\ (chunks <$> definedWorksheets (worksheets sheetSetThenRemove) !! 1%N) = Some ∅.
Proof. repeat split; vm_compute; reflexivity. Qed.

(** ** The recalculation engine *)


Lemma chunk_slot_inj (row col row' col' : N) :
  chunkKeyOf row col = chunkKeyOf row' col' ->
  chunkIndexOf row col = chunkIndexOf row' col' ->
  row = row' /\ col = col'.
Proof.
  unfold chunkKeyOf, chunkIndexOf, ChunkRows, ChunkCols. intros [= Hr Hc] Hi.
  pose proof (N.div_mod row 256 ltac:(discriminate)) as H1.
  pose proof (N.div_mod row' 256 ltac:(discriminate)) as H2.
  pose proof (N.div_mod col 256 ltac:(discriminate)) as H3.
  pose proof (N.div_mod col' 256 ltac:(discriminate)) as H4.
  pose proof (N.mod_lt row 256 ltac:(discriminate)) as H5.
  pose proof (N.mod_lt row' 256 ltac:(discriminate)) as H6.
  pose proof (N.mod_lt col 256 ltac:(discriminate)) as H7.
  pose proof (N.mod_lt col' 256 ltac:(discriminate)) as H8.
  rewrite Hr in H1. rewrite Hc in H3.
  generalize dependent (row' / 256)%N. generalize dependent (col' / 256)%N.
  generalize dependent (row mod 256)%N. generalize dependent (row' mod 256)%N.
  generalize dependent (col mod 256)%N. generalize dependent (col' mod 256)%N.
  intros. lia.
Qed.

Lemma frame_refl (T : CellAddress -> Prop) (s : Spreadsheet) : frame T s s.
Proof. constructor; auto; reflexivity. Qed.

Lemma frame_trans (T : CellAddress -> Prop) (s1 s2 s3 : Spreadsheet) :
  frame T s1 s2 -> frame T s2 s3 -> frame T s1 s3.
Proof.
  intros H1 H2. constructor.
  - rewrite (frame_formulas _ _ _ H2). apply (frame_formulas _ _ _ H1).
  - intros a. rewrite (frame_edges _ _ _ H2). apply (frame_edges _ _ _ H1).
  - intros a. rewrite (frame_formulaID _ _ _ H2). apply (frame_formulaID _ _ _ H1).
  - etrans; [apply (frame_completed _ _ _ H1) | apply (frame_completed _ _ _ H2)].
  - intros t Ht. rewrite (frame_resultType _ _ _ H2 t Ht). apply (frame_resultType _ _ _ H1 t Ht).
  - intros t Ht. rewrite (frame_resultCode _ _ _ H2 t Ht). apply (frame_resultCode _ _ _ H1 t Ht).
  - intros t Ht Hc. apply (frame_notCompleted _ _ _ H1 t Ht), (frame_notCompleted _ _ _ H2 t Ht), Hc.
  - intros t Ht. rewrite (frame_processing _ _ _ H2 t Ht). apply (frame_processing _ _ _ H1 t Ht).
  - intros t Ht Hd. apply (frame_dirty _ _ _ H2 t Ht), (frame_dirty _ _ _ H1 t Ht), Hd.
Qed.

Lemma frame_weaken (T T' : CellAddress -> Prop) (s s' : Spreadsheet) :
  (forall t, T' t -> T t) -> frame T s s' -> frame T' s s'.
Proof. intros HT []. constructor; eauto. Qed.

Lemma stackSame_refl (s : Spreadsheet) : stackSame s s.
Proof. split; reflexivity. Qed.

Lemma stackSame_trans (s1 s2 s3 : Spreadsheet) :
  stackSame s1 s2 -> stackSame s2 s3 -> stackSame s1 s3.
Proof. intros [] []. split; congruence. Qed.

(** A step that touches neither the store, the formula table, the graph
    nor the stack. *)
Lemma frame_untouched (T : CellAddress -> Prop) (s s' : Spreadsheet) :
  worksheets s' = worksheets s -> formulas s' = formulas s ->
  dependencyGraph s' = dependencyGraph s -> calculationStack s' = calculationStack s ->
  frame T s s' /\ stackSame s s'.
Proof.
  intros Hw Hf Hg Hc. split; [constructor|split];
    unfold edgesAt, formulaIDAt, resultTypeAt, resultCodeAt, chunkAt, completedOf,
      processingOf, dirtyOf; intros; rewrite ?Hw, ?Hf, ?Hg, ?Hc in *; auto.
Qed.

(** *** Steps on the graph *)

Lemma edges_updateNode_IsDirty (dg : DependencyGraph) (addr a : CellAddress) (b : bool) :
  (fun n => (CellPrecedents n, CellDependents n, RangePrecedents n))
    <$> nodes (updateNode dg addr (fun n => node_setIsDirty n b)) !! a
  = (fun n => (CellPrecedents n, CellDependents n, RangePrecedents n)) <$> nodes dg !! a.
Proof.
  unfold updateNode. destruct (nodes dg !! addr) as [node|] eqn:E; [|reflexivity]. simpl.
  destruct (decide (addr = a)) as [->|Hne].
  - rewrite lookup_insert_eq, E. reflexivity.
  - rewrite lookup_insert_ne by assumption. reflexivity.
Qed.

Lemma dirtySet_updateNode (dg : DependencyGraph) (addr : CellAddress)
  (f : DependencyNode -> DependencyNode) :
  dirtySet (updateNode dg addr f) = dirtySet dg.
Proof. unfold updateNode. destruct (nodes dg !! addr); reflexivity. Qed.

Lemma volatileCells_updateNode (dg : DependencyGraph) (addr : CellAddress)
  (f : DependencyNode -> DependencyNode) :
  volatileCells (updateNode dg addr f) = volatileCells dg.
Proof. unfold updateNode. destruct (nodes dg !! addr); reflexivity. Qed.

Lemma edges_MarkDirty (dg : DependencyGraph) (addr a : CellAddress) :
  (fun n => (CellPrecedents n, CellDependents n, RangePrecedents n))
    <$> nodes (MarkDirty dg addr) !! a
  = (fun n => (CellPrecedents n, CellDependents n, RangePrecedents n)) <$> nodes dg !! a.
Proof. unfold MarkDirty. rewrite edges_updateNode_IsDirty. reflexivity. Qed.

Lemma dirtySet_MarkDirty (dg : DependencyGraph) (addr : CellAddress) :
  dirtySet (MarkDirty dg addr) = {[addr]} ∪ dirtySet dg.
Proof. unfold MarkDirty. rewrite dirtySet_updateNode. reflexivity. Qed.

Lemma edges_ClearDirty (dg : DependencyGraph) (addr a : CellAddress) :
  (fun n => (CellPrecedents n, CellDependents n, RangePrecedents n))
    <$> nodes (ClearDirty dg addr) !! a
  = (fun n => (CellPrecedents n, CellDependents n, RangePrecedents n)) <$> nodes dg !! a.
Proof. unfold ClearDirty. rewrite edges_updateNode_IsDirty. reflexivity. Qed.

Lemma dirtySet_ClearDirty (dg : DependencyGraph) (addr : CellAddress) :
  dirtySet (ClearDirty dg addr) = dirtySet dg ∖ {[addr]}.
Proof. unfold ClearDirty. rewrite dirtySet_updateNode. reflexivity. Qed.

Lemma edges_MarkDirty_list (l : list CellAddress) (dg : DependencyGraph) (a : CellAddress) :
  (fun n => (CellPrecedents n, CellDependents n, RangePrecedents n))
    <$> nodes (fold_left MarkDirty l dg) !! a
  = (fun n => (CellPrecedents n, CellDependents n, RangePrecedents n)) <$> nodes dg !! a.
Proof.
  revert dg. induction l as [|x l IH]; intros dg; simpl; [reflexivity|].
  rewrite IH. apply edges_MarkDirty.
Qed.

Lemma dirtySet_MarkDirty_list (l : list CellAddress) (dg : DependencyGraph) :
  dirtySet (fold_left MarkDirty l dg) = list_to_set l ∪ dirtySet dg.
Proof.
  revert dg. induction l as [|x l IH]; intros dg; simpl; [set_solver|].
  rewrite IH, dirtySet_MarkDirty. set_solver.
Qed.

(** A step that changes the graph only, keeps its edges, and keeps dirty
    the dirty cells of [T]. *)
Lemma frame_graph_step (T : CellAddress -> Prop) (s : Spreadsheet)
  (f : DependencyGraph -> DependencyGraph) :
  (forall a,
     (fun n => (CellPrecedents n, CellDependents n, RangePrecedents n))
       <$> nodes (f (dependencyGraph s)) !! a
     = (fun n => (CellPrecedents n, CellDependents n, RangePrecedents n))
         <$> nodes (dependencyGraph s) !! a) ->
  (forall t, T t -> t ∈ dirtySet (dependencyGraph s) -> t ∈ dirtySet (f (dependencyGraph s))) ->
  frame T s (s_graph s f) /\ stackSame s (s_graph s f).
Proof.
  intros He Hd. split; [constructor|split]; try reflexivity; auto.
Qed.

(** *** Storing a formula result *)

Section StoreResult.
Context `{GoLib}.
#[local] Arguments lazyGet : simpl never.
#[local] Arguments lazySet : simpl never.

(** What [SetFormulaResult] does to the chunk it writes. *)
Lemma SetFormulaResult_chunk (w : Worksheet) (st : StringTable) (row col : N) (result : Any)
  (key : ChunkKey) :
  match chunks w !! key with
  | None => chunks (SetFormulaResult w st row col result).1 !! key = None
  | Some ch =>
      exists ch',
        chunks (SetFormulaResult w st row col result).1 !! key = Some ch'
        /\ FormulaIDs ch' = FormulaIDs ch
        /\ forall idx,
             (key, idx) <> (chunkKeyOf row col, chunkIndexOf row col) ->
             lazyGet 0%N (FormulaResultTypes ch') idx = lazyGet 0%N (FormulaResultTypes ch) idx
             /\ lazyGet 0%float (FormulaResultNumbers ch') idx
                = lazyGet 0%float (FormulaResultNumbers ch) idx
  end.
Proof.
  unfold SetFormulaResult.
  destruct (chunks w !! chunkKeyOf row col) as [chunk|] eqn:Ek; simpl.
  2: { destruct (chunks w !! key) eqn:E; [|reflexivity]. eexists; repeat split; eauto. }
  assert (Hget : forall {V} (zero : V) (a : option (gmap N V)) (v : V) (idx : N),
             idx <> chunkIndexOf row col ->
             lazyGet zero (lazySet a (chunkIndexOf row col) v) idx = lazyGet zero a idx).
  { intros V zero a v idx Hne. unfold lazyGet, lazySet, sliceGet.
    rewrite lookup_insert_ne by congruence. destruct a; simpl; [reflexivity|].
    rewrite lookup_empty. reflexivity. }
  assert (Hdef : forall {V} (zero : V) (a : option (gmap N V)) (idx : N),
             lazyGet zero (Some (default ∅ a)) idx = lazyGet zero a idx).
  { intros V zero a idx. unfold lazyGet, sliceGet. destruct a; simpl; [reflexivity|].
    rewrite lookup_empty. reflexivity. }
  destruct (decide (key = chunkKeyOf row col)) as [->|Hk].
  - rewrite Ek.
    destruct result as [[|num|str|b|e]|r]; simpl;
      repeat match goal with
             | |- context [StringTable_Intern ?a ?b] => destruct (StringTable_Intern a b)
             end; simpl; rewrite lookup_insert_eq; eexists; (split; [reflexivity|]);
      (split; [reflexivity|]); simpl; intros idx Hne;
      assert (idx <> chunkIndexOf row col) by congruence;
      rewrite ?Hget, ?Hdef by assumption; split; reflexivity.
  - destruct (chunks w !! key) as [ch|] eqn:E.
    + exists ch.
      destruct result as [[|num|str|b|e]|r]; simpl;
        repeat match goal with
               | |- context [StringTable_Intern ?a ?b] => destruct (StringTable_Intern a b)
               end; simpl; rewrite lookup_insert_ne by congruence; auto.
    + destruct result as [[|num|str|b|e]|r]; simpl;
        repeat match goal with
               | |- context [StringTable_Intern ?a ?b] => destruct (StringTable_Intern a b)
               end; simpl; rewrite lookup_insert_ne by congruence; auto.
Qed.

(** What it writes at the cell itself when the result is an error. *)
Lemma SetFormulaResult_error (w : Worksheet) (st : StringTable) (row col : N)
  (e : SpreadsheetError) (ch : Chunk) :
  chunks w !! chunkKeyOf row col = Some ch ->
  exists ch',
    chunks (SetFormulaResult w st row col (APrim (PError e))).1 !! chunkKeyOf row col = Some ch'
    /\ lazyGet 0%N (FormulaResultTypes ch') (chunkIndexOf row col) = CellValueTypeError
    /\ lazyGet 0%float (FormulaResultNumbers ch') (chunkIndexOf row col)
       = float64_of_int (Z.of_N (errCode e)).
Proof.
  intros Ek. unfold SetFormulaResult. rewrite Ek. simpl.
  destruct (StringTable_Intern _ _). simpl. rewrite lookup_insert_eq.
  eexists. split; [reflexivity|]. simpl. unfold lazyGet, lazySet, sliceGet.
  rewrite !lookup_insert_eq. split; reflexivity.
Qed.

Lemma chunkAt_s_SetFormulaResult (s : Spreadsheet) (x : CellAddress) (v : Any)
  (a : CellAddress) :
  match chunkAt s a with
  | None => chunkAt (s_SetFormulaResult s x v) a = None
  | Some ch =>
      exists ch',
        chunkAt (s_SetFormulaResult s x v) a = Some ch'
        /\ FormulaIDs ch' = FormulaIDs ch
        /\ (a <> x ->
            lazyGet 0%N (FormulaResultTypes ch') (cellIndex a)
            = lazyGet 0%N (FormulaResultTypes ch) (cellIndex a)
            /\ lazyGet 0%float (FormulaResultNumbers ch') (cellIndex a)
               = lazyGet 0%float (FormulaResultNumbers ch) (cellIndex a))
  end.
Proof.
  unfold s_SetFormulaResult, chunkAt, GetWorksheet.
  destruct (definedWorksheets (worksheets s) !! caWorksheetID x) as [w|] eqn:Ew.
  2: { destruct (definedWorksheets (worksheets s) !! caWorksheetID a) as [w'|]; simpl;
         [|reflexivity].
       destruct (chunks w' !! _); [|reflexivity]. eexists; repeat split; eauto. }
  pose proof (SetFormulaResult_chunk w (strings s) (caRow x) (caColumn x) v
                (chunkKeyOf (caRow a) (caColumn a))) as Hc.
  destruct (SetFormulaResult w (strings s) (caRow x) (caColumn x) v) as [w' st'] eqn:Es.
  simpl in *.
  destruct (decide (caWorksheetID a = caWorksheetID x)) as [Hws|Hws].
  - rewrite Hws, Ew, lookup_insert_eq. simpl.
    destruct (chunks w !! chunkKeyOf (caRow a) (caColumn a)) as [ch|]; [|exact Hc].
    destruct Hc as (ch' & E1 & E2 & E3). exists ch'. split; [exact E1|]. split; [exact E2|].
    intros Hne. apply E3. intros Heq.
    assert (Hk : chunkKeyOf (caRow a) (caColumn a) = chunkKeyOf (caRow x) (caColumn x))
      by congruence.
    assert (Hi : cellIndex a = chunkIndexOf (caRow x) (caColumn x)) by congruence.
    destruct (chunk_slot_inj _ _ _ _ Hk Hi). destruct a, x; simpl in *; congruence.
  - rewrite lookup_insert_ne by congruence.
    destruct (definedWorksheets (worksheets s) !! caWorksheetID a) as [wa|]; simpl;
      [|reflexivity].
    destruct (chunks wa !! _); [|reflexivity]. eexists; repeat split; eauto.
Qed.

Lemma formulaIDAt_s_SetFormulaResult (s : Spreadsheet) (x : CellAddress) (v : Any)
  (a : CellAddress) :
  formulaIDAt (s_SetFormulaResult s x v) a = formulaIDAt s a.
Proof.
  unfold formulaIDAt. pose proof (chunkAt_s_SetFormulaResult s x v a) as Hc.
  destruct (chunkAt s a) as [ch|]; [|rewrite Hc; reflexivity].
  destruct Hc as (ch' & E1 & E2 & _). rewrite E1. simpl. rewrite E2. reflexivity.
Qed.

(** The other fields of the state. *)
Lemma s_SetFormulaResult_fields (s : Spreadsheet) (x : CellAddress) (v : Any) :
  formulas (s_SetFormulaResult s x v) = formulas s
  /\ dependencyGraph (s_SetFormulaResult s x v) = dependencyGraph s
  /\ calculationStack (s_SetFormulaResult s x v) = calculationStack s
  /\ events (s_SetFormulaResult s x v) = events s.
Proof.
  unfold s_SetFormulaResult. destruct (GetWorksheet _ _); [|auto].
  destruct (SetFormulaResult _ _ _ _ _). auto.
Qed.

(** Storing the result of [x] touches only [x]. *)
Lemma frame_s_SetFormulaResult (s : Spreadsheet) (x : CellAddress) (v : Any) :
  frame (allBut x) s (s_SetFormulaResult s x v) /\ stackSame s (s_SetFormulaResult s x v).
Proof.
  destruct (s_SetFormulaResult_fields s x v) as (Hf & Hg & Hc & _).
  split; [constructor|split]; unfold edgesAt, completedOf, processingOf, dirtyOf;
    rewrite ?Hf, ?Hg, ?Hc; auto.
  - apply formulaIDAt_s_SetFormulaResult.
  - intros t Ht. unfold resultTypeAt. pose proof (chunkAt_s_SetFormulaResult s x v t) as Hch.
    destruct (chunkAt s t) as [ch|]; [|rewrite Hch; reflexivity].
    destruct Hch as (ch' & -> & _ & E). simpl. apply E, Ht.
  - intros t Ht. unfold resultCodeAt. pose proof (chunkAt_s_SetFormulaResult s x v t) as Hch.
    destruct (chunkAt s t) as [ch|]; [|rewrite Hch; reflexivity].
    destruct Hch as (ch' & -> & _ & E). simpl. f_equal. apply E, Ht.
Qed.

(** Storing an error in a formula cell: the cell holds it. *)
Lemma s_SetFormulaResult_error (s : Spreadsheet) (x : CellAddress) (e : SpreadsheetError) :
  formulaIDAt s x <> 0%N ->
  resultTypeAt (s_SetFormulaResult s x (APrim (PError e))) x = CellValueTypeError
  /\ resultCodeAt (s_SetFormulaResult s x (APrim (PError e))) x
     = uint8_of_float64 (float64_of_int (Z.of_N (errCode e))).
Proof.
  intros Hid.
  assert (exists w ch, definedWorksheets (worksheets s) !! caWorksheetID x = Some w
                       /\ chunks w !! chunkKeyOf (caRow x) (caColumn x) = Some ch)
    as (w & ch & Ew & Ek).
  { unfold formulaIDAt, chunkAt, GetWorksheet in Hid.
    destruct (definedWorksheets (worksheets s) !! caWorksheetID x) as [w|] eqn:Ew;
      simpl in Hid; [|congruence].
    destruct (chunks w !! chunkKeyOf (caRow x) (caColumn x)) as [ch|] eqn:Ek; simpl in Hid;
      [|congruence].
    exists w, ch. split; [reflexivity|assumption]. }
  destruct (SetFormulaResult_error w (strings s) (caRow x) (caColumn x) e ch Ek)
    as (ch' & E1 & E2 & E3).
  unfold resultTypeAt, resultCodeAt, s_SetFormulaResult, chunkAt, GetWorksheet.
  rewrite Ew.
  destruct (SetFormulaResult w (strings s) (caRow x) (caColumn x) (APrim (PError e)))
    as [w' st'] eqn:Es.
  simpl in *. rewrite lookup_insert_eq. simpl. rewrite E1. simpl.
  unfold cellIndex. rewrite E2, E3. split; reflexivity.
Qed.
End StoreResult.

(** *** Steps on the stack and on the dirty set *)

Lemma frame_push (s : Spreadsheet) (x : CellAddress) :
  frame (allBut x) s (s_setStack s (cs_push (calculationStack s) x)).
Proof.
  constructor; try reflexivity; auto; unfold allBut, processingOf; simpl; intros t Ht.
  set_solver.
Qed.

Lemma frame_complete (s : Spreadsheet) (x : CellAddress) (rest : list CellAddress) :
  items (calculationStack s) = x :: rest ->
  frame (allBut x) s (s_setStack s (cs_markCompleted (cs_pop (calculationStack s)) x)).
Proof.
  intros Hi. constructor; try reflexivity; auto;
    unfold allBut, processingOf, completedOf, cs_pop; rewrite Hi; simpl.
  - set_solver.
  - intros t Ht. set_solver.
  - intros t Ht. set_solver.
Qed.

Lemma frame_ClearDirty (s : Spreadsheet) (x : CellAddress) :
  frame (allBut x) s (s_graph s (fun dg => ClearDirty dg x)).
Proof.
  apply (frame_graph_step (allBut x) s (fun dg => ClearDirty dg x)).
  - intros a. apply edges_ClearDirty.
  - intros t Ht Hd. rewrite dirtySet_ClearDirty. unfold allBut in Ht. set_solver.
Qed.

Lemma frame_MarkDirty_list (T : CellAddress -> Prop) (s : Spreadsheet)
  (l : DependencyGraph -> list CellAddress) :
  frame T s (s_graph s (fun dg => fold_left MarkDirty (l dg) dg)).
Proof.
  apply (frame_graph_step T s (fun dg => fold_left MarkDirty (l dg) dg)).
  - intros a. apply edges_MarkDirty_list.
  - intros t Ht Hd. rewrite dirtySet_MarkDirty_list. set_solver.
Qed.

Lemma graphClosed_step (U : gset CellAddress) (s s' : Spreadsheet) :
  graphClosed U s -> (forall a, edgesAt s' a = edgesAt s a) -> dirtyOf s' ⊆ U ->
  graphClosed U s'.
Proof.
  intros [Hd He] Hedges Hdirty. split; [assumption|].
  intros a e Ha. rewrite Hedges in Ha. eauto.
Qed.

Lemma pending_mono (U : gset CellAddress) (s s' : Spreadsheet) :
  processingOf s ⊆ processingOf s' -> completedOf s ⊆ completedOf s' ->
  (pending U s' <= pending U s)%nat.
Proof. intros Hp Hc. unfold pending. apply subseteq_size. set_solver. Qed.

Lemma pending_push (U : gset CellAddress) (s : Spreadsheet) (x : CellAddress) :
  x ∈ U -> x ∉ processingOf s -> x ∉ completedOf s ->
  (pending U (s_setStack s (cs_push (calculationStack s) x)) < pending U s)%nat.
Proof.
  intros HU Hp Hc. unfold pending, processingOf, completedOf in *. simpl.
  apply subset_size. set_solver.
Qed.

Lemma calcStep_refl (s : Spreadsheet) : calcStep s s.
Proof. split; [apply stackSame_refl|reflexivity]. Qed.

Lemma calcStep_trans (s1 s2 s3 : Spreadsheet) :
  calcStep s1 s2 -> calcStep s2 s3 -> calcStep s1 s3.
Proof. intros [H1 H2] [H3 H4]. split; [eapply stackSame_trans; eauto|set_solver]. Qed.

Lemma calcStep_pending (U : gset CellAddress) (s s' : Spreadsheet) :
  calcStep s s' -> (pending U s' <= pending U s)%nat.
Proof. intros [[_ Hp] Hc]. apply pending_mono; [rewrite Hp; reflexivity|exact Hc]. Qed.

Lemma calcStep_stack (s s' : Spreadsheet) :
  calculationStack s' = calculationStack s -> calcStep s s'.
Proof. intros E. unfold calcStep, stackSame, processingOf, completedOf. rewrite E. auto. Qed.

(** *** [calculateCell] returns *)

Section CalculateCellTotal.
Context `{GoLib} `{GoMapOrder}.
Variables (U T : gset CellAddress) (Inv : Spreadsheet -> Prop).
Hypothesis Inv_frame : forall s s', Inv s -> frame (fun t => t ∈ T) s s' -> Inv s'.
Hypothesis Inv_clear :
  forall s y, Inv s -> y ∈ completedOf s -> Inv (s_graph s (fun dg => ClearDirty dg y)).
Hypothesis Inv_target :
  forall fuel s t,
    t ∈ T -> calcGood U Inv s -> t ∈ U -> (pending U s < fuel)%nat ->
    exists s' r,
      calculateCell fuel s t = Some (s', r) /\ calcGood U Inv s' /\ calcStep s s'
      /\ (t ∈ processingOf s \/ t ∈ completedOf s').

(** A step on a cell outside [T] that keeps the dirty cells inside [U]. *)
Lemma calcGood_step (s s' : Spreadsheet) (x : CellAddress) :
  calcGood U Inv s -> x ∉ T -> frame (allBut x) s s' -> dirtyOf s' ⊆ U ->
  calcGood U Inv s'.
Proof.
  intros [HI HG] Hx Hf Hd. split.
  - apply (Inv_frame s s' HI). eapply frame_weaken; [|exact Hf].
    intros t Ht. unfold allBut. congruence.
  - eapply graphClosed_step; eauto. apply (frame_edges _ _ _ Hf).
Qed.

Lemma calcGood_untouched (s s' : Spreadsheet) :
  calcGood U Inv s ->
  worksheets s' = worksheets s -> formulas s' = formulas s ->
  dependencyGraph s' = dependencyGraph s -> calculationStack s' = calculationStack s ->
  calcGood U Inv s'.
Proof.
  intros [HI HG] Hw Hf Hg Hc.
  destruct (frame_untouched (fun t => t ∈ T) s s' Hw Hf Hg Hc) as [Hfr _]. split.
  - eapply Inv_frame; eauto.
  - eapply graphClosed_step; eauto; [apply (frame_edges _ _ _ Hfr)|].
    unfold dirtyOf. rewrite Hg. apply HG.
Qed.

Lemma calculatePrecedents_total (rec : Spreadsheet -> CellAddress -> CalcResult) (n : nat) :
  calcSpec U Inv rec n ->
  forall precedents s,
    calcGood U Inv s -> (pending U s < n)%nat -> (forall p, p ∈ precedents -> p ∈ U) ->
    exists s' r,
      calculatePrecedents rec s precedents = Some (s', r) /\ calcGood U Inv s' /\ calcStep s s'.
Proof.
  intros Hrec. induction precedents as [|p rest IH]; intros s HG Hn HU; simpl.
  - exists s, None. auto using calcStep_refl.
  - destruct (Hrec s p HG) as (s1 & r1 & E & HG1 & Hs1 & _); [set_solver|assumption|].
    rewrite E. pose proof (calcStep_pending U _ _ Hs1) as Hp.
    destruct (IH s1 HG1) as (s2 & r2 & E2 & HG2 & Hs2); [lia|set_solver|].
    destruct r1 as [err|].
    + destruct (decide (errCode err = ErrorCodeRef)).
      * exists s1, (Some err). auto.
      * exists s2, r2. eauto using calcStep_trans.
    + exists s2, r2. eauto using calcStep_trans.
Qed.

Lemma calculateRangeCells_total (rec : Spreadsheet -> CellAddress -> CalcResult) (n : nat) :
  calcSpec U Inv rec n ->
  forall cells s,
    calcGood U Inv s -> (pending U s < n)%nat ->
    exists s', calculateRangeCells rec s cells = Some s' /\ calcGood U Inv s' /\ calcStep s s'.
Proof.
  intros Hrec. induction cells as [|c rest IH]; intros s HG Hn; simpl.
  - exists s. auto using calcStep_refl.
  - case_bool_decide as Hd; [|auto].
    destruct (Hrec s c HG) as (s1 & r1 & E & HG1 & Hs1 & _); [apply HG, Hd|assumption|].
    rewrite E. pose proof (calcStep_pending U _ _ Hs1) as Hp.
    destruct (IH s1 HG1) as (s2 & E2 & HG2 & Hs2); [lia|].
    exists s2. eauto using calcStep_trans.
Qed.

Lemma calculateRanges_total (rec : Spreadsheet -> CellAddress -> CalcResult) (n : nat) :
  calcSpec U Inv rec n ->
  forall ranges s,
    calcGood U Inv s -> (pending U s < n)%nat ->
    exists s', calculateRanges rec s ranges = Some s' /\ calcGood U Inv s' /\ calcStep s s'.
Proof.
  intros Hrec. induction ranges as [|r rest IH]; intros s HG Hn; simpl.
  - exists s. auto using calcStep_refl.
  - destruct (calculateRangeCells_total rec n Hrec (rangeCellsOf r) s HG Hn)
      as (s1 & E & HG1 & Hs1).
    rewrite E. pose proof (calcStep_pending U _ _ Hs1) as Hp.
    destruct (IH s1 HG1) as (s2 & E2 & HG2 & Hs2); [lia|].
    exists s2. eauto using calcStep_trans.
Qed.

Lemma calcGood_tick (s : Spreadsheet) : calcGood U Inv s -> calcGood U Inv (s_tick s).
Proof. intros HG. apply (calcGood_untouched s); auto. Qed.

Lemma calcGood_ClearDirty (s : Spreadsheet) (x : CellAddress) :
  calcGood U Inv s -> x ∉ T -> calcGood U Inv (s_graph s (fun dg => ClearDirty dg x)).
Proof.
  intros HG Hx. apply (calcGood_step s _ x HG Hx (frame_ClearDirty s x)).
  unfold dirtyOf. simpl. rewrite dirtySet_ClearDirty. destruct HG as [_ [Hd _]].
  unfold dirtyOf in Hd. set_solver.
Qed.

Lemma calcGood_store (s : Spreadsheet) (x : CellAddress) (v : Any) :
  calcGood U Inv s -> x ∉ T -> calcGood U Inv (s_SetFormulaResult s x v).
Proof.
  intros HG Hx. destruct (frame_s_SetFormulaResult s x v) as [Hf _].
  apply (calcGood_step s _ x HG Hx Hf).
  destruct (s_SetFormulaResult_fields s x v) as (_ & Hg & _).
  unfold dirtyOf. rewrite Hg. apply HG.
Qed.

Lemma calcStep_store_clear (s : Spreadsheet) (x : CellAddress) (v : Any) :
  calcStep s (s_graph (s_SetFormulaResult s x v) (fun dg => ClearDirty dg x)).
Proof.
  apply calcStep_stack. simpl. apply (s_SetFormulaResult_fields s x v).
Qed.

Lemma dependents_closed (s : Spreadsheet) (x : CellAddress) :
  graphClosed U s -> list_to_set (GetDirectDependents (dependencyGraph s) x) ⊆ U.
Proof.
  intros [_ He]. unfold GetDirectDependents.
  destruct (nodes (dependencyGraph s) !! x) as [node|] eqn:E; [|set_solver].
  specialize (He x (CellPrecedents node, CellDependents node, RangePrecedents node)).
  unfold edgesAt in He. rewrite E in He. destruct (He eq_refl) as [_ Hd]. simpl in Hd.
  intros a Ha. apply Hd. set_solver.
Qed.

Lemma precedents_closed (s : Spreadsheet) (seed : nat) (x p : CellAddress) :
  graphClosed U s -> p ∈ GetDirectPrecedents (dependencyGraph s) seed x -> p ∈ U.
Proof.
  intros [_ He]. unfold GetDirectPrecedents.
  destruct (nodes (dependencyGraph s) !! x) as [node|] eqn:E; [|set_solver].
  specialize (He x (CellPrecedents node, CellDependents node, RangePrecedents node)).
  unfold edgesAt in He. rewrite E in He. destruct (He eq_refl) as [Hp _]. simpl in Hp.
  rewrite goMapOrder_perm. intros Ha. apply Hp. set_solver.
Qed.

Lemma evaluateAndStore_total (s : Spreadsheet) (ast : ASTNode) (x : CellAddress) :
  calcGood U Inv s -> x ∉ T ->
  calcGood U Inv (evaluateAndStore s ast x) /\ calcStep s (evaluateAndStore s ast x).
Proof.
  intros HG Hx. unfold evaluateAndStore.
  destruct (Eval ast (s_setCurrentAddress s x) (events (s_setCurrentAddress s x)))
    as [result calls].
  set (s1 := s_setEvents (s_setCurrentAddress s x) calls).
  assert (HG1 : calcGood U Inv s1) by (apply (calcGood_untouched s); auto).
  assert (Hs1 : calculationStack s1 = calculationStack s) by reflexivity.
  assert (Herr : forall e,
            calcGood U Inv (s_SetFormulaResult s1 x (APrim (PError e)))
            /\ calcStep s (s_SetFormulaResult s1 x (APrim (PError e)))).
  { intros e. split; [apply calcGood_store; assumption|].
    apply calcStep_stack. rewrite <- Hs1. apply (s_SetFormulaResult_fields s1 x). }
  assert (Hok : forall v,
            let s2 := s_graph (s_SetFormulaResult s1 x v) (fun dg => ClearDirty dg x) in
            let s3 := s_graph s2 (fun dg => fold_left MarkDirty (GetDirectDependents dg x) dg) in
            calcGood U Inv s3 /\ calcStep s s3).
  { intros v s2 s3.
    assert (HG2 : calcGood U Inv s2)
      by (apply calcGood_ClearDirty; [apply calcGood_store|]; assumption).
    split.
    - apply (calcGood_step s2 s3 x HG2 Hx).
      + apply (frame_MarkDirty_list (allBut x) s2 (fun dg => GetDirectDependents dg x)).
      + unfold s3, dirtyOf. simpl. rewrite dirtySet_MarkDirty_list.
        pose proof (dependents_closed s2 x (proj2 HG2)) as Hd.
        destruct HG2 as [_ [Hd2 _]]. unfold dirtyOf in Hd2. set_solver.
    - apply calcStep_stack. unfold s3, s2. simpl. rewrite <- Hs1.
      apply (s_SetFormulaResult_fields s1 x). }
  destruct result as [[[|num|str|b|e]|r]|e]; auto; apply Hok.
Qed.

Lemma calculateCell_body_total (rec : Spreadsheet -> CellAddress -> CalcResult) (n : nat) :
  calcSpec U Inv rec n ->
  forall s x,
    calcGood U Inv s -> (pending U s < n)%nat -> x ∉ T ->
    exists s' r,
      calculateCell_body rec s x = Some (s', r) /\ calcGood U Inv s' /\ calcStep s s'.
Proof.
  intros Hrec s x HG Hn Hx. unfold calculateCell_body.
  destruct (GetWorksheet (worksheets s) (caWorksheetID x)) as [w|];
    [|exists s, None; auto using calcStep_refl].
  assert (Hno : exists s' r,
            Some (s_graph s (fun dg => ClearDirty dg x), @None SpreadsheetError) = Some (s', r)
            /\ calcGood U Inv s' /\ calcStep s s').
  { eexists _, _. split; [reflexivity|]. split; [apply calcGood_ClearDirty; assumption|].
    apply calcStep_stack. reflexivity. }
  destruct (GetCell w (strings s) (formulas s) (caRow x) (caColumn x)) as [cell|]; [|exact Hno].
  destruct (decide (cellFormulaID cell = 0%N)); [exact Hno|]. clear Hno.
  destruct (GetAST (formulas s) (cellFormulaID cell)) as [ast|];
    [|exists s, None; auto using calcStep_refl].
  destruct (existsb (IsInRange x) (GetRangePrecedents (dependencyGraph s) (events s) x)).
  { eexists _, _. split; [reflexivity|]. split.
    - apply calcGood_ClearDirty; [apply calcGood_store|]; auto using calcGood_tick.
    - eapply calcStep_trans; [|apply calcStep_store_clear]. apply calcStep_stack. reflexivity. }
  set (s1 := s_tick (s_tick s)).
  assert (HG1 : calcGood U Inv s1) by (apply calcGood_tick, calcGood_tick, HG).
  assert (Hs1 : calcStep s s1) by (apply calcStep_stack; reflexivity).
  destruct (calculatePrecedents_total rec n Hrec
              (GetDirectPrecedents (dependencyGraph (s_tick s)) (events (s_tick s)) x) s1 HG1)
    as (s2 & r2 & E2 & HG2 & Hs2).
  { exact Hn. }
  { intros p Hp. eapply (precedents_closed (s_tick s)); [|exact Hp].
    apply (calcGood_tick s HG). }
  fold s1. rewrite E2. pose proof (calcStep_pending U _ _ Hs2) as Hp2.
  destruct r2 as [err|].
  { eexists _, _. split; [reflexivity|]. split.
    - apply calcGood_ClearDirty; [apply calcGood_store|]; auto.
    - eapply calcStep_trans; [exact Hs1|]. eapply calcStep_trans; [exact Hs2|].
      apply calcStep_store_clear. }
  destruct (calculateRanges_total rec n Hrec
              (GetRangePrecedents (dependencyGraph s2) (events s2) x) (s_tick s2))
    as (s3 & E3 & HG3 & Hs3).
  { auto using calcGood_tick. }
  { change (pending U s2 < n)%nat. change (pending U s1) with (pending U s) in Hp2. lia. }
  rewrite E3. destruct (evaluateAndStore_total s3 ast x HG3 Hx) as [HG4 Hs4].
  eexists _, _. split; [reflexivity|]. split; [exact HG4|].
  eapply calcStep_trans; [exact Hs1|]. eapply calcStep_trans; [exact Hs2|].
  eapply calcStep_trans; [|exact Hs4]. eapply calcStep_trans; [|exact Hs3].
  apply calcStep_stack. reflexivity.
Qed.

(** [calculateCell] returns, with fuel above the count of pending cells. *)
Lemma calculateCell_total (fuel : nat) : calcSpec U Inv (calculateCell fuel) fuel.
Proof.
  induction fuel as [|fuel IH]; intros s x HG HU Hn; [lia|].
  destruct (decide (x ∈ T)) as [HT|HT]; [apply Inv_target; auto|].
  simpl. unfold cs_isCompleted, cs_isProcessing.
  case_bool_decide as Hc.
  { exists s, None. auto using calcStep_refl. }
  case_bool_decide as Hp.
  { exists s, (Some circularErr). auto using calcStep_refl. }
  set (s1 := s_setStack s (cs_push (calculationStack s) x)).
  assert (HG1 : calcGood U Inv s1).
  { apply (calcGood_step s s1 x HG HT (frame_push s x)). apply HG. }
  assert (Hn1 : (pending U s1 < fuel)%nat).
  { pose proof (pending_push U s x HU Hp Hc). fold s1 in H1. lia. }
  destruct (calculateCell_body_total (calculateCell fuel) fuel IH s1 x HG1 Hn1 HT)
    as (s2 & r & E & HG2 & [[Hi2 Hp2] Hc2]).
  rewrite E. eexists _, _. split; [reflexivity|].
  assert (Hitems : items (calculationStack s2) = x :: items (calculationStack s))
    by (rewrite Hi2; reflexivity).
  split; [|split; [split; [split|]|]].
  - apply (calcGood_step s2 _ x HG2 HT (frame_complete s2 x _ Hitems)). apply HG2.
  - simpl. unfold cs_pop. rewrite Hitems. reflexivity.
  - unfold processingOf in *. simpl. unfold cs_pop. rewrite Hitems. simpl. rewrite Hp2.
    simpl. set_solver.
  - unfold completedOf in *. simpl. unfold cs_pop. rewrite Hitems. simpl. simpl in Hc2.
    set_solver.
  - right. unfold completedOf. simpl. set_solver.
Qed.

(** *** The passes of [Calculate] *)

Lemma insertSorted_perm (a : CellAddress) (l : list CellAddress) : insertSorted a l ≡ₚ a :: l.
Proof.
  induction l as [|b l IH]; simpl; [reflexivity|].
  destruct (sortKeyLe a b); [reflexivity|]. rewrite IH. apply Permutation_swap.
Qed.

Lemma sortCells_perm (l : list CellAddress) : sortCells l ≡ₚ l.
Proof.
  induction l as [|a l IH]; simpl; [reflexivity|].
  unfold sortCells in *. simpl. rewrite insertSorted_perm, IH. reflexivity.
Qed.

Lemma calculateDirtyCells_total (fuel : nat) :
  forall dirtyCells s,
    calcGood U Inv s -> processingOf s = ∅ -> (pending U s < fuel)%nat ->
    exists s',
      calculateDirtyCells fuel s dirtyCells = Some s' /\ calcGood U Inv s' /\ calcStep s s'
      /\ ((pending U s' < pending U s)%nat \/ dirtyOf s' ⊆ dirtyOf s ∖ list_to_set dirtyCells).
Proof.
  induction dirtyCells as [|x rest IH]; intros s HG Hproc Hn; simpl.
  - exists s. split; [reflexivity|]. split; [assumption|]. split; [apply calcStep_refl|].
    right. set_solver.
  - case_bool_decide as Hd; simpl.
    2: { destruct (IH s HG Hproc Hn) as (s' & E & HG' & Hs' & Hm).
      exists s'. split; [exact E|]. split; [exact HG'|]. split; [exact Hs'|].
      destruct Hm as [Hm|Hm]; [left; assumption|right]. unfold dirtyOf in *. set_solver. }
    unfold cs_isCompleted. case_bool_decide as Hc.
    { set (s1 := s_graph s (fun dg => ClearDirty dg x)).
      assert (HG1 : calcGood U Inv s1).
      { split; [apply Inv_clear; [apply HG|exact Hc]|].
        eapply graphClosed_step; [apply HG|apply (frame_edges _ _ _ (frame_ClearDirty s x))|].
        unfold s1, dirtyOf. simpl. rewrite dirtySet_ClearDirty.
        destruct HG as [_ [Hdu _]]. unfold dirtyOf in Hdu. set_solver. }
      destruct (IH s1 HG1 Hproc Hn) as (s' & E & HG' & Hs' & Hm).
      exists s'. split; [exact E|]. split; [exact HG'|]. split.
      { eapply calcStep_trans; [|exact Hs']. apply calcStep_stack. reflexivity. }
      destruct Hm as [Hm|Hm]; [left; exact Hm|right].
      unfold s1, dirtyOf in *. simpl in Hm. rewrite dirtySet_ClearDirty in Hm. set_solver. }
    assert (HU : x ∈ U) by (apply HG; unfold dirtyOf; tauto).
    destruct (calculateCell_total fuel s x HG HU Hn) as (s1 & r & E & HG1 & Hs1 & Hdone).
    rewrite E.
    assert (Hlt : (pending U s1 < pending U s)%nat).
    { destruct Hs1 as [[_ Hp1] Hc1]. unfold pending. apply subset_size.
      destruct Hdone as [Hdone|Hdone]; [rewrite Hproc in Hdone; set_solver|].
      rewrite Hp1, Hproc. unfold completedOf in *.
      split; [set_solver|]. intros Hsub.
      assert (Hx : x ∈ U ∖ (∅ ∪ completed (calculationStack s))) by set_solver.
      apply Hsub in Hx. set_solver. }
    destruct (IH s1 HG1) as (s' & E' & HG' & Hs' & _).
    { destruct Hs1 as [[_ Hp1] _]. rewrite Hp1. exact Hproc. }
    { lia. }
    exists s'. split; [exact E'|]. split; [exact HG'|]. split.
    { eapply calcStep_trans; eauto. }
    left. pose proof (calcStep_pending U _ _ Hs'). lia.
Qed.

Lemma calculateLoop_clean (passes fuel : nat) (s : Spreadsheet) :
  dirtyOf s = ∅ -> calculateLoop passes fuel s = Some s.
Proof.
  intros Hd. unfold dirtyOf in Hd.
  destruct passes; simpl; destruct (decide (dirtySet (dependencyGraph s) = ∅)); congruence.
Qed.

Lemma calculateLoop_total (fuel : nat) :
  forall passes s,
    calcGood U Inv s -> processingOf s = ∅ -> (pending U s < fuel)%nat ->
    (pending U s < passes)%nat ->
    exists s',
      calculateLoop passes fuel s = Some s' /\ calcGood U Inv s' /\ dirtyOf s' = ∅.
Proof.
  induction passes as [|passes IH]; intros s HG Hproc Hn Hpasses; [lia|].
  simpl. destruct (decide (dirtySet (dependencyGraph s) = ∅)) as [Hd|Hd].
  { exists s. auto. }
  unfold calculatePass.
  destruct (calculateDirtyCells_total fuel
              (sortCells (elements (dirtySet (dependencyGraph s)))) s HG Hproc Hn)
    as (s1 & E & HG1 & Hs1 & Hm).
  rewrite E. pose proof (calcStep_pending U _ _ Hs1) as Hle.
  destruct Hm as [Hm|Hm].
  - apply IH; [assumption| |lia|lia].
    destruct Hs1 as [[_ Hp1] _]. rewrite Hp1. exact Hproc.
  - assert (Hclean : dirtyOf s1 = ∅).
    { apply set_eq. intros a. split; [|set_solver]. intros Ha. apply Hm in Ha.
      apply elem_of_difference in Ha as [Ha Hna]. exfalso. apply Hna.
      apply elem_of_list_to_set. rewrite sortCells_perm. apply elem_of_elements. exact Ha. }
    rewrite (calculateLoop_clean passes fuel s1 Hclean). exists s1. auto.
Qed.

(** [Calculate] returns a state that the loop left without a dirty cell. *)
Lemma Calculate_total (fuel : nat) (s : Spreadsheet) :
  calcGood U Inv (Calculate_begin s) -> (size U < fuel)%nat ->
  exists s1,
    Calculate fuel s = Some (s_graph s1 ClearAllDirty) /\ calcGood U Inv s1 /\ dirtyOf s1 = ∅.
Proof.
  intros HG Hfuel.
  assert (Hn : (pending U (Calculate_begin s) < fuel)%nat).
  { unfold pending. pose proof (subseteq_size (U ∖ (processingOf (Calculate_begin s)
      ∪ completedOf (Calculate_begin s))) U ltac:(set_solver)). lia. }
  destruct (calculateLoop_total fuel fuel (Calculate_begin s) HG eq_refl Hn Hn)
    as (s1 & E & HG1 & Hd).
  exists s1. unfold Calculate. rewrite E. auto.
Qed.
End CalculateCellTotal.

(** *** Reading a formula cell *)

Lemma chunkIndexOf_lt (row col : N) : (chunkIndexOf row col < ChunkSize)%N.
Proof.
  unfold chunkIndexOf, ChunkSize, ChunkRows, ChunkCols.
  pose proof (N.mod_lt row 256 ltac:(discriminate)).
  pose proof (N.mod_lt col 256 ltac:(discriminate)). lia.
Qed.

Lemma hasFormulaAt_lazyGet (ch : Chunk) (row col : N) :
  lazyGet 0%N (FormulaIDs ch) (chunkIndexOf row col) <> 0%N ->
  hasFormulaAt ch (chunkIndexOf row col) = true.
Proof.
  unfold hasFormulaAt, lazyGet. destruct (FormulaIDs ch) as [ids|]; [|congruence].
  intros Hne. apply andb_true_intro. split.
  - apply N.ltb_lt, chunkIndexOf_lt.
  - apply negb_true_iff, N.eqb_neq, Hne.
Qed.

Section ReadFormulaCell.
Context `{GoLib}.

Lemma GetCell_formula (w : Worksheet) (st : StringTable) (ft : FormulaTable) (row col : N)
  (ch : Chunk) :
  chunks w !! chunkKeyOf row col = Some ch ->
  lazyGet 0%N (FormulaIDs ch) (chunkIndexOf row col) <> 0%N ->
  exists cell,
    GetCell w st ft row col = Some cell
    /\ cellFormulaID cell = lazyGet 0%N (FormulaIDs ch) (chunkIndexOf row col)
    /\ (lazyGet 0%N (FormulaResultTypes ch) (chunkIndexOf row col) = CellValueTypeError ->
        exists e,
          cellValue cell = PError e
          /\ errCode e
             = uint8_of_float64
                 (lazyGet 0%float (FormulaResultNumbers ch) (chunkIndexOf row col))).
Proof.
  intros Ek Hid. unfold GetCell. rewrite Ek. cbv zeta.
  rewrite (hasFormulaAt_lazyGet ch row col Hid). rewrite andb_false_r.
  match goal with
  | |- context [let '(value, stringID) := ?e in _] => destruct e as [value stringID]
  end.
  destruct (FormulaResultTypes ch) as [rts|] eqn:Erts.
  - eexists. split; [reflexivity|]. split; [reflexivity|]. simpl. intros Hty.
    unfold lazyGet in Hty. rewrite Hty.
    destruct (decide (CellValueTypeError = CellValueTypeNumber
                      \/ CellValueTypeError = CellValueTypeDate)) as [[?|?]|_];
      [discriminate|discriminate|].
    destruct (decide (CellValueTypeError = CellValueTypeString)); [discriminate|].
    destruct (decide (CellValueTypeError = CellValueTypeBoolean)); [discriminate|].
    destruct (decide (CellValueTypeError = CellValueTypeError)); [|congruence].
    eexists. split; [reflexivity|]. unfold errorOf, lazyGet.
    destruct (FormulaResultNumbers ch), (FormulaResultStringIDs ch); reflexivity.
  - eexists. split; [reflexivity|]. split; [reflexivity|]. simpl. discriminate.
Qed.
End ReadFormulaCell.

Section ReadState.
Context `{GoLib} `{GoMapOrder}.

Lemma formulaCell_read (s : Spreadsheet) (c : CellAddress) :
  formulaIDAt s c <> 0%N ->
  exists w cell,
    GetWorksheet (worksheets s) (caWorksheetID c) = Some w
    /\ GetCell w (strings s) (formulas s) (caRow c) (caColumn c) = Some cell
    /\ cellFormulaID cell = formulaIDAt s c
    /\ (resultTypeAt s c = CellValueTypeError ->
        exists e, cellValue cell = PError e /\ errCode e = resultCodeAt s c).
Proof.
  unfold formulaIDAt, resultTypeAt, resultCodeAt, chunkAt, cellIndex.
  destruct (GetWorksheet (worksheets s) (caWorksheetID c)) as [w|]; simpl; [|congruence].
  destruct (chunks w !! chunkKeyOf (caRow c) (caColumn c)) as [ch|] eqn:Ek; simpl;
    [|congruence].
  intros Hid.
  destruct (GetCell_formula w (strings s) (formulas s) (caRow c) (caColumn c) ch Ek Hid)
    as (cell & E1 & E2 & E3).
  exists w, cell. auto.
Qed.

(** A formula cell whose stored result is [REF] reads as [REF]. *)
Lemma storedRef_Get (s : Spreadsheet) (c : CellAddress) :
  storedRef s c -> caWorksheetID c <> 0%N ->
  holdsErrorRef (Get s (caWorksheetID c) (caRow c) (caColumn c)).
Proof.
  intros (Hid & Hty & Hcode) Hws.
  destruct (formulaCell_read s c Hid) as (w & cell & Ew & Ec & _ & Hv).
  destruct (Hv Hty) as (e & Hval & He).
  unfold Get. destruct (decide (caWorksheetID c = 0%N)); [contradiction|].
  rewrite Ew, Ec, Hval. simpl. congruence.
Qed.

(** Storing a [REF] error in a formula cell. *)
Lemma storedRef_stored (s : Spreadsheet) (x : CellAddress) (e : SpreadsheetError) :
  formulaIDAt s x <> 0%N -> errCode e = ErrorCodeRef ->
  storedRef (s_SetFormulaResult s x (APrim (PError e))) x.
Proof.
  intros Hid He. destruct (s_SetFormulaResult_error s x e Hid) as [Hty Hcode].
  split; [rewrite formulaIDAt_s_SetFormulaResult; exact Hid|].
  split; [exact Hty|]. rewrite Hcode, He. reflexivity.
Qed.

(** The other cells keep a stored [REF]. *)
Lemma storedRef_frame (T : CellAddress -> Prop) (s s' : Spreadsheet) (t : CellAddress) :
  frame T s s' -> T t -> storedRef s t -> storedRef s' t.
Proof.
  intros Hf Ht (Hid & Hty & Hcode). unfold storedRef.
  rewrite (frame_formulaID _ _ _ Hf), (frame_resultType _ _ _ Hf t Ht),
    (frame_resultCode _ _ _ Hf t Ht). auto.
Qed.

Lemma formulaCell_frame (T : CellAddress -> Prop) (s s' : Spreadsheet) (t : CellAddress) :
  frame T s s' -> formulaCell s t -> formulaCell s' t.
Proof.
  intros Hf [Hid Hast]. unfold formulaCell.
  rewrite (frame_formulaID _ _ _ Hf), (frame_formulas _ _ _ Hf). auto.
Qed.

Lemma precedentsAt_frame (T : CellAddress -> Prop) (s s' : Spreadsheet) (t : CellAddress) :
  frame T s s' -> precedentsAt s' t = precedentsAt s t.
Proof. intros Hf. unfold precedentsAt. rewrite (frame_edges _ _ _ Hf). reflexivity. Qed.

(** The lists of precedents that [calculateCell] walks. *)
Lemma GetRangePrecedents_elem (s : Spreadsheet) (seed : nat) (c : CellAddress)
  (e : gset CellAddress * gset RangeAddress) (r : RangeAddress) :
  precedentsAt s c = Some e ->
  r ∈ GetRangePrecedents (dependencyGraph s) seed c <-> r ∈ e.2.
Proof.
  unfold precedentsAt, edgesAt, GetRangePrecedents.
  destruct (nodes (dependencyGraph s) !! c) as [node|]; simpl; [|discriminate].
  intros [= <-]. simpl. rewrite goMapOrder_perm. apply elem_of_elements.
Qed.

Lemma GetDirectPrecedents_elem (s : Spreadsheet) (seed : nat) (c : CellAddress)
  (e : gset CellAddress * gset RangeAddress) (p : CellAddress) :
  precedentsAt s c = Some e ->
  p ∈ GetDirectPrecedents (dependencyGraph s) seed c <-> p ∈ e.1.
Proof.
  unfold precedentsAt, edgesAt, GetDirectPrecedents.
  destruct (nodes (dependencyGraph s) !! c) as [node|]; simpl; [|discriminate].
  intros [= <-]. simpl. rewrite goMapOrder_perm. apply elem_of_elements.
Qed.

End ReadState.

(** *** Reference cycles *)

Section Cycle.
Context `{GoLib} `{GoMapOrder}.
Variables (U T : gset CellAddress) (next : CellAddress -> CellAddress).

Lemma pureCycle_frame (P : CellAddress -> Prop) (s s' : Spreadsheet) :
  frame P s s' -> pureCycle T next s -> pureCycle T next s'.
Proof.
  intros Hf Hc t Ht. destruct (Hc t Ht) as (Hfc & Hp & Hn).
  split; [eapply formulaCell_frame; eauto|]. split; [|exact Hn].
  rewrite (precedentsAt_frame _ _ _ t Hf). exact Hp.
Qed.

Lemma no_range_precedent (s : Spreadsheet) (seed : nat) (c : CellAddress)
  (ps : gset CellAddress) :
  precedentsAt s c = Some (ps, ∅) ->
  existsb (IsInRange c) (GetRangePrecedents (dependencyGraph s) seed c) = false.
Proof.
  intros He. destruct (existsb _ _) eqn:E; [|reflexivity].
  apply existsb_exists in E as (r & Hr & _). apply list_elem_of_In in Hr.
  apply (GetRangePrecedents_elem s seed c _ r He) in Hr. set_solver.
Qed.

Lemma no_ranges (s : Spreadsheet) (seed : nat) (c : CellAddress) (ps : gset CellAddress) :
  precedentsAt s c = Some (ps, ∅) ->
  GetRangePrecedents (dependencyGraph s) seed c = [].
Proof.
  intros He. destruct (GetRangePrecedents (dependencyGraph s) seed c) as [|r l] eqn:E;
    [reflexivity|].
  assert (Hr : r ∈ GetRangePrecedents (dependencyGraph s) seed c) by (rewrite E; left).
  apply (GetRangePrecedents_elem s seed c _ r He) in Hr. set_solver.
Qed.

Lemma one_precedent (s : Spreadsheet) (seed : nat) (c p : CellAddress)
  (rs : gset RangeAddress) :
  precedentsAt s c = Some ({[p]}, rs) ->
  GetDirectPrecedents (dependencyGraph s) seed c = [p].
Proof.
  unfold precedentsAt, edgesAt, GetDirectPrecedents.
  destruct (nodes (dependencyGraph s) !! c) as [node|]; simpl; [|discriminate].
  intros [= -> _]. apply Permutation_singleton_r.
  rewrite goMapOrder_perm, elements_singleton. reflexivity.
Qed.

(** Walking the cycle: from a state where no cell of [T] is completed,
    [calculateCell] on a cell of [T] follows [next] until it meets a cell
    that is being processed, and on the way back stores the circular
    error in every cell it went through. *)
Lemma cycle_walk (fuel : nat) :
  forall s t,
    t ∈ T -> t ∈ U -> graphClosed U s -> pureCycle T next s ->
    (forall u, u ∈ T -> u ∉ completedOf s) -> (pending U s < fuel)%nat ->
    exists s',
      calculateCell fuel s t = Some (s', Some circularErr)
      /\ frame (fun u => u ∉ T) s s' /\ stackSame s s' /\ dirtyOf s' ⊆ dirtyOf s
      /\ (forall u, u ∈ T -> u ∈ completedOf s' ->
            storedRef s' u /\ (next u ∈ completedOf s' \/ next u ∈ processingOf s))
      /\ (t ∈ processingOf s \/ t ∈ completedOf s').
Proof.
  induction fuel as [|fuel IH]; intros s t Ht HU HG Hcyc Hnc Hn; [lia|].
  simpl. unfold cs_isCompleted, cs_isProcessing.
  rewrite bool_decide_eq_false_2 by (apply Hnc, Ht).
  case_bool_decide as Hp.
  { exists s. split; [reflexivity|]. split; [apply frame_refl|].
    split; [apply stackSame_refl|]. split; [reflexivity|]. split; [|left; exact Hp].
    intros u Hu Huc. destruct (Hnc u Hu Huc). }
  destruct (Hcyc t Ht) as ([Hid [ast Hast]] & Hprec & Hnext).
  set (s1 := s_setStack s (cs_push (calculationStack s) t)).
  destruct (formulaCell_read s t Hid) as (w & cell & Ew & Ec & Ef & _).
  unfold calculateCell_body.
  change (worksheets s1) with (worksheets s). change (strings s1) with (strings s).
  change (formulas s1) with (formulas s). rewrite Ew, Ec.
  destruct (decide (cellFormulaID cell = 0%N)) as [Hz|_]; [congruence|].
  unfold GetAST. rewrite Ef, Hast.
  rewrite (no_range_precedent s1 (events s1) t {[next t]} Hprec).
  rewrite (one_precedent (s_tick s1) (events (s_tick s1)) t (next t) ∅ Hprec).
  set (s2 := s_tick (s_tick s1)).
  assert (Hf12 : frame (allBut t) s s2).
  { eapply frame_trans; [apply (frame_push s t)|].
    apply (frame_untouched (allBut t) s1 s2); reflexivity. }
  assert (HnU : next t ∈ U).
  { destruct HG as [_ He]. unfold precedentsAt in Hprec.
    destruct (edgesAt s t) as [e|] eqn:Ee; [|discriminate]. simpl in Hprec.
    destruct (He t e Ee) as [Hsub _]. injection Hprec as Hp1 _. rewrite Hp1 in Hsub.
    set_solver. }
  destruct (IH s2 (next t) Hnext HnU) as (s3 & E3 & Hf3 & [Hi3 Hp3] & Hd3 & Hdone3 & Hn3).
  { eapply graphClosed_step; [exact HG|apply (frame_edges _ _ _ Hf12)|apply HG]. }
  { eapply pureCycle_frame; eauto. }
  { exact Hnc. }
  { pose proof (pending_push U s t HU Hp (Hnc t Ht)). fold s1 in H1.
    change (pending U s2) with (pending U s1). lia. }
  simpl. rewrite E3.
  destruct (decide (errCode circularErr = ErrorCodeRef)) as [_|Hne];
    [|exfalso; apply Hne; reflexivity].
  eexists. split; [reflexivity|].
  set (s4 := s_SetFormulaResult s3 t (APrim (PError circularErr))).
  destruct (s_SetFormulaResult_fields s3 t (APrim (PError circularErr)))
    as (Hf4 & Hg4 & Hc4 & _). fold s4 in Hf4, Hg4, Hc4.
  set (s5 := s_setStack _ _).
  assert (Hitems : items (calculationStack s3) = t :: items (calculationStack s))
    by (rewrite Hi3; reflexivity).
  assert (Hf35 : frame (allBut t) s3 s5).
  { eapply frame_trans; [apply (frame_s_SetFormulaResult s3 t)|]. fold s4.
    eapply frame_trans; [apply (frame_ClearDirty s4 t)|].
    apply (frame_complete _ t (items (calculationStack s))). simpl. rewrite Hc4. exact Hitems. }
  assert (Hweak : forall a b, frame (allBut t) a b -> frame (fun u => u ∉ T) a b).
  { intros a b. apply frame_weaken. intros u Hu. unfold allBut. congruence. }
  assert (Hcomp5 : completedOf s5 = {[t]} ∪ completedOf s3).
  { unfold completedOf, s5. simpl. rewrite Hc4. unfold cs_pop. rewrite Hitems. reflexivity. }
  assert (Hproc2 : processingOf s2 = {[t]} ∪ processingOf s) by reflexivity.
  assert (Hst5 : storedRef s5 t).
  { change (storedRef s4 t). apply storedRef_stored; [|reflexivity].
    rewrite (frame_formulaID _ _ _ Hf3), (frame_formulaID _ _ _ Hf12). exact Hid. }
  split; [eauto using frame_trans|]. split.
  { split; unfold processingOf, s5; simpl; rewrite Hc4; unfold cs_pop; rewrite Hitems; simpl;
      [reflexivity|].
    unfold processingOf in Hp3, Hp. rewrite Hp3. simpl. set_solver. }
  split.
  { unfold dirtyOf, s5. simpl. rewrite dirtySet_ClearDirty, Hg4.
    unfold dirtyOf in Hd3. simpl in Hd3. set_solver. }
  split; [|right; rewrite Hcomp5; set_solver].
  intros u Hu Huc. rewrite Hcomp5 in Huc. rewrite Hcomp5.
  assert (Hnext_t : next t ∈ {[t]} ∪ completedOf s3 \/ next t ∈ processingOf s).
  { destruct Hn3 as [Hn3|Hn3]; [rewrite Hproc2 in Hn3|]; set_solver. }
  destruct (decide (u = t)) as [->|Hut]; [split; assumption|].
  assert (Huc3 : u ∈ completedOf s3) by set_solver.
  destruct (Hdone3 u Hu Huc3) as [Hst Hnu]. split.
  - apply (storedRef_frame (allBut t) s3 s5 u Hf35 Hut Hst).
  - destruct Hnu as [Hnu|Hnu]; [|rewrite Hproc2 in Hnu]; set_solver.
Qed.
End Cycle.

(** *** The start of [Calculate] *)

Lemma graphCells_node (dg : DependencyGraph) (a : CellAddress) (n : DependencyNode) :
  nodes dg !! a = Some n -> CellPrecedents n ∪ CellDependents n ⊆ graphCells dg.
Proof.
  intros Hn x Hx. unfold graphCells. apply elem_of_union_list.
  exists (CellPrecedents n ∪ CellDependents n). split; [|exact Hx].
  apply list_elem_of_fmap. exists n. split; [reflexivity|].
  apply list_elem_of_fmap. exists (a, n). split; [reflexivity|].
  apply elem_of_map_to_list. exact Hn.
Qed.

Lemma edgesAt_Calculate_begin (s : Spreadsheet) (a : CellAddress) :
  edgesAt (Calculate_begin s) a = edgesAt s a.
Proof. unfold edgesAt, Calculate_begin, MarkAllVolatileDirty. simpl. apply edges_MarkDirty_list. Qed.

Lemma dirtyOf_Calculate_begin (s : Spreadsheet) :
  dirtyOf (Calculate_begin s) = volatileCells (dependencyGraph s) ∪ dirtyOf s.
Proof.
  unfold dirtyOf, Calculate_begin, MarkAllVolatileDirty. simpl.
  rewrite dirtySet_MarkDirty_list. set_solver.
Qed.

Lemma graphClosed_Calculate_begin (s : Spreadsheet) :
  graphClosed (universe s) (Calculate_begin s).
Proof.
  split.
  - rewrite dirtyOf_Calculate_begin. unfold universe, dirtyOf. set_solver.
  - intros a e. rewrite edgesAt_Calculate_begin. unfold edgesAt.
    destruct (nodes (dependencyGraph s) !! a) as [n|] eqn:En; simpl; [|discriminate].
    intros [= <-]. simpl. pose proof (graphCells_node _ a n En). unfold universe.
    split; set_solver.
Qed.

Section Termination.
Context `{GoLib} `{GoMapOrder}.

(** X1.  [Calculate] always returns, and leaves no dirty cell: fuel above the
    number of cells that are dirty, volatile or on an edge of the
    dependency graph is enough for the recursion and for the passes of
    the outer loop. *)
Theorem Calculate_terminates (s : Spreadsheet) (fuel : nat) :
  (size (universe s) < fuel)%nat ->
  exists s', Calculate fuel s = Some s' /\ dirtyOf s' = ∅.
Proof.
  intros Hfuel.
  destruct (Calculate_total (universe s) ∅ (fun _ => True)) with (fuel := fuel) (s := s)
    as (s1 & E & _ & _); auto.
  - intros fuel' s0 t Ht. set_solver.
  - split; [exact I|apply graphClosed_Calculate_begin].
  - exists (s_graph s1 ClearAllDirty). split; [exact E|reflexivity].
Qed.
End Termination.

(** X1, witness: the sheet of the two cells that refer to each other. *)
Lemma Calculate_terminates_witness :
  exists s', @Calculate sampleLib sampleOrder 3 sheetCycleThroughIF = Some s' /\ dirtyOf s' = ∅.
Proof. apply (@Calculate_terminates sampleLib sampleOrder). vm_compute. lia. Defined.

(** *** Calculating a cycle *)

Section CycleCalculate.
Context `{GoLib} `{GoMapOrder}.
Variables (U T : gset CellAddress) (next : CellAddress -> CellAddress) (t0 : CellAddress).
Hypothesis T_cycle : oneCycle T next.
Hypothesis t0_in : t0 ∈ T.

Lemma cycleInv_frame (s s' : Spreadsheet) :
  cycleInv T next t0 s -> frame (fun t => t ∈ T) s s' -> cycleInv T next t0 s'.
Proof.
  intros [Hc Hs] Hf. split; [eapply pureCycle_frame; eauto|].
  destruct Hs as [[Hu Hd]|Hdone]; [left|right].
  - split; [|apply (frame_dirty _ _ _ Hf t0 t0_in Hd)].
    intros t Ht. destruct (Hu t Ht) as [Hnc Hnp]. split.
    + intros Hc'. apply Hnc, (frame_notCompleted _ _ _ Hf t Ht Hc').
    + rewrite (frame_processing _ _ _ Hf t Ht). exact Hnp.
  - intros t Ht. destruct (Hdone t Ht) as [Hcomp Hst]. split.
    + apply (frame_completed _ _ _ Hf), Hcomp.
    + apply (storedRef_frame _ s s' t Hf Ht Hst).
Qed.

Lemma cycleInv_clear (s : Spreadsheet) (y : CellAddress) :
  cycleInv T next t0 s -> y ∈ completedOf s ->
  cycleInv T next t0 (s_graph s (fun dg => ClearDirty dg y)).
Proof.
  intros [Hc Hs] Hy. split; [apply (pureCycle_frame T next _ s _ (frame_ClearDirty s y) Hc)|].
  destruct Hs as [[Hu Hd]|Hdone]; [left|right; exact Hdone].
  split; [exact Hu|]. unfold dirtyOf. simpl. rewrite dirtySet_ClearDirty.
  assert (y <> t0) by (intros ->; destruct (Hu t0 t0_in); contradiction).
  unfold dirtyOf in Hd. set_solver.
Qed.

(** A call on a cell of the cycle completes the whole cycle. *)
Lemma cycleInv_target (fuel : nat) (s : Spreadsheet) (t : CellAddress) :
  t ∈ T -> calcGood U (cycleInv T next t0) s -> t ∈ U -> (pending U s < fuel)%nat ->
  exists s' r,
    calculateCell fuel s t = Some (s', r) /\ calcGood U (cycleInv T next t0) s'
    /\ calcStep s s' /\ (t ∈ processingOf s \/ t ∈ completedOf s').
Proof.
  intros Ht [[Hc Hs] HG] HU Hn. destruct Hs as [[Hu Hd]|Hdone].
  - destruct (cycle_walk U T next fuel s t Ht HU HG Hc) as (s' & E & Hf & Hst & Hd' & Hw & Hfin);
      [intros u Hu'; apply (Hu u Hu')|exact Hn|].
    assert (Htc : t ∈ completedOf s').
    { destruct Hfin as [Hfin|Hfin]; [destruct (Hu t Ht); contradiction|exact Hfin]. }
    assert (Hall : forall k, Nat.iter k next t ∈ T /\ Nat.iter k next t ∈ completedOf s').
    { induction k as [|k [IH1 IH2]]; simpl; [auto|].
      destruct (Hc _ IH1) as (_ & _ & Hnext). split; [exact Hnext|].
      destruct (Hw _ IH1 IH2) as [_ [Hn'|Hn']]; [exact Hn'|].
      destruct (Hu _ Hnext); contradiction. }
    exists s', (Some circularErr). split; [exact E|]. split; [split|].
    + split; [eapply pureCycle_frame; eauto|]. right. intros u Hu'.
      destruct (T_cycle t u Ht Hu') as [k <-]. destruct (Hall k) as [Hk1 Hk2].
      split; [exact Hk2|]. apply (Hw _ Hk1 Hk2).
    + eapply graphClosed_step; [exact HG|apply (frame_edges _ _ _ Hf)|].
      destruct HG as [HdU _]. set_solver.
    + split; [split; [exact Hst|apply (frame_completed _ _ _ Hf)]|right; exact Htc].
  - destruct fuel as [|fuel]; [lia|]. exists s, None. simpl. unfold cs_isCompleted.
    rewrite bool_decide_eq_true_2 by (apply Hdone, Ht).
    split; [reflexivity|]. split; [split; [split; [exact Hc|right; exact Hdone]|exact HG]|].
    split; [apply calcStep_refl|right; apply Hdone, Ht].
Qed.
End CycleCalculate.

Section CycleTheorem.
Context `{GoLib} `{GoMapOrder}.

(** C2 (as amended).  When the cells of [T] are formula cells on one
    reference cycle, each with the next cell of the cycle as its only
    precedent in the dependency graph (no other cell, no range), and one
    of them is dirty, then [Calculate] returns and every cell of the
    cycle reads [Error(REF)]. *)
Theorem C2_pure_cycle_ends_with_REF (s : Spreadsheet) (T : gset CellAddress)
  (next : CellAddress -> CellAddress) (t0 : CellAddress) (fuel : nat) :
  pureCycle T next s -> oneCycle T next ->
  (forall t, t ∈ T -> caWorksheetID t <> 0%N) ->
  t0 ∈ T -> t0 ∈ dirtyOf s ->
  (size (universe s) < fuel)%nat ->
  exists s',
    Calculate fuel s = Some s'
    /\ forall t, t ∈ T -> holdsErrorRef (Get s' (caWorksheetID t) (caRow t) (caColumn t)).
Proof.
  intros Hc Hone Hws Ht0 Hd Hfuel.
  destruct (Calculate_total (universe s) T (cycleInv T next t0)) with (fuel := fuel) (s := s)
    as (s1 & E & [[Hc1 Hs1] _] & Hclean).
  - intros a b. apply cycleInv_frame; assumption.
  - intros a y. apply cycleInv_clear; assumption.
  - intros fuel' a t. apply cycleInv_target; assumption.
  - split; [|apply graphClosed_Calculate_begin]. split.
    + intros t Ht. destruct (Hc t Ht) as ([Hid Hast] & Hp & Hn). split; [split; assumption|].
      split; [|exact Hn]. unfold precedentsAt. rewrite edgesAt_Calculate_begin. exact Hp.
    + left. split; [intros t Ht; split; set_solver|].
      rewrite dirtyOf_Calculate_begin. set_solver.
  - exact Hfuel.
  - exists (s_graph s1 ClearAllDirty). split; [exact E|]. intros t Ht.
    destruct Hs1 as [[_ Hd1]|Hdone]; [rewrite Hclean in Hd1; set_solver|].
    apply storedRef_Get; [|apply Hws, Ht]. apply (Hdone t Ht).
Qed.
End CycleTheorem.

(** C2, counterexample.  A1 = [=B1+SUM(A1:A2)] and B1 = [=IF(TRUE,1,A1)]
    refer to each other.  A1 is given [REF] by the self-including range
    check before B1 is looked at, so the cycle is never walked, and B1,
    a cell of the cycle, ends with the number 1. *)
Lemma C2_counterexample :
  refersTo sheetCycleThroughIF A1 B1 = true /\ refersTo sheetCycleThroughIF B1 A1 = true
  /\ (fun s' => @Get sampleLib s' 1 0 0) <$> @Calculate sampleLib sampleOrder 5 sheetCycleThroughIF
     = Some (PError circularErr)
  /\ (fun s' => @Get sampleLib s' 1 0 1) <$> @Calculate sampleLib sampleOrder 5 sheetCycleThroughIF
     = Some (PNumber 1).
Proof. vm_compute. repeat split; reflexivity. Qed.

(** C2, witness: A1 = [=B1] and B1 = [=A1]. *)
Lemma C2_witness :
  exists s',
    @Calculate sampleLib sampleOrder 3 sheetCycle = Some s'
    /\ forall t, t ∈ ({[A1; B1]} : gset CellAddress) ->
         holdsErrorRef (@Get sampleLib s' (caWorksheetID t) (caRow t) (caColumn t)).
Proof.
  refine (@C2_pure_cycle_ends_with_REF sampleLib sampleOrder sheetCycle {[A1; B1]} swapA1B1 A1 3
            _ _ _ _ _ _).
  - intros t Ht. apply elem_of_union in Ht as [Ht|Ht]; apply elem_of_singleton in Ht; subst t.
    + split; [split; [vm_compute; discriminate|vm_compute; eexists; reflexivity]|].
      split; [vm_compute; reflexivity|]. refine (bool_decide_unpack _ _). vm_compute. exact I.
    + split; [split; [vm_compute; discriminate|vm_compute; eexists; reflexivity]|].
      split; [vm_compute; reflexivity|]. refine (bool_decide_unpack _ _). vm_compute. exact I.
  - intros t u Ht Hu.
    apply elem_of_union in Ht as [Ht|Ht]; apply elem_of_singleton in Ht; subst t;
      apply elem_of_union in Hu as [Hu|Hu]; apply elem_of_singleton in Hu; subst u.
    + exists 0%nat. reflexivity.
    + exists 1%nat. reflexivity.
    + exists 1%nat. reflexivity.
    + exists 0%nat. reflexivity.
  - intros t Ht. apply elem_of_union in Ht as [Ht|Ht]; apply elem_of_singleton in Ht; subst t;
      discriminate.
  - refine (bool_decide_unpack _ _). vm_compute. exact I.
  - refine (bool_decide_unpack _ _). vm_compute. exact I.
  - vm_compute. lia.
Defined.

(** *** A range precedent that holds the cell itself *)

Section SelfRange.
Context `{GoLib} `{GoMapOrder}.
Variables (U : gset CellAddress) (c : CellAddress) (r : RangeAddress).
Hypothesis c_in_r : IsInRange c r = true.




End SelfRange.

Section EngineTheorems.
Context `{GoLib} `{GoMapOrder}.

End EngineTheorems.


(** *** A formula that evaluates to an error *)

(** C3, the failing input.  A1 = [=1/0] is the only cell, so the longest
    dependency chain has one cell.  The pass that calculates A1 stores
    [DIV0] and completes the cell but leaves it dirty: the loop does not
    end after one pass, and ends after two. *)
Lemma C3_error_result_needs_a_second_pass :
  universe sheetDivByZero = {[A1]}
  /\ (s1 ← @calculatePass sampleLib sampleOrder 2 (Calculate_begin sheetDivByZero);
      Some (@Get sampleLib s1 1 0 0, elements (dirtyOf s1), elements (completedOf s1)))
     = Some (PError errDiv0, [A1], [A1])
  /\ @calculateLoop sampleLib sampleOrder 1 2 (Calculate_begin sheetDivByZero) = None
  /\ is_Some (@calculateLoop sampleLib sampleOrder 2 2 (Calculate_begin sheetDivByZero)).
Proof. vm_compute. repeat split; try reflexivity. eexists. reflexivity. Qed.

(** ** The string table *)

Lemma NewStringTable_wf : StringTable_wf NewStringTable.
Proof.
  constructor; unfold NewStringTable; simpl.
  - intros s id. rewrite !lookup_empty. split; discriminate.
  - intros id. rewrite lookup_empty. intros []. discriminate.
  - lia.
  - intros id. rewrite !lookup_empty. split; intros []; discriminate.
  - intros id c. rewrite lookup_empty. discriminate.
Qed.

Lemma uint32_succ_small (n : N) : (n < 2 ^ 32 - 1)%N -> uint32_succ n = (n + 1)%N.
Proof. intros Hn. unfold uint32_succ. apply N.mod_small. lia. Qed.

Lemma StringTable_Intern_wf (st : StringTable) (s : string) :
  StringTable_wf st -> (stNextID st < 2 ^ 32 - 1)%N ->
  StringTable_wf (StringTable_Intern st s).1.
Proof.
  intros [Hb Hbd Hn Hc Hp] Hsmall. unfold StringTable_Intern.
  destruct (stStrings st !! s) as [id|] eqn:E; simpl.
  - assert (Hlive : is_Some (stReverseMap st !! id)) by (exists s; apply Hb, E).
    constructor; simpl; auto.
    + intros id'. rewrite Hc. destruct (decide (id' = id)) as [->|Hne].
      * rewrite lookup_insert_eq. split; [eauto|]. intros _. apply Hc, Hlive.
      * rewrite lookup_insert_ne by congruence. reflexivity.
    + intros id' c. destruct (decide (id' = id)) as [->|Hne].
      * rewrite lookup_insert_eq. intros [= <-].
        apply Hc in Hlive as [c0 Hc0]. rewrite Hc0. simpl. specialize (Hp _ _ Hc0). lia.
      * rewrite lookup_insert_ne by congruence. apply Hp.
  - assert (Hfresh : stReverseMap st !! stNextID st = None).
    { destruct (stReverseMap st !! stNextID st) eqn:E'; [|reflexivity].
      assert (Hs : is_Some (stReverseMap st !! stNextID st)) by eauto.
      apply Hbd in Hs. lia. }
    rewrite (uint32_succ_small _ Hsmall).
    constructor; simpl.
    + intros s' id'. destruct (decide (s' = s)) as [->|Hs].
      * rewrite lookup_insert_eq. split.
        -- intros [= <-]. apply lookup_insert_eq.
        -- destruct (decide (id' = stNextID st)) as [->|Hne]; [reflexivity|].
           rewrite lookup_insert_ne by congruence. intros Hr. apply Hb in Hr. congruence.
      * rewrite lookup_insert_ne by congruence.
        destruct (decide (id' = stNextID st)) as [->|Hne].
        -- rewrite lookup_insert_eq. split; [|congruence].
           intros Hs'. apply Hb in Hs'. congruence.
        -- rewrite lookup_insert_ne by congruence. apply Hb.
    + intros id'. destruct (decide (id' = stNextID st)) as [->|Hne].
      * intros _. lia.
      * rewrite lookup_insert_ne by congruence. intros Hl. apply Hbd in Hl. lia.
    + lia.
    + intros id'. destruct (decide (id' = stNextID st)) as [->|Hne].
      * rewrite !lookup_insert_eq. split; eauto.
      * rewrite !lookup_insert_ne by congruence. apply Hc.
    + intros id' c. destruct (decide (id' = stNextID st)) as [->|Hne].
      * rewrite lookup_insert_eq. intros [= <-]. lia.
      * rewrite lookup_insert_ne by congruence. apply Hp.
Qed.



Lemma StringTable_Intern_keeps (st : StringTable) (s : string) (id : N) (s' : string) :
  StringTable_wf st ->
  StringTable_GetString st id = Some s' ->
  StringTable_GetString (StringTable_Intern st s).1 id = Some s'.
Proof.
  intros Hwf Hg. unfold StringTable_GetString, StringTable_Intern in *.
  destruct (stStrings st !! s) as [id0|] eqn:E; simpl; [exact Hg|].
  rewrite lookup_insert_ne; [exact Hg|]. intros <-.
  assert (Hl : is_Some (stReverseMap st !! stNextID st)) by eauto.
  apply (st_bound st Hwf) in Hl. lia.
Qed.

Lemma StringTable_Intern_id (st : StringTable) (s : string) :
  StringTable_wf st ->
  StringTable_GetString (StringTable_Intern st s).1 (StringTable_Intern st s).2 = Some s
  /\ StringTable_Contains (StringTable_Intern st s).1 s = Some (StringTable_Intern st s).2
  /\ (StringTable_Intern st s).2 <> 0%N
  /\ StringTable_GetReferenceCount (StringTable_Intern st s).1 (StringTable_Intern st s).2
     = StringTable_GetReferenceCount st (StringTable_Intern st s).2 + 1.
Proof.
  intros Hwf. unfold StringTable_GetString, StringTable_Contains, StringTable_GetReferenceCount,
    StringTable_Intern.
  destruct (stStrings st !! s) as [id|] eqn:E; simpl.
  - assert (Hr : stReverseMap st !! id = Some s) by (apply (st_bijection st Hwf), E).
    split; [exact Hr|]. split; [exact E|]. split.
    + assert (Hl : is_Some (stReverseMap st !! id)) by eauto.
      apply (st_bound st Hwf) in Hl. lia.
    + rewrite lookup_insert_eq. reflexivity.
  - rewrite !lookup_insert_eq. split; [reflexivity|]. split; [reflexivity|]. split.
    + pose proof (st_next st Hwf). lia.
    + destruct (stRefCounts st !! stNextID st) as [c|] eqn:Ec; [|reflexivity].
      assert (Hl : is_Some (stReverseMap st !! stNextID st))
        by (apply (st_counted st Hwf); eauto).
      apply (st_bound st Hwf) in Hl. lia.
Qed.



(** X4.  Interning a text twice gives the same id both times, the text
    reads back under that id, the reference count has gone up by two,
    no other id lost its text, and a different text gets a different
    id. *)
Theorem StringTable_Intern_dedupes (st : StringTable) (s : string) :
  StringTable_wf st -> (stNextID st < 2 ^ 32 - 2)%N ->
  let r1 := StringTable_Intern st s in
  let r2 := StringTable_Intern r1.1 s in
  r2.2 = r1.2 /\ r1.2 <> 0%N
  /\ StringTable_GetString r2.1 r1.2 = Some s
  /\ StringTable_GetReferenceCount r2.1 r1.2 = StringTable_GetReferenceCount st r1.2 + 2
  /\ (forall id' s',
        StringTable_GetString st id' = Some s' -> StringTable_GetString r2.1 id' = Some s')
  /\ (forall s', s' <> s -> (StringTable_Intern r1.1 s').2 <> r1.2).
Proof.
  intros Hwf Hn r1 r2.
  assert (Hwf1 : StringTable_wf r1.1) by (apply StringTable_Intern_wf; [assumption|lia]).
  destruct (StringTable_Intern_id st s Hwf) as (Hg1 & Hc1 & Hz1 & Hr1).
  destruct (StringTable_Intern_id r1.1 s Hwf1) as (Hg2 & Hc2 & Hz2 & Hr2).
  fold r1 in Hg1, Hc1, Hz1, Hr1. fold r2 in Hg2, Hc2, Hz2, Hr2.
  assert (Heq : r2.2 = r1.2).
  { unfold r2, StringTable_Intern at 1. unfold StringTable_Contains in Hc1. rewrite Hc1.
    reflexivity. }
  split; [exact Heq|]. split; [exact Hz1|]. split; [rewrite <- Heq; exact Hg2|].
  split; [rewrite <- Heq at 1; rewrite Hr2, Heq, Hr1; lia|]. split.
  - intros id' s' Hg. apply StringTable_Intern_keeps; [exact Hwf1|].
    apply StringTable_Intern_keeps; assumption.
  - intros s' Hs Heq'.
    destruct (StringTable_Intern_id r1.1 s' Hwf1) as (Hg3 & _).
    rewrite Heq' in Hg3.
    pose proof (StringTable_Intern_keeps r1.1 s' r1.2 s Hwf1 Hg1) as Hk. congruence.
Qed.

(** X4, witness: the new table. *)
Lemma StringTable_Intern_dedupes_witness :
  (StringTable_Intern (StringTable_Intern NewStringTable "abc").1 "abc").2 = 1%N
  /\ (StringTable_Intern (StringTable_Intern NewStringTable "abc").1 "abd").2 <> 1%N.
Proof.
  destruct (StringTable_Intern_dedupes NewStringTable "abc" NewStringTable_wf)
    as (H1 & _ & _ & _ & _ & H2); [vm_compute; reflexivity|].
  split; [exact H1|]. apply H2. discriminate.
Defined.

(** X5.  Releasing the reference that [Intern] has just taken undoes the
    interning: the table maps the same texts to the same ids with the
    same counts as before (only the id counter may have moved on). *)
Theorem StringTable_RemoveReference_undoes_Intern (st : StringTable) (s : string) :
  StringTable_wf st ->
  let r := StringTable_Intern st s in
  let st' := StringTable_RemoveReference r.1 r.2 in
  stStrings st' = stStrings st /\ stReverseMap st' = stReverseMap st
  /\ stRefCounts st' = stRefCounts st.
Proof.
  intros Hwf r st'. unfold st', r, StringTable_Intern, StringTable_RemoveReference.
  destruct (stStrings st !! s) as [id|] eqn:E; simpl.
  - assert (Hr : stReverseMap st !! id = Some s) by (apply (st_bijection st Hwf), E).
    rewrite Hr. rewrite lookup_insert_eq. simpl.
    assert (Hl : is_Some (stRefCounts st !! id)) by (apply (st_counted st Hwf); eauto).
    destruct Hl as [c Hc]. rewrite Hc. simpl.
    pose proof (st_positive st Hwf _ _ Hc) as Hpos.
    destruct (c + 1 - 1 <=? 0) eqn:Hz; [apply Z.leb_le in Hz; lia|]. simpl.
    split; [reflexivity|]. split; [reflexivity|].
    rewrite insert_insert_eq. apply insert_id. rewrite Hc. f_equal. lia.
  - rewrite !lookup_insert_eq. simpl.
    assert (Hfresh : stReverseMap st !! stNextID st = None).
    { destruct (stReverseMap st !! stNextID st) eqn:E'; [|reflexivity].
      assert (Hs : is_Some (stReverseMap st !! stNextID st)) by eauto.
      apply (st_bound st Hwf) in Hs. lia. }
    assert (Hfresh' : stRefCounts st !! stNextID st = None).
    { destruct (stRefCounts st !! stNextID st) eqn:E'; [|reflexivity].
      assert (Hs : is_Some (stReverseMap st !! stNextID st))
        by (apply (st_counted st Hwf); eauto).
      rewrite Hfresh in Hs. destruct Hs. discriminate. }
    split; [apply delete_insert_id; exact E|].
    split; apply delete_insert_id; assumption.
Qed.

(** X5, witness: the new table. *)
Lemma StringTable_RemoveReference_undoes_Intern_witness :
  stReverseMap (StringTable_RemoveReference (StringTable_Intern NewStringTable "abc").1
                  (StringTable_Intern NewStringTable "abc").2)
  = stReverseMap NewStringTable.
Proof.
  apply (StringTable_RemoveReference_undoes_Intern NewStringTable "abc" NewStringTable_wf).
Defined.

(** ** The dependency graph *)

Lemma sameEdges_refl (dg : DependencyGraph) : sameEdges dg dg.
Proof. repeat split. Qed.

Lemma sameEdges_trans (dg1 dg2 dg3 : DependencyGraph) :
  sameEdges dg1 dg2 -> sameEdges dg2 dg3 -> sameEdges dg1 dg3.
Proof.
  intros (A1 & A2 & A3 & A4) (B1 & B2 & B3 & B4).
  repeat split; intros; congruence.
Qed.

Lemma graph_wf_sameEdges (dg dg' : DependencyGraph) :
  sameEdges dg dg' -> graph_wf dg -> graph_wf dg'.
Proof.
  intros (A1 & A2 & A3 & A4) [H1 H2 H3]. constructor.
  - intros a p. rewrite A1, A2. apply H1.
  - intros a r. unfold obsOf. rewrite A3, A4. apply H2.
  - rewrite A4. exact H3.
Qed.

Lemma NewDependencyGraph_wf : graph_wf NewDependencyGraph.
Proof.
  constructor; unfold preOf, depOf, rngOf, obsOf, NewDependencyGraph; simpl.
  - intros a p. rewrite !lookup_empty. simpl. set_solver.
  - intros a r. rewrite !lookup_empty. simpl. set_solver.
  - intros r obs. rewrite lookup_empty. discriminate.
Qed.

(** *** The node primitives *)

Lemma sameEdges_GetOrCreateNode (dg : DependencyGraph) (a : CellAddress) :
  sameEdges dg (GetOrCreateNode dg a).
Proof.
  unfold GetOrCreateNode. destruct (nodes dg !! a) as [n|] eqn:E; [apply sameEdges_refl|].
  repeat split; intros b; unfold preOf, depOf, rngOf; simpl;
    (destruct (decide (b = a)) as [->|Hne];
     [rewrite lookup_insert_eq, E; reflexivity|rewrite lookup_insert_ne by congruence; reflexivity]).
Qed.

Lemma GetOrCreateNode_exists (dg : DependencyGraph) (a : CellAddress) :
  is_Some (nodes (GetOrCreateNode dg a) !! a).
Proof.
  unfold GetOrCreateNode. destruct (nodes dg !! a) as [n|] eqn:E; [rewrite E; eauto|].
  simpl. rewrite lookup_insert_eq. eauto.
Qed.

Lemma GetOrCreateNode_keeps (dg : DependencyGraph) (a b : CellAddress) :
  is_Some (nodes dg !! b) -> is_Some (nodes (GetOrCreateNode dg a) !! b).
Proof.
  unfold GetOrCreateNode. destruct (nodes dg !! a) as [n|] eqn:E; [auto|].
  simpl. intros Hb. destruct (decide (b = a)) as [->|Hne];
    [rewrite lookup_insert_eq; eauto|rewrite lookup_insert_ne by congruence; exact Hb].
Qed.

Lemma GetOrCreateNode_fields (dg : DependencyGraph) (a : CellAddress) :
  dirtySet (GetOrCreateNode dg a) = dirtySet dg
  /\ volatileCells (GetOrCreateNode dg a) = volatileCells dg.
Proof. unfold GetOrCreateNode. destruct (nodes dg !! a); auto. Qed.

Lemma sameEdges_cleanupNodeIfEmpty (dg : DependencyGraph) (a : CellAddress) :
  sameEdges dg (cleanupNodeIfEmpty dg a).
Proof.
  unfold cleanupNodeIfEmpty. destruct (nodes dg !! a) as [n|] eqn:E; [|apply sameEdges_refl].
  destruct (bool_decide (nodeFormula n ≠ "") || bool_decide (0 < size (CellPrecedents n))%nat
            || bool_decide (0 < size (CellDependents n))%nat
            || bool_decide (0 < size (RangePrecedents n))%nat) eqn:Hb; [apply sameEdges_refl|].
  apply orb_false_iff in Hb as [Hb H4]. apply orb_false_iff in Hb as [Hb H3].
  apply orb_false_iff in Hb as [H1 H2].
  apply bool_decide_eq_false in H2, H3, H4.
  assert (E2 : CellPrecedents n = ∅) by (apply leibniz_equiv, size_empty_inv; lia).
  assert (E3 : CellDependents n = ∅) by (apply leibniz_equiv, size_empty_inv; lia).
  assert (E4 : RangePrecedents n = ∅) by (apply leibniz_equiv, size_empty_inv; lia).
  repeat split; intros b; unfold preOf, depOf, rngOf; simpl;
    (destruct (decide (b = a)) as [->|Hne];
     [rewrite lookup_delete_eq, E; simpl; congruence
     |rewrite lookup_delete_ne by congruence; reflexivity]).
Qed.

Lemma cleanupNodeIfEmpty_fields (dg : DependencyGraph) (a : CellAddress) :
  dirtySet (cleanupNodeIfEmpty dg a) ⊆ dirtySet dg
  /\ volatileCells (cleanupNodeIfEmpty dg a) = volatileCells dg
  /\ (forall b, b <> a -> nodes (cleanupNodeIfEmpty dg a) !! b = nodes dg !! b)
  /\ (forall b, b <> a -> b ∈ dirtySet dg -> b ∈ dirtySet (cleanupNodeIfEmpty dg a)).
Proof.
  unfold cleanupNodeIfEmpty. destruct (nodes dg !! a) as [n|] eqn:E; [|auto].
  destruct (_ || _); [auto|]. simpl. split; [set_solver|]. split; [reflexivity|].
  split; [intros b Hb; apply lookup_delete_ne; congruence|set_solver].
Qed.

(** The edges after an update of a node that exists. *)
Lemma preOf_updateNode (dg : DependencyGraph) (a b : CellAddress)
  (f : DependencyNode -> DependencyNode) (n : DependencyNode) :
  nodes dg !! a = Some n ->
  preOf (updateNode dg a f) b = (if decide (b = a) then CellPrecedents (f n) else preOf dg b)
  /\ depOf (updateNode dg a f) b = (if decide (b = a) then CellDependents (f n) else depOf dg b)
  /\ rngOf (updateNode dg a f) b = (if decide (b = a) then RangePrecedents (f n) else rngOf dg b).
Proof.
  intros E. unfold updateNode, preOf, depOf, rngOf. rewrite E. simpl.
  destruct (decide (b = a)) as [->|Hne];
    [rewrite lookup_insert_eq; auto|rewrite lookup_insert_ne by congruence; auto].
Qed.

Lemma updateNode_fields (dg : DependencyGraph) (a : CellAddress)
  (f : DependencyNode -> DependencyNode) :
  rangeObservers (updateNode dg a f) = rangeObservers dg
  /\ dirtySet (updateNode dg a f) = dirtySet dg
  /\ volatileCells (updateNode dg a f) = volatileCells dg
  /\ (forall b, is_Some (nodes (updateNode dg a f) !! b) <-> is_Some (nodes dg !! b)).
Proof.
  unfold updateNode. destruct (nodes dg !! a) as [n|] eqn:E; [|tauto]. simpl.
  repeat split; auto; destruct (decide (b = a)) as [->|Hne];
    rewrite ?lookup_insert_eq, ?lookup_insert_ne by congruence; eauto.
Qed.

Lemma updateNode_missing (dg : DependencyGraph) (a : CellAddress)
  (f : DependencyNode -> DependencyNode) :
  nodes dg !! a = None -> updateNode dg a f = dg.
Proof. intros E. unfold updateNode. rewrite E. reflexivity. Qed.

Lemma preOf_node (dg : DependencyGraph) (a : CellAddress) (n : DependencyNode) :
  nodes dg !! a = Some n ->
  preOf dg a = CellPrecedents n /\ depOf dg a = CellDependents n
  /\ rngOf dg a = RangePrecedents n.
Proof. intros E. unfold preOf, depOf, rngOf. rewrite E. auto. Qed.

Lemma preOf_missing (dg : DependencyGraph) (a : CellAddress) :
  nodes dg !! a = None -> preOf dg a = ∅ /\ depOf dg a = ∅ /\ rngOf dg a = ∅.
Proof. intros E. unfold preOf, depOf, rngOf. rewrite E. auto. Qed.

(** *** Adding and removing an edge *)

Lemma AddCellDependency_edges (dg : DependencyGraph) (from to : CellAddress) :
  (forall a, preOf (AddCellDependency dg from to) a
             = preOf dg a ∪ (if decide (a = from) then {[to]} else ∅))
  /\ (forall a, depOf (AddCellDependency dg from to) a
                = depOf dg a ∪ (if decide (a = to) then {[from]} else ∅))
  /\ (forall a, rngOf (AddCellDependency dg from to) a = rngOf dg a)
  /\ rangeObservers (AddCellDependency dg from to) = rangeObservers dg
  /\ dirtySet (AddCellDependency dg from to) = dirtySet dg
  /\ volatileCells (AddCellDependency dg from to) = volatileCells dg
  /\ is_Some (nodes (AddCellDependency dg from to) !! from).
Proof.
  unfold AddCellDependency.
  set (dg1 := GetOrCreateNode dg from). set (dg2 := GetOrCreateNode dg1 to).
  set (f := fun n => node_setCellPrecedents n ({[to]} ∪ CellPrecedents n)).
  set (g := fun n => node_setCellDependents n ({[from]} ∪ CellDependents n)).
  set (dg3 := updateNode dg2 from f).
  destruct (sameEdges_GetOrCreateNode dg from) as (A1 & A2 & A3 & A4).
  destruct (sameEdges_GetOrCreateNode dg1 to) as (B1 & B2 & B3 & B4).
  fold dg1 in A1, A2, A3, A4. fold dg2 in B1, B2, B3, B4.
  assert (Hfrom : is_Some (nodes dg2 !! from))
    by (apply GetOrCreateNode_keeps, GetOrCreateNode_exists).
  destruct Hfrom as [n1 E1].
  destruct (updateNode_fields dg2 from f) as (C1 & C2 & C3 & C4). fold dg3 in C1, C2, C3, C4.
  assert (Hto : is_Some (nodes dg3 !! to)) by (apply C4, GetOrCreateNode_exists).
  destruct Hto as [n2 E2].
  destruct (updateNode_fields dg3 to g) as (D1 & D2 & D3 & D4).
  destruct (GetOrCreateNode_fields dg from) as [F1 F2].
  destruct (GetOrCreateNode_fields dg1 to) as [G1 G2].
  fold dg1 in F1, F2. fold dg2 in G1, G2.
  destruct (preOf_node dg2 from n1 E1) as (N1 & N2 & N3).
  destruct (preOf_node dg3 to n2 E2) as (M1 & M2 & M3).
  split; [|split; [|split; [|split; [|split; [|split]]]]].
  - intros a. destruct (preOf_updateNode dg3 to a g n2 E2) as (R & _ & _); try fold dg3 in R; try fold dg4 in R; rewrite R; clear R.
    assert (Hsame : (if decide (a = to) then CellPrecedents (g n2) else preOf dg3 a)
                    = preOf dg3 a).
    { destruct (decide (a = to)) as [->|]; [rewrite M1|]; reflexivity. }
    rewrite Hsame. destruct (preOf_updateNode dg2 from a f n1 E1) as (R & _ & _); try fold dg3 in R; try fold dg4 in R; rewrite R; clear R.
    destruct (decide (a = from)) as [->|Hne]; simpl.
    + rewrite <- N1, B1, A1. set_solver.
    + rewrite B1, A1. set_solver.
  - intros a. destruct (preOf_updateNode dg3 to a g n2 E2) as (_ & R & _); try fold dg3 in R; try fold dg4 in R; rewrite R; clear R.
    destruct (decide (a = to)) as [->|Hne]; simpl.
    + rewrite <- M2. destruct (preOf_updateNode dg2 from to f n1 E1) as (_ & R & _); try fold dg3 in R; try fold dg4 in R; rewrite R; clear R.
      destruct (decide (to = from)) as [->|Hne]; simpl.
      * rewrite <- N2, B2, A2. set_solver.
      * rewrite B2, A2. set_solver.
    + destruct (preOf_updateNode dg2 from a f n1 E1) as (_ & R & _); try fold dg3 in R; try fold dg4 in R; rewrite R; clear R.
      destruct (decide (a = from)) as [->|Hne']; simpl.
      * rewrite <- N2, B2, A2. set_solver.
      * rewrite B2, A2. set_solver.
  - intros a. destruct (preOf_updateNode dg3 to a g n2 E2) as (_ & _ & R); try fold dg3 in R; try fold dg4 in R; rewrite R; clear R.
    assert (Hsame : (if decide (a = to) then RangePrecedents (g n2) else rngOf dg3 a)
                    = rngOf dg3 a).
    { destruct (decide (a = to)) as [->|]; [rewrite M3|]; reflexivity. }
    rewrite Hsame. destruct (preOf_updateNode dg2 from a f n1 E1) as (_ & _ & R); try fold dg3 in R; try fold dg4 in R; rewrite R; clear R.
    destruct (decide (a = from)) as [->|Hne]; simpl.
    + rewrite <- N3, B3, A3. reflexivity.
    + rewrite B3, A3. reflexivity.
  - rewrite D1, C1, B4, A4. reflexivity.
  - rewrite D2, C2, G1, F1. reflexivity.
  - rewrite D3, C3, G2, F2. reflexivity.
  - apply D4, C4. eauto.
Qed.

Lemma AddCellDependency_wf (dg : DependencyGraph) (from to : CellAddress) :
  graph_wf dg -> graph_wf (AddCellDependency dg from to).
Proof.
  intros [H1 H2 H3].
  destruct (AddCellDependency_edges dg from to) as (A1 & A2 & A3 & A4 & _).
  constructor.
  - intros a p. rewrite A1, A2. specialize (H1 a p).
    destruct (decide (a = from)) as [->|], (decide (p = to)) as [->|]; set_solver.
  - intros a r. unfold obsOf. rewrite A3, A4. apply H2.
  - rewrite A4. exact H3.
Qed.

(** With both nodes present, [RemoveCellDependency] removes the edge at
    both ends and nothing else. *)
Lemma RemoveCellDependency_edges (dg : DependencyGraph) (from to : CellAddress) :
  is_Some (nodes dg !! from) -> is_Some (nodes dg !! to) ->
  (forall a, preOf (RemoveCellDependency dg from to) a
             = preOf dg a ∖ (if decide (a = from) then {[to]} else ∅))
  /\ (forall a, depOf (RemoveCellDependency dg from to) a
                = depOf dg a ∖ (if decide (a = to) then {[from]} else ∅))
  /\ (forall a, rngOf (RemoveCellDependency dg from to) a = rngOf dg a)
  /\ rangeObservers (RemoveCellDependency dg from to) = rangeObservers dg
  /\ dirtySet (RemoveCellDependency dg from to) ⊆ dirtySet dg
  /\ volatileCells (RemoveCellDependency dg from to) = volatileCells dg.
Proof.
  intros [n1 E1] Hto. unfold RemoveCellDependency. rewrite E1.
  destruct Hto as [n0 E0]. rewrite E0.
  set (f := fun n => node_setCellPrecedents n (CellPrecedents n ∖ {[to]})).
  set (g := fun n => node_setCellDependents n (CellDependents n ∖ {[from]})).
  set (dg3 := updateNode dg from f).
  destruct (updateNode_fields dg from f) as (C1 & C2 & C3 & C4). fold dg3 in C1, C2, C3, C4.
  assert (Hto : is_Some (nodes dg3 !! to)) by (apply C4; eauto).
  destruct Hto as [n2 E2].
  set (dg4 := updateNode dg3 to g).
  destruct (updateNode_fields dg3 to g) as (D1 & D2 & D3 & D4). fold dg4 in D1, D2, D3, D4.
  destruct (sameEdges_cleanupNodeIfEmpty dg4 from) as (S1 & S2 & S3 & S4).
  destruct (sameEdges_cleanupNodeIfEmpty (cleanupNodeIfEmpty dg4 from) to)
    as (T1 & T2 & T3 & T4).
  destruct (cleanupNodeIfEmpty_fields dg4 from) as (U1 & U2 & _).
  destruct (cleanupNodeIfEmpty_fields (cleanupNodeIfEmpty dg4 from) to) as (V1 & V2 & _).
  destruct (preOf_node dg from n1 E1) as (N1 & N2 & N3).
  destruct (preOf_node dg3 to n2 E2) as (M1 & M2 & M3).
  split; [|split; [|split; [|split; [|split]]]].
  - intros a. rewrite T1, S1.
    destruct (preOf_updateNode dg3 to a g n2 E2) as (R & _ & _); try fold dg3 in R; try fold dg4 in R; rewrite R; clear R.
    assert (Hsame : (if decide (a = to) then CellPrecedents (g n2) else preOf dg3 a)
                    = preOf dg3 a).
    { destruct (decide (a = to)) as [->|]; [rewrite M1|]; reflexivity. }
    rewrite Hsame. destruct (preOf_updateNode dg from a f n1 E1) as (R & _ & _); try fold dg3 in R; try fold dg4 in R; rewrite R; clear R.
    destruct (decide (a = from)) as [->|Hne]; simpl; [rewrite N1; reflexivity|set_solver].
  - intros a. rewrite T2, S2.
    destruct (preOf_updateNode dg3 to a g n2 E2) as (_ & R & _); try fold dg3 in R; try fold dg4 in R; rewrite R; clear R.
    destruct (decide (a = to)) as [->|Hne]; simpl.
    + rewrite <- M2. destruct (preOf_updateNode dg from to f n1 E1) as (_ & R & _); try fold dg3 in R; try fold dg4 in R; rewrite R; clear R.
      destruct (decide (to = from)) as [->|Hne]; simpl; [rewrite N2; reflexivity|reflexivity].
    + destruct (preOf_updateNode dg from a f n1 E1) as (_ & R & _); try fold dg3 in R; try fold dg4 in R; rewrite R; clear R.
      destruct (decide (a = from)) as [->|Hne']; simpl; [rewrite N2|]; set_solver.
  - intros a. rewrite T3, S3.
    destruct (preOf_updateNode dg3 to a g n2 E2) as (_ & _ & R); try fold dg3 in R; try fold dg4 in R; rewrite R; clear R.
    assert (Hsame : (if decide (a = to) then RangePrecedents (g n2) else rngOf dg3 a)
                    = rngOf dg3 a).
    { destruct (decide (a = to)) as [->|]; [rewrite M3|]; reflexivity. }
    rewrite Hsame. destruct (preOf_updateNode dg from a f n1 E1) as (_ & _ & R); try fold dg3 in R; try fold dg4 in R; rewrite R; clear R.
    destruct (decide (a = from)) as [->|Hne]; simpl; [rewrite N3|]; reflexivity.
  - rewrite T4, S4, D1, C1. reflexivity.
  - etrans; [exact V1|]. etrans; [exact U1|]. rewrite D2, C2. reflexivity.
  - rewrite V2, U2, D3, C3. reflexivity.
Qed.

Lemma RemoveCellDependency_missing (dg : DependencyGraph) (from to : CellAddress) :
  nodes dg !! from = None \/ nodes dg !! to = None ->
  RemoveCellDependency dg from to = dg.
Proof.
  unfold RemoveCellDependency. intros [E|E]; rewrite E; [reflexivity|].
  destruct (nodes dg !! from); reflexivity.
Qed.

(** In a well-formed graph the same holds whether or not the nodes are
    there. *)
Lemma RemoveCellDependency_edges_wf (dg : DependencyGraph) (from to : CellAddress) :
  graph_wf dg ->
  (forall a, preOf (RemoveCellDependency dg from to) a
             = preOf dg a ∖ (if decide (a = from) then {[to]} else ∅))
  /\ (forall a, depOf (RemoveCellDependency dg from to) a
                = depOf dg a ∖ (if decide (a = to) then {[from]} else ∅))
  /\ (forall a, rngOf (RemoveCellDependency dg from to) a = rngOf dg a)
  /\ rangeObservers (RemoveCellDependency dg from to) = rangeObservers dg
  /\ dirtySet (RemoveCellDependency dg from to) ⊆ dirtySet dg
  /\ volatileCells (RemoveCellDependency dg from to) = volatileCells dg.
Proof.
  intros [H1 H2 H3].
  destruct (nodes dg !! from) as [n1|] eqn:E1.
  2: { rewrite RemoveCellDependency_missing by auto.
       destruct (preOf_missing dg from E1) as (P1 & P2 & P3).
       repeat split; auto.
       - intros a. destruct (decide (a = from)) as [->|]; [rewrite P1|]; set_solver.
       - intros a. destruct (decide (a = to)) as [->|]; [|set_solver].
         assert (from ∉ depOf dg to) by (rewrite <- H1, P1; set_solver). set_solver. }
  destruct (nodes dg !! to) as [n2|] eqn:E2.
  2: { rewrite RemoveCellDependency_missing by auto.
       destruct (preOf_missing dg to E2) as (P1 & P2 & P3).
       repeat split; auto.
       - intros a. destruct (decide (a = from)) as [->|]; [|set_solver].
         assert (to ∉ preOf dg from) by (rewrite H1, P2; set_solver). set_solver.
       - intros a. destruct (decide (a = to)) as [->|]; [rewrite P2|]; set_solver. }
  apply RemoveCellDependency_edges; eauto.
Qed.

Lemma RemoveCellDependency_wf (dg : DependencyGraph) (from to : CellAddress) :
  graph_wf dg -> graph_wf (RemoveCellDependency dg from to).
Proof.
  intros Hwf. destruct (RemoveCellDependency_edges_wf dg from to Hwf) as (A1 & A2 & A3 & A4 & _).
  destruct Hwf as [H1 H2 H3]. constructor.
  - intros a p. rewrite A1, A2. specialize (H1 a p).
    destruct (decide (a = from)) as [->|], (decide (p = to)) as [->|]; set_solver.
  - intros a r. unfold obsOf. rewrite A3, A4. apply H2.
  - rewrite A4. exact H3.
Qed.

(** *** Range dependencies *)

Lemma removeObserver_lookup (ro : gmap RangeAddress (gset CellAddress))
  (r r' : RangeAddress) (a : CellAddress) :
  default ∅ (removeObserver ro r a !! r')
  = default ∅ (ro !! r') ∖ (if decide (r' = r) then {[a]} else ∅).
Proof.
  unfold removeObserver. destruct (ro !! r) as [obs|] eqn:E.
  - destruct (decide (size (obs ∖ {[a]}) = 0%nat)) as [Hz|Hz].
    + destruct (decide (r' = r)) as [->|Hne].
      * rewrite lookup_delete_eq, E. simpl. apply size_empty_inv in Hz.
        apply leibniz_equiv in Hz. rewrite Hz. reflexivity.
      * rewrite lookup_delete_ne by congruence. set_solver.
    + destruct (decide (r' = r)) as [->|Hne].
      * rewrite lookup_insert_eq, E. reflexivity.
      * rewrite lookup_insert_ne by congruence. set_solver.
  - destruct (decide (r' = r)) as [->|Hne]; [rewrite E; simpl|]; set_solver.
Qed.

Lemma removeObserver_observed (ro : gmap RangeAddress (gset CellAddress))
  (r : RangeAddress) (a : CellAddress) :
  (forall r' obs, ro !! r' = Some obs -> obs <> ∅) ->
  forall r' obs, removeObserver ro r a !! r' = Some obs -> obs <> ∅.
Proof.
  intros Hne r' obs. unfold removeObserver. destruct (ro !! r) as [obs0|] eqn:E; [|apply Hne].
  destruct (decide (size (obs0 ∖ {[a]}) = 0%nat)) as [Hz|Hz].
  - destruct (decide (r' = r)) as [->|Hr]; [rewrite lookup_delete_eq; discriminate|].
    rewrite lookup_delete_ne by congruence. apply Hne.
  - destruct (decide (r' = r)) as [->|Hr].
    + rewrite lookup_insert_eq. intros [= <-] Hempty. rewrite Hempty, size_empty in Hz.
      congruence.
    + rewrite lookup_insert_ne by congruence. apply Hne.
Qed.

Lemma AddRangeDependency_edges (dg : DependencyGraph) (from : CellAddress) (r : RangeAddress) :
  (forall a, preOf (AddRangeDependency dg from r) a = preOf dg a)
  /\ (forall a, depOf (AddRangeDependency dg from r) a = depOf dg a)
  /\ (forall a, rngOf (AddRangeDependency dg from r) a
                = rngOf dg a ∪ (if decide (a = from) then {[r]} else ∅))
  /\ (forall r', obsOf (AddRangeDependency dg from r) r'
                 = obsOf dg r' ∪ (if decide (r' = r) then {[from]} else ∅))
  /\ dirtySet (AddRangeDependency dg from r) = dirtySet dg
  /\ volatileCells (AddRangeDependency dg from r) = volatileCells dg
  /\ is_Some (nodes (AddRangeDependency dg from r) !! from).
Proof.
  unfold AddRangeDependency.
  set (dg1 := GetOrCreateNode dg from).
  set (f := fun n => node_setRangePrecedents n ({[r]} ∪ RangePrecedents n)).
  destruct (sameEdges_GetOrCreateNode dg from) as (A1 & A2 & A3 & A4).
  fold dg1 in A1, A2, A3, A4.
  destruct (GetOrCreateNode_exists dg from) as [n1 E1]. fold dg1 in E1.
  destruct (updateNode_fields dg1 from f) as (C1 & C2 & C3 & C4).
  destruct (GetOrCreateNode_fields dg from) as [F1 F2]. fold dg1 in F1, F2.
  destruct (preOf_node dg1 from n1 E1) as (N1 & N2 & N3).
  split; [|split; [|split; [|split; [|split; [|split]]]]].
  - intros a. unfold preOf at 1. simpl. fold (preOf (updateNode dg1 from f) a).
    destruct (preOf_updateNode dg1 from a f n1 E1) as (R & _ & _). rewrite R.
    destruct (decide (a = from)) as [->|]; simpl; [rewrite <- N1|]; apply A1.
  - intros a. unfold depOf at 1. simpl. fold (depOf (updateNode dg1 from f) a).
    destruct (preOf_updateNode dg1 from a f n1 E1) as (_ & R & _). rewrite R.
    destruct (decide (a = from)) as [->|]; simpl; [rewrite <- N2|]; apply A2.
  - intros a. unfold rngOf at 1. simpl. fold (rngOf (updateNode dg1 from f) a).
    destruct (preOf_updateNode dg1 from a f n1 E1) as (_ & _ & R). rewrite R.
    destruct (decide (a = from)) as [->|]; simpl; [rewrite <- N3|]; rewrite A3; set_solver.
  - intros r'. unfold obsOf. simpl. rewrite C1, A4.
    destruct (decide (r' = r)) as [->|Hne].
    + rewrite lookup_insert_eq. simpl. set_solver.
    + rewrite lookup_insert_ne by congruence. set_solver.
  - simpl. rewrite C2, F1. reflexivity.
  - simpl. rewrite C3, F2. reflexivity.
  - simpl. apply C4. eauto.
Qed.

Lemma AddRangeDependency_observed (dg : DependencyGraph) (from : CellAddress)
  (r : RangeAddress) :
  (forall r' obs, rangeObservers dg !! r' = Some obs -> obs <> ∅) ->
  forall r' obs, rangeObservers (AddRangeDependency dg from r) !! r' = Some obs -> obs <> ∅.
Proof.
  intros Hne r' obs. unfold AddRangeDependency. simpl.
  destruct (updateNode_fields (GetOrCreateNode dg from) from
              (fun n => node_setRangePrecedents n ({[r]} ∪ RangePrecedents n)))
    as (C1 & _).
  destruct (sameEdges_GetOrCreateNode dg from) as (_ & _ & _ & A4).
  rewrite C1, A4. destruct (decide (r' = r)) as [->|Hr].
  - rewrite lookup_insert_eq. intros [= <-]. set_solver.
  - rewrite lookup_insert_ne by congruence. apply Hne.
Qed.

Lemma AddRangeDependency_wf (dg : DependencyGraph) (from : CellAddress) (r : RangeAddress) :
  graph_wf dg -> graph_wf (AddRangeDependency dg from r).
Proof.
  intros [H1 H2 H3].
  destruct (AddRangeDependency_edges dg from r) as (A1 & A2 & A3 & A4 & _).
  constructor.
  - intros a p. rewrite A1, A2. apply H1.
  - intros a r'. rewrite A3, A4. specialize (H2 a r').
    destruct (decide (a = from)) as [->|], (decide (r' = r)) as [->|]; set_solver.
  - apply AddRangeDependency_observed, H3.
Qed.

Lemma RemoveRangeDependency_edges (dg : DependencyGraph) (from : CellAddress)
  (r : RangeAddress) :
  graph_wf dg ->
  (forall a, preOf (RemoveRangeDependency dg from r) a = preOf dg a)
  /\ (forall a, depOf (RemoveRangeDependency dg from r) a = depOf dg a)
  /\ (forall a, rngOf (RemoveRangeDependency dg from r) a
                = rngOf dg a ∖ (if decide (a = from) then {[r]} else ∅))
  /\ (forall r', obsOf (RemoveRangeDependency dg from r) r'
                 = obsOf dg r' ∖ (if decide (r' = r) then {[from]} else ∅))
  /\ (forall r' obs, rangeObservers (RemoveRangeDependency dg from r) !! r' = Some obs ->
                     obs <> ∅)
  /\ dirtySet (RemoveRangeDependency dg from r) ⊆ dirtySet dg
  /\ volatileCells (RemoveRangeDependency dg from r) = volatileCells dg.
Proof.
  intros [H1 H2 H3]. unfold RemoveRangeDependency.
  destruct (nodes dg !! from) as [n1|] eqn:E1.
  2: { destruct (preOf_missing dg from E1) as (P1 & P2 & P3).
       repeat split; auto.
       - intros a. destruct (decide (a = from)) as [->|]; [rewrite P3|]; set_solver.
       - intros r'. destruct (decide (r' = r)) as [->|]; [|set_solver].
         assert (from ∉ obsOf dg r) by (rewrite <- H2, P3; set_solver). set_solver. }
  set (f := fun n => node_setRangePrecedents n (RangePrecedents n ∖ {[r]})).
  set (dg1 := updateNode dg from f).
  set (dg2 := dg_setRangeObservers dg1 (removeObserver (rangeObservers dg1) r from)).
  destruct (updateNode_fields dg from f) as (C1 & C2 & C3 & C4). fold dg1 in C1, C2, C3, C4.
  destruct (sameEdges_cleanupNodeIfEmpty dg2 from) as (S1 & S2 & S3 & S4).
  destruct (cleanupNodeIfEmpty_fields dg2 from) as (U1 & U2 & _).
  destruct (preOf_node dg from n1 E1) as (N1 & N2 & N3).
  destruct (preOf_updateNode dg from from f n1 E1) as (Q1 & Q2 & Q3).
  fold dg1 in Q1, Q2, Q3.
  split; [|split; [|split; [|split; [|split; [|split]]]]].
  - intros a. rewrite S1. change (preOf dg2 a) with (preOf dg1 a).
    destruct (preOf_updateNode dg from a f n1 E1) as (R & _ & _). fold dg1 in R. rewrite R.
    destruct (decide (a = from)) as [->|]; simpl; [rewrite N1|]; reflexivity.
  - intros a. rewrite S2. change (depOf dg2 a) with (depOf dg1 a).
    destruct (preOf_updateNode dg from a f n1 E1) as (_ & R & _). fold dg1 in R. rewrite R.
    destruct (decide (a = from)) as [->|]; simpl; [rewrite N2|]; reflexivity.
  - intros a. rewrite S3. change (rngOf dg2 a) with (rngOf dg1 a).
    destruct (preOf_updateNode dg from a f n1 E1) as (_ & _ & R). fold dg1 in R. rewrite R.
    destruct (decide (a = from)) as [->|]; simpl; [rewrite N3; reflexivity|set_solver].
  - intros r'. unfold obsOf. rewrite S4. simpl. rewrite removeObserver_lookup, C1.
    reflexivity.
  - rewrite S4. simpl. rewrite C1. apply removeObserver_observed, H3.
  - etrans; [exact U1|]. simpl. rewrite C2. reflexivity.
  - rewrite U2. simpl. exact C3.
Qed.

Lemma RemoveRangeDependency_wf (dg : DependencyGraph) (from : CellAddress)
  (r : RangeAddress) :
  graph_wf dg -> graph_wf (RemoveRangeDependency dg from r).
Proof.
  intros Hwf. destruct (RemoveRangeDependency_edges dg from r Hwf)
    as (A1 & A2 & A3 & A4 & A5 & _).
  destruct Hwf as [H1 H2 H3]. constructor.
  - intros a p. rewrite A1, A2. apply H1.
  - intros a r'. rewrite A3, A4. specialize (H2 a r').
    destruct (decide (a = from)) as [->|], (decide (r' = r)) as [->|]; set_solver.
  - exact A5.
Qed.

(** *** Clearing the dependencies of a cell *)

Lemma RemoveCellDependency_fold (addr : CellAddress) (l : list CellAddress) :
  forall dg,
    graph_wf dg ->
    let dg' := fold_left (fun dg p => RemoveCellDependency dg addr p) l dg in
    graph_wf dg'
    /\ (forall a, preOf dg' a
                  = preOf dg a ∖ (if decide (a = addr) then list_to_set l else ∅))
    /\ (forall a, depOf dg' a
                  = depOf dg a ∖ (if decide (a ∈ l) then {[addr]} else ∅))
    /\ (forall a, rngOf dg' a = rngOf dg a)
    /\ rangeObservers dg' = rangeObservers dg
    /\ dirtySet dg' ⊆ dirtySet dg
    /\ volatileCells dg' = volatileCells dg.
Proof.
  induction l as [|p l IH]; intros dg Hwf; simpl.
  - split; [exact Hwf|]. repeat split; auto; intros a.
    + destruct (decide (a = addr)); set_solver.
    + destruct (decide (a ∈ [])) as [Hin|]; [inversion Hin|set_solver].
  - destruct (RemoveCellDependency_edges_wf dg addr p Hwf) as (A1 & A2 & A3 & A4 & A5 & A6).
    destruct (IH _ (RemoveCellDependency_wf dg addr p Hwf)) as (B0 & B1 & B2 & B3 & B4 & B5 & B6).
    split; [exact B0|]. split; [|split; [|split; [|split; [|split]]]].
    + intros a. rewrite B1, A1. destruct (decide (a = addr)); set_solver.
    + intros a. rewrite B2, A2.
      destruct (decide (a ∈ l)) as [Hl|Hl], (decide (a = p)) as [->|Hp],
        (decide (_ ∈ p :: l)) as [Hpl|Hpl]; set_solver.
    + intros a. rewrite B3, A3. reflexivity.
    + rewrite B4, A4. reflexivity.
    + set_solver.
    + rewrite B6, A6. reflexivity.
Qed.

Lemma RemoveRangeDependency_fold (addr : CellAddress) (l : list RangeAddress) :
  forall dg,
    graph_wf dg ->
    let dg' := fold_left (fun dg r => RemoveRangeDependency dg addr r) l dg in
    graph_wf dg'
    /\ (forall a, preOf dg' a = preOf dg a)
    /\ (forall a, depOf dg' a = depOf dg a)
    /\ (forall a, rngOf dg' a
                  = rngOf dg a ∖ (if decide (a = addr) then list_to_set l else ∅))
    /\ (forall r, obsOf dg' r = obsOf dg r ∖ (if decide (r ∈ l) then {[addr]} else ∅))
    /\ dirtySet dg' ⊆ dirtySet dg
    /\ volatileCells dg' = volatileCells dg.
Proof.
  induction l as [|r0 l IH]; intros dg Hwf; simpl.
  - split; [exact Hwf|]. repeat split; auto; intros a.
    + destruct (decide (a = addr)); set_solver.
    + destruct (decide (a ∈ [])) as [Hin|]; [inversion Hin|set_solver].
  - destruct (RemoveRangeDependency_edges dg addr r0 Hwf)
      as (A1 & A2 & A3 & A4 & A5 & A6 & A7).
    destruct (IH _ (RemoveRangeDependency_wf dg addr r0 Hwf))
      as (B0 & B1 & B2 & B3 & B4 & B5 & B6).
    split; [exact B0|]. split; [|split; [|split; [|split; [|split]]]].
    + intros a. rewrite B1, A1. reflexivity.
    + intros a. rewrite B2, A2. reflexivity.
    + intros a. rewrite B3, A3. destruct (decide (a = addr)); set_solver.
    + intros r. rewrite B4, A4.
      destruct (decide (r ∈ l)) as [Hl|Hl], (decide (r = r0)) as [->|Hp],
        (decide (_ ∈ r0 :: l)) as [Hpl|Hpl]; set_solver.
    + set_solver.
    + rewrite B6, A7. reflexivity.
Qed.

Lemma ClearDependencies_edges (dg : DependencyGraph) (addr : CellAddress) :
  graph_wf dg ->
  graph_wf (ClearDependencies dg addr)
  /\ (forall a, preOf (ClearDependencies dg addr) a
                = if decide (a = addr) then ∅ else preOf dg a)
  /\ (forall a, depOf (ClearDependencies dg addr) a = depOf dg a ∖ {[addr]})
  /\ (forall a, rngOf (ClearDependencies dg addr) a
                = if decide (a = addr) then ∅ else rngOf dg a)
  /\ (forall r, obsOf (ClearDependencies dg addr) r = obsOf dg r ∖ {[addr]})
  /\ dirtySet (ClearDependencies dg addr) ⊆ dirtySet dg
  /\ volatileCells (ClearDependencies dg addr) = volatileCells dg.
Proof.
  intros Hwf. unfold ClearDependencies.
  destruct (nodes dg !! addr) as [node|] eqn:E.
  2: { destruct (preOf_missing dg addr E) as (P1 & P2 & P3). destruct Hwf as [H1 H2 H3].
       split; [constructor; assumption|]. repeat split; auto.
       - intros a. destruct (decide (a = addr)) as [->|]; [exact P1|reflexivity].
       - intros a. assert (addr ∉ depOf dg a) by (rewrite <- H1, P1; set_solver). set_solver.
       - intros a. destruct (decide (a = addr)) as [->|]; [exact P3|reflexivity].
       - intros r. assert (addr ∉ obsOf dg r) by (rewrite <- H2, P3; set_solver). set_solver. }
  destruct (preOf_node dg addr node E) as (N1 & N2 & N3).
  destruct (RemoveCellDependency_fold addr (elements (CellPrecedents node)) dg Hwf)
    as (A0 & A1 & A2 & A3 & A4 & A5 & A6).
  destruct (RemoveRangeDependency_fold addr (elements (RangePrecedents node)) _ A0)
    as (B0 & B1 & B2 & B3 & B4 & B5 & B6).
  pose proof (gw_edges dg Hwf) as H1. pose proof (gw_ranges dg Hwf) as H2.
  split; [exact B0|]. split; [|split; [|split; [|split; [|split]]]].
  - intros a. rewrite B1, A1. destruct (decide (a = addr)) as [->|]; [|set_solver].
    rewrite N1. set_solver.
  - intros a. rewrite B2, A2. destruct (decide (a ∈ elements (CellPrecedents node))) as [Hin|Hin];
      [reflexivity|].
    assert (addr ∉ depOf dg a); [|set_solver].
    rewrite <- H1, N1. set_solver.
  - intros a. rewrite B3, A3. destruct (decide (a = addr)) as [->|]; [|set_solver].
    rewrite N3. set_solver.
  - intros r. rewrite B4.
    assert (Hobs : obsOf (fold_left (fun dg p => RemoveCellDependency dg addr p)
                            (elements (CellPrecedents node)) dg) r = obsOf dg r)
      by (unfold obsOf; rewrite A4; reflexivity).
    rewrite Hobs.
    destruct (decide (r ∈ elements (RangePrecedents node))) as [Hin|Hin]; [reflexivity|].
    assert (addr ∉ obsOf dg r); [|set_solver].
    rewrite <- H2, N3. set_solver.
  - set_solver.
  - rewrite B6, A6. reflexivity.
Qed.

(** *** Steps that leave the edges alone *)

Lemma sameEdges_updateNode (dg : DependencyGraph) (a : CellAddress)
  (f : DependencyNode -> DependencyNode) :
  (forall n, CellPrecedents (f n) = CellPrecedents n) ->
  (forall n, CellDependents (f n) = CellDependents n) ->
  (forall n, RangePrecedents (f n) = RangePrecedents n) ->
  sameEdges dg (updateNode dg a f).
Proof.
  intros F1 F2 F3. destruct (nodes dg !! a) as [n|] eqn:E.
  - destruct (preOf_node dg a n E) as (N1 & N2 & N3).
    destruct (updateNode_fields dg a f) as (C1 & _).
    repeat split; [intros b..|exact C1];
      destruct (preOf_updateNode dg a b f n E) as (R1 & R2 & R3);
      rewrite ?R1, ?R2, ?R3; destruct (decide (b = a)) as [->|]; congruence.
  - rewrite updateNode_missing by exact E. apply sameEdges_refl.
Qed.

Lemma sameEdges_MarkDirty (dg : DependencyGraph) (a : CellAddress) :
  sameEdges dg (MarkDirty dg a).
Proof.
  unfold MarkDirty.
  apply (sameEdges_updateNode (dg_setDirtySet dg ({[a]} ∪ dirtySet dg)) a); reflexivity.
Qed.

Lemma sameEdges_ClearDirty (dg : DependencyGraph) (a : CellAddress) :
  sameEdges dg (ClearDirty dg a).
Proof.
  unfold ClearDirty.
  apply (sameEdges_updateNode (dg_setDirtySet dg (dirtySet dg ∖ {[a]})) a); reflexivity.
Qed.

Lemma sameEdges_MarkDirty_list (l : list CellAddress) (dg : DependencyGraph) :
  sameEdges dg (fold_left MarkDirty l dg).
Proof.
  revert dg. induction l as [|a l IH]; intros dg; simpl; [apply sameEdges_refl|].
  eapply sameEdges_trans; [apply sameEdges_MarkDirty|apply IH].
Qed.

Lemma sameEdges_ClearAllDirty (dg : DependencyGraph) : sameEdges dg (ClearAllDirty dg).
Proof.
  repeat split; intros a; unfold preOf, depOf, rngOf, ClearAllDirty; simpl;
    rewrite lookup_fmap; destruct (nodes dg !! a); reflexivity.
Qed.

Lemma sameEdges_SetFormula (dg : DependencyGraph) (a : CellAddress) (formula : string) :
  sameEdges dg (SetFormula dg a formula).
Proof.
  unfold SetFormula. eapply sameEdges_trans; [apply sameEdges_GetOrCreateNode|].
  apply sameEdges_updateNode; reflexivity.
Qed.

Lemma volatileCells_MarkDirty_list (l : list CellAddress) (dg : DependencyGraph) :
  volatileCells (fold_left MarkDirty l dg) = volatileCells dg.
Proof.
  revert dg. induction l as [|a l IH]; intros dg; simpl; [reflexivity|].
  rewrite IH. unfold MarkDirty. destruct (updateNode_fields
    (dg_setDirtySet dg ({[a]} ∪ dirtySet dg)) a (fun n => node_setIsDirty n true))
    as (_ & _ & C3 & _). exact C3.
Qed.

Lemma dirtySet_MarkDirty_fold (l : list CellAddress) (dg : DependencyGraph) :
  dirtySet (fold_left MarkDirty l dg) = list_to_set l ∪ dirtySet dg.
Proof.
  revert dg. induction l as [|a l IH]; intros dg; simpl; [set_solver|].
  rewrite IH. unfold MarkDirty. destruct (updateNode_fields
    (dg_setDirtySet dg ({[a]} ∪ dirtySet dg)) a (fun n => node_setIsDirty n true))
    as (_ & C2 & _). rewrite C2. simpl. set_solver.
Qed.

(** *** Marking the observers of the ranges that hold a cell *)

Lemma MarkCellIfInRangeDirty_fold (addr : CellAddress)
  (l : list (RangeAddress * gset CellAddress)) :
  forall dg,
    let dg' := fold_left
                 (fun dg (entry : RangeAddress * gset CellAddress) =>
                    if IsInRange addr entry.1
                    then fold_left MarkDirty (elements entry.2) dg
                    else dg) l dg in
    sameEdges dg dg'
    /\ volatileCells dg' = volatileCells dg
    /\ forall a, a ∈ dirtySet dg'
                 <-> a ∈ dirtySet dg
                     \/ exists entry, entry ∈ l /\ IsInRange addr entry.1 = true /\ a ∈ entry.2.
Proof.
  induction l as [|e l IH]; intros dg; simpl.
  - split; [apply sameEdges_refl|]. split; [reflexivity|]. intros a. split; [auto|].
    intros [H|(entry & Hin & _)]; [exact H|inversion Hin].
  - set (dg1 := if IsInRange addr e.1 then fold_left MarkDirty (elements e.2) dg else dg).
    destruct (IH dg1) as (S & V & D).
    assert (S1 : sameEdges dg dg1).
    { unfold dg1. destruct (IsInRange addr e.1);
        [apply sameEdges_MarkDirty_list|apply sameEdges_refl]. }
    assert (V1 : volatileCells dg1 = volatileCells dg).
    { unfold dg1. destruct (IsInRange addr e.1);
        [apply volatileCells_MarkDirty_list|reflexivity]. }
    assert (D1 : forall a, a ∈ dirtySet dg1
                           <-> a ∈ dirtySet dg \/ (IsInRange addr e.1 = true /\ a ∈ e.2)).
    { intros a. unfold dg1. destruct (IsInRange addr e.1).
      - rewrite dirtySet_MarkDirty_fold. set_solver.
      - split; [auto|]. intros [H|[H _]]; [exact H|discriminate]. }
    split; [eapply sameEdges_trans; eauto|]. split; [congruence|].
    intros a. rewrite D, D1. split.
    + intros [[H|[H1 H2]]|(entry & Hin & H1 & H2)]; [auto| |].
      * right. exists e. split; [left|auto].
      * right. exists entry. split; [right; exact Hin|auto].
    + intros [H|(entry & Hin & H1 & H2)]; [auto|].
      apply elem_of_cons in Hin as [->|Hin]; [auto|]. right. eauto.
Qed.

Lemma MarkCellIfInRangeDirty_spec (dg : DependencyGraph) (addr : CellAddress) :
  sameEdges dg (MarkCellIfInRangeDirty dg addr)
  /\ volatileCells (MarkCellIfInRangeDirty dg addr) = volatileCells dg
  /\ forall a, a ∈ dirtySet (MarkCellIfInRangeDirty dg addr)
               <-> a ∈ dirtySet dg
                   \/ exists r, IsInRange addr r = true /\ a ∈ obsOf dg r.
Proof.
  unfold MarkCellIfInRangeDirty.
  destruct (MarkCellIfInRangeDirty_fold addr (map_to_list (rangeObservers dg)) dg)
    as (S & V & D).
  split; [exact S|]. split; [exact V|]. intros a. rewrite D. split.
  - intros [H|((r & obs) & Hin & H1 & H2)]; [auto|]. right. exists r.
    apply elem_of_map_to_list in Hin. unfold obsOf. rewrite Hin. auto.
  - intros [H|(r & H1 & H2)]; [auto|]. right. unfold obsOf in H2.
    destruct (rangeObservers dg !! r) as [obs|] eqn:E; [|set_solver].
    exists (r, obs). split; [apply elem_of_map_to_list; exact E|auto].
Qed.

(** *** Removing a node *)

Lemma updateNode_dropDependent (dg : DependencyGraph) (p x : CellAddress) :
  let dg' := updateNode dg p (fun n => node_setCellDependents n (CellDependents n ∖ {[x]})) in
  (forall a, preOf dg' a = preOf dg a)
  /\ (forall a, depOf dg' a = depOf dg a ∖ (if decide (a = p) then {[x]} else ∅))
  /\ (forall a, rngOf dg' a = rngOf dg a).
Proof.
  intros dg'. unfold dg'. destruct (nodes dg !! p) as [n|] eqn:E.
  - destruct (preOf_node dg p n E) as (N1 & N2 & N3).
    repeat split; intros a;
      destruct (preOf_updateNode dg p a
                  (fun n => node_setCellDependents n (CellDependents n ∖ {[x]})) n E)
        as (R1 & R2 & R3);
      rewrite ?R1, ?R2, ?R3; destruct (decide (a = p)) as [->|]; simpl;
      rewrite ?N1, ?N2, ?N3; set_solver.
  - rewrite updateNode_missing by exact E.
    destruct (preOf_missing dg p E) as (P1 & P2 & P3).
    repeat split; auto. intros a. destruct (decide (a = p)) as [->|]; [rewrite P2|]; set_solver.
Qed.

Lemma updateNode_dropPrecedent (dg : DependencyGraph) (d x : CellAddress) :
  let dg' := updateNode dg d (fun n => node_setCellPrecedents n (CellPrecedents n ∖ {[x]})) in
  (forall a, preOf dg' a = preOf dg a ∖ (if decide (a = d) then {[x]} else ∅))
  /\ (forall a, depOf dg' a = depOf dg a)
  /\ (forall a, rngOf dg' a = rngOf dg a).
Proof.
  intros dg'. unfold dg'. destruct (nodes dg !! d) as [n|] eqn:E.
  - destruct (preOf_node dg d n E) as (N1 & N2 & N3).
    repeat split; intros a;
      destruct (preOf_updateNode dg d a
                  (fun n => node_setCellPrecedents n (CellPrecedents n ∖ {[x]})) n E)
        as (R1 & R2 & R3);
      rewrite ?R1, ?R2, ?R3; destruct (decide (a = d)) as [->|]; simpl;
      rewrite ?N1, ?N2, ?N3; set_solver.
  - rewrite updateNode_missing by exact E.
    destruct (preOf_missing dg d E) as (P1 & P2 & P3).
    repeat split; auto. intros a. destruct (decide (a = d)) as [->|]; [rewrite P1|]; set_solver.
Qed.

Lemma RemoveNode_precedents_fold (addr : CellAddress) (l : list CellAddress) :
  forall dg,
    let dg' := fold_left
                 (fun dg precedentAddr =>
                    let dg := updateNode dg precedentAddr
                                (fun n => node_setCellDependents n (CellDependents n ∖ {[addr]})) in
                    cleanupNodeIfEmpty dg precedentAddr) l dg in
    (forall a, preOf dg' a = preOf dg a)
    /\ (forall a, depOf dg' a = depOf dg a ∖ (if decide (a ∈ l) then {[addr]} else ∅))
    /\ (forall a, rngOf dg' a = rngOf dg a)
    /\ rangeObservers dg' = rangeObservers dg
    /\ dirtySet dg' ⊆ dirtySet dg
    /\ volatileCells dg' = volatileCells dg.
Proof.
  induction l as [|p l IH]; intros dg; simpl.
  - repeat split; auto. intros a. destruct (decide (a ∈ [])) as [Hin|]; [inversion Hin|set_solver].
  - set (dg1 := updateNode dg p (fun n => node_setCellDependents n (CellDependents n ∖ {[addr]}))).
    destruct (updateNode_dropDependent dg p addr) as (A1 & A2 & A3). fold dg1 in A1, A2, A3.
    destruct (updateNode_fields dg p
                (fun n => node_setCellDependents n (CellDependents n ∖ {[addr]})))
      as (C1 & C2 & C3 & _). fold dg1 in C1, C2, C3.
    destruct (sameEdges_cleanupNodeIfEmpty dg1 p) as (S1 & S2 & S3 & S4).
    destruct (cleanupNodeIfEmpty_fields dg1 p) as (U1 & U2 & _).
    pose proof (IH (cleanupNodeIfEmpty dg1 p)) as IH'. simpl in IH'.
    destruct IH' as (B1 & B2 & B3 & B4 & B5 & B6).
    split; [|split; [|split; [|split; [|split]]]].
    + intros a. rewrite B1, S1, A1. reflexivity.
    + intros a. rewrite B2, S2, A2.
      destruct (decide (a ∈ l)) as [Hl|Hl], (decide (a = p)) as [->|Hp],
        (decide (_ ∈ p :: l)) as [Hpl|Hpl]; set_solver.
    + intros a. rewrite B3, S3, A3. reflexivity.
    + rewrite B4, S4, C1. reflexivity.
    + etrans; [exact B5|]. etrans; [exact U1|]. rewrite C2. reflexivity.
    + rewrite B6, U2, C3. reflexivity.
Qed.

Lemma RemoveNode_dependents_fold (addr : CellAddress) (l : list CellAddress) :
  forall dg,
    let dg' := fold_left
                 (fun dg dependentAddr =>
                    updateNode dg dependentAddr
                      (fun n => node_setCellPrecedents n (CellPrecedents n ∖ {[addr]}))) l dg in
    (forall a, preOf dg' a = preOf dg a ∖ (if decide (a ∈ l) then {[addr]} else ∅))
    /\ (forall a, depOf dg' a = depOf dg a)
    /\ (forall a, rngOf dg' a = rngOf dg a)
    /\ rangeObservers dg' = rangeObservers dg
    /\ dirtySet dg' = dirtySet dg
    /\ volatileCells dg' = volatileCells dg.
Proof.
  induction l as [|d l IH]; intros dg; simpl.
  - repeat split; auto. intros a. destruct (decide (a ∈ [])) as [Hin|]; [inversion Hin|set_solver].
  - set (dg1 := updateNode dg d (fun n => node_setCellPrecedents n (CellPrecedents n ∖ {[addr]}))).
    destruct (updateNode_dropPrecedent dg d addr) as (A1 & A2 & A3). fold dg1 in A1, A2, A3.
    destruct (updateNode_fields dg d
                (fun n => node_setCellPrecedents n (CellPrecedents n ∖ {[addr]})))
      as (C1 & C2 & C3 & _). fold dg1 in C1, C2, C3.
    destruct (IH dg1) as (B1 & B2 & B3 & B4 & B5 & B6).
    split; [|split; [|split; [|split; [|split]]]].
    + intros a. rewrite B1, A1.
      destruct (decide (a ∈ l)) as [Hl|Hl], (decide (a = d)) as [->|Hp],
        (decide (_ ∈ d :: l)) as [Hpl|Hpl]; set_solver.
    + intros a. rewrite B2, A2. reflexivity.
    + intros a. rewrite B3, A3. reflexivity.
    + rewrite B4, C1. reflexivity.
    + rewrite B5, C2. reflexivity.
    + rewrite B6, C3. reflexivity.
Qed.

Lemma removeObserver_fold (addr : CellAddress) (l : list RangeAddress) :
  forall ro,
    (forall r obs, ro !! r = Some obs -> obs <> ∅) ->
    let ro' := fold_left (fun ro rangeAddr => removeObserver ro rangeAddr addr) l ro in
    (forall r, default ∅ (ro' !! r)
               = default ∅ (ro !! r) ∖ (if decide (r ∈ l) then {[addr]} else ∅))
    /\ (forall r obs, ro' !! r = Some obs -> obs <> ∅).
Proof.
  induction l as [|r0 l IH]; intros ro Hne; simpl.
  - split; [|exact Hne]. intros r.
    destruct (decide (r ∈ [])) as [Hin|]; [inversion Hin|set_solver].
  - destruct (IH _ (removeObserver_observed ro r0 addr Hne)) as [B1 B2].
    split; [|exact B2]. intros r. rewrite B1, removeObserver_lookup.
    destruct (decide (r ∈ l)) as [Hl|Hl], (decide (r = r0)) as [->|Hp],
      (decide (_ ∈ r0 :: l)) as [Hpl|Hpl]; set_solver.
Qed.

Lemma RemoveNode_edges (dg : DependencyGraph) (addr : CellAddress) :
  graph_wf dg ->
  graph_wf (RemoveNode dg addr)
  /\ nodes (RemoveNode dg addr) !! addr = None
  /\ (forall a, preOf (RemoveNode dg addr) a
                = if decide (a = addr) then ∅ else preOf dg a ∖ {[addr]})
  /\ (forall a, depOf (RemoveNode dg addr) a
                = if decide (a = addr) then ∅ else depOf dg a ∖ {[addr]})
  /\ (forall a, rngOf (RemoveNode dg addr) a
                = if decide (a = addr) then ∅ else rngOf dg a)
  /\ (forall r, obsOf (RemoveNode dg addr) r = obsOf dg r ∖ {[addr]})
  /\ dirtySet (RemoveNode dg addr) ⊆ dirtySet dg
  /\ (nodes dg !! addr <> None -> (addr ∉ dirtySet (RemoveNode dg addr))
                                 /\ (addr ∉ volatileCells (RemoveNode dg addr))).
Proof.
  intros Hwf. pose proof (gw_edges dg Hwf) as H1. pose proof (gw_ranges dg Hwf) as H2.
  pose proof (gw_observed dg Hwf) as H3. unfold RemoveNode.
  destruct (nodes dg !! addr) as [node|] eqn:E.
  2: { destruct (preOf_missing dg addr E) as (P1 & P2 & P3).
       split; [exact Hwf|]. split; [exact E|]. repeat split; auto; try congruence.
       - intros a. destruct (decide (a = addr)) as [->|]; [exact P1|].
         assert (addr ∉ preOf dg a) by (rewrite H1, P2; set_solver). set_solver.
       - intros a. destruct (decide (a = addr)) as [->|]; [exact P2|].
         assert (addr ∉ depOf dg a) by (rewrite <- H1, P1; set_solver). set_solver.
       - intros a. destruct (decide (a = addr)) as [->|]; [exact P3|reflexivity].
       - intros r. assert (addr ∉ obsOf dg r) by (rewrite <- H2, P3; set_solver). set_solver. }
  destruct (preOf_node dg addr node E) as (N1 & N2 & N3).
  destruct (RemoveNode_precedents_fold addr (elements (CellPrecedents node)) dg)
    as (A1 & A2 & A3 & A4 & A5 & A6).
  set (dg1 := fold_left _ (elements (CellPrecedents node)) dg) in *.
  destruct (RemoveNode_dependents_fold addr (elements (CellDependents node)) dg1)
    as (B1 & B2 & B3 & B4 & B5 & B6).
  set (dg2 := fold_left _ (elements (CellDependents node)) dg1) in *.
  destruct (removeObserver_fold addr (elements (RangePrecedents node)) (rangeObservers dg2))
    as [O1 O2].
  { rewrite B4, A4. exact H3. }
  set (ro := fold_left _ (elements (RangePrecedents node)) (rangeObservers dg2)) in *.
  assert (P : forall a, preOf (mkDependencyGraph (delete addr (nodes dg2)) ro
                                 (dirtySet dg2 ∖ {[addr]}) (volatileCells dg2 ∖ {[addr]})) a
                        = if decide (a = addr) then ∅ else preOf dg a ∖ {[addr]}).
  { intros a. unfold preOf at 1. simpl. destruct (decide (a = addr)) as [->|Hne].
    - rewrite lookup_delete_eq. reflexivity.
    - rewrite lookup_delete_ne by congruence. fold (preOf dg2 a). rewrite B1, A1.
      destruct (decide (a ∈ elements (CellDependents node))) as [Hin|Hin]; [reflexivity|].
      assert (addr ∉ preOf dg a); [|set_solver]. rewrite H1, N2. set_solver. }
  assert (D : forall a, depOf (mkDependencyGraph (delete addr (nodes dg2)) ro
                                 (dirtySet dg2 ∖ {[addr]}) (volatileCells dg2 ∖ {[addr]})) a
                        = if decide (a = addr) then ∅ else depOf dg a ∖ {[addr]}).
  { intros a. unfold depOf at 1. simpl. destruct (decide (a = addr)) as [->|Hne].
    - rewrite lookup_delete_eq. reflexivity.
    - rewrite lookup_delete_ne by congruence. fold (depOf dg2 a). rewrite B2, A2.
      destruct (decide (a ∈ elements (CellPrecedents node))) as [Hin|Hin]; [reflexivity|].
      assert (addr ∉ depOf dg a); [|set_solver]. rewrite <- H1, N1. set_solver. }
  assert (R : forall a, rngOf (mkDependencyGraph (delete addr (nodes dg2)) ro
                                 (dirtySet dg2 ∖ {[addr]}) (volatileCells dg2 ∖ {[addr]})) a
                        = if decide (a = addr) then ∅ else rngOf dg a).
  { intros a. unfold rngOf at 1. simpl. destruct (decide (a = addr)) as [->|Hne].
    - rewrite lookup_delete_eq. reflexivity.
    - rewrite lookup_delete_ne by congruence. fold (rngOf dg2 a). rewrite B3, A3. reflexivity. }
  assert (O : forall r, obsOf (mkDependencyGraph (delete addr (nodes dg2)) ro
                                 (dirtySet dg2 ∖ {[addr]}) (volatileCells dg2 ∖ {[addr]})) r
                        = obsOf dg r ∖ {[addr]}).
  { intros r. unfold obsOf at 1. simpl. rewrite O1, B4, A4. fold (obsOf dg r).
    destruct (decide (r ∈ elements (RangePrecedents node))) as [Hin|Hin]; [reflexivity|].
    assert (addr ∉ obsOf dg r); [|set_solver]. rewrite <- H2, N3. set_solver. }
  split; [|split; [|split; [|split; [|split; [|split; [|split]]]]]]; auto.
  - constructor.
    + intros a p. rewrite P, D. specialize (H1 a p).
      destruct (decide (a = addr)) as [->|], (decide (p = addr)) as [->|]; set_solver.
    + intros a r. rewrite R, O. specialize (H2 a r).
      destruct (decide (a = addr)) as [->|]; set_solver.
    + exact O2.
  - simpl. apply lookup_delete_eq.
  - simpl. rewrite B5. set_solver.
  - intros _. simpl. set_solver.
Qed.

(** *** What the queries return *)

Lemma GetDirectPrecedents_preOf `{GoMapOrder} (dg : DependencyGraph) (seed : nat)
  (a p : CellAddress) :
  p ∈ GetDirectPrecedents dg seed a <-> p ∈ preOf dg a.
Proof.
  unfold GetDirectPrecedents, preOf. destruct (nodes dg !! a) as [n|]; simpl.
  - rewrite goMapOrder_perm. apply elem_of_elements.
  - set_solver.
Qed.

Lemma GetDirectDependents_depOf (dg : DependencyGraph) (a d : CellAddress) :
  d ∈ GetDirectDependents dg a <-> d ∈ depOf dg a.
Proof.
  unfold GetDirectDependents, depOf. destruct (nodes dg !! a) as [n|]; simpl.
  - apply elem_of_elements.
  - set_solver.
Qed.

Lemma GetRangePrecedents_rngOf `{GoMapOrder} (dg : DependencyGraph) (seed : nat)
  (a : CellAddress) (r : RangeAddress) :
  r ∈ GetRangePrecedents dg seed a <-> r ∈ rngOf dg a.
Proof.
  unfold GetRangePrecedents, rngOf. destruct (nodes dg !! a) as [n|]; simpl.
  - rewrite goMapOrder_perm. apply elem_of_elements.
  - set_solver.
Qed.

Lemma obsOf_lookup (dg : DependencyGraph) (r : RangeAddress) (a : CellAddress) :
  a ∈ obsOf dg r <-> exists obs, rangeObservers dg !! r = Some obs /\ a ∈ obs.
Proof.
  unfold obsOf. destruct (rangeObservers dg !! r) as [obs|]; simpl.
  - split; [eauto|]. intros (o & [= <-] & Ho). exact Ho.
  - split; [set_solver|]. intros (o & Ho & _). discriminate.
Qed.

Lemma sameEdges_MarkRangeDirty (dg : DependencyGraph) (r : RangeAddress) :
  sameEdges dg (MarkRangeDirty dg r).
Proof.
  unfold MarkRangeDirty. destruct (rangeObservers dg !! r);
    [apply sameEdges_MarkDirty_list|apply sameEdges_refl].
Qed.

Lemma graphBuilt_wf (dg : DependencyGraph) : graphBuilt dg -> graph_wf dg.
Proof.
  induction 1.
  - apply NewDependencyGraph_wf.
  - eapply graph_wf_sameEdges; [apply sameEdges_GetOrCreateNode|assumption].
  - apply RemoveNode_edges; assumption.
  - apply AddCellDependency_wf; assumption.
  - apply RemoveCellDependency_wf; assumption.
  - apply AddRangeDependency_wf; assumption.
  - apply RemoveRangeDependency_wf; assumption.
  - apply ClearDependencies_edges; assumption.
  - eapply graph_wf_sameEdges; [apply sameEdges_MarkDirty|assumption].
  - eapply graph_wf_sameEdges; [apply sameEdges_MarkRangeDirty|assumption].
  - eapply graph_wf_sameEdges; [apply MarkCellIfInRangeDirty_spec|assumption].
  - eapply graph_wf_sameEdges; [apply sameEdges_ClearDirty|assumption].
  - eapply graph_wf_sameEdges; [apply sameEdges_ClearAllDirty|assumption].
  - eapply graph_wf_sameEdges; [apply sameEdges_SetFormula|assumption].
  - destruct IHgraphBuilt as [H1 H2 H3]. constructor; assumption.
  - destruct IHgraphBuilt as [H1 H2 H3]. constructor; assumption.
  - eapply graph_wf_sameEdges; [apply sameEdges_MarkDirty_list|assumption].
Qed.

Lemma sampleGraph_built : graphBuilt sampleGraph.
Proof. unfold sampleGraph. repeat constructor. Qed.

(** X6.  In every graph that the operations of graph.go build from the
    empty one, precedents and dependents mirror each other: [p] is a
    direct precedent of [a] exactly when [a] is a direct dependent of [p];
    a range is a precedent of [a] exactly when [a] is among its observers;
    and no range is kept with an empty set of observers. *)
Theorem graph_edges_mirror `{GoMapOrder} (dg : DependencyGraph) (seed : nat) :
  graphBuilt dg ->
  (forall a p, p ∈ GetDirectPrecedents dg seed a <-> a ∈ GetDirectDependents dg p)
  /\ (forall a r, r ∈ GetRangePrecedents dg seed a
                  <-> exists obs, rangeObservers dg !! r = Some obs /\ a ∈ obs)
  /\ (forall r obs, rangeObservers dg !! r = Some obs -> obs <> ∅).
Proof.
  intros Hb. destruct (graphBuilt_wf dg Hb) as [H1 H2 H3].
  split; [|split].
  - intros a p. rewrite GetDirectPrecedents_preOf, GetDirectDependents_depOf. apply H1.
  - intros a r. rewrite GetRangePrecedents_rngOf, <- obsOf_lookup. apply H2.
  - exact H3.
Qed.

(** X6, witness: the graph in which B1 reads A1 and A1:A2, and C1 reads B1. *)
Lemma graph_edges_mirror_witness :
  (forall a p, p ∈ @GetDirectPrecedents sampleOrder sampleGraph 0 a
               <-> a ∈ GetDirectDependents sampleGraph p)
  /\ (forall a r, r ∈ @GetRangePrecedents sampleOrder sampleGraph 0 a
                  <-> exists obs, rangeObservers sampleGraph !! r = Some obs /\ a ∈ obs)
  /\ (forall r obs, rangeObservers sampleGraph !! r = Some obs -> obs <> ∅).
Proof.
  apply (@graph_edges_mirror sampleOrder sampleGraph 0). unfold sampleGraph.
  apply built_AddCellDependency, built_AddRangeDependency, built_AddCellDependency, built_New.
Defined.

(** X7.  In such a graph [ClearDependencies] leaves the cell without
    precedents and without range precedents, takes it out of the dependents
    of every cell and out of the observers of every range, and changes the
    precedents of no other cell; the cell's own dependents stay. *)
Theorem ClearDependencies_clears `{GoMapOrder} (dg : DependencyGraph) (addr : CellAddress)
  (seed : nat) :
  graphBuilt dg ->
  let dg' := ClearDependencies dg addr in
  GetDirectPrecedents dg' seed addr = []
  /\ GetRangePrecedents dg' seed addr = []
  /\ (forall a d, d ∈ GetDirectDependents dg' a <-> d ∈ GetDirectDependents dg a /\ d <> addr)
  /\ (forall r a, a ∈ obsOf dg' r <-> a ∈ obsOf dg r /\ a <> addr)
  /\ (forall a p, a <> addr ->
        p ∈ GetDirectPrecedents dg' seed a <-> p ∈ GetDirectPrecedents dg seed a)
  /\ (forall a r, a <> addr ->
        r ∈ GetRangePrecedents dg' seed a <-> r ∈ GetRangePrecedents dg seed a).
Proof.
  intros Hb dg'. destruct (ClearDependencies_edges dg addr (graphBuilt_wf dg Hb))
    as (_ & P & D & R & O & _). fold dg' in P, D, R, O.
  split; [|split; [|split; [|split; [|split]]]].
  - apply elem_of_nil_inv. intros p. rewrite GetDirectPrecedents_preOf, P.
    destruct (decide (addr = addr)); [set_solver|congruence].
  - apply elem_of_nil_inv. intros r. rewrite GetRangePrecedents_rngOf, R.
    destruct (decide (addr = addr)); [set_solver|congruence].
  - intros a d. rewrite !GetDirectDependents_depOf, D. set_solver.
  - intros r a. rewrite O. set_solver.
  - intros a p Hne. rewrite !GetDirectPrecedents_preOf, P.
    destruct (decide (a = addr)); [congruence|reflexivity].
  - intros a r Hne. rewrite !GetRangePrecedents_rngOf, R.
    destruct (decide (a = addr)); [congruence|reflexivity].
Qed.

(** X7, witness: B1 of that graph reads A1 before and nothing after. *)
Lemma ClearDependencies_clears_witness :
  @GetDirectPrecedents sampleOrder (ClearDependencies sampleGraph B1) 0 B1 = []
  /\ A1 ∈ @GetDirectPrecedents sampleOrder sampleGraph 0 B1.
Proof.
  split.
  - apply (@ClearDependencies_clears sampleOrder sampleGraph B1 0). unfold sampleGraph.
    apply built_AddCellDependency, built_AddRangeDependency, built_AddCellDependency,
      built_New.
  - vm_compute. set_solver.
Defined.

(** X8.  In such a graph [RemoveNode] deletes the node and every edge that
    touches it: the cell is no longer a precedent, a dependent or a range
    observer of anything, and the edges between the other cells stay as
    they were. *)
Theorem RemoveNode_removes_edges `{GoMapOrder} (dg : DependencyGraph) (addr : CellAddress)
  (seed : nat) :
  graphBuilt dg ->
  let dg' := RemoveNode dg addr in
  nodes dg' !! addr = None
  /\ (forall a p, p ∈ GetDirectPrecedents dg' seed a
                  <-> p ∈ GetDirectPrecedents dg seed a /\ a <> addr /\ p <> addr)
  /\ (forall a d, d ∈ GetDirectDependents dg' a
                  <-> d ∈ GetDirectDependents dg a /\ a <> addr /\ d <> addr)
  /\ (forall a r, r ∈ GetRangePrecedents dg' seed a
                  <-> r ∈ GetRangePrecedents dg seed a /\ a <> addr)
  /\ (forall r a, a ∈ obsOf dg' r <-> a ∈ obsOf dg r /\ a <> addr).
Proof.
  intros Hb dg'. destruct (RemoveNode_edges dg addr (graphBuilt_wf dg Hb))
    as (_ & N & P & D & R & O & _). fold dg' in N, P, D, R, O.
  split; [exact N|]. split; [|split; [|split]].
  - intros a p. rewrite !GetDirectPrecedents_preOf, P.
    destruct (decide (a = addr)); set_solver.
  - intros a d. rewrite !GetDirectDependents_depOf, D.
    destruct (decide (a = addr)); set_solver.
  - intros a r. rewrite !GetRangePrecedents_rngOf, R.
    destruct (decide (a = addr)); set_solver.
  - intros r a. rewrite O. set_solver.
Qed.

(** X8, witness: the node of B1 in that graph. *)
Lemma RemoveNode_removes_edges_witness :
  nodes (RemoveNode sampleGraph B1) !! B1 = None
  /\ GetDirectDependents sampleGraph A1 = [B1].
Proof.
  split.
  - apply (@RemoveNode_removes_edges sampleOrder sampleGraph B1 0). unfold sampleGraph.
    apply built_AddCellDependency, built_AddRangeDependency, built_AddCellDependency,
      built_New.
  - vm_compute. reflexivity.
Defined.


(** *** Transitive dependents *)

Section CollectDependents.
Context `{GoMapOrder}.
Variable dg : DependencyGraph.

Lemma unvisited_mono (V V' : gset CellAddress) : V ⊆ V' -> (unvisited dg V' <= unvisited dg V)%nat.
Proof. intros HV. unfold unvisited. apply subseteq_size. set_solver. Qed.

Lemma unvisited_mark (V : gset CellAddress) (a : CellAddress) :
  a ∉ V -> is_Some (nodes dg !! a) -> (unvisited dg ({[a]} ∪ V) < unvisited dg V)%nat.
Proof.
  intros Ha Hn. unfold unvisited. apply subset_size. split; [set_solver|].
  intros Hsub. assert (a ∈ dom (nodes dg) ∖ V) as Hin by (apply elem_of_difference; split;
    [apply elem_of_dom; exact Hn|exact Ha]).
  apply Hsub in Hin. set_solver.
Qed.

Lemma collectDependents_loop (fuel : nat) (addr : CellAddress) :
  (forall a st, (unvisited dg (vsVisited st) < fuel)%nat -> a ∉ vsVisited st ->
                exists st', collectDependents fuel dg a st = Some st' /\ collected dg a st st') ->
  forall (l : list CellAddress) (st1 : VisitState),
    (forall c, c ∈ l -> dependentStep dg addr c) ->
    (unvisited dg (vsVisited st1) < fuel)%nat ->
    exists st2,
      fold_left
        (fun acc dependentAddr =>
           match acc with
           | None => None
           | Some st =>
               if decide (dependentAddr ∈ vsVisited st) then Some st
               else collectDependents fuel dg dependentAddr
                      (mkVisitState (vsVisited st) (vsResult st ++ [dependentAddr])
                         (vsEvents st))
           end) l (Some st1) = Some st2
      /\ vsVisited st1 ⊆ vsVisited st2
      /\ (forall c, c ∈ l -> c ∈ vsVisited st2)
      /\ (forall x, x ∈ vsVisited st2 -> x ∉ vsVisited st1 -> rtc (dependentStep dg) addr x)
      /\ (forall x, x ∈ vsVisited st2 -> x ∉ vsVisited st1 -> depOf dg x ⊆ vsVisited st2)
      /\ exists l', vsResult st2 = vsResult st1 ++ l' /\ NoDup l'
                    /\ forall x, x ∈ l' <-> x ∈ vsVisited st2 /\ (x ∉ vsVisited st1).
Proof.
  intros IH. induction l as [|c l IHl]; intros st1 Hl Hf; simpl.
  - exists st1. split; [reflexivity|]. split; [set_solver|]. split; [set_solver|].
    split; [set_solver|]. split; [set_solver|]. exists []. rewrite app_nil_r.
    split; [reflexivity|]. split; [constructor|]. set_solver.
  - destruct (decide (c ∈ vsVisited st1)) as [Hc|Hc].
    + destruct (IHl st1) as (st2 & E & S1 & S2 & S3 & S4 & S5); [set_solver|exact Hf|].
      exists st2. split; [exact E|]. split; [exact S1|]. split; [|auto].
      intros c' Hc'. apply elem_of_cons in Hc'. destruct Hc' as [->|Hc']; [set_solver|auto].
    + destruct (IH c (mkVisitState (vsVisited st1) (vsResult st1 ++ [c]) (vsEvents st1)))
        as (stc & Ec & C1 & C2 & C3 & lc & C4 & C5 & C6); [exact Hf|exact Hc|].
      simpl in C1, C2, C3, C4, C6. rewrite Ec.
      destruct (IHl stc) as (st2 & E & S1 & S2 & S3 & S4 & l2 & S5 & S6 & S7).
      { intros c' Hc'. apply Hl. set_solver. }
      { eapply Nat.le_lt_trans; [apply unvisited_mono|exact Hf]. set_solver. }
      assert (Hstep : dependentStep dg addr c) by (apply Hl; set_solver).
      exists st2. split; [exact E|]. split; [set_solver|]. split; [|split; [|split]].
      * intros c' Hc'. apply elem_of_cons in Hc'. destruct Hc' as [->|Hc']; [set_solver|auto].
      * intros x Hx Hx1. destruct (decide (x ∈ vsVisited stc)) as [Hxc|Hxc].
        -- eapply rtc_l; [exact Hstep|]. apply C2; assumption.
        -- apply S3; assumption.
      * intros x Hx Hx1. destruct (decide (x ∈ vsVisited stc)) as [Hxc|Hxc].
        -- etrans; [apply C3; assumption|exact S1].
        -- apply S4; assumption.
      * exists (c :: lc ++ l2). split; [|split].
        -- rewrite S5, C4, <- !app_assoc. reflexivity.
        -- apply NoDup_cons. split.
           ++ rewrite elem_of_app. intros [Hin|Hin].
              ** apply C6 in Hin. destruct Hin as (_ & _ & Hne). congruence.
              ** apply S7 in Hin. set_solver.
           ++ apply NoDup_app. split; [exact C5|]. split; [|exact S6].
              intros x Hx1 Hx2. apply C6 in Hx1. apply S7 in Hx2. tauto.
        -- intros x. rewrite elem_of_cons, elem_of_app, C6, S7.
           destruct (decide (x = c)) as [->|Hne]; [set_solver|].
           destruct (decide (x ∈ vsVisited stc)); set_solver.
Qed.

Lemma collectDependents_collected (fuel : nat) :
  forall a st, (unvisited dg (vsVisited st) < fuel)%nat -> a ∉ vsVisited st ->
               exists st', collectDependents fuel dg a st = Some st' /\ collected dg a st st'.
Proof.
  induction fuel as [|fuel IH]; intros a st Hf Ha; [lia|]. simpl.
  destruct (decide (a ∈ vsVisited st)) as [|_]; [contradiction|].
  destruct (nodes dg !! a) as [node|] eqn:E.
  - destruct (collectDependents_loop fuel a IH
                (goMapOrder (vsEvents st) (elements (CellDependents node)))
                (mkVisitState ({[a]} ∪ vsVisited st) (vsResult st) (S (vsEvents st))))
      as (st2 & E2 & S1 & S2 & S3 & S4 & l' & S5 & S6 & S7).
    { intros c Hc. rewrite goMapOrder_perm in Hc. apply elem_of_elements in Hc.
      unfold dependentStep, depOf. rewrite E. exact Hc. }
    { simpl. pose proof (unvisited_mark (vsVisited st) a Ha (mk_is_Some _ _ E)). lia. }
    simpl in S1, S3, S4, S5, S7. exists st2. split; [exact E2|].
    split; [exact S1|]. split; [|split].
    + intros x Hx Hx1. destruct (decide (x = a)) as [->|Hne]; [apply rtc_refl|].
      apply S3; set_solver.
    + intros x Hx Hx1. destruct (decide (x = a)) as [->|Hne]; [|apply S4; set_solver].
      intros c Hc. apply S2. rewrite goMapOrder_perm. apply elem_of_elements.
      unfold depOf in Hc. rewrite E in Hc. exact Hc.
    + exists l'. split; [exact S5|]. split; [exact S6|]. intros x. rewrite S7. set_solver.
  - exists (mkVisitState ({[a]} ∪ vsVisited st) (vsResult st) (vsEvents st)).
    split; [reflexivity|]. split; [reflexivity|]. simpl. split; [|split].
    + intros x Hx Hx1. assert (x = a) as -> by set_solver. apply rtc_refl.
    + intros x Hx Hx1. assert (x = a) as -> by set_solver. unfold depOf. rewrite E.
      set_solver.
    + exists []. rewrite app_nil_r. split; [reflexivity|]. split; [constructor|]. set_solver.
Qed.

Lemma allDependents_reachable (events : nat) (addr : CellAddress) :
  exists st, allDependents dg events addr = Some st /\ NoDup (vsResult st)
             /\ forall x, x ∈ vsResult st <-> x <> addr /\ rtc (dependentStep dg) addr x.
Proof.
  unfold allDependents.
  destruct (collectDependents_collected (S (size (nodes dg))) addr (mkVisitState ∅ [] events))
    as (st' & E & C1 & C2 & C3 & l & C4 & C5 & C6).
  { simpl. unfold unvisited. rewrite difference_empty_L, size_dom. lia. }
  { simpl. set_solver. }
  simpl in C1, C2, C3, C4, C6. exists st'. split; [exact E|]. rewrite C4.
  split; [exact C5|]. intros x. rewrite C6. split.
  - intros (Hx & _ & Hne). split; [exact Hne|]. apply C2; set_solver.
  - intros (Hne & Hr). split; [|split; [set_solver|exact Hne]].
    assert (addr ∈ vsVisited st') as Ha by set_solver.
    assert (Hclosed : forall a b, a ∈ vsVisited st' -> rtc (dependentStep dg) a b
                                  -> b ∈ vsVisited st').
    { intros a b Hin Hab. induction Hab as [|a b c Hab Hbc IHr]; [exact Hin|].
      apply IHr. apply (C3 a); [exact Hin|set_solver|exact Hab]. }
    exact (Hclosed addr x Ha Hr).
Qed.



End CollectDependents.

Lemma rtc_dependentStep (dg : DependencyGraph) (a b : CellAddress) :
  rtc (dependentStep dg) a b <-> rtc (fun a b => b ∈ GetDirectDependents dg a) a b.
Proof.
  split; induction 1 as [|? ? ? Hs _ IH]; try apply rtc_refl;
    (eapply rtc_l; [|exact IH]); apply GetDirectDependents_depOf; exact Hs.
Qed.

(** X10.  [GetAllDependents] returns, each once, exactly the cells other
    than [addr] that can be reached from [addr] along dependent edges; the
    cell itself is never listed, not even when it lies on a cycle. *)
Theorem GetAllDependents_transitive_closure `{GoMapOrder} (dg : DependencyGraph)
  (seed : nat) (addr : CellAddress) :
  exists l,
    GetAllDependents dg seed addr = Some l
    /\ NoDup l
    /\ forall x, x ∈ l
                 <-> x <> addr /\ rtc (fun a b => b ∈ GetDirectDependents dg a) addr x.
Proof.
  destruct (allDependents_reachable dg seed addr) as (st & E & N & Hl).
  exists (vsResult st). unfold GetAllDependents. rewrite E.
  split; [reflexivity|]. split; [exact N|]. intros x. rewrite Hl, rtc_dependentStep.
  reflexivity.
Qed.


(** *** Calculation order *)

Lemma topoFrom_mono (dg : DependencyGraph) (l : list CellAddress) :
  forall seen seen', (forall x, x ∈ seen -> x ∈ seen') ->
                     topoFrom dg seen l -> topoFrom dg seen' l.
Proof.
  induction l as [|x l IH]; intros seen seen' Hs; simpl; [auto|].
  intros [H1 H2]. split; [auto|]. apply (IH (seen ++ [x])); [|exact H2].
  intros y. rewrite !elem_of_app. intros [Hy|Hy]; auto.
Qed.

Lemma topoFrom_app (dg : DependencyGraph) (l1 l2 : list CellAddress) :
  forall seen, topoFrom dg seen (l1 ++ l2)
               <-> topoFrom dg seen l1 /\ topoFrom dg (seen ++ l1) l2.
Proof.
  induction l1 as [|x l1 IH]; intros seen; simpl.
  - rewrite app_nil_r. tauto.
  - rewrite IH, <- app_assoc. simpl. tauto.
Qed.

Lemma topoFrom_before (dg : DependencyGraph) (seen l1 l2 : list CellAddress)
  (x p : CellAddress) :
  topoFrom dg seen (l1 ++ x :: l2) -> p ∈ preOf dg x -> p ∈ seen ++ l1.
Proof. rewrite topoFrom_app. simpl. intros (_ & Hx & _) Hp. auto. Qed.

Lemma topoFrom_reach (dg : DependencyGraph) (L : list CellAddress) :
  topoFrom dg [] L ->
  forall n l1 x l2 y, (length l1 <= n)%nat -> L = l1 ++ x :: l2 ->
                      tc (precedentStep dg) x y -> y ∈ l1.
Proof.
  intros HL. induction n as [|n IH]; intros l1 x l2 y Hn -> Hxy.
  - destruct l1; [|simpl in Hn; lia].
    inversion Hxy as [? ? Hs|? p ? Hs _]; subst;
      apply (topoFrom_before dg [] [] l2 x) in Hs; try exact HL; inversion Hs.
  - inversion Hxy as [? ? Hs|? p ? Hs Hpy]; subst.
    + apply (topoFrom_before dg [] l1 l2 x) in Hs; auto.
    + apply (topoFrom_before dg [] l1 l2 x) in Hs; [|exact HL]. simpl in Hs.
      apply list_elem_of_split in Hs. destruct Hs as (l1a & l1b & ->).
      assert (y ∈ l1a); [|set_solver].
      apply (IH l1a p (l1b ++ x :: l2) y); [| |exact Hpy].
      * rewrite length_app in Hn. simpl in Hn. lia.
      * rewrite <- app_assoc. reflexivity.
Qed.

Lemma topoFrom_acyclic (dg : DependencyGraph) (L : list CellAddress) :
  topoFrom dg [] L -> NoDup L -> (forall a, is_Some (nodes dg !! a) -> a ∈ L) ->
  ~ cyclic dg.
Proof.
  intros HL Hnd Hall (x & Hx).
  assert (x ∈ L) as Hin.
  { apply Hall. inversion Hx as [? ? Hs|? p ? Hs _]; subst; unfold precedentStep, preOf in Hs;
      destruct (nodes dg !! x); eauto; set_solver. }
  apply list_elem_of_split in Hin. destruct Hin as (l1 & l2 & ->).
  pose proof (topoFrom_reach dg _ HL (length l1) l1 x l2 x (le_n _) eq_refl Hx) as Hx1.
  apply NoDup_app in Hnd. destruct Hnd as (_ & Hd & _). apply (Hd x Hx1). left.
Qed.

Section Visit.
Context `{GoMapOrder}.
Variable dg : DependencyGraph.

Lemma visit_measure_mono (M M' : gmap CellAddress bool) :
  dom M ⊆ dom M' ->
  (size (dom (nodes dg) ∖ dom M') <= size (dom (nodes dg) ∖ dom M))%nat.
Proof. intros HM. apply subseteq_size. set_solver. Qed.

Lemma visit_measure_mark (M : gmap CellAddress bool) (a : CellAddress) (b : bool) :
  M !! a = None -> is_Some (nodes dg !! a) ->
  (size (dom (nodes dg) ∖ dom (<[a := b]> M)) < size (dom (nodes dg) ∖ dom M))%nat.
Proof.
  intros Ha Hn. apply subset_size. split; [set_solver|].
  intros Hsub. assert (a ∈ dom (nodes dg) ∖ dom M) as Hin.
  { apply elem_of_difference. split; [apply elem_of_dom; exact Hn|].
    apply not_elem_of_dom. exact Ha. }
  apply Hsub in Hin. set_solver.
Qed.

Lemma visit_loop (fuel : nat) (a : CellAddress) :
  (forall p st, orderInv st ->
                (size (dom (nodes dg) ∖ dom (osState st)) < fuel)%nat ->
                (forall g, osState st !! g = Some false -> tc (precedentStep dg) g p) ->
                exists st' r, visit fuel dg p st = Some (st', r) /\ visitPost dg p st st' r) ->
  forall (l : list CellAddress) (st1 : OrderState),
    orderInv st1 ->
    (size (dom (nodes dg) ∖ dom (osState st1)) < fuel)%nat ->
    (forall g, osState st1 !! g = Some false -> rtc (precedentStep dg) g a) ->
    (forall p, p ∈ l -> precedentStep dg a p) ->
    exists st2,
      fold_left
        (fun acc precedentAddr =>
           match acc with
           | None => None
           | Some st =>
               match visit fuel dg precedentAddr st with
               | None => None
               | Some (st, true) =>
                   Some (mkOrderState (osState st) (osOrder st) true (osEvents st))
               | Some (st, false) => Some st
               end
           end) l (Some st1) = Some st2
      /\ orderInv st2
      /\ (forall x, osState st2 !! x = Some false <-> osState st1 !! x = Some false)
      /\ dom (osState st1) ⊆ dom (osState st2)
      /\ (exists new, osOrder st2 = osOrder st1 ++ new
                      /\ (osHasCycle st2 = false -> topoFrom dg (osOrder st1) new))
      /\ (osHasCycle st2 = true -> osHasCycle st1 = true \/ cyclic dg)
      /\ (osHasCycle st1 = true -> osHasCycle st2 = true)
      /\ (osHasCycle st2 = false -> forall p, p ∈ l -> p ∈ osOrder st2).
Proof.
  intros IH. induction l as [|p l IHl]; intros st1 Hinv Hf Hg Hl; simpl.
  - exists st1. split; [reflexivity|]. split; [exact Hinv|]. split; [tauto|].
    split; [set_solver|]. split.
    + exists []. rewrite app_nil_r. split; [reflexivity|]. intros _. exact I.
    + split; [auto|]. split; [auto|]. intros _ p Hp. inversion Hp.
  - destruct (IH p st1 Hinv Hf) as (st' & r & E & P1 & P2 & P3 & (new1 & P4 & P5) & P6 & P7 & P8 & P9).
    { intros g Hgrey. eapply tc_rtc_l; [apply Hg; exact Hgrey|].
      apply tc_once. apply Hl. left. }
    rewrite E.
    set (st'' := if r then mkOrderState (osState st') (osOrder st') true (osEvents st')
                 else st').
    assert (Est : (if r then Some (mkOrderState (osState st') (osOrder st') true (osEvents st'))
                   else Some st') = Some st'') by (unfold st''; destruct r; reflexivity).
    rewrite Est.
    assert (S1 : osState st'' = osState st') by (unfold st''; destruct r; reflexivity).
    assert (S2 : osOrder st'' = osOrder st') by (unfold st''; destruct r; reflexivity).
    assert (S3 : osHasCycle st'' = false -> r = false /\ osHasCycle st' = false).
    { unfold st''. destruct r; simpl; [discriminate|auto]. }
    assert (S4 : osHasCycle st' = true -> osHasCycle st'' = true).
    { unfold st''. destruct r; simpl; auto. }
    destruct (IHl st'') as (st2 & E2 & Q1 & Q2 & Q3 & (new2 & Q4 & Q5) & Q6 & Q7 & Q8).
    { unfold orderInv. rewrite S1, S2. exact P1. }
    { rewrite S1. eapply Nat.le_lt_trans; [apply visit_measure_mono; exact P3|exact Hf]. }
    { intros g Hgrey. rewrite S1 in Hgrey. apply Hg, P2, Hgrey. }
    { intros q Hq. apply Hl. right. exact Hq. }
    rewrite S1 in Q2, Q3. rewrite S2 in Q4, Q5.
    exists st2. split; [exact E2|]. split; [exact Q1|]. split.
    { intros x. rewrite Q2. apply P2. }
    split; [set_solver|]. split.
    { exists (new1 ++ new2). split; [rewrite Q4, P4, app_assoc; reflexivity|].
      intros Hh. destruct (osHasCycle st'') eqn:Eh.
      - rewrite Q7 in Hh by reflexivity. discriminate.
      - destruct (S3 eq_refl) as [-> Hh']. apply topoFrom_app. split; [auto|].
        rewrite <- P4. auto. }
    split.
    { intros Hh. destruct (Q6 Hh) as [Hh''|Hc]; [|auto].
      destruct (osHasCycle st') eqn:Eh'; [apply P6; reflexivity|].
      right. apply P8. unfold st'' in Hh''. destruct r; [reflexivity|].
      simpl in Hh''. congruence. }
    split.
    { intros Hh. apply Q7, S4, P7, Hh. }
    intros Hh q Hq. apply elem_of_cons in Hq. destruct Hq as [->|Hq]; [|auto].
    destruct (osHasCycle st'') eqn:Eh.
    + rewrite Q7 in Hh by reflexivity. discriminate.
    + destruct (S3 eq_refl) as [Hr _]. rewrite Q4. apply elem_of_app. left.
      apply P1. apply P9. exact Hr.
Qed.

Lemma visit_spec (fuel : nat) :
  forall p st, orderInv st ->
               (size (dom (nodes dg) ∖ dom (osState st)) < fuel)%nat ->
               (forall g, osState st !! g = Some false -> tc (precedentStep dg) g p) ->
               exists st' r, visit fuel dg p st = Some (st', r) /\ visitPost dg p st st' r.
Proof.
  induction fuel as [|fuel IH]; intros a st Hinv Hf Hg; [lia|]. simpl.
  destruct (osState st !! a) as [completed|] eqn:Ea.
  - exists st, (negb completed). split; [reflexivity|]. split; [exact Hinv|].
    split; [tauto|]. split; [set_solver|]. split.
    { exists []. rewrite app_nil_r. split; [reflexivity|]. intros _. exact I. }
    split; [auto|]. split; [auto|]. split.
    + destruct completed; [discriminate|]. intros _. exists a. apply Hg. exact Ea.
    + destruct completed; [auto|discriminate].
  - set (st1 := mkOrderState (<[a := false]> (osState st)) (osOrder st) (osHasCycle st)
                  (osEvents st)).
    assert (Hinv1 : forall e, orderInv (mkOrderState (osState st1) (osOrder st1)
                                           (osHasCycle st1) e)).
    { intros e. destruct Hinv as [I1 I2]. split; [|exact I2]. intros x. simpl.
      rewrite <- I1. destruct (decide (x = a)) as [->|Hne].
      - rewrite lookup_insert_eq, Ea. split; discriminate.
      - rewrite lookup_insert_ne by congruence. reflexivity. }
    assert (Hloop : exists st2,
               match nodes dg !! a with
               | Some node =>
                   fold_left
                     (fun acc precedentAddr =>
                        match acc with
                        | None => None
                        | Some st =>
                            match visit fuel dg precedentAddr st with
                            | None => None
                            | Some (st, true) =>
                                Some (mkOrderState (osState st) (osOrder st) true (osEvents st))
                            | Some (st, false) => Some st
                            end
                        end)
                     (goMapOrder (osEvents st1) (elements (CellPrecedents node)))
                     (Some (mkOrderState (osState st1) (osOrder st1) (osHasCycle st1)
                              (S (osEvents st1))))
               | None => Some st1
               end = Some st2
               /\ orderInv st2
               /\ (forall x, osState st2 !! x = Some false <-> osState st1 !! x = Some false)
               /\ dom (osState st1) ⊆ dom (osState st2)
               /\ (exists new, osOrder st2 = osOrder st1 ++ new
                               /\ (osHasCycle st2 = false -> topoFrom dg (osOrder st1) new))
               /\ (osHasCycle st2 = true -> osHasCycle st1 = true \/ cyclic dg)
               /\ (osHasCycle st1 = true -> osHasCycle st2 = true)
               /\ (osHasCycle st2 = false -> forall p, p ∈ preOf dg a -> p ∈ osOrder st2)).
    { destruct (nodes dg !! a) as [node|] eqn:En.
      - destruct (visit_loop fuel a IH (goMapOrder (osEvents st1) (elements (CellPrecedents node)))
                    (mkOrderState (osState st1) (osOrder st1) (osHasCycle st1)
                       (S (osEvents st1))))
          as (st2 & E2 & Q).
        + apply Hinv1.
        + simpl. pose proof (visit_measure_mark (osState st) a false Ea (mk_is_Some _ _ En)).
          lia.
        + simpl. intros g Hgrey. destruct (decide (g = a)) as [->|Hne]; [apply rtc_refl|].
          rewrite lookup_insert_ne in Hgrey by congruence. apply tc_rtc, Hg, Hgrey.
        + intros p Hp. rewrite goMapOrder_perm in Hp. apply elem_of_elements in Hp.
          unfold precedentStep, preOf. rewrite En. exact Hp.
        + exists st2. split; [exact E2|]. simpl in Q.
          destruct Q as (Q1 & Q2 & Q3 & Q4 & Q5 & Q6 & Q7). repeat (split; [assumption|]).
          intros Hh p Hp. apply Q7; [exact Hh|]. rewrite goMapOrder_perm.
          apply elem_of_elements. unfold preOf in Hp. rewrite En in Hp. exact Hp.
      - exists st1. split; [reflexivity|]. split; [apply (Hinv1 (osEvents st1))|].
        split; [tauto|]. split; [set_solver|]. split.
        { exists []. rewrite app_nil_r. split; [reflexivity|]. intros _. exact I. }
        split; [auto|]. split; [auto|]. intros _ p Hp. unfold preOf in Hp. rewrite En in Hp.
        set_solver. }
    destruct Hloop as (st2 & E2 & Q1 & Q2 & Q3 & (new & Q4 & Q5) & Q6 & Q7 & Q8).
    clear Hinv1. subst st1. simpl in E2, Q2, Q3, Q4, Q5, Q6, Q7. rewrite E2.
    assert (Hgrey2 : osState st2 !! a = Some false).
    { apply Q2. apply lookup_insert_eq. }
    assert (Hnot : a ∉ osOrder st2).
    { intros Hin. apply Q1 in Hin. congruence. }
    eexists _, false. split; [reflexivity|]. unfold visitPost. simpl.
    split; [|split; [|split; [|split; [|split; [|split; [|split]]]]]].
    + destruct Q1 as [I1 I2]. unfold orderInv. simpl. split.
      * intros x. rewrite elem_of_app, list_elem_of_singleton, <- I1.
        destruct (decide (x = a)) as [->|Hne].
        -- rewrite lookup_insert_eq. tauto.
        -- rewrite lookup_insert_ne by congruence. tauto.
      * apply NoDup_app. split; [exact I2|]. split; [|apply NoDup_singleton].
        intros x Hx Hx'. apply list_elem_of_singleton in Hx'. subst x. contradiction.
    + intros x. destruct (decide (x = a)) as [->|Hne].
      * rewrite lookup_insert_eq, Ea. split; discriminate.
      * rewrite lookup_insert_ne by congruence. rewrite Q2.
        rewrite lookup_insert_ne by congruence. reflexivity.
    + set_solver.
    + exists (new ++ [a]). split; [rewrite Q4, app_assoc; reflexivity|].
      intros Hh. apply topoFrom_app. split; [auto|]. simpl. split; [|exact I].
      intros p Hp. rewrite <- Q4. apply Q8; assumption.
    + exact Q6.
    + exact Q7.
    + discriminate.
    + intros _. apply lookup_insert_eq.
Qed.

Lemma GetCalculationOrder_loop (fuel : nat) (l : list CellAddress) :
  (size (nodes dg) < fuel)%nat ->
  forall st1 : OrderState,
    orderInv st1 ->
    (forall g, osState st1 !! g <> Some false) ->
    exists st2,
      fold_left
        (fun acc addr =>
           match acc with
           | None => None
           | Some st =>
               match osState st !! addr with
               | Some _ => Some st
               | None =>
                   match visit fuel dg addr st with
                   | None => None
                   | Some (st, true) =>
                       Some (mkOrderState (osState st) (osOrder st) true (osEvents st))
                   | Some (st, false) => Some st
                   end
               end
           end) l (Some st1) = Some st2
      /\ orderInv st2
      /\ (forall g, osState st2 !! g <> Some false)
      /\ (exists new, osOrder st2 = osOrder st1 ++ new
                      /\ (osHasCycle st2 = false -> topoFrom dg (osOrder st1) new))
      /\ (osHasCycle st2 = true -> osHasCycle st1 = true \/ cyclic dg)
      /\ (osHasCycle st1 = true -> osHasCycle st2 = true)
      /\ (forall a, a ∈ l -> a ∈ osOrder st2).
Proof.
  intros Hfuel. induction l as [|a l IHl]; intros st1 Hinv Hg; simpl.
  - exists st1. split; [reflexivity|]. split; [exact Hinv|]. split; [exact Hg|]. split.
    + exists []. rewrite app_nil_r. split; [reflexivity|]. intros _. exact I.
    + split; [auto|]. split; [auto|]. intros a Ha. inversion Ha.
  - destruct (osState st1 !! a) as [c|] eqn:Ea.
    + destruct (IHl st1 Hinv Hg) as (st2 & E2 & Q1 & Q2 & (new & Q4 & Q5) & Q6 & Q7 & Q8).
      exists st2. split; [exact E2|]. split; [exact Q1|]. split; [exact Q2|].
      split; [eauto|]. split; [exact Q6|]. split; [exact Q7|].
      intros x Hx. apply elem_of_cons in Hx. destruct Hx as [->|Hx]; [|auto].
      rewrite Q4. apply elem_of_app. left. apply Hinv. destruct c; [exact Ea|].
      exfalso. exact (Hg a Ea).
    + destruct (visit_spec fuel a st1 Hinv) as (st' & r & E & P1 & P2 & P3 & (new1 & P4 & P5) & P6 & P7 & P8 & P9).
      { eapply Nat.le_lt_trans; [|exact Hfuel]. rewrite <- size_dom.
        apply subseteq_size. set_solver. }
      { intros g Hgrey. exfalso. exact (Hg g Hgrey). }
      rewrite E.
      assert (Hr : r = false).
      { unfold visit in E. destruct fuel; [lia|]. fold visit in E. rewrite Ea in E.
        destruct (match nodes dg !! a with Some _ => _ | None => _ end);
          [injection E; auto|discriminate]. }
      subst r.
      destruct (IHl st' P1) as (st2 & E2 & Q1 & Q2 & (new2 & Q4 & Q5) & Q6 & Q7 & Q8).
      { intros g Hgrey. apply P2 in Hgrey. exact (Hg g Hgrey). }
      exists st2. split; [exact E2|]. split; [exact Q1|]. split; [exact Q2|]. split.
      { exists (new1 ++ new2). split; [rewrite Q4, P4, app_assoc; reflexivity|].
        intros Hh. destruct (osHasCycle st') eqn:Eh.
        - rewrite Q7 in Hh by reflexivity. discriminate.
        - apply topoFrom_app. split; [auto|]. rewrite <- P4. auto. }
      split.
      { intros Hh. destruct (Q6 Hh) as [Hh'|Hc]; auto. }
      split; [auto|].
      intros x Hx. apply elem_of_cons in Hx. destruct Hx as [->|Hx]; [|auto].
      rewrite Q4. apply elem_of_app. left. apply P1. apply P9. reflexivity.
Qed.

Lemma GetCalculationOrder_spec (seed : nat) :
  exists order hasCycle,
    GetCalculationOrder dg seed = Some (order, hasCycle)
    /\ NoDup order
    /\ (forall a, is_Some (nodes dg !! a) -> a ∈ order)
    /\ (hasCycle = false -> topoFrom dg [] order)
    /\ (hasCycle = true <-> cyclic dg).
Proof.
  unfold GetCalculationOrder.
  destruct (GetCalculationOrder_loop (S (size (nodes dg)))
              (goMapOrder seed (elements (dom (nodes dg)))) (Nat.lt_succ_diag_r _)
              (mkOrderState ∅ [] false (S seed)))
    as (st2 & E2 & Q1 & Q2 & (new & Q4 & Q5) & Q6 & Q7 & Q8).
  { split; [|constructor]. intros x. simpl. rewrite lookup_empty. split; [discriminate|].
    intros Hx. inversion Hx. }
  { intros g. simpl. rewrite lookup_empty. discriminate. }
  rewrite E2. simpl in Q4, Q5, Q6. exists (osOrder st2), (osHasCycle st2).
  split; [reflexivity|]. split; [apply Q1|].
  assert (Hall : forall a, is_Some (nodes dg !! a) -> a ∈ osOrder st2).
  { intros a Ha. apply Q8. rewrite goMapOrder_perm. apply elem_of_elements, elem_of_dom.
    exact Ha. }
  split; [exact Hall|]. split.
  - intros Hh. rewrite Q4. apply Q5. exact Hh.
  - split.
    + intros Hh. destruct (Q6 Hh) as [Hf|Hc]; [discriminate|exact Hc].
    + intros Hc. destruct (osHasCycle st2) eqn:Eh; [reflexivity|]. exfalso.
      apply (topoFrom_acyclic dg (osOrder st2)); [| |exact Hall|exact Hc].
      * rewrite Q4. apply Q5. reflexivity.
      * apply Q1.
Qed.

End Visit.

Lemma sampleGraph_acyclic : ~ cyclic sampleGraph.
Proof.
  destruct (@GetCalculationOrder_spec sampleOrder sampleGraph 0)
    as (order & h & E & _ & _ & _ & Hc).
  intros Hcyc. apply Hc in Hcyc. subst h. vm_compute in E. discriminate E.
Qed.

(** X12.  [HasCycle] answers true exactly when some cell reaches itself
    along precedent edges, whatever the order in which the maps are
    visited. *)
Theorem HasCycle_detects_cycles `{GoMapOrder} (dg : DependencyGraph) (seed : nat) :
  exists b, HasCycle dg seed = Some b /\ (b = true <-> cyclic dg).
Proof.
  destruct (GetCalculationOrder_spec dg seed) as (order & h & E & _ & _ & _ & Hc).
  exists h. unfold HasCycle. rewrite E. split; [reflexivity|exact Hc].
Qed.

(** X13.  [GetCalculationOrder] lists every node of the graph, no cell
    twice; when the graph has no cycle it reports none, and every cell
    comes after all its precedents. *)
Theorem GetCalculationOrder_topological `{GoMapOrder} (dg : DependencyGraph) (seed : nat) :
  exists order hasCycle,
    GetCalculationOrder dg seed = Some (order, hasCycle)
    /\ NoDup order
    /\ (forall a, is_Some (nodes dg !! a) -> a ∈ order)
    /\ (~ cyclic dg ->
        hasCycle = false
        /\ forall l1 x l2 p, order = l1 ++ x :: l2 -> p ∈ preOf dg x -> p ∈ l1).
Proof.
  destruct (GetCalculationOrder_spec dg seed) as (order & h & E & N & A & T & Hc).
  exists order, h. split; [exact E|]. split; [exact N|]. split; [exact A|].
  intros Hn. assert (h = false) as -> by (destruct h; [exfalso; apply Hn, Hc|]; reflexivity).
  split; [reflexivity|]. intros l1 x l2 p -> Hp.
  apply (topoFrom_before dg [] l1 l2 x p (T eq_refl) Hp).
Qed.

(** X13, witness: the same graph, which has no cycle. *)
Lemma GetCalculationOrder_topological_witness :
  exists order,
    @GetCalculationOrder sampleOrder sampleGraph 0 = Some (order, false)
    /\ forall l1 x l2 p, order = l1 ++ x :: l2 -> p ∈ preOf sampleGraph x -> p ∈ l1.
Proof.
  destruct (@GetCalculationOrder_topological sampleOrder sampleGraph 0)
    as (order & h & E & _ & _ & T).
  destruct (T sampleGraph_acyclic) as [-> Hbefore].
  exists order. split; [exact E|exact Hbefore].
Defined.

(** *** What a calculation keeps *)

Section CalculateKeeps.
Context `{GoLib} `{GoMapOrder}.
Variable P : Spreadsheet -> Prop.
Hypothesis P_ClearDirty :
  forall s x, P s -> P (s_graph s (fun dg => ClearDirty dg x)).
Hypothesis P_MarkDependents :
  forall s x, P s ->
              P (s_graph s (fun dg => fold_left MarkDirty (GetDirectDependents dg x) dg)).
Hypothesis P_store : forall s x v, P s -> P (s_SetFormulaResult s x v).
Hypothesis P_stack : forall s cs, P s -> P (s_setStack s cs).
Hypothesis P_events : forall s n, P s -> P (s_setEvents s n).
Hypothesis P_address : forall s a, P s -> P (s_setCurrentAddress s a).
Hypothesis P_volatile : forall s, P s -> P (s_graph s MarkAllVolatileDirty).
Hypothesis P_clearAll : forall s, P s -> P (s_graph s ClearAllDirty).

Lemma calculatePrecedents_keeps (rec : Spreadsheet -> CellAddress -> CalcResult) :
  keeps P rec ->
  forall l s s' r, calculatePrecedents rec s l = Some (s', r) -> P s -> P s'.
Proof.
  intros Hrec. induction l as [|p l IH]; intros s s' r; simpl.
  - intros [= <- <-]. auto.
  - destruct (rec s p) as [[s1 [err|]]|] eqn:E; [| |discriminate].
    + destruct (decide (errCode err = ErrorCodeRef)).
      * intros [= <- <-] HP. eapply Hrec; eauto.
      * intros E' HP. eapply IH; [exact E'|]. eapply Hrec; eauto.
    + intros E' HP. eapply IH; [exact E'|]. eapply Hrec; eauto.
Qed.

Lemma calculateRangeCells_keeps (rec : Spreadsheet -> CellAddress -> CalcResult) :
  keeps P rec ->
  forall l s s', calculateRangeCells rec s l = Some s' -> P s -> P s'.
Proof.
  intros Hrec. induction l as [|c l IH]; intros s s'; simpl.
  - intros [= <-]. auto.
  - destruct (bool_decide _); [|apply IH].
    destruct (rec s c) as [[s1 r]|] eqn:E; [|discriminate].
    intros E' HP. eapply IH; [exact E'|]. eapply Hrec; eauto.
Qed.

Lemma calculateRanges_keeps (rec : Spreadsheet -> CellAddress -> CalcResult) :
  keeps P rec ->
  forall l s s', calculateRanges rec s l = Some s' -> P s -> P s'.
Proof.
  intros Hrec. induction l as [|c l IH]; intros s s'; simpl.
  - intros [= <-]. auto.
  - destruct (calculateRangeCells rec s (rangeCellsOf c)) as [s1|] eqn:E; [|discriminate].
    intros E' HP. eapply IH; [exact E'|]. eapply calculateRangeCells_keeps; eauto.
Qed.

Lemma evaluateAndStore_keeps (s : Spreadsheet) (ast : ASTNode) (x : CellAddress) :
  P s -> P (evaluateAndStore s ast x).
Proof.
  intros HP. unfold evaluateAndStore.
  destruct (Eval ast (s_setCurrentAddress s x) (events (s_setCurrentAddress s x)))
    as [result calls].
  assert (P (s_setEvents (s_setCurrentAddress s x) calls)) as HP1 by auto.
  destruct result as [[[| | | |]|]|]; auto.
Qed.

Lemma calculateCell_body_keeps (rec : Spreadsheet -> CellAddress -> CalcResult) :
  keeps P rec -> keeps P (calculateCell_body rec).
Proof.
  intros Hrec s x s' r. unfold calculateCell_body.
  destruct (GetWorksheet (worksheets s) (caWorksheetID x)) as [w|]; [|intros [= <- <-]; auto].
  destruct (GetCell w (strings s) (formulas s) (caRow x) (caColumn x)) as [cell|];
    [|intros [= <- <-]; auto].
  destruct (decide (cellFormulaID cell = 0%N)); [intros [= <- <-]; auto|].
  destruct (GetAST (formulas s) (cellFormulaID cell)) as [ast|]; [|intros [= <- <-]; auto].
  destruct (existsb _ _); [intros [= <- <-]; unfold s_tick; auto|].
  destruct (calculatePrecedents rec _ _) as [[s1 [err|]]|] eqn:E1; [| |discriminate].
  - intros [= <- <-] HP. apply P_ClearDirty, P_store.
    eapply calculatePrecedents_keeps; [exact Hrec|exact E1|]. unfold s_tick. auto.
  - destruct (calculateRanges rec _ _) as [s2|] eqn:E2; [|discriminate].
    intros [= <- <-] HP. apply evaluateAndStore_keeps.
    eapply calculateRanges_keeps; [exact Hrec|exact E2|]. unfold s_tick. apply P_events.
    eapply calculatePrecedents_keeps; [exact Hrec|exact E1|]. unfold s_tick. auto.
Qed.

Lemma calculateCell_keeps (fuel : nat) : keeps P (calculateCell fuel).
Proof.
  induction fuel as [|fuel IH]; intros s x s' r; simpl; [discriminate|].
  destruct (cs_isCompleted _ _); [intros [= <- <-]; auto|].
  destruct (cs_isProcessing _ _); [intros [= <- <-]; auto|].
  destruct (calculateCell_body _ _ _) as [[s1 err]|] eqn:E; [|discriminate].
  intros [= <- <-] HP. apply P_stack.
  eapply calculateCell_body_keeps; [exact IH|exact E|]. auto.
Qed.

Lemma calculateDirtyCells_keeps (fuel : nat) :
  forall l s s', calculateDirtyCells fuel s l = Some s' -> P s -> P s'.
Proof.
  induction l as [|c l IH]; intros s s'; simpl.
  - intros [= <-]. auto.
  - destruct (negb _); [apply IH|].
    destruct (cs_isCompleted _ _).
    + intros E HP. eapply IH; [exact E|]. auto.
    + destruct (calculateCell fuel s c) as [[s1 r]|] eqn:E1; [|discriminate].
      intros E HP. eapply IH; [exact E|]. eapply calculateCell_keeps; eauto.
Qed.

Lemma calculateLoop_keeps (fuel : nat) :
  forall passes s s', calculateLoop passes fuel s = Some s' -> P s -> P s'.
Proof.
  induction passes as [|passes IH]; intros s s'; simpl;
    destruct (decide (dirtySet (dependencyGraph s) = ∅)); try (intros [= <-]; auto; fail);
    try discriminate.
  unfold calculatePass.
  destruct (calculateDirtyCells fuel s _) as [s1|] eqn:E1; [|discriminate].
  intros E HP. eapply IH; [exact E|]. eapply calculateDirtyCells_keeps; eauto.
Qed.

Lemma Calculate_keeps (fuel : nat) (s s' : Spreadsheet) :
  Calculate fuel s = Some s' -> P s -> P s'.
Proof.
  unfold Calculate.
  destruct (calculateLoop fuel fuel (Calculate_begin s)) as [s1|] eqn:E; [|discriminate].
  intros [= <-] HP. apply P_clearAll. eapply calculateLoop_keeps; [exact E|].
  unfold Calculate_begin. auto.
Qed.

End CalculateKeeps.

(** *** Storing a result leaves what was typed in *)

Section TypedIn.
Context `{GoLib} `{GoMapOrder}.

Lemma SetFormulaResult_typedIn (w : Worksheet) (st : StringTable) (row col : N) (result : Any)
  (key : ChunkKey) :
  typedIn <$> chunks (SetFormulaResult w st row col result).1 !! key
  = typedIn <$> chunks w !! key.
Proof.
  unfold SetFormulaResult.
  destruct (chunks w !! chunkKeyOf row col) as [chunk|] eqn:Ek; simpl; [|reflexivity].
  destruct (decide (key = chunkKeyOf row col)) as [->|Hk].
  - rewrite Ek.
    destruct result as [[|num|str|b|e]|r]; simpl;
      repeat match goal with
             | |- context [StringTable_Intern ?a ?b] => destruct (StringTable_Intern a b)
             end; simpl; rewrite lookup_insert_eq; reflexivity.
  - destruct result as [[|num|str|b|e]|r]; simpl;
      repeat match goal with
             | |- context [StringTable_Intern ?a ?b] => destruct (StringTable_Intern a b)
             end; simpl; rewrite lookup_insert_ne by congruence; reflexivity.
Qed.

Lemma typedInAt_s_SetFormulaResult (s : Spreadsheet) (x : CellAddress) (v : Any)
  (a : CellAddress) :
  typedInAt (s_SetFormulaResult s x v) a = typedInAt s a.
Proof.
  unfold typedInAt, s_SetFormulaResult, chunkAt, GetWorksheet.
  destruct (definedWorksheets (worksheets s) !! caWorksheetID x) as [w|] eqn:Ew;
    [|reflexivity].
  pose proof (SetFormulaResult_typedIn w (strings s) (caRow x) (caColumn x) v
                (chunkKeyOf (caRow a) (caColumn a))) as Hc.
  destruct (SetFormulaResult w (strings s) (caRow x) (caColumn x) v) as [w' st'] eqn:Es.
  simpl in *.
  destruct (decide (caWorksheetID a = caWorksheetID x)) as [Hws|Hws].
  - rewrite Hws, Ew, lookup_insert_eq. simpl. exact Hc.
  - rewrite lookup_insert_ne by congruence. reflexivity.
Qed.

Lemma s_SetFormulaResult_tables (s : Spreadsheet) (x : CellAddress) (v : Any) :
  namedRanges (s_SetFormulaResult s x v) = namedRanges s
  /\ dom (definedWorksheets (worksheets (s_SetFormulaResult s x v)))
     = dom (definedWorksheets (worksheets s)).
Proof.
  unfold s_SetFormulaResult, GetWorksheet.
  destruct (definedWorksheets (worksheets s) !! caWorksheetID x) as [w|] eqn:Ew; [|auto].
  destruct (SetFormulaResult _ _ _ _ _). simpl. split; [reflexivity|].
  apply set_eq. intros i. rewrite dom_insert, elem_of_union, elem_of_singleton, !elem_of_dom.
  split; [|auto]. intros [->|Hi]; [rewrite Ew; eauto|exact Hi].
Qed.

(** What [Get] returns for a plain number depends on what was typed in
    only. *)
Lemma Get_plainNumber (s s' : Spreadsheet) (c : CellAddress) :
  caWorksheetID c <> 0%N ->
  plainNumberAt s c -> typedInAt s' c = typedInAt s c ->
  plainNumberAt s' c
  /\ Get s' (caWorksheetID c) (caRow c) (caColumn c)
     = Get s (caWorksheetID c) (caRow c) (caColumn c).
Proof.
  intros Hws (ch & Ech & Hf & Ht) Heq. unfold typedInAt in Heq. rewrite Ech in Heq.
  destruct (chunkAt s' c) as [ch'|] eqn:Ech'; [|discriminate]. simpl in Heq.
  injection Heq as H1 H2 H3 H4 H5 H6.
  assert (Hf' : hasFormulaAt ch' (cellIndex c) = false).
  { unfold hasFormulaAt in *. rewrite H6. exact Hf. }
  split.
  { exists ch'. split; [exact Ech'|]. split; [exact Hf'|]. rewrite H1. exact Ht. }
  unfold Get. destruct (decide (caWorksheetID c = 0%N)); [contradiction|].
  unfold chunkAt in Ech, Ech'.
  destruct (GetWorksheet (worksheets s) (caWorksheetID c)) as [w|]; [|discriminate].
  destruct (GetWorksheet (worksheets s') (caWorksheetID c)) as [w'|]; [|discriminate].
  simpl in Ech, Ech'. unfold GetCell. rewrite Ech, Ech'. unfold cellIndex in *.
  rewrite Hf, Hf', H1, H4. simpl.
  destruct Ht as [Ht|[Ht|Ht]]; rewrite Ht; simpl; destruct (Numbers ch); reflexivity.
Qed.

End TypedIn.

Section CalculateTheorems.
Context `{GoLib} `{GoMapOrder}.

Lemma Calculate_keeps_inputs (fuel : nat) (s s' : Spreadsheet) :
  Calculate fuel s = Some s' ->
  formulas s' = formulas s
  /\ namedRanges s' = namedRanges s
  /\ dom (definedWorksheets (worksheets s')) = dom (definedWorksheets (worksheets s))
  /\ sameEdges (dependencyGraph s) (dependencyGraph s')
  /\ volatileCells (dependencyGraph s') = volatileCells (dependencyGraph s)
  /\ forall c, typedInAt s' c = typedInAt s c.
Proof.
  intros E.
  apply (Calculate_keeps
           (fun s1 => formulas s1 = formulas s
                      /\ namedRanges s1 = namedRanges s
                      /\ dom (definedWorksheets (worksheets s1))
                         = dom (definedWorksheets (worksheets s))
                      /\ sameEdges (dependencyGraph s) (dependencyGraph s1)
                      /\ volatileCells (dependencyGraph s1) = volatileCells (dependencyGraph s)
                      /\ forall c, typedInAt s1 c = typedInAt s c)) with (fuel := fuel) (s := s);
    [..|exact E|].
  - intros s1 x (A & B & C & D & V & I). repeat (split; [assumption|]).
    split; [|split; [|exact I]].
    + eapply sameEdges_trans; [exact D|apply sameEdges_ClearDirty].
    + simpl. unfold ClearDirty. rewrite volatileCells_updateNode. exact V.
  - intros s1 x (A & B & C & D & V & I). repeat (split; [assumption|]).
    split; [|split; [|exact I]].
    + eapply sameEdges_trans; [exact D|apply sameEdges_MarkDirty_list].
    + simpl. rewrite volatileCells_MarkDirty_list. exact V.
  - intros s1 x v (A & B & C & D & V & I).
    destruct (s_SetFormulaResult_fields s1 x v) as (F1 & F2 & _).
    destruct (s_SetFormulaResult_tables s1 x v) as (F3 & F4).
    rewrite F1, F2, F3, F4. repeat (split; [assumption|]).
    intros c. rewrite typedInAt_s_SetFormulaResult. apply I.
  - intros s1 cs HP. exact HP.
  - intros s1 n HP. exact HP.
  - intros s1 a HP. exact HP.
  - intros s1 (A & B & C & D & V & I). repeat (split; [assumption|]).
    split; [|split; [|exact I]].
    + eapply sameEdges_trans; [exact D|apply sameEdges_MarkDirty_list].
    + simpl. unfold MarkAllVolatileDirty. rewrite volatileCells_MarkDirty_list. exact V.
  - intros s1 (A & B & C & D & V & I). repeat (split; [assumption|]).
    split; [|split; [|exact I]].
    + eapply sameEdges_trans; [exact D|apply sameEdges_ClearAllDirty].
    + exact V.
  - repeat split; reflexivity.
Qed.

End CalculateTheorems.

Lemma ClearAllDirty_idem (dg : DependencyGraph) :
  ClearAllDirty (ClearAllDirty dg) = ClearAllDirty dg.
Proof.
  unfold ClearAllDirty. simpl. f_equal. apply map_eq. intros a.
  rewrite !lookup_fmap. destruct (nodes dg !! a); reflexivity.
Qed.

Section CalculationFacts.
Context `{GoLib} `{GoMapOrder}.


(** X15.  A cell that holds a number, a date or a boolean and no formula
    reads the same after a calculation as before it. *)
Theorem Calculate_keeps_plain_numbers (fuel : nat) (s s' : Spreadsheet) (c : CellAddress) :
  caWorksheetID c <> 0%N ->
  plainNumberAt s c ->
  Calculate fuel s = Some s' ->
  plainNumberAt s' c
  /\ Get s' (caWorksheetID c) (caRow c) (caColumn c)
     = Get s (caWorksheetID c) (caRow c) (caColumn c).
Proof.
  intros Hws Hp E. apply Get_plainNumber; [exact Hws|exact Hp|].
  apply (Calculate_keeps_inputs fuel s s' E).
Qed.

(** X16.  When no cell is volatile, calculating again changes nothing:
    the second [Calculate] returns at once, for any fuel, with the sheet
    as the first one left it but for the calculation stack, which it
    resets. *)
Theorem Calculate_again_changes_nothing (fuel fuel' : nat) (s s' : Spreadsheet) :
  volatileCells (dependencyGraph s) = ∅ ->
  Calculate fuel s = Some s' ->
  Calculate fuel' s' = Some (s_setStack s' NewCalculationStack).
Proof.
  intros Hv E. pose proof (Calculate_keeps_inputs fuel s s' E) as (_ & _ & _ & _ & V & _).
  rewrite Hv in V. unfold Calculate in E.
  destruct (calculateLoop fuel fuel (Calculate_begin s)) as [s1|]; [|discriminate].
  injection E as <-. simpl in V.
  unfold Calculate, Calculate_begin, s_graph, MarkAllVolatileDirty. simpl.
  rewrite V, elements_empty. simpl.
  rewrite calculateLoop_clean by reflexivity.
  unfold s_setStack, s_setGraph. simpl. rewrite ClearAllDirty_idem. reflexivity.
Qed.

End CalculationFacts.


(** X15, witness: A1 of that sheet still reads 2, and B1 reads 3. *)
Lemma Calculate_keeps_plain_numbers_witness :
  exists s',
    @Calculate sampleLib sampleOrder 3 sheetNumberAndFormula = Some s'
    /\ @Get sampleLib s' 1 0 0 = PNumber 2
    /\ @Get sampleLib s' 1 0 1 = PNumber 3.
Proof.
  eexists. split; [vm_compute; reflexivity|]. split; [|vm_compute; reflexivity].
  change (PNumber 2) with (@Get sampleLib sheetNumberAndFormula 1 0 0).
  refine (proj2 (@Calculate_keeps_plain_numbers sampleLib sampleOrder 3 sheetNumberAndFormula
                   _ A1 _ _ _)).
  - discriminate.
  - eexists. split; [vm_compute; reflexivity|]. split; [vm_compute; reflexivity|].
    left. vm_compute. reflexivity.
  - vm_compute. reflexivity.
Defined.

(** X16, witness: the same sheet, calculated twice. *)
Lemma Calculate_again_changes_nothing_witness :
  exists s',
    @Calculate sampleLib sampleOrder 3 sheetNumberAndFormula = Some s'
    /\ @Calculate sampleLib sampleOrder 0 s' = Some (s_setStack s' NewCalculationStack).
Proof.
  destruct (@Calculate sampleLib sampleOrder 3 sheetNumberAndFormula) as [s'|] eqn:E;
    [|vm_compute in E; discriminate E].
  exists s'. split; [reflexivity|].
  apply (@Calculate_again_changes_nothing sampleLib sampleOrder 3 0 sheetNumberAndFormula s');
    [vm_compute; reflexivity|exact E].
Defined.

(** ** [Set], [Remove] and the dependency graph *)

Lemma ASTNode_nested_ind (P : ASTNode -> Prop) :
  (forall v, P (StringNode v)) ->
  (forall v, P (NumberNode v)) ->
  (forall v, P (BooleanNode v)) ->
  (forall ws ro co, P (CellRefNode ws ro co)) ->
  (forall ws sro sco ero eco, P (RangeNode ws sro sco ero eco)) ->
  (forall name, P (NamedRangeNode name)) ->
  (forall op l r, P l -> P r -> P (BinaryOpNode op l r)) ->
  (forall op operand, P operand -> P (UnaryOpNode op operand)) ->
  (forall name args, Forall P args -> P (FunctionCallNode name args)) ->
  forall node, P node.
Proof.
  intros H1 H2 H3 H4 H5 H6 H7 H8 H9. fix IH 1. intros [v|v|v|ws ro co|ws sro sco ero eco|name|op l r|op operand|name args].
  - apply H1.
  - apply H2.
  - apply H3.
  - apply H4.
  - apply H5.
  - apply H6.
  - apply H7; apply IH.
  - apply H8; apply IH.
  - apply H9. induction args as [|arg args IHargs]; constructor; [apply IH|exact IHargs].
Qed.

Lemma dependenciesAdded_refl (A : CellAddress) (s : Spreadsheet) :
  dependenciesAdded A ∅ ∅ false s s.
Proof.
  unfold dependenciesAdded.
  split; [|split; [|split; [|split; [|split; [|split; [|split; [|repeat split]]]]]]];
    try (intros a; try destruct (decide (a = A)); set_solver).
  - auto.
  - set_solver.
Qed.

Lemma dependenciesAdded_trans (A : CellAddress) (C1 C2 : gset CellAddress)
  (R1 R2 : gset RangeAddress) (v1 v2 : bool) (s1 s2 s3 : Spreadsheet) :
  dependenciesAdded A C1 R1 v1 s1 s2 -> dependenciesAdded A C2 R2 v2 s2 s3 ->
  dependenciesAdded A (C1 ∪ C2) (R1 ∪ R2) (v1 || v2) s1 s3.
Proof.
  intros (A1 & A2 & A3 & A4 & A5 & A6 & A7 & A8 & A9 & A10 & A11)
         (B1 & B2 & B3 & B4 & B5 & B6 & B7 & B8 & B9 & B10 & B11).
  unfold dependenciesAdded.
  split; [|split; [|split; [|split; [|split; [|split; [|split]]]]]].
  - intros a. rewrite B1, A1. destruct (decide (a = A)); set_solver.
  - intros a. rewrite B2, A2.
    destruct (decide (a ∈ C1)), (decide (a ∈ C2)), (decide (a ∈ C1 ∪ C2)); set_solver.
  - intros a. rewrite B3, A3. destruct (decide (a = A)); set_solver.
  - intros r. rewrite B4, A4.
    destruct (decide (r ∈ R1)), (decide (r ∈ R2)), (decide (r ∈ R1 ∪ R2)); set_solver.
  - intros Hne. apply B5, A5, Hne.
  - rewrite B6, A6. reflexivity.
  - rewrite B7, A7. destruct v1, v2; set_solver.
  - repeat split; congruence.
Qed.

Lemma dependenciesAdded_proper (A : CellAddress) (C C' : gset CellAddress)
  (R R' : gset RangeAddress) (v v' : bool) (s s' : Spreadsheet) :
  C = C' -> R = R' -> v = v' ->
  dependenciesAdded A C R v s s' -> dependenciesAdded A C' R' v' s s'.
Proof. intros -> -> ->. auto. Qed.

Lemma dependencyGraph_s_graph (s : Spreadsheet) (f : DependencyGraph -> DependencyGraph) :
  dependencyGraph (s_graph s f) = f (dependencyGraph s).
Proof. reflexivity. Qed.

Ltac split_added :=
  unfold dependenciesAdded;
  split; [|split; [|split; [|split; [|split; [|split; [|split; [|repeat split]]]]]]].

Lemma dependenciesAdded_cell (A t : CellAddress) (s : Spreadsheet) :
  dependenciesAdded A {[t]} ∅ false s (s_graph s (fun dg => AddCellDependency dg A t)).
Proof.
  destruct (AddCellDependency_edges (dependencyGraph s) A t) as (E1 & E2 & E3 & E4 & E5 & E6 & _).
  split_added; rewrite ?dependencyGraph_s_graph; try reflexivity.
  - exact E1.
  - intros a. rewrite E2. destruct (decide (a = t)), (decide (a ∈ {[t]})); set_solver.
  - intros a. rewrite E3. destruct (decide (a = A)); set_solver.
  - intros r. unfold obsOf. rewrite E4. set_solver.
  - rewrite E4. auto.
  - exact E5.
  - rewrite E6. set_solver.
Qed.

Lemma dependenciesAdded_range (A : CellAddress) (r : RangeAddress) (s : Spreadsheet) :
  dependenciesAdded A ∅ {[r]} false s (s_graph s (fun dg => AddRangeDependency dg A r)).
Proof.
  destruct (AddRangeDependency_edges (dependencyGraph s) A r) as (E1 & E2 & E3 & E4 & E5 & E6 & _).
  split_added; rewrite ?dependencyGraph_s_graph; try reflexivity.
  - intros a. rewrite E1. destruct (decide (a = A)); set_solver.
  - intros a. rewrite E2. set_solver.
  - exact E3.
  - intros r'. rewrite E4. destruct (decide (r' = r)), (decide (r' ∈ {[r]})); set_solver.
  - intros Hne. apply (AddRangeDependency_observed (dependencyGraph s) A r Hne).
  - exact E5.
  - rewrite E6. set_solver.
Qed.

Lemma dependenciesAdded_volatile (A : CellAddress) (s : Spreadsheet) :
  dependenciesAdded A ∅ ∅ true s (s_graph s (fun dg => MarkVolatile dg A)).
Proof.
  split_added; simpl; try (intros a; try destruct (decide (a = A)); set_solver).
  - auto.
  - set_solver.
Qed.

Lemma dependenciesAdded_namedRanges (A : CellAddress) (s : Spreadsheet)
  (nr : NamedRangeTable) :
  dependenciesAdded A ∅ ∅ false s (s_setNamedRanges s nr).
Proof. apply (dependenciesAdded_refl A s). Qed.

Lemma dependenciesAdded_wf (A : CellAddress) (C : gset CellAddress) (R : gset RangeAddress)
  (v : bool) (s s' : Spreadsheet) :
  dependenciesAdded A C R v s s' ->
  graph_wf (dependencyGraph s) -> graph_wf (dependencyGraph s').
Proof.
  intros (A1 & A2 & A3 & A4 & A5 & _) [H1 H2 H3]. constructor.
  - intros a p. rewrite A1, A2. specialize (H1 a p).
    destruct (decide (a = A)), (decide (p ∈ C)); set_solver.
  - intros a r. rewrite A3, A4. specialize (H2 a r).
    destruct (decide (a = A)), (decide (r ∈ R)); set_solver.
  - apply A5, H3.
Qed.

Section ExtractDependencies.
Context `{GoLib} `{GoMapOrder}.

Lemma extractDependenciesRecursive_added (A : CellAddress) (node : ASTNode) :
  forall s,
    dependenciesAdded A (cellRefsOf node A) (rangeRefsOf node A) (callsVolatile node)
      s (extractDependenciesRecursive s node A).
Proof.
  induction node as [v|v|v|ws ro co|ws sro sco ero eco|name|op l r IHl IHr|op operand IH
                    |name args IHargs] using ASTNode_nested_ind; intros s.
  - apply dependenciesAdded_refl.
  - apply dependenciesAdded_refl.
  - apply dependenciesAdded_refl.
  - simpl. unfold cellTarget.
    destruct (bool_decide _ && bool_decide _);
      [apply dependenciesAdded_cell|apply dependenciesAdded_refl].
  - simpl. unfold rangeTarget.
    destruct (bool_decide _ && bool_decide _ && bool_decide _ && bool_decide _);
      [apply dependenciesAdded_range|apply dependenciesAdded_refl].
  - simpl. destruct (formulaAtCell (formulas s) !! A);
      [apply dependenciesAdded_namedRanges|apply dependenciesAdded_refl].
  - simpl. eapply dependenciesAdded_trans; [apply IHl|apply IHr].
  - simpl. apply IH.
  - simpl.
    set (s1 := if bool_decide (strings_ToUpper name ∈ ["NOW"; "TODAY"; "RAND"])
               then s_graph s (fun dg => MarkVolatile dg A) else s).
    assert (Hs1 : dependenciesAdded A ∅ ∅
                    (bool_decide (strings_ToUpper name ∈ ["NOW"; "TODAY"; "RAND"])) s s1).
    { unfold s1. destruct (bool_decide _);
        [apply dependenciesAdded_volatile|apply dependenciesAdded_refl]. }
    eapply dependenciesAdded_proper;
      [| | |eapply dependenciesAdded_trans; [exact Hs1|]];
      [apply union_empty_l_L|apply union_empty_l_L|reflexivity|].
    clearbody s1. clear Hs1 s. revert s1.
    induction IHargs as [|arg args Harg _ IHrest]; intros s1.
    + apply dependenciesAdded_refl.
    + simpl. eapply dependenciesAdded_trans; [apply Harg|apply IHrest].
Qed.

(** What [extractDependencies] leaves in the graph: the references of the
    tree in place of the cell's old precedents. *)
Lemma extractDependencies_edges (s : Spreadsheet) (ast : ASTNode) (A : CellAddress) :
  graph_wf (dependencyGraph s) ->
  let dg := dependencyGraph s in
  let dg' := dependencyGraph (extractDependencies s ast A) in
  graph_wf dg'
  /\ (forall a, preOf dg' a = if decide (a = A) then cellRefsOf ast A else preOf dg a)
  /\ (forall a, depOf dg' a
                = depOf dg a ∖ {[A]} ∪ (if decide (a ∈ cellRefsOf ast A) then {[A]} else ∅))
  /\ (forall a, rngOf dg' a = if decide (a = A) then rangeRefsOf ast A else rngOf dg a)
  /\ (forall r, obsOf dg' r
                = obsOf dg r ∖ {[A]} ∪ (if decide (r ∈ rangeRefsOf ast A) then {[A]} else ∅))
  /\ dirtySet dg' ⊆ dirtySet dg
  /\ volatileCells dg'
     = volatileCells dg ∖ {[A]} ∪ (if callsVolatile ast then {[A]} else ∅)
  /\ worksheets (extractDependencies s ast A) = worksheets s
  /\ strings (extractDependencies s ast A) = strings s
  /\ formulas (extractDependencies s ast A) = formulas s.
Proof.
  intros Hwf dg dg'. unfold dg', extractDependencies.
  set (s1 := s_graph s (fun dg => UnmarkVolatile (ClearDependencies dg A) A)).
  destruct (ClearDependencies_edges (dependencyGraph s) A Hwf)
    as (W & P & D & R & O & Dy & V).
  assert (Hwf1 : graph_wf (dependencyGraph s1)).
  { destruct W as [H1 H2 H3]. constructor; assumption. }
  pose proof (extractDependenciesRecursive_added A ast s1)
    as (A1 & A2 & A3 & A4 & A5 & A6 & A7 & A8 & A9 & A10 & _).
  split; [eapply dependenciesAdded_wf;
          [apply (extractDependenciesRecursive_added A ast s1)|exact Hwf1]|].
  fold dg in P, D, R, O, Dy, V.
  split; [|split; [|split; [|split; [|split; [|split; [|repeat split; assumption]]]]]].
  - intros a. rewrite A1. change (preOf (dependencyGraph s1) a)
      with (preOf (ClearDependencies dg A) a). rewrite P.
    destruct (decide (a = A)); set_solver.
  - intros a. rewrite A2. change (depOf (dependencyGraph s1) a)
      with (depOf (ClearDependencies dg A) a). rewrite D. reflexivity.
  - intros a. rewrite A3. change (rngOf (dependencyGraph s1) a)
      with (rngOf (ClearDependencies dg A) a). rewrite R.
    destruct (decide (a = A)); set_solver.
  - intros r. rewrite A4. change (obsOf (dependencyGraph s1) r)
      with (obsOf (ClearDependencies dg A) r). rewrite O. reflexivity.
  - rewrite A6. exact Dy.
  - rewrite A7. change (volatileCells (dependencyGraph s1))
      with (volatileCells (ClearDependencies dg A) ∖ {[A]}). rewrite V. reflexivity.
Qed.

End ExtractDependencies.

Section SetAndGraph.
Context `{GoLib} `{GoMapOrder}.

Lemma dependencyGraph_s_SetCell (s : Spreadsheet) (id row col : N) (value : Primitive)
  (formula : string) :
  dependencyGraph (s_SetCell s id row col value formula) = dependencyGraph s.
Proof.
  unfold s_SetCell. destruct (GetWorksheet (worksheets s) id); [|reflexivity].
  destruct (SetCell _ _ _ _ _ _ _) as [[w1 st1] ft1]. reflexivity.
Qed.

(** The graph that [Set] of a parsed formula leaves. *)
Lemma Set_formula_graph (s s' : Spreadsheet) (worksheetID row col : N) (value : Primitive)
  (formula : string) (ast : ASTNode) :
  isFormulaText value = Some formula ->
  Spreadsheet_Set s worksheetID row col value (Parsed ast) = inl s' ->
  let A := mkCellAddress worksheetID row col in
  dependencyGraph s'
  = MarkDirty
      (SetFormula
         (dependencyGraph
            (extractDependencies
               (s_setFormulas s (InternFormula (formulas s) ast A).1) ast A))
         A formula) A.
Proof.
  intros Hf. unfold Spreadsheet_Set.
  destruct (decide (worksheetID = 0%N)); [discriminate|].
  destruct (GetWorksheet (worksheets s) worksheetID) as [worksheet|]; [|discriminate].
  rewrite Hf. destruct (InternFormula (formulas s) ast _) as [ft formulaID] eqn:Ei.
  intros [= <-]. simpl.
  match goal with
  | |- context [match GetWorksheet ?wt ?i with _ => _ end] =>
      destruct (GetWorksheet wt i) as [w1|]
  end.
  - destruct (getChunk w1 _) as [w2 ch]. simpl. rewrite dependencyGraph_s_SetCell.
    reflexivity.
  - simpl. rewrite dependencyGraph_s_SetCell. reflexivity.
Qed.

(** The graph that [Set] of anything else than a formula text leaves. *)
Lemma Set_literal_graph (s s' : Spreadsheet) (worksheetID row col : N) (value : Primitive)
  (parse : ParseOutcome) :
  isFormulaText value = None ->
  Spreadsheet_Set s worksheetID row col value parse = inl s' ->
  let A := mkCellAddress worksheetID row col in
  let dg1 := MarkCellIfInRangeDirty (ClearDependencies (dependencyGraph s) A) A in
  dependencyGraph s' = fold_left MarkDirty (GetDirectDependents dg1 A) dg1.
Proof.
  intros Hf. unfold Spreadsheet_Set.
  destruct (decide (worksheetID = 0%N)); [discriminate|].
  destruct (GetWorksheet (worksheets s) worksheetID) as [worksheet|]; [|discriminate].
  rewrite Hf. intros [= <-]. simpl. rewrite dependencyGraph_s_SetCell. reflexivity.
Qed.

(** The graph is untouched when the formula text does not lex or parse. *)
Lemma Set_unparsed_graph (s s' : Spreadsheet) (worksheetID row col : N) (value : Primitive)
  (formula : string) (parse : ParseOutcome) :
  isFormulaText value = Some formula ->
  (forall ast, parse <> Parsed ast) ->
  Spreadsheet_Set s worksheetID row col value parse = inl s' ->
  dependencyGraph s' = dependencyGraph s.
Proof.
  intros Hf Hp. unfold Spreadsheet_Set.
  destruct (decide (worksheetID = 0%N)); [discriminate|].
  destruct (GetWorksheet (worksheets s) worksheetID) as [worksheet|]; [|discriminate].
  rewrite Hf. destruct parse as [msg|msg|ast].
  - intros [= <-]. apply dependencyGraph_s_SetCell.
  - destruct (String.prefix _ _); intros [= <-]; apply dependencyGraph_s_SetCell.
  - exfalso. exact (Hp ast eq_refl).
Qed.

Lemma Remove_graph (s : Spreadsheet) (worksheetID row col : N) :
  let A := mkCellAddress worksheetID row col in
  dependencyGraph (Remove s worksheetID row col) = dependencyGraph s
  \/ dependencyGraph (Remove s worksheetID row col)
     = RemoveNode
         (fold_left MarkDirty (GetDirectDependents (dependencyGraph s) A)
            (MarkCellIfInRangeDirty (ClearDependencies (dependencyGraph s) A) A)) A.
Proof.
  unfold Remove. destruct (decide (worksheetID = 0%N)); [left; reflexivity|].
  destruct (GetWorksheet (worksheets s) worksheetID) as [worksheet|]; [|left; reflexivity].
  right. simpl. destruct (RemoveCell _ _ _ _ _) as [[w st] ft]. reflexivity.
Qed.

Lemma sheetBuilt_graph_wf (s : Spreadsheet) : sheetBuilt s -> graph_wf (dependencyGraph s).
Proof.
  induction 1 as [|s name s' _ IH E|s ws row col value parse s' _ IH E|s ws row col _ IH
                 |s fuel s' _ IH E].
  - apply NewDependencyGraph_wf.
  - revert E. unfold AddWorksheet.
    destruct (WorksheetTable_Contains (worksheets s) name); [discriminate|].
    intros [= <-]. exact IH.
  - destruct (isFormulaText value) as [formula|] eqn:Hf.
    + destruct parse as [msg|msg|ast].
      * assert (Hg : dependencyGraph s' = dependencyGraph s)
          by (eapply Set_unparsed_graph; [exact Hf| |exact E]; intros ?; discriminate).
        rewrite Hg. exact IH.
      * assert (Hg : dependencyGraph s' = dependencyGraph s)
          by (eapply Set_unparsed_graph; [exact Hf| |exact E]; intros ?; discriminate).
        rewrite Hg. exact IH.
      * rewrite (Set_formula_graph _ _ _ _ _ _ _ _ Hf E).
        eapply graph_wf_sameEdges; [apply sameEdges_MarkDirty|].
        eapply graph_wf_sameEdges; [apply sameEdges_SetFormula|].
        apply extractDependencies_edges. exact IH.
    + rewrite (Set_literal_graph _ _ _ _ _ _ _ Hf E).
      eapply graph_wf_sameEdges; [apply sameEdges_MarkDirty_list|].
      eapply graph_wf_sameEdges; [apply MarkCellIfInRangeDirty_spec|].
      apply ClearDependencies_edges. exact IH.
  - destruct (Remove_graph s ws row col) as [-> | ->]; [exact IH|].
    apply RemoveNode_edges.
    eapply graph_wf_sameEdges; [apply sameEdges_MarkDirty_list|].
    eapply graph_wf_sameEdges; [apply MarkCellIfInRangeDirty_spec|].
    apply ClearDependencies_edges. exact IH.
  - eapply graph_wf_sameEdges; [|exact IH]. apply (Calculate_keeps_inputs fuel s s' E).
Qed.

End SetAndGraph.

Section SetTheorems.
Context `{GoLib} `{GoMapOrder}.

(** X17.  In every sheet that [AddWorksheet], [Set], [Remove] and
    [Calculate] can build from the new one, the dependency graph records
    every edge at both ends: [p] is a direct precedent of [a] exactly when
    [a] is a direct dependent of [p], a range is a precedent of [a]
    exactly when [a] is among its observers, and no range is kept with an
    empty set of observers. *)
Theorem sheet_edges_mirror (s : Spreadsheet) (seed : nat) :
  sheetBuilt s ->
  let dg := dependencyGraph s in
  (forall a p, p ∈ GetDirectPrecedents dg seed a <-> a ∈ GetDirectDependents dg p)
  /\ (forall a r, r ∈ GetRangePrecedents dg seed a
                  <-> exists obs, rangeObservers dg !! r = Some obs /\ a ∈ obs)
  /\ (forall r obs, rangeObservers dg !! r = Some obs -> obs <> ∅).
Proof.
  intros Hb dg. destruct (sheetBuilt_graph_wf s Hb) as [H1 H2 H3]. fold dg in H1, H2, H3.
  split; [|split].
  - intros a p. rewrite GetDirectPrecedents_preOf, GetDirectDependents_depOf. apply H1.
  - intros a r. rewrite GetRangePrecedents_rngOf, <- obsOf_lookup. apply H2.
  - exact H3.
Qed.

(** X18.  After [Set] has stored a formula in a cell of such a sheet, the
    cell's direct precedents are exactly the cells that the formula's tree
    refers to and its range precedents exactly the ranges, the cell is a
    dependent of exactly those cells (and of no cell that only its former
    formula referred to), the precedents of the other cells are unchanged,
    the cell is dirty, and it is volatile exactly when the tree calls NOW,
    TODAY or RAND. *)
Theorem Set_formula_records_references (s s' : Spreadsheet) (worksheetID row col : N)
  (value : Primitive) (formula : string) (ast : ASTNode) (seed : nat) :
  sheetBuilt s ->
  isFormulaText value = Some formula ->
  Spreadsheet_Set s worksheetID row col value (Parsed ast) = inl s' ->
  let A := mkCellAddress worksheetID row col in
  let dg := dependencyGraph s in
  let dg' := dependencyGraph s' in
  (forall p, p ∈ GetDirectPrecedents dg' seed A <-> p ∈ cellRefsOf ast A)
  /\ (forall r, r ∈ GetRangePrecedents dg' seed A <-> r ∈ rangeRefsOf ast A)
  /\ (forall a p, a <> A ->
        p ∈ GetDirectPrecedents dg' seed a <-> p ∈ GetDirectPrecedents dg seed a)
  /\ (forall a r, a <> A ->
        r ∈ GetRangePrecedents dg' seed a <-> r ∈ GetRangePrecedents dg seed a)
  /\ (forall a d, d ∈ GetDirectDependents dg' a
                  <-> d ∈ GetDirectDependents dg a /\ d <> A
                      \/ d = A /\ a ∈ cellRefsOf ast A)
  /\ A ∈ dirtySet dg'
  /\ (A ∈ volatileCells dg' <-> callsVolatile ast = true).
Proof.
  intros Hb Hf E A dg dg'. pose proof (sheetBuilt_graph_wf s Hb) as Hwf.
  assert (Hg : exists dg2,
             dg' = MarkDirty (SetFormula dg2 A formula) A
             /\ (forall a, preOf dg2 a = if decide (a = A) then cellRefsOf ast A else preOf dg a)
             /\ (forall a, depOf dg2 a
                           = depOf dg a ∖ {[A]}
                             ∪ (if decide (a ∈ cellRefsOf ast A) then {[A]} else ∅))
             /\ (forall a, rngOf dg2 a
                           = if decide (a = A) then rangeRefsOf ast A else rngOf dg a)
             /\ volatileCells dg2
                = volatileCells dg ∖ {[A]} ∪ (if callsVolatile ast then {[A]} else ∅)).
  { eexists. split; [apply (Set_formula_graph s s' worksheetID row col value formula ast Hf E)|].
    destruct (extractDependencies_edges
                (s_setFormulas s (InternFormula (formulas s) ast A).1) ast A Hwf)
      as (_ & P & D & R & _ & _ & V & _).
    repeat split; assumption. }
  destruct Hg as (dg2 & Hg & P & D & R & V).
  destruct (sameEdges_SetFormula dg2 A formula) as (S1 & S2 & S3 & _).
  destruct (sameEdges_MarkDirty (SetFormula dg2 A formula) A) as (M1 & M2 & M3 & _).
  rewrite <- Hg in M1, M2, M3.
  split; [|split; [|split; [|split; [|split; [|split]]]]].
  - intros p. rewrite GetDirectPrecedents_preOf, M1, S1, P.
    destruct (decide (A = A)); [reflexivity|congruence].
  - intros r. rewrite GetRangePrecedents_rngOf, M3, S3, R.
    destruct (decide (A = A)); [reflexivity|congruence].
  - intros a p Hne. rewrite !GetDirectPrecedents_preOf, M1, S1, P.
    destruct (decide (a = A)); [congruence|reflexivity].
  - intros a r Hne. rewrite !GetRangePrecedents_rngOf, M3, S3, R.
    destruct (decide (a = A)); [congruence|reflexivity].
  - intros a d. rewrite !GetDirectDependents_depOf, M2, S2, D.
    destruct (decide (a ∈ cellRefsOf ast A)); set_solver.
  - rewrite Hg, dirtySet_MarkDirty. set_solver.
  - assert (Hv : volatileCells dg' = volatileCells dg2).
    { rewrite Hg. unfold MarkDirty, SetFormula. rewrite volatileCells_updateNode.
      change (volatileCells (dg_setDirtySet ?g ?d)) with (volatileCells g).
      rewrite volatileCells_updateNode. exact (proj2 (GetOrCreateNode_fields dg2 A)). }
    rewrite Hv, V. destruct (callsVolatile ast); split; try set_solver; try discriminate.
Qed.


End SetTheorems.

Lemma sheet1_built : @sheetBuilt sampleLib sampleOrder sheet1.
Proof.
  apply (@sheet_AddWorksheet sampleLib sampleOrder NewSpreadsheet "Sheet1");
    [apply sheet_New|reflexivity].
Qed.

Lemma setOn_built (s : Spreadsheet) (row col : N) (value : Primitive) (parse : ParseOutcome) :
  @sheetBuilt sampleLib sampleOrder s ->
  @sheetBuilt sampleLib sampleOrder (setOn s row col value parse).
Proof.
  intros Hb. unfold setOn.
  destruct (@Spreadsheet_Set sampleLib s 1 row col value parse) as [s'|e] eqn:E;
    [|exact Hb].
  exact (@sheet_Set sampleLib sampleOrder s 1 row col value parse s' Hb E).
Qed.

Lemma sheetNumberAndFormula_built : @sheetBuilt sampleLib sampleOrder sheetNumberAndFormula.
Proof. unfold sheetNumberAndFormula. apply setOn_built, setOn_built, sheet1_built. Qed.

(** X17, witness: the sheet with A1 = 2 and B1 = [=A1+1]. *)
Lemma sheet_edges_mirror_witness :
  (forall a p, p ∈ @GetDirectPrecedents sampleOrder (dependencyGraph sheetNumberAndFormula) 0 a
               <-> a ∈ GetDirectDependents (dependencyGraph sheetNumberAndFormula) p)
  /\ A1 ∈ @GetDirectPrecedents sampleOrder (dependencyGraph sheetNumberAndFormula) 0 B1.
Proof.
  split.
  - apply (@sheet_edges_mirror sampleLib sampleOrder sheetNumberAndFormula 0
             sheetNumberAndFormula_built).
  - vm_compute. set_solver.
Defined.

(** X18, witness: [Set] of B1 = [=A1+1] on the sheet that holds A1 = 2. *)
Lemma Set_formula_records_references_witness :
  (forall p, p ∈ @GetDirectPrecedents sampleOrder (dependencyGraph sheetNumberAndFormula) 0 B1
             <-> p ∈ cellRefsOf (BinaryOpNode BinOpAdd (CellRefNode 1 0 (-1)) (NumberNode 1)) B1)
  /\ cellRefsOf (BinaryOpNode BinOpAdd (CellRefNode 1 0 (-1)) (NumberNode 1)) B1 = {[A1]}.
Proof.
  split.
  - apply (@Set_formula_records_references sampleLib sampleOrder
             (setOn sheet1 0 0 (PNumber 2) (LexErrors "")) sheetNumberAndFormula
             1 0 1 (PString "=A1+1") "=A1+1"
             (BinaryOpNode BinOpAdd (CellRefNode 1 0 (-1)) (NumberNode 1)) 0).
    + apply setOn_built, sheet1_built.
    + reflexivity.
    + vm_compute. reflexivity.
  - vm_compute. reflexivity.
Defined.

